(** * pdf-to-llm-converter: a shallow embedding of the core pipeline

    The development follows the Python sources:
    - [models.py]             the data model (records below),
    - [chunk_manager.py]      [ChunkManager.iter_chunks],
    - [content_merger.py]     [_bbox_area], [_intersection_area],
                              [_overlap_ratio], [ContentMerger.merge],
    - [pdf_processor.py]      [PDFProcessor.process] and the section
                              hierarchy builder,
    - [markdown_converter.py] [MarkdownConverter.to_markdown] and
                              [MarkdownConverter.from_markdown].

    Modelling conventions.
    - Python [str] is a list of 8-bit characters holding ASCII text; the
      Unicode classes used by [str.strip] and by the regular expressions
      ([\s], [\d], [\w]) are taken on the ASCII range.
    - Python [int] is [Z].
    - Python [float] coordinates are exact rationals ([Q]); rounding is
      outside the model.
    - A raised exception is the [Raise] branch of [result].
    - [while] loops are recursive functions on an explicit fuel counter;
      running out of fuel is [OutOfFuel]. *)

From Stdlib Require Import ZArith List Lia Lqa Ascii QArith Qminmax Bool Arith Sorted.
From Stdlib Require String DecimalString DecimalN.
Import ListNotations.
Import String.StringSyntax.
Abbreviation string := String.string.

Set Implicit Arguments.
Local Open Scope string_scope.
Local Open Scope list_scope.
Local Open Scope Z_scope.

(* ================================================================= *)
(** * Python built-ins on strings *)

Module Py.

Definition str := list ascii.

Definition lit (s : string) : str := String.list_ascii_of_string s.

(** [str.isspace] on one ASCII character: TAB, LF, VT, FF, CR, FS, GS, RS,
    US and SPACE. *)
Definition isspace (c : ascii) : bool :=
  let n := nat_of_ascii c in
  ((9 <=? n) && (n <=? 13) || (28 <=? n) && (n <=? 32))%nat.

(** [\d] on the ASCII range. *)
Definition isdigit (c : ascii) : bool :=
  let n := nat_of_ascii c in ((48 <=? n) && (n <=? 57))%nat.

Definition isupper (c : ascii) : bool :=
  let n := nat_of_ascii c in ((65 <=? n) && (n <=? 90))%nat.

Definition islower (c : ascii) : bool :=
  let n := nat_of_ascii c in ((97 <=? n) && (n <=? 122))%nat.

(** [str.isalnum] on one ASCII character. *)
Definition isalnum (c : ascii) : bool := isdigit c || isupper c || islower c.

(** [\w] on the ASCII range. *)
Definition isword (c : ascii) : bool := isalnum c || Ascii.eqb c "_"%char.

Definition lower_char (c : ascii) : ascii :=
  if isupper c then ascii_of_nat (nat_of_ascii c + 32) else c.

Definition lower (s : str) : str := map lower_char s.

Fixpoint dropwhile (p : ascii -> bool) (s : str) : str :=
  match s with
  | [] => []
  | c :: s' => if p c then dropwhile p s' else s
  end.

Fixpoint takewhile (p : ascii -> bool) (s : str) : str :=
  match s with
  | [] => []
  | c :: s' => if p c then c :: takewhile p s' else []
  end.

Definition lstrip (s : str) : str := dropwhile isspace s.
Definition rstrip (s : str) : str := rev (dropwhile isspace (rev s)).
(** [s.strip()] *)
Definition strip (s : str) : str := rstrip (lstrip s).

(** [s.strip(c)] for a one-character argument. *)
Definition strip_char (c : ascii) (s : str) : str :=
  rev (dropwhile (Ascii.eqb c) (rev (dropwhile (Ascii.eqb c) s))).

(** Remove a literal prefix; [None] when [s] does not start with [p]. *)
Fixpoint strip_prefix (p s : str) : option str :=
  match p, s with
  | [], _ => Some s
  | _ :: _, [] => None
  | a :: p', b :: s' => if Ascii.eqb a b then strip_prefix p' s' else None
  end.

(** [s.startswith(p)] *)
Definition startswith (p s : str) : bool :=
  match strip_prefix p s with Some _ => true | None => false end.

(** [s.endswith(p)] *)
Definition endswith (p s : str) : bool := startswith (rev p) (rev s).

(** [s.split(c)] for a one-character separator: never returns [[]]. *)
Fixpoint split (c : ascii) (s : str) : list str :=
  match s with
  | [] => [[]]
  | x :: s' =>
      if Ascii.eqb x c then [] :: split c s'
      else match split c s' with
           | h :: t => (x :: h) :: t
           | [] => [[x]]
           end
  end.

(** [sep.join(parts)] *)
Fixpoint join (sep : str) (parts : list str) : str :=
  match parts with
  | [] => []
  | [p] => p
  | p :: rest => p ++ sep ++ join sep rest
  end.

(** [s * n] *)
Fixpoint repeat_str (s : str) (n : nat) : str :=
  match n with
  | O => []
  | S n' => s ++ repeat_str s n'
  end.

(** The one-character string of a line feed. *)
Definition NL : str := ["010"%char].

(** Truthiness of a string: [bool(s)]. *)
Definition nonempty (s : str) : bool :=
  match s with [] => false | _ => true end.

Fixpoint str_eqb (a b : str) : bool :=
  match a, b with
  | [], [] => true
  | x :: a', y :: b' => Ascii.eqb x y && str_eqb a' b'
  | _, _ => false
  end.

(** [str(n)] for an integer. *)
Definition str_of_N (n : N) : str :=
  String.list_ascii_of_string
    (DecimalString.NilZero.string_of_uint (N.to_uint n)).

Definition str_of_Z (z : Z) : str :=
  if z <? 0 then "-"%char :: str_of_N (Z.to_N (- z)) else str_of_N (Z.to_N z).

(** [int(s)] on a string of decimal digits; [None] is [ValueError]. *)
Definition int_of_str (s : str) : option Z :=
  match DecimalString.NilZero.uint_of_string (String.string_of_list_ascii s) with
  | Some d => Some (Z.of_N (N.of_uint d))
  | None => None
  end.

(** The two-argument built-ins [max(a, b)] and [min(a, b)] on numbers:
    the first argument is kept unless the second is strictly larger
    (smaller). *)
Definition Qltb (a b : Q) : bool := negb (Qle_bool b a).
Definition max (a b : Q) : Q := if Qltb a b then b else a.
Definition min (a b : Q) : Q := if Qltb b a then b else a.

End Py.

Import Py.

(* ================================================================= *)
(** * Exceptions *)

Inductive exn : Type :=
| ValueError (msg : str)
| FileNotFoundError (msg : str)
| RuntimeError (msg : str)
| Exception (msg : str).

(** [str(exc)] *)
Definition exn_message (e : exn) : str :=
  match e with
  | ValueError m | FileNotFoundError m | RuntimeError m | Exception m => m
  end.

(** The outcome of running a function: a value, a raised exception, or a
    loop that was cut off by its fuel bound. *)
Inductive result (A : Type) : Type :=
| Ok (a : A)
| Raise (e : exn)
| OutOfFuel.
Arguments Ok {A} a.
Arguments Raise {A} e.
Arguments OutOfFuel {A}.

Definition bind {A B : Type} (r : result A) (k : A -> result B) : result B :=
  match r with
  | Ok a => k a
  | Raise e => Raise e
  | OutOfFuel => OutOfFuel
  end.

Notation "x <- r ;; k" := (bind r (fun x => k))
  (at level 61, r at next level, right associativity).

(** A call of a collaborator outside the model: it returns or raises. *)
Inductive attempt (A : Type) : Type :=
| Returned (a : A)
| Raised (e : exn).
Arguments Returned {A} a.
Arguments Raised {A} e.

(** [for x in xs: acc = body(acc, x)] where the body may raise. *)
Fixpoint for_each {A S : Type} (body : S -> A -> result S) (xs : list A) (s : S)
  : result S :=
  match xs with
  | [] => Ok s
  | x :: xs' => s' <- body s x ;; for_each body xs' s'
  end.

(** [range(start, stop)] *)
Definition py_range (start stop : Z) : list Z :=
  map (fun i => start + Z.of_nat i) (seq 0 (Z.to_nat (stop - start))).

(* ================================================================= *)
(** * models.py *)

Inductive PageClassification : Type := NATIVE_TEXT | SCANNED | MIXED.

(** [TextBlock.block_type] is a string in the source; the four documented
    tags are constructors and any other string is [other_type]. *)
Inductive BlockType : Type :=
| paragraph | heading | list_item | table_cell | other_type (tag : str).

Definition BBox : Type := (Q * Q * Q * Q)%type.
Definition bbox0 (b : BBox) : Q := let '(x0, _, _, _) := b in x0.
Definition bbox1 (b : BBox) : Q := let '(_, y0, _, _) := b in y0.
Definition bbox2 (b : BBox) : Q := let '(_, _, x1, _) := b in x1.
Definition bbox3 (b : BBox) : Q := let '(_, _, _, y1) := b in y1.

Record TextBlock : Type := mkTextBlock {
  text : str;
  bbox : BBox;
  block_type : BlockType
}.

Record Table : Type := mkTable { rows : list (list str) }.

Record ExtractedContent : Type := mkExtractedContent {
  body_text : str;
  headers : list str;
  footers : list str;
  tables : list Table;
  reading_order_blocks : list TextBlock
}.

Record PageContent : Type := mkPageContent {
  page_number : Z;
  classification : PageClassification;
  content : ExtractedContent;
  ocr_confidence : option Q
}.

(** A [DocumentSection] value as it is seen once construction is over: a
    tree.  While the hierarchy is being built the sections are shared,
    mutable objects; see [Heap] below. *)
#[warnings="-register-all"]
Inductive DocumentSection : Type :=
  mkDocumentSection {
    title : str;
    level : Z;
    section_content : str;
    page_start : Z;
    page_end : Z;
    subsections : list DocumentSection
  }.

Record Document : Type := mkDocument {
  sections : list DocumentSection;
  pages : list PageContent
}.

Record ProcessingConfig : Type := mkProcessingConfig {
  chunk_size : Z;
  ocr_threshold : Q;
  verbose : bool
}.

Record ProcessingSummary : Type := mkProcessingSummary {
  total_pages : Z;
  pages_processed : Z;
  pages_skipped : Z;
  warnings : list str;
  processing_time_seconds : Q
}.

Record OCRResult : Type := mkOCRResult {
  ocr_text : str;
  confidence : Q;
  blocks : list TextBlock
}.

Record PageRange : Type := mkPageRange {
  range_start : Z;
  range_end : Z
}.

(* ================================================================= *)
(** * chunk_manager.py *)

Module ChunkManager.

(** [for start in range(0, total_pages, chunk_size)] with the loop body
    of [iter_chunks]; [fuel] bounds the number of iterations. *)
Fixpoint range_loop (fuel : nat) (start total_pages chunk_size : Z)
  : list PageRange :=
  match fuel with
  | O => []
  | S fuel' =>
      if start <? total_pages then
        mkPageRange start (Z.min (start + chunk_size) total_pages)
          :: range_loop fuel' (start + chunk_size) total_pages chunk_size
      else []
  end.

(** [ChunkManager.iter_chunks]; the PDF file is represented by the page
    count that [get_page_count] reads from it.  The generator is run to
    completion: the result is the list of the ranges it yields. *)
Definition iter_chunks (total_pages chunk_size : Z) : result (list PageRange) :=
  if chunk_size <=? 0 then
    Raise (ValueError (lit "chunk_size must be positive, got "
                         ++ str_of_Z chunk_size))
  else
    Ok (range_loop (Z.to_nat total_pages) 0 total_pages chunk_size).

End ChunkManager.

(* ================================================================= *)
(** * content_merger.py *)

Module ContentMerger.

Definition _bbox_area (b : BBox) : Q :=
  let width := Py.max 0 (bbox2 b - bbox0 b) in
  let height := Py.max 0 (bbox3 b - bbox1 b) in
  (width * height)%Q.

Definition _intersection_area (a b : BBox) : Q :=
  let x0 := Py.max (bbox0 a) (bbox0 b) in
  let y0 := Py.max (bbox1 a) (bbox1 b) in
  let x1 := Py.min (bbox2 a) (bbox2 b) in
  let y1 := Py.min (bbox3 a) (bbox3 b) in
  let width := Py.max 0 (x1 - x0) in
  let height := Py.max 0 (y1 - y0) in
  (width * height)%Q.

Definition _overlap_ratio (a b : BBox) : Q :=
  let area_a := _bbox_area a in
  let area_b := _bbox_area b in
  if Qeq_bool area_a 0 || Qeq_bool area_b 0 then 0%Q
  else
    let intersection := _intersection_area a b in
    (intersection / Py.min area_a area_b)%Q.

(** The inner loop of [merge]: [is_duplicate] is set, and the loop left, at
    the first native block whose overlap ratio exceeds 0.5. *)
Fixpoint is_duplicate (native_blocks : list TextBlock) (ocr_block : TextBlock)
  : bool :=
  match native_blocks with
  | [] => false
  | native_block :: rest =>
      if Qltb (1 # 2) (_overlap_ratio (bbox native_block) (bbox ocr_block))
      then true
      else is_duplicate rest ocr_block
  end.

(** The outer loop of [merge]: the list [new_ocr_blocks]. *)
Fixpoint new_ocr_blocks (native_blocks ocr_blocks : list TextBlock)
  : list TextBlock :=
  match ocr_blocks with
  | [] => []
  | ocr_block :: rest =>
      if is_duplicate native_blocks ocr_block
      then new_ocr_blocks native_blocks rest
      else ocr_block :: new_ocr_blocks native_blocks rest
  end.

Definition merge (native : ExtractedContent) (ocr : OCRResult)
  : ExtractedContent :=
  let native_blocks := reading_order_blocks native in
  let new_blocks := new_ocr_blocks native_blocks (blocks ocr) in
  let merged_blocks := native_blocks ++ new_blocks in
  let ocr_extra_text :=
    join NL
      (map text (filter (fun block => nonempty (strip (text block))) new_blocks)) in
  let merged_body :=
    if nonempty (body_text native) && nonempty ocr_extra_text
    then body_text native ++ NL ++ ocr_extra_text
    else if nonempty ocr_extra_text then ocr_extra_text
    else body_text native in
  mkExtractedContent merged_body (headers native) (footers native)
    (tables native) merged_blocks.

End ContentMerger.

(* ================================================================= *)
(** * Section objects on the heap

    [_build_section_hierarchy] mutates the [DocumentSection] objects it is
    given, through the references held by its stack and by the
    [subsections] lists of other sections.  The objects live in a heap, a
    reference is an index into it, and [subsections] holds references. *)

Module Heap.

Definition ref := nat.

Record obj : Type := mkObj {
  o_title : str;
  o_level : Z;
  o_content : str;
  o_page_start : Z;
  o_page_end : Z;
  o_subsections : list ref
}.

Definition heap := list obj.

Definition null_obj : obj := mkObj [] 0 [] 0 0 [].

Definition deref (h : heap) (r : ref) : obj := nth r h null_obj.

Fixpoint update (r : ref) (f : obj -> obj) (h : heap) : heap :=
  match h, r with
  | [], _ => []
  | o :: h', O => f o :: h'
  | o :: h', S r' => o :: update r' f h'
  end.

(** [parent.subsections.append(section)] *)
Definition append_subsection (section : ref) (o : obj) : obj :=
  mkObj (o_title o) (o_level o) (o_content o) (o_page_start o) (o_page_end o)
        (o_subsections o ++ [section]).

(** [parent.page_end = v] *)
Definition set_page_end (v : Z) (o : obj) : obj :=
  mkObj (o_title o) (o_level o) (o_content o) (o_page_start o) v
        (o_subsections o).

(** The tree below a reference, as a reader of the finished document sees
    it.  [fuel] bounds the depth. *)
Fixpoint read_section (fuel : nat) (h : heap) (r : ref) : result DocumentSection :=
  match fuel with
  | O => OutOfFuel
  | S fuel' =>
      let o := deref h r in
      subs <- for_each (fun acc c => t <- read_section fuel' h c ;; Ok (acc ++ [t]))
                       (o_subsections o) [] ;;
      Ok (mkDocumentSection (o_title o) (o_level o) (o_content o)
            (o_page_start o) (o_page_end o) subs)
  end.

Definition read_forest (h : heap) (roots : list ref) : result (list DocumentSection) :=
  for_each (fun acc r => t <- read_section (S (length h)) h r ;; Ok (acc ++ [t]))
           roots [].

End Heap.

Import Heap.

(* ================================================================= *)
(** * pdf_processor.py *)

Module PDFProcessor.

(** [while stack and stack[-1].level >= section.level: stack.pop()];
    the top of the Python stack is the head of the list. *)
Fixpoint pop_stack (h : heap) (stack : list ref) (section_level : Z) : list ref :=
  match stack with
  | [] => []
  | top :: rest =>
      if o_level (deref h top) >=? section_level
      then pop_stack h rest section_level
      else stack
  end.

(** One iteration of [for section in flat_sections] on the state
    [(heap, root, stack)]. *)
Definition hierarchy_step (st : heap * list ref * list ref) (section : ref)
  : heap * list ref * list ref :=
  let '(h, root, stack) := st in
  let stack := pop_stack h stack (o_level (deref h section)) in
  match stack with
  | parent :: _ =>
      let h := update parent (append_subsection section) h in
      let h :=
        if o_page_end (deref h section) >? o_page_end (deref h parent)
        then update parent (set_page_end (o_page_end (deref h section))) h
        else h in
      (h, root, section :: stack)
  | [] => (h, root ++ [section], section :: stack)
  end.

(** [PDFProcessor._build_section_hierarchy]: the heap after the call and
    the returned list [root]. *)
Definition _build_section_hierarchy (h : heap) (flat_sections : list ref)
  : heap * list ref :=
  match flat_sections with
  | [] => (h, [])
  | _ =>
      let '(h', root, _) := fold_left hierarchy_step flat_sections (h, [], []) in
      (h', root)
  end.

(** The number of leading [#] of a string. *)
Fixpoint count_hashes (s : str) : Z :=
  match s with
  | c :: s' => if Ascii.eqb c "#"%char then 1 + count_hashes s' else 0
  | [] => 0
  end.

Definition _estimate_heading_level (block : TextBlock) : Z :=
  let t := strip (text block) in
  if startswith (lit "#") t then
    let hashes := count_hashes t in
    if (1 <=? hashes) && (hashes <=? 6) then hashes else 1
  else 1.

Definition is_heading (b : TextBlock) : bool :=
  match block_type b with heading => true | _ => false end.

(** The new section objects made by the two nested loops of
    [_detect_sections], in order. *)
Definition detect_flat_sections (pages : list PageContent) : list obj :=
  flat_map
    (fun page =>
       flat_map
         (fun block =>
            if negb (is_heading block) then []
            else
              let title := strip (text block) in
              if negb (nonempty title) then []
              else [mkObj title (_estimate_heading_level block) []
                          (page_number page) (page_number page) []])
         (reading_order_blocks (content page)))
    pages.

(** [_detect_sections]: the new objects are the whole heap, the flat list
    refers to them in order, and the result is read back as a forest. *)
Definition _detect_sections (pages : list PageContent)
  : result (list DocumentSection) :=
  let h := detect_flat_sections pages in
  let '(h', root) := _build_section_hierarchy h (seq 0 (length h)) in
  read_forest h' root.

Section Pipeline.

(** The collaborators outside the core; each call returns or raises. *)
Variable Page Image : Type.
(** The path, [os.path.exists(pdf_path)], and [len(fitz.open(pdf_path))];
    the file does not change during the run, so every later
    [fitz.open] succeeds with the same page count. *)
Variable pdf_path : str.
Variable path_exists : bool.
Variable fitz_open : attempt Z.
(** [doc[page_num]] *)
Variable load_page : Z -> attempt Page.
Variable classify : Page -> attempt PageClassification.
Variable extract : Page -> attempt ExtractedContent.
Variable _render_page_to_image : Page -> attempt Image.
Variable ocr_page : Image -> attempt OCRResult.
(** The format [{x:.2f}] of an f-string. *)
Variable format_2f : Q -> str.
(** The two readings of [time.monotonic()], in seconds. *)
Variable start_time end_time : Q.

Definition extract_page_content (page : Page) (c : PageClassification)
  : attempt ExtractedContent :=
  match c with
  | NATIVE_TEXT => extract page
  | SCANNED =>
      match _render_page_to_image page with
      | Raised e => Raised e
      | Returned image =>
      match ocr_page image with
      | Raised e => Raised e
      | Returned ocr_result =>
          Returned (mkExtractedContent (ocr_text ocr_result) [] [] []
                                       (blocks ocr_result))
      end end
  | MIXED =>
      match extract page with
      | Raised e => Raised e
      | Returned native_content =>
      match _render_page_to_image page with
      | Raised e => Raised e
      | Returned image =>
      match ocr_page image with
      | Raised e => Raised e
      | Returned ocr_result =>
          Returned (ContentMerger.merge native_content ocr_result)
      end end end
  end.

(** The mutable locals of [process]. *)
Record run_state : Type := mkRunState {
  st_warnings : list str;
  st_pages : list PageContent;
  st_pages_skipped : Z
}.

Definition add_warning (w : str) (s : run_state) : run_state :=
  mkRunState (st_warnings s ++ [w]) (st_pages s) (st_pages_skipped s).
Definition add_page (p : PageContent) (s : run_state) : run_state :=
  mkRunState (st_warnings s) (st_pages s ++ [p]) (st_pages_skipped s).
Definition skip_page (s : run_state) : run_state :=
  mkRunState (st_warnings s) (st_pages s) (st_pages_skipped s + 1).

Definition low_confidence_warning (page_num : Z) (ocr_confidence : Q) : str :=
  lit "Low OCR confidence on page " ++ str_of_Z (page_num + 1) ++ lit ": "
    ++ format_2f ocr_confidence.

Definition unreadable_warning (page_num : Z) (exc : exn) : str :=
  lit "Corrupted/unreadable page " ++ str_of_Z (page_num + 1) ++ lit ": "
    ++ exn_message exc.

(** The body of the [try] for one page: the state it leaves behind, and
    the exception when one is raised. *)
Definition try_page (config : ProcessingConfig) (page_num : Z) (s : run_state)
  : run_state * option exn :=
  match load_page page_num with
  | Raised e => (s, Some e)
  | Returned page =>
  match classify page with
  | Raised e => (s, Some e)
  | Returned classification =>
  match extract_page_content page classification with
  | Raised e => (s, Some e)
  | Returned content =>
      match classification with
      | NATIVE_TEXT =>
          (add_page (mkPageContent (page_num + 1) classification content None) s,
           None)
      | SCANNED | MIXED =>
          match _render_page_to_image page with
          | Raised e => (s, Some e)
          | Returned image =>
          match ocr_page image with
          | Raised e => (s, Some e)
          | Returned ocr_result =>
              let ocr_confidence := confidence ocr_result in
              let s :=
                if Qltb ocr_confidence (ocr_threshold config)
                then add_warning (low_confidence_warning page_num ocr_confidence) s
                else s in
              (add_page (mkPageContent (page_num + 1) classification content
                                       (Some ocr_confidence)) s,
               None)
          end end
      end
  end end end.

(** [try: ... except Exception as exc: ...] for one page. *)
Definition page_step (config : ProcessingConfig) (s : run_state) (page_num : Z)
  : run_state :=
  match try_page config page_num s with
  | (s', None) => s'
  | (s', Some exc) => skip_page (add_warning (unreadable_warning page_num exc) s')
  end.

Definition chunk_step (config : ProcessingConfig) (s : run_state) (r : PageRange)
  : run_state :=
  fold_left (page_step config) (py_range (range_start r) (range_end r)) s.

Definition process (config : ProcessingConfig)
  : result (Document * ProcessingSummary) :=
  if negb path_exists then
    Raise (FileNotFoundError (lit "File not found: " ++ pdf_path))
  else
    match fitz_open with
    | Raised _ => Raise (RuntimeError (lit "Not a valid PDF: " ++ pdf_path))
    | Returned total_pages =>
        chunks <- ChunkManager.iter_chunks total_pages (chunk_size config) ;;
        let s := fold_left (chunk_step config) chunks (mkRunState [] [] 0) in
        sections <- _detect_sections (st_pages s) ;;
        let document := mkDocument sections (st_pages s) in
        let elapsed := (end_time - start_time)%Q in
        Ok (document,
            mkProcessingSummary total_pages (Z.of_nat (length (st_pages s)))
              (st_pages_skipped s) (st_warnings s) elapsed)
    end.

End Pipeline.

End PDFProcessor.

(* ================================================================= *)
(** * markdown_converter.py *)

Module MarkdownConverter.

Definition NLNL : str := NL ++ NL.

(** ** Rendering *)

(** [re.sub] of the pattern [p+] by one hyphen, for a character class [p]:
    every maximal run of
    characters of the class becomes one hyphen. *)
Fixpoint collapse_runs (p : ascii -> bool) (in_run : bool) (s : str) : str :=
  match s with
  | [] => []
  | c :: s' =>
      if p c then
        if in_run then collapse_runs p true s'
        else "-"%char :: collapse_runs p true s'
      else c :: collapse_runs p false s'
  end.

Definition is_hyphen (c : ascii) : bool := Ascii.eqb c "-"%char.

Definition _slugify (t : str) : str :=
  let slug := strip (lower t) in
  (* re.sub deletes what is outside the class [\w\s-] *)
  let slug := filter (fun c => isword c || isspace c || is_hyphen c) slug in
  (* re.sub replaces each run of the class [\s_] by a hyphen *)
  let slug := collapse_runs (fun c => isspace c || Ascii.eqb c "_"%char) false slug in
  (* re.sub replaces each run of hyphens by one hyphen *)
  let slug := collapse_runs is_hyphen false slug in
  strip_char "-"%char slug.

Fixpoint toc_entries (depth : nat) (s : DocumentSection)
  : list (nat * str * Z * Z) :=
  (depth, title s, page_start s, page_end s)
    :: flat_map (toc_entries (S depth)) (subsections s).

Definition _collect_toc_entries (sections : list DocumentSection) (depth : nat)
  : list (nat * str * Z * Z) :=
  flat_map (toc_entries depth) sections.

Definition toc_line (entry : nat * str * Z * Z) : str :=
  let '(indent, title, page_start, page_end) := entry in
  let anchor := _slugify title in
  let prefix := repeat_str (lit "  ") indent in
  prefix ++ lit "- [" ++ title ++ lit "](#" ++ anchor ++ lit ") (p. "
    ++ str_of_Z page_start ++ lit "-" ++ str_of_Z page_end ++ lit ")".

Definition _generate_toc (sections : list DocumentSection) : str :=
  let entries := _collect_toc_entries sections 0 in
  match entries with
  | [] => []
  | _ => join NL ([lit "<!-- toc -->"] ++ map toc_line entries
                    ++ [lit "<!-- /toc -->"])
  end.

Fixpoint find_in_section (page_number : Z) (s : DocumentSection)
  : list DocumentSection :=
  (if page_start s =? page_number then [s] else [])
    ++ flat_map (find_in_section page_number) (subsections s).

Definition _find_sections_on_page (sections : list DocumentSection)
  (page_number : Z) : list DocumentSection :=
  flat_map (find_in_section page_number) sections.

(** [min(xs)] of a non-empty sequence whose first element is [x]. *)
Definition min_of (x : Q) (xs : list Q) : Q :=
  fold_left (fun m y => if Qltb y m then y else m) xs x.

(** [int(q)]: truncation towards zero. *)
Definition int_of_Q (q : Q) : Z := Z.quot (Qnum q) (Z.pos (Qden q)).

Definition list_item_line (base_x : Q) (item : TextBlock) : str :=
  let indent_offset := (bbox0 (bbox item) - base_x)%Q in
  let nesting_level :=
    if Qltb 15 indent_offset then int_of_Q (indent_offset / 30) else 0 in
  let prefix := repeat_str (lit "  ") (Z.to_nat nesting_level) ++ lit "- " in
  prefix ++ text item.

Definition _render_list_items (items : list TextBlock) : str :=
  match items with
  | [] => []
  | first :: others =>
      let base_x := min_of (bbox0 (bbox first))
                           (map (fun item => bbox0 (bbox item)) others) in
      join NL (map (list_item_line base_x) items)
  end.

Definition is_list_item (b : TextBlock) : bool :=
  match block_type b with list_item => true | _ => false end.

Definition flush (parts : list str) (list_items : list TextBlock) : list str :=
  match list_items with
  | [] => parts
  | _ => parts ++ [_render_list_items list_items]
  end.

(** The loop of [_render_blocks] on [(parts, list_items)]; every block
    that is not a list item is rendered as its text. *)
Fixpoint render_blocks_loop (blocks : list TextBlock) (parts : list str)
  (list_items : list TextBlock) : list str :=
  match blocks with
  | [] => flush parts list_items
  | block :: rest =>
      if is_list_item block
      then render_blocks_loop rest parts (list_items ++ [block])
      else render_blocks_loop rest (flush parts list_items ++ [text block]) []
  end.

Definition _render_blocks (blocks : list TextBlock) : str :=
  join NLNL (filter nonempty (render_blocks_loop blocks [] [])).

Definition table_line (cells : list str) : str :=
  lit "| " ++ join (lit " | ") cells ++ lit " |".

Definition _render_table (table : Table) : str :=
  match rows table with
  | [] => []
  | header :: data =>
      let col_count := length header in
      let header_line := table_line header in
      let separator := table_line (repeat (lit "---") col_count) in
      join NL
        ([header_line; separator]
           ++ map (fun row =>
                     let padded := row ++ repeat [] (col_count - length row) in
                     table_line (firstn col_count padded))
                  data)
  end.

Definition _render_content (c : ExtractedContent) : str :=
  let parts :=
    match reading_order_blocks c with
    | _ :: _ => [_render_blocks (reading_order_blocks c)]
    | [] => if nonempty (body_text c) then [body_text c] else []
    end in
  let parts := parts ++ map _render_table (tables c) in
  join NLNL (filter nonempty parts).

Definition section_parts (section : DocumentSection) : list str :=
  [lit "<!-- section: " ++ title section ++ lit " -->";
   repeat_str (lit "#") (Z.to_nat (level section)) ++ lit " " ++ title section]
    ++ (if nonempty (section_content section) then [section_content section]
        else []).

Definition page_parts (sections : list DocumentSection) (page : PageContent)
  : list str :=
  [lit "<!-- page: " ++ str_of_Z (page_number page) ++ lit " -->"]
    ++ flat_map section_parts (_find_sections_on_page sections (page_number page))
    ++ (let rendered_blocks := _render_content (content page) in
        if nonempty rendered_blocks then [rendered_blocks] else []).

Definition to_markdown (document : Document) : str :=
  let toc := _generate_toc (sections document) in
  let parts :=
    (if nonempty toc then [toc] else [])
      ++ flat_map (page_parts (sections document)) (pages document) in
  match parts with
  | [] => []
  | _ => join NLNL parts ++ NL
  end.

(** ** Parsing *)

(** The first occurrence of a literal: the text that follows it. *)
Fixpoint after_first (needle s : str) : option str :=
  match strip_prefix needle s with
  | Some r => Some r
  | None => match s with
            | [] => None
            | _ :: s' => after_first needle s'
            end
  end.

(** [re.sub] deleting the pattern [<!-- toc -->.*?<!-- /toc -->\s*] under
    [re.DOTALL]:
    at each position from the left, an opening sentinel that is followed
    somewhere by a closing sentinel is removed up to the first such
    closing sentinel and the white space after it. *)
Fixpoint _strip_toc (fuel : nat) (t : str) : result str :=
  match fuel with
  | O => OutOfFuel
  | S fuel' =>
      match t with
      | [] => Ok []
      | c :: t' =>
          match strip_prefix (lit "<!-- toc -->") t with
          | Some r =>
              match after_first (lit "<!-- /toc -->") r with
              | Some r' => _strip_toc fuel' (lstrip r')
              | None => rest <- _strip_toc fuel' t' ;; Ok (c :: rest)
              end
          | None => rest <- _strip_toc fuel' t' ;; Ok (c :: rest)
          end
      end
  end.

(** [re.match] of [^\s*<!-- section: .+? -->\s*$] on a line without
    line feed. *)
Definition is_section_marker_line (line : str) : bool :=
  match strip_prefix (lit "<!-- section: ") (lstrip line) with
  | Some r => endswith (lit " -->") (rstrip r) && (5 <=? length (rstrip r))%nat
  | None => false
  end.

Definition _strip_section_markers (t : str) : str :=
  join NL (filter (fun line => negb (is_section_marker_line line)) (split "010" t)).

(** A match of [<!-- page: (\d+) -->] at the head of [t]: the digits and
    the text after the match. *)
Definition match_page_marker (t : str) : option (str * str) :=
  match strip_prefix (lit "<!-- page: ") t with
  | Some r =>
      match takewhile isdigit r with
      | [] => None
      | digits =>
          match strip_prefix (lit " -->") (dropwhile isdigit r) with
          | Some r' => Some (digits, r')
          | None => None
          end
      end
  | None => None
  end.

(** [re.split] on the pattern [<!-- page: (\d+) -->]. *)
Fixpoint re_split_pages (fuel : nat) (t : str) : result (list str) :=
  match fuel with
  | O => OutOfFuel
  | S fuel' =>
      match t with
      | [] => Ok [[]]
      | c :: t' =>
          match match_page_marker t with
          | Some (digits, r) =>
              parts <- re_split_pages fuel' r ;; Ok ([] :: digits :: parts)
          | None =>
              parts <- re_split_pages fuel' t' ;;
              match parts with
              | p :: ps => Ok ((c :: p) :: ps)
              | [] => Ok [[c]]
              end
          end
      end
  end.

(** The [while i < len(parts) - 1] loop of [_split_by_pages], from
    [parts[i:]]. *)
Fixpoint page_pairs (parts : list str) : result (list (Z * str)) :=
  match parts with
  | num :: chunk_text :: rest =>
      match int_of_str num with
      | None => Raise (ValueError (lit "invalid literal for int()"))
      | Some page_number =>
          result <- page_pairs rest ;; Ok ((page_number, chunk_text) :: result)
      end
  | _ => Ok []
  end.

Definition _split_by_pages (fuel : nat) (t : str) : result (list (Z * str)) :=
  parts <- re_split_pages fuel t ;;
  page_pairs (tl parts).

(** [re.match] of [^<!-- section: (.+?) -->$]: group 1. *)
Definition section_match (s : str) : option str :=
  match strip_prefix (lit "<!-- section: ") s with
  | Some r =>
      if endswith (lit " -->") r && (5 <=? length r)%nat
      then Some (firstn (length r - 4) r)
      else None
  | None => None
  end.

(** [re.match] of [^(#{1,6})\s+(.+)$] on a string without line feed:
    the length of group 1. *)
Definition heading_match (s : str) : option Z :=
  let hashes := takewhile (Ascii.eqb "#"%char) s in
  let r := dropwhile (Ascii.eqb "#"%char) s in
  let n := length hashes in
  if ((1 <=? n) && (n <=? 6))%nat then
    match takewhile isspace r, dropwhile isspace r with
    | [], _ => None
    | [_], [] => None
    | _, _ => Some (Z.of_nat n)
    end
  else None.

(** [re.match] of [^#{1,6}\s+]. *)
Definition heading_prefix_match (s : str) : bool :=
  let r := dropwhile (Ascii.eqb "#"%char) s in
  let n := length (takewhile (Ascii.eqb "#"%char) s) in
  ((1 <=? n) && (n <=? 6))%nat
  && match r with c :: _ => isspace c | [] => false end.

(** [re.match] of [^<!-- (section:|page:)]. *)
Definition marker_match (s : str) : bool :=
  startswith (lit "<!-- section:") s || startswith (lit "<!-- page:") s.

(** [re.match] of [^(\s{0,})- (.+)$] on a line without line feed:
    the length of group 1, and group 2. *)
Definition list_match (line : str) : option (nat * str) :=
  match strip_prefix (lit "- ") (lstrip line) with
  | Some (c :: item_text) => Some (length (takewhile isspace line), c :: item_text)
  | _ => None
  end.

(** [re.match] of [^(\s{0,})- ]. *)
Definition list_prefix_match (line : str) : bool :=
  startswith (lit "- ") (lstrip line).

(** [re.match] of [^-+$] on a string without line feed. *)
Definition dashes_match (s : str) : bool :=
  nonempty s && forallb is_hyphen s.

Definition is_blank (line : str) : bool := negb (nonempty (strip line)).

(** [while i < len(lines) and not lines[i].strip(): i += 1] *)
Fixpoint skip_blank (lines : list str) : list str :=
  match lines with
  | [] => []
  | l :: rest => if is_blank l then skip_blank rest else lines
  end.

(** A [while] loop that collects the lines from [lines[i]] on while [p]
    holds: the collected lines and [lines[i:]] after the loop. *)
Fixpoint span (p : str -> bool) (lines : list str) : list str * list str :=
  match lines with
  | [] => ([], [])
  | l :: rest =>
      if p l then let '(taken, rest') := span p rest in (l :: taken, rest')
      else ([], lines)
  end.

(** The loop of [_parse_sections_from_chunk] from [lines[i:]]: the new
    section objects and [remaining_lines]. *)
Fixpoint parse_sections_loop (fuel : nat) (lines : list str) (page_number : Z)
  : result (list obj * list str) :=
  match fuel with
  | O => OutOfFuel
  | S fuel' =>
      match lines with
      | [] => Ok ([], [])
      | line :: rest =>
          match section_match (strip line) with
          | Some section_title =>
              let rest := skip_blank rest in
              let '(level, section_content, rest) :=
                match rest with
                | [] => (1, [], rest)
                | l :: rest' =>
                    match heading_match (strip l) with
                    | Some level =>
                        let '(content_lines, rest'') :=
                          span (fun next_line => negb (marker_match (strip next_line)))
                               rest' in
                        (level, strip (join NL content_lines), rest'')
                    | None => (1, [], rest)
                    end
                end in
              r <- parse_sections_loop fuel' rest page_number ;;
              let '(sections, remaining_lines) := r in
              Ok (mkObj section_title level section_content
                        page_number page_number [] :: sections,
                  remaining_lines)
          | None =>
              r <- parse_sections_loop fuel' rest page_number ;;
              let '(sections, remaining_lines) := r in
              Ok (sections, line :: remaining_lines)
          end
      end
  end.

Definition _parse_sections_from_chunk (fuel : nat) (chunk_text : str)
  (page_number : Z) : result (list obj * str) :=
  r <- parse_sections_loop fuel (split "010" chunk_text) page_number ;;
  let '(sections, remaining_lines) := r in
  Ok (sections, join NL remaining_lines).

Definition table_cells (line : str) : list str :=
  map strip (split "|" (strip_char "|" line)).

Definition is_separator (cells : list str) : bool :=
  forallb (fun c => dashes_match (strip c))
          (filter (fun c => nonempty (strip c)) cells).

(** [for i, line in enumerate(lines)] of [_parse_table], from index [i]. *)
Fixpoint table_rows (i : nat) (lines : list str) : list (list str) :=
  match lines with
  | [] => []
  | line :: rest =>
      let cells := table_cells line in
      if (i =? 1)%nat && is_separator cells
      then table_rows (S i) rest
      else cells :: table_rows (S i) rest
  end.

Definition _parse_table (lines : list str) : option Table :=
  if (length lines <? 2)%nat then None
  else
    match table_rows 0 lines with
    | [] => None
    | rows => Some (mkTable rows)
    end.

Definition default_bbox : BBox := (0, 0, 0, 0)%Q.

Definition is_table_line (line : str) : bool := startswith (lit "|") (strip line).

(** The test of the paragraph loop: the line is not blank and starts
    neither a table, a list item nor a heading. *)
Definition continues_paragraph (l : str) : bool :=
  negb (is_blank l) && negb (is_table_line l)
  && negb (list_prefix_match l) && negb (heading_prefix_match (strip l)).

(** The main loop of [_parse_extracted_content] from [lines[i:]] on
    [(blocks, tables)]. *)
Fixpoint parse_content_loop (fuel : nat) (lines : list str)
  (blocks : list TextBlock) (tables : list Table)
  : result (list TextBlock * list Table) :=
  match fuel with
  | O => OutOfFuel
  | S fuel' =>
      match lines with
      | [] => Ok (blocks, tables)
      | line :: rest =>
          if is_blank line then parse_content_loop fuel' rest blocks tables
          else if is_table_line line then
            let '(table_lines, rest') := span is_table_line lines in
            let tables :=
              match _parse_table (map strip table_lines) with
              | Some table => tables ++ [table]
              | None => tables
              end in
            parse_content_loop fuel' rest' blocks tables
          else
            match list_match line with
            | Some (indent, item_text) =>
                let nesting := Z.of_nat indent / 2 in
                let x_pos := (10 + inject_Z nesting * 30)%Q in
                parse_content_loop fuel' rest
                  (blocks ++ [mkTextBlock item_text (x_pos, 0, 0, 0)%Q list_item])
                  tables
            | None =>
                match heading_match (strip line) with
                | Some _ =>
                    parse_content_loop fuel' rest
                      (blocks ++ [mkTextBlock (strip line) default_bbox heading])
                      tables
                | None =>
                    let '(para_lines, rest') := span continues_paragraph lines in
                    let blocks :=
                      match para_lines with
                      | [] => blocks
                      | _ => blocks ++ [mkTextBlock (join NL (map strip para_lines))
                                                    default_bbox paragraph]
                      end in
                    parse_content_loop fuel' rest' blocks tables
                end
            end
      end
  end.

Definition is_paragraph (b : TextBlock) : bool :=
  match block_type b with paragraph => true | _ => false end.

Definition _parse_extracted_content (fuel : nat) (t : str)
  : result ExtractedContent :=
  let t := strip t in
  match t with
  | [] => Ok (mkExtractedContent [] [] [] [] [])
  | _ =>
      r <- parse_content_loop fuel (split "010" t) [] [] ;;
      let '(blocks, tables) := r in
      let body_text := join NLNL (map text (filter is_paragraph blocks)) in
      Ok (mkExtractedContent body_text [] [] tables blocks)
  end.

(** [while stack and stack[-1].level >= section.level: stack.pop()];
    the top of the Python stack is the head of the list. *)
Fixpoint pop_stack (h : heap) (stack : list ref) (section_level : Z) : list ref :=
  match stack with
  | [] => []
  | top :: rest =>
      if o_level (deref h top) >=? section_level
      then pop_stack h rest section_level
      else stack
  end.

(** One iteration of [for section in flat_sections] on the state
    [(heap, root, stack)]. *)
Definition hierarchy_step (st : heap * list ref * list ref) (section : ref)
  : heap * list ref * list ref :=
  let '(h, root, stack) := st in
  let stack := pop_stack h stack (o_level (deref h section)) in
  match stack with
  | parent :: _ =>
      let h := update parent (append_subsection section) h in
      let h :=
        if o_page_end (deref h section) >? o_page_end (deref h parent)
        then update parent (set_page_end (o_page_end (deref h section))) h
        else h in
      (h, root, section :: stack)
  | [] => (h, root ++ [section], section :: stack)
  end.

(** [MarkdownConverter._build_section_hierarchy]: the heap after the call
    and the returned list [root]. *)
Definition _build_section_hierarchy (h : heap) (flat_sections : list ref)
  : heap * list ref :=
  match flat_sections with
  | [] => (h, [])
  | _ =>
      let '(h', root, _) := fold_left hierarchy_step flat_sections (h, [], []) in
      (h', root)
  end.

(** The loop of [from_markdown] over the page chunks on
    [(pages, all_sections)]. *)
Definition chunk_step (fuel : nat) (st : list PageContent * list obj)
  (chunk : Z * str) : result (list PageContent * list obj) :=
  let '(pages, all_sections) := st in
  let '(page_number, chunk_text) := chunk in
  r <- _parse_sections_from_chunk fuel chunk_text page_number ;;
  let '(sections_on_page, remaining_text) := r in
  let all_sections := all_sections ++ sections_on_page in
  let full_page_text := _strip_section_markers chunk_text in
  extracted <- _parse_extracted_content fuel full_page_text ;;
  Ok (pages ++ [mkPageContent page_number NATIVE_TEXT extracted None],
      all_sections).

(** [from_markdown]; [fuel] bounds the iterations of every loop.  The new
    section objects are the whole heap, the flat list refers to them in
    order, and the returned sections are read back as a forest. *)
Definition from_markdown (fuel : nat) (markdown_str : str) : result Document :=
  if negb (nonempty (strip markdown_str)) then Ok (mkDocument [] [])
  else
    content <- _strip_toc fuel markdown_str ;;
    page_chunks <- _split_by_pages fuel content ;;
    st <- for_each (chunk_step fuel) page_chunks ([], []) ;;
    let '(pages, all_sections) := st in
    let '(h, root) :=
      _build_section_hierarchy all_sections (seq 0 (length all_sections)) in
    root_sections <- read_forest h root ;;
    Ok (mkDocument root_sections pages).

End MarkdownConverter.


(* ================================================================= *)
(** * page_classifier.py *)

Module PageClassifier.

(** An entry of [page.get_text("blocks")]:
    [(x0, y0, x1, y1, text, block_no, block_type)]. *)
Definition RawBlock : Type := (Q * Q * Q * Q * str * Z * Z)%type.

(** What the classifier reads of a [fitz.Page]: [page.rect.width],
    [page.rect.height] and [page.get_text("blocks")]. *)
Record Page : Type := mkPage {
  rect_width : Q;
  rect_height : Q;
  text_blocks : list RawBlock
}.

Definition _NATIVE_TEXT_THRESHOLD : Q := 8 # 10.
Definition _SCANNED_THRESHOLD : Q := 2 # 10.

Definition classify_by_ratio (ratio : Q) : PageClassification :=
  if Qltb _NATIVE_TEXT_THRESHOLD ratio then NATIVE_TEXT
  else if Qltb ratio _SCANNED_THRESHOLD then SCANNED
  else MIXED.

(** One iteration of [for block in text_blocks] on [text_area]. *)
Definition add_block_area (text_area : Q) (block : RawBlock) : Q :=
  let '(x0, y0, x1, y1, _, _, block_type) := block in
  if block_type =? 0 then
    let block_width := Py.max 0 (x1 - x0) in
    let block_height := Py.max 0 (y1 - y0) in
    (text_area + block_width * block_height)%Q
  else text_area.

Definition _compute_text_coverage (page : Page) : Q :=
  let page_area := (rect_width page * rect_height page)%Q in
  if Qle_bool page_area 0 then 0%Q
  else
    match text_blocks page with
    | [] => 0%Q
    | blocks =>
        let text_area := fold_left add_block_area blocks 0%Q in
        let ratio := (text_area / page_area)%Q in
        Py.min ratio 1
    end.

Definition classify (page : Page) : PageClassification :=
  let text_coverage := _compute_text_coverage page in
  classify_by_ratio text_coverage.

End PageClassifier.

(* ================================================================= *)
(** * text_extractor.py *)

Module TextExtractor.

(** [_starts_with_number]: the [while] loop counts the leading digits of
    the text without its leading white space. *)
Definition _starts_with_number (t : str) : bool :=
  let stripped := lstrip t in
  match stripped with
  | [] => false
  | _ =>
      match takewhile isdigit stripped with
      | [] => false
      | _ =>
          match dropwhile isdigit stripped with
          | c :: _ => Ascii.eqb c "."%char || Ascii.eqb c ")"%char
          | [] => false
          end
      end
  end.

(** The loop of [_overlaps_any] over the rectangles, for a box whose area
    is [b_area]. *)
Fixpoint overlaps_loop (bbox : BBox) (b_area : Q) (rects : list BBox) : bool :=
  match rects with
  | [] => false
  | rect :: rest =>
      let ix0 := Py.max (bbox0 bbox) (bbox0 rect) in
      let iy0 := Py.max (bbox1 bbox) (bbox1 rect) in
      let ix1 := Py.min (bbox2 bbox) (bbox2 rect) in
      let iy1 := Py.min (bbox3 bbox) (bbox3 rect) in
      if Qltb ix0 ix1 && Qltb iy0 iy1 then
        let overlap := ((ix1 - ix0) * (iy1 - iy0))%Q in
        if Qltb (1 # 2) (overlap / b_area) then true
        else overlaps_loop bbox b_area rest
      else overlaps_loop bbox b_area rest
  end.

Definition _overlaps_any (bbox : BBox) (rects : list BBox) : bool :=
  let b_area :=
    Py.max ((bbox2 bbox - bbox0 bbox) * (bbox3 bbox - bbox1 bbox))%Q
           (1 # 1000000) in
  overlaps_loop bbox b_area rects.

(** What the extractor reads of the dictionary of [page.get_text("dict")].
    A key that the code reads with [.get] may be missing: its field is an
    [option].  A span is a dictionary that may hold other keys as well;
    [span_other_keys] tells whether it does. *)
Record Span : Type := mkSpan {
  span_text : option str;
  span_size : option Q;
  span_flags : option Z;
  span_other_keys : bool
}.

Record Line : Type := mkLine { line_spans : option (list Span) }.

(** A block: [block.get("type")], [block["bbox"]], which every block of
    PyMuPDF has, and [block.get("lines")]. *)
Record Block : Type := mkBlock {
  block_kind : option Z;
  block_bbox : BBox;
  block_lines : option (list Line)
}.

Record TextDict : Type := mkTextDict { dict_blocks : option (list Block) }.

(** A table of [page.find_tables()]: [tbl.extract()], where a cell may
    be [None], and [tbl.bbox]. *)
Record FoundTable : Type := mkFoundTable {
  tbl_extract : list (list (option str));
  tbl_bbox : BBox
}.

(** What the extractor reads of a [fitz.Page]: [page.rect.height],
    [page.find_tables()], which may raise, and the text dictionary. *)
Record Page : Type := mkPage {
  rect_height : Q;
  find_tables : attempt (list FoundTable);
  text_dict : TextDict
}.

(** [d.get(key, default)] *)
Definition get {A : Type} (field : option A) (default : A) : A :=
  match field with Some v => v | None => default end.

Definition _HEADER_ZONE : Q := 10 # 100.
Definition _FOOTER_ZONE : Q := 90 # 100.
Definition _HEADING_SIZE_RATIO : Q := 125 # 100.

Definition _extract_tables (page : Page) : list Table * list BBox :=
  match find_tables page with
  | Raised _ => ([], [])
  | Returned found =>
      (map (fun tbl =>
              mkTable (map (fun row => map (fun cell => get cell []) row)
                           (tbl_extract tbl)))
           found,
       map tbl_bbox found)
  end.

Definition _block_text (block : Block) : str :=
  join NL
    (map (fun line =>
            concat (map (fun span => get (span_text span) [])
                        (get (line_spans line) [])))
         (get (block_lines block) [])).

(** [block.get("type") != 0] is false. *)
Definition is_text_block (block : Block) : bool :=
  match block_kind block with Some 0 => true | _ => false end.

(** [sizes.sort()]: each size is put behind the sizes that are not
    greater, so that equal sizes keep their order. *)
Fixpoint insert_sorted (x : Q) (sorted : list Q) : list Q :=
  match sorted with
  | [] => [x]
  | y :: rest => if Qltb x y then x :: sorted else y :: insert_sorted x rest
  end.

Definition sort (sizes : list Q) : list Q :=
  fold_left (fun sorted x => insert_sorted x sorted) sizes [].

(** The list [sizes] that the loops of [_median_font_size] collect. *)
Definition span_sizes (d : TextDict) : list Q :=
  flat_map
    (fun block =>
       if negb (is_text_block block) then []
       else
         flat_map (fun line => map (fun span => get (span_size span) 0%Q)
                                   (get (line_spans line) []))
                  (get (block_lines block) []))
    (get (dict_blocks d) []).

Definition _median_font_size (d : TextDict) : Q :=
  let sizes := span_sizes d in
  match sizes with
  | [] => 12%Q
  | _ =>
      let sizes := sort sizes in
      let mid := (length sizes / 2)%nat in
      nth mid sizes 0%Q
  end.

(** [bool(span)] of a dictionary: it holds a key. *)
Definition span_truthy (span : Span) : bool :=
  span_other_keys span
  || match span_text span with Some _ => true | None => false end
  || match span_size span with Some _ => true | None => false end
  || match span_flags span with Some _ => true | None => false end.

(** The loop of [_classify_block] over the lines: the first span of a
    line is taken, and the loop is left once [first_span] is true. *)
Fixpoint first_span_loop (lines : list Line) (first_span : option Span)
  : option Span :=
  match lines with
  | [] => first_span
  | line :: rest =>
      let first_span :=
        match get (line_spans line) [] with
        | span :: _ => Some span
        | [] => first_span
        end in
      match first_span with
      | Some span =>
          if span_truthy span then first_span
          else first_span_loop rest first_span
      | None => first_span_loop rest first_span
      end
  end.

(** The characters of a [str] are the code points 0 to 255; of the
    bullets that the source lists only the hyphen is among them. *)
Definition is_bullet (c : ascii) : bool := Ascii.eqb c "-"%char.

Definition _classify_block (block : Block) (median_size : Q) : BlockType :=
  match first_span_loop (get (block_lines block) []) None with
  | None => paragraph
  | Some first_span =>
      let size := get (span_size first_span) 0%Q in
      let flags := get (span_flags first_span) 0 in
      let t := lstrip (get (span_text first_span) []) in
      let is_bold := negb (Z.land flags (Z.shiftl 1 4) =? 0) in
      if Qltb (median_size * _HEADING_SIZE_RATIO) size then heading
      else if is_bold && Qle_bool median_size size then heading
      else if match t with
              | c :: _ => is_bullet c || _starts_with_number t
              | [] => false
              end
      then list_item
      else paragraph
  end.

(** The lists that the loop of [extract] fills. *)
Record extract_state : Type := mkExtractState {
  st_headers : list str;
  st_footers : list str;
  st_body_lines : list str;
  st_blocks : list TextBlock
}.

(** One iteration of [for block in text_dict.get("blocks", [])]. *)
Definition extract_step (header_limit footer_limit median_size : Q)
  (table_rects : list BBox) (st : extract_state) (block : Block)
  : extract_state :=
  if negb (is_text_block block) then st
  else
    let bbox := block_bbox block in
    if _overlaps_any bbox table_rects then st
    else
      let block_text := _block_text block in
      if negb (nonempty (strip block_text)) then st
      else
        let block_type := _classify_block block median_size in
        let mid_y := ((bbox1 bbox + bbox3 bbox) / 2)%Q in
        let new_block := mkTextBlock (strip block_text) bbox block_type in
        if Qltb mid_y header_limit then
          mkExtractState (st_headers st ++ [strip block_text]) (st_footers st)
            (st_body_lines st) (st_blocks st ++ [new_block])
        else if Qltb footer_limit mid_y then
          mkExtractState (st_headers st) (st_footers st ++ [strip block_text])
            (st_body_lines st) (st_blocks st ++ [new_block])
        else
          mkExtractState (st_headers st) (st_footers st)
            (st_body_lines st ++ [block_text]) (st_blocks st ++ [new_block]).

Definition extract (page : Page) : ExtractedContent :=
  let page_height := rect_height page in
  let header_limit := (page_height * _HEADER_ZONE)%Q in
  let footer_limit := (page_height * _FOOTER_ZONE)%Q in
  let '(tables, table_rects) := _extract_tables page in
  let median_size := _median_font_size (text_dict page) in
  let st :=
    fold_left (extract_step header_limit footer_limit median_size table_rects)
              (get (dict_blocks (text_dict page)) [])
              (mkExtractState [] [] [] []) in
  mkExtractedContent (strip (join NL (st_body_lines st))) (st_headers st)
    (st_footers st) tables (st_blocks st).

End TextExtractor.

(* ================================================================= *)
(** * ocr_engine.py *)

Module OCREngine.

(** A row of the table that [pytesseract.image_to_data] returns: the six
    lists of its dictionary have one entry per row, [(text, conf, left,
    top, width, height)]. *)
Record Word : Type := mkWord {
  w_text : str;
  w_conf : Z;
  w_left : Z;
  w_top : Z;
  w_width : Z;
  w_height : Z
}.

(** The three lists that the loop of [_run_ocr] fills. *)
Record ocr_state : Type := mkOcrState {
  st_blocks : list TextBlock;
  st_word_confidences : list Z;
  st_full_text_parts : list str
}.

(** One iteration of [for i in range(n_items)]. *)
Definition word_step (s : ocr_state) (w : Word) : ocr_state :=
  let t := strip (w_text w) in
  let conf := w_conf w in
  if (conf =? -1) || negb (nonempty t) then s
  else
    let x := inject_Z (w_left w) in
    let y := inject_Z (w_top w) in
    let wd := inject_Z (w_width w) in
    let h := inject_Z (w_height w) in
    mkOcrState
      (st_blocks s ++ [mkTextBlock t (x, y, x + wd, y + h)%Q paragraph])
      (st_word_confidences s ++ [conf])
      (st_full_text_parts s ++ [t]).

(** [sum(xs)] *)
Definition sum (xs : list Z) : Z := fold_left Z.add xs 0.

(** The result that [_run_ocr] builds from the rows. *)
Definition ocr_result_of (data : list Word) : OCRResult :=
  let s := fold_left word_step data (mkOcrState [] [] []) in
  let full_text := join (lit " ") (st_full_text_parts s) in
  let confidence :=
    match st_word_confidences s with
    | [] => 0%Q
    | word_confidences =>
        (inject_Z (sum word_confidences)
           / inject_Z (Z.of_nat (length word_confidences)) / 100)%Q
    end in
  let confidence := Py.max 0 (Py.min 1 confidence) in
  mkOCRResult full_text confidence (st_blocks s).

Section Engine.

(** The image operations and Tesseract are outside the model; each call
    returns or raises. *)
Variable Image : Type.
Variable preprocessing : bool.
Variable _preprocess : Image -> attempt Image.
Variable image_to_data : Image -> attempt (list Word).

Definition _run_ocr (image : Image) : attempt OCRResult :=
  match (if preprocessing then _preprocess image else Returned image) with
  | Raised e => Raised e
  | Returned image =>
      match image_to_data image with
      | Raised e => Raised e
      | Returned data => Returned (ocr_result_of data)
      end
  end.

Definition ocr_page (page_image : Image) : attempt OCRResult := _run_ocr page_image.

Definition ocr_embedded_image (image : Image) : attempt OCRResult := _run_ocr image.

End Engine.

End OCREngine.

(* ================================================================= *)
(** * qa_matcher.py *)

Module QAMatcher.

Record MatchResult : Type := mkMatchResult {
  section_title : str;
  page_range : Z * Z;
  similarity_score : Q;
  text_excerpt : str
}.

Record QAMatch : Type := mkQAMatch {
  question : str;
  matches : list MatchResult;
  is_unmatched : bool
}.

(** The inner function [_collect] of [split_into_sections], for one
    section of the list it is given: what it appends to [flat]. *)
Fixpoint collect (section : DocumentSection) : list DocumentSection :=
  match subsections section with
  | [] => [section]
  | _ :: _ => flat_map collect (subsections section)
  end.

Definition split_into_sections (document : Document) : list DocumentSection :=
  flat_map collect (sections document).

(** [for idx in ranked_indices] of [match], from the indices that are
    left, on the list [matches]; an index outside a list is
    [IndexError]. *)
Fixpoint rank_loop (top_n : Z) (min_similarity : Q)
  (answer_sections : list DocumentSection) (scores : list Q)
  (ranked_indices : list nat) (matches : list MatchResult)
  : result (list MatchResult) :=
  match ranked_indices with
  | [] => Ok matches
  | idx :: rest =>
      match nth_error scores idx with
      | None => Raise (Exception (lit "IndexError"))
      | Some score =>
          if Qltb score min_similarity then Ok matches
          else if Z.of_nat (length matches) >=? top_n then Ok matches
          else
            match nth_error answer_sections idx with
            | None => Raise (Exception (lit "IndexError"))
            | Some section =>
                let excerpt := firstn 500 (section_content section) in
                rank_loop top_n min_similarity answer_sections scores rest
                  (matches
                     ++ [mkMatchResult (title section)
                           (page_start section, page_end section)
                           score excerpt])
            end
      end
  end.

Section Matcher.

(** The sentence encoder and the array operations are outside the model:
    [similarity_matrix questions section_texts] is the matrix of cosine
    similarities after [np.clip], a list of rows, and [argsort] is
    [np.argsort]. *)
Variable similarity_matrix : list str -> list str -> list (list Q).
Variable argsort : list Q -> list nat.

(** [for i, question in enumerate(questions)] of [match], from index [i]. *)
Fixpoint question_loop (top_n : Z) (min_similarity : Q)
  (answer_sections : list DocumentSection) (matrix : list (list Q))
  (i : nat) (questions : list str) : result (list QAMatch) :=
  match questions with
  | [] => Ok []
  | q :: rest =>
      match nth_error matrix i with
      | None => Raise (Exception (lit "IndexError"))
      | Some scores =>
          let ranked_indices := rev (argsort scores) in
          ms <- rank_loop top_n min_similarity answer_sections scores
                          ranked_indices [] ;;
          results <- question_loop top_n min_similarity answer_sections matrix
                                   (S i) rest ;;
          Ok (mkQAMatch q ms (length ms =? 0)%nat :: results)
      end
  end.

Definition match_ (questions : list str) (answer_sections : list DocumentSection)
  (top_n : Z) (min_similarity : Q) : result (list QAMatch) :=
  match questions with
  | [] => Ok []
  | _ =>
      match answer_sections with
      | [] => Ok (map (fun q => mkQAMatch q [] true) questions)
      | _ =>
          let section_texts := map section_content answer_sections in
          let matrix := similarity_matrix questions section_texts in
          question_loop top_n min_similarity answer_sections matrix 0 questions
      end
  end.

End Matcher.

End QAMatcher.

(* ================================================================= *)
(** * Chunk ranges *)

Section ChunkRanges.

Import ChunkManager.

(** [rs] is a chain of ranges from [a] to [b]: the first starts at [a],
    each one starts where the one before it ends, the last ends at [b]. *)
Fixpoint chain (a : Z) (rs : list PageRange) (b : Z) : Prop :=
  match rs with
  | [] => a = b
  | r :: rs' => range_start r = a /\ chain (range_end r) rs' b
  end.

Definition well_sized (c : Z) (r : PageRange) : Prop :=
  range_start r < range_end r <= range_start r + c.

Definition covers (p : Z) (r : PageRange) : Prop :=
  range_start r <= p < range_end r.

Lemma range_loop_done fuel start n c :
  n <= start -> range_loop fuel start n c = [].
Proof.
  destruct fuel; simpl; auto.
  intros H. destruct (Z.ltb_spec start n); auto; lia.
Qed.

Lemma ceil_step n c : 0 < c -> c < n -> (n + c - 1) / c = 1 + (n - c + c - 1) / c.
Proof.
  intros Hc Hn.
  replace (n + c - 1) with ((n - c + c - 1) + 1 * c) by ring.
  rewrite Z.div_add by lia. lia.
Qed.

Lemma ceil_one n c : 0 < n <= c -> (n + c - 1) / c = 1.
Proof.
  intros H. symmetry. apply Z.div_unique with (r := n - 1); lia.
Qed.

Lemma range_loop_chain c n :
  0 < c ->
  forall fuel start,
    0 <= start < n -> n - start <= Z.of_nat fuel ->
    let rs := range_loop fuel start n c in
    chain start rs n /\ Forall (well_sized c) rs
    /\ Z.of_nat (length rs) = (n - start + c - 1) / c.
Proof.
  intros Hc. induction fuel as [|fuel IH]; intros start Hs Hf; [simpl in Hf; lia|].
  cbn [range_loop]. destruct (Z.ltb_spec start n) as [_|]; [|lia].
  destruct (Z_lt_le_dec (start + c) n) as [Hlt|Hge].
  - destruct (IH (start + c)) as (Hch & Hall & Hlen); [lia | lia |].
    cbn zeta in *. split; [|split].
    + cbn. split; [reflexivity|]. rewrite Z.min_l by lia. exact Hch.
    + constructor; [|exact Hall]. unfold well_sized; cbn. lia.
    + cbn [length]. rewrite Nat2Z.inj_succ, Hlen.
      rewrite (ceil_step (n := n - start) Hc) by lia.
      replace (n - (start + c)) with (n - start - c) by ring. lia.
  - rewrite range_loop_done by lia. cbn zeta. split; [|split].
    + cbn. split; [reflexivity|]. lia.
    + constructor; [|constructor]. unfold well_sized; cbn. lia.
    + cbn. rewrite ceil_one; lia.
Qed.

Lemma chain_bounds c a b rs :
  chain a rs b -> Forall (well_sized c) rs ->
  a <= b /\ forall r, In r rs -> a <= range_start r /\ range_end r <= b.
Proof.
  revert a. induction rs as [|r rs IH]; intros a Hch Hall.
  - cbn in Hch. split; [lia | intros ? []].
  - destruct Hch as [Hst Hch]. inversion Hall as [|? ? Hr Hall']; subst.
    destruct (IH _ Hch Hall') as [Hle Hin]. unfold well_sized in Hr.
    split; [lia|]. intros r' [<-|Hr']; [lia|].
    destruct (Hin _ Hr'). lia.
Qed.

Lemma chain_covers c a b rs :
  chain a rs b -> Forall (well_sized c) rs ->
  forall p, a <= p < b <-> exists r, In r rs /\ covers p r.
Proof.
  revert a. induction rs as [|r rs IH]; intros a Hch Hall p.
  - cbn in Hch. split; [lia | intros (? & [] & _)].
  - destruct Hch as [Hst Hch]. inversion Hall as [|? ? Hr Hall']; subst.
    destruct (chain_bounds _ _ Hch Hall') as [Hle _].
    specialize (IH _ Hch Hall' p). unfold well_sized in Hr. split.
    + intros Hp. destruct (Z_lt_le_dec p (range_end r)).
      * exists r. split; [left; reflexivity | unfold covers; lia].
      * destruct IH as [IH _]. destruct IH as (r' & Hin & Hc); [lia|].
        exists r'. split; [right; exact Hin | exact Hc].
    + intros (r' & [<-|Hin] & Hc); unfold covers in Hc; [lia|].
      destruct IH as [_ IH]. specialize (IH (ex_intro _ r' (conj Hin Hc))). lia.
Qed.

(** No page index lies in two ranges of the list: the ranges are disjoint
    and in ascending order. *)
Fixpoint ascending_disjoint (rs : list PageRange) : Prop :=
  match rs with
  | [] => True
  | r :: rs' =>
      (forall r', In r' rs' -> range_end r <= range_start r')
      /\ ascending_disjoint rs'
  end.

Lemma chain_disjoint c a b rs :
  chain a rs b -> Forall (well_sized c) rs -> ascending_disjoint rs.
Proof.
  revert a. induction rs as [|r rs IH]; intros a Hch Hall; cbn; [exact I|].
  destruct Hch as [Hst Hch]. inversion Hall as [|? ? Hr Hall']; subst.
  split; [|eapply IH; eauto].
  intros r' Hin. destruct (chain_bounds _ _ Hch Hall') as [_ Hb].
  apply Hb in Hin. lia.
Qed.

(** C4.  For every page count [n >= 0] and chunk size [c > 0] the ranges
    yielded by [iter_chunks] are contiguous from 0 to [n], pairwise
    disjoint, cover exactly the indices of [0, n), each hold between one
    and [c] pages, and there are [ceil(n / c)] of them; for [c <= 0] the
    call raises [ValueError] and yields no range. *)
Theorem iter_chunks_partition (n c : Z) :
  0 <= n ->
  (0 < c ->
   exists rs,
     iter_chunks n c = Ok rs
     /\ chain 0 rs n
     /\ ascending_disjoint rs
     /\ (forall p, 0 <= p < n <-> exists r, In r rs /\ covers p r)
     /\ Z.of_nat (length rs) = (n + c - 1) / c
     /\ Forall (well_sized c) rs)
  /\ (c <= 0 -> exists msg, iter_chunks n c = Raise (ValueError msg)).
Proof.
  intros Hn. split.
  - intros Hc. unfold iter_chunks.
    destruct (Z.leb_spec c 0) as [|_]; [lia|].
    eexists; split; [reflexivity|].
    assert (H : chain 0 (range_loop (Z.to_nat n) 0 n c) n
                /\ Forall (well_sized c) (range_loop (Z.to_nat n) 0 n c)
                /\ Z.of_nat (length (range_loop (Z.to_nat n) 0 n c))
                   = (n + c - 1) / c).
    { destruct (Z.eq_dec n 0) as [->|Hnz].
      - cbn. split; [reflexivity|]. split; [constructor|].
        symmetry. apply Z.div_small. lia.
      - pose proof (@range_loop_chain c n Hc (Z.to_nat n) 0) as H.
        cbn zeta in H. rewrite Z.sub_0_r in H. apply H; lia. }
    destruct H as (Hch & Hall & Hlen).
    split; [exact Hch|]. split; [eapply chain_disjoint; eauto|].
    split; [apply (chain_covers _ _ Hch Hall)|]. split; assumption.
  - intros Hc. unfold iter_chunks.
    destruct (Z.leb_spec c 0) as [_|]; [|lia].
    eexists; reflexivity.
Qed.

Lemma iter_chunks_partition_witness :
  exists rs,
    iter_chunks 7 3 = Ok rs /\ chain 0 rs 7 /\ Z.of_nat (length rs) = 3.
Proof.
  destruct (@iter_chunks_partition 7 3 ltac:(lia)) as [H _].
  destruct (H ltac:(lia)) as (rs & Heq & Hch & _ & _ & Hlen & _).
  exists rs. repeat split; [exact Heq | exact Hch | exact Hlen].
Defined.

(** The ranges of a run: a chain from 0 to the page count. *)
Lemma iter_chunks_chain (n c : Z) :
  0 <= n -> 0 < c ->
  exists rs, iter_chunks n c = Ok rs /\ chain 0 rs n /\ Forall (well_sized c) rs.
Proof.
  intros Hn Hc. unfold iter_chunks.
  destruct (Z.leb_spec c 0) as [|_]; [lia|].
  eexists. split; [reflexivity|].
  destruct (Z.eq_dec n 0) as [->|Hnz].
  - cbn. split; [reflexivity | constructor].
  - pose proof (@range_loop_chain c n Hc (Z.to_nat n) 0) as H.
    cbn zeta in H. destruct H as (H1 & H2 & _); [lia | lia |].
    split; assumption.
Qed.

End ChunkRanges.

(* ================================================================= *)
(** * Merging native and OCR blocks *)

Section Merge.

Import ContentMerger.

Lemma Qltb_lt a b : Qltb a b = true <-> (a < b)%Q.
Proof.
  unfold Qltb. rewrite negb_true_iff, <- not_true_iff_false, Qle_bool_iff.
  split; [apply Qnot_le_lt | apply Qlt_not_le].
Qed.

Lemma Qltb_ge a b : Qltb a b = false <-> (b <= a)%Q.
Proof.
  unfold Qltb. rewrite negb_false_iff. apply Qle_bool_iff.
Qed.

Lemma py_min_Qmin a b : (Py.min a b == Qmin a b)%Q.
Proof.
  unfold Py.min. destruct (Qltb b a) eqn:E.
  - apply Qltb_lt in E. symmetry. apply Q.min_r. apply Qlt_le_weak, E.
  - apply Qltb_ge in E. symmetry. apply Q.min_l. exact E.
Qed.

(** The native block [n] makes the OCR block [o] a duplicate. *)
Definition overlaps (n o : TextBlock) : Prop :=
  (1 # 2 < _overlap_ratio (bbox n) (bbox o))%Q.

Definition duplicate (native_blocks : list TextBlock) (o : TextBlock) : Prop :=
  exists n, In n native_blocks /\ overlaps n o.

Lemma is_duplicate_spec native_blocks o :
  is_duplicate native_blocks o = true <-> duplicate native_blocks o.
Proof.
  unfold duplicate. induction native_blocks as [|n ns IH]; cbn.
  - split; [discriminate | intros (? & [] & _)].
  - destruct (Qltb (1 # 2) (_overlap_ratio (bbox n) (bbox o))) eqn:E.
    + split; [|reflexivity]. intros _. exists n. split; [now left|].
      apply Qltb_lt, E.
    + rewrite IH. split.
      * intros (m & Hin & Hm). exists m. split; [now right | exact Hm].
      * intros (m & [<-|Hin] & Hm).
        -- apply Qltb_lt in Hm. congruence.
        -- exists m. split; assumption.
Qed.

Definition keeps (native_blocks : list TextBlock) (o : TextBlock) : bool :=
  negb (is_duplicate native_blocks o).

Lemma keeps_spec native_blocks o :
  keeps native_blocks o = true <-> ~ duplicate native_blocks o.
Proof.
  unfold keeps. rewrite negb_true_iff, <- not_true_iff_false, is_duplicate_spec.
  reflexivity.
Qed.

Lemma new_ocr_blocks_filter native_blocks ocr_blocks :
  new_ocr_blocks native_blocks ocr_blocks
  = filter (keeps native_blocks) ocr_blocks.
Proof.
  unfold keeps. induction ocr_blocks as [|o os IH]; cbn; [reflexivity|].
  destruct (is_duplicate native_blocks o); cbn; now rewrite IH.
Qed.

Lemma overlap_ratio_zero_area a b :
  (_bbox_area a == 0 \/ _bbox_area b == 0)%Q -> _overlap_ratio a b = 0%Q.
Proof.
  intros H. unfold _overlap_ratio.
  destruct (Qeq_bool (_bbox_area a) 0) eqn:Ea; [reflexivity|].
  destruct (Qeq_bool (_bbox_area b) 0) eqn:Eb; [reflexivity|].
  apply Qeq_bool_neq in Ea, Eb. tauto.
Qed.

Lemma overlap_ratio_quotient a b :
  ~ (_bbox_area a == 0)%Q -> ~ (_bbox_area b == 0)%Q ->
  (_overlap_ratio a b
   == _intersection_area a b / Qmin (_bbox_area a) (_bbox_area b))%Q.
Proof.
  intros Ha Hb. unfold _overlap_ratio.
  destruct (Qeq_bool (_bbox_area a) 0) eqn:Ea;
    [apply Qeq_bool_iff in Ea; tauto|].
  destruct (Qeq_bool (_bbox_area b) 0) eqn:Eb;
    [apply Qeq_bool_iff in Eb; tauto|].
  cbn [orb]. now rewrite py_min_Qmin.
Qed.

(** C3.  The reading-order blocks of the merge are the native blocks
    followed by the OCR blocks that are kept, in their original order; an
    OCR block is discarded exactly when some native block has an overlap
    ratio with it strictly above 1/2, so it is kept when every ratio is at
    most 1/2; the ratio is 0 when one of the two areas is 0 and is
    otherwise the intersection area over the smaller of the two areas. *)
Theorem merge_discards_duplicates (native : ExtractedContent) (ocr : OCRResult) :
  (exists keep : TextBlock -> bool,
      (forall o, keep o = false <-> duplicate (reading_order_blocks native) o)
      /\ reading_order_blocks (merge native ocr)
         = reading_order_blocks native ++ filter keep (blocks ocr))
  /\ (forall o,
        In o (blocks ocr) ->
        (forall n, In n (reading_order_blocks native) ->
                   (_overlap_ratio (bbox n) (bbox o) <= 1 # 2)%Q) ->
        In o (reading_order_blocks (merge native ocr)))
  /\ (forall a b,
        ((_bbox_area a == 0 \/ _bbox_area b == 0)%Q -> _overlap_ratio a b = 0%Q)
        /\ (~ (_bbox_area a == 0)%Q -> ~ (_bbox_area b == 0)%Q ->
            (_overlap_ratio a b
             == _intersection_area a b / Qmin (_bbox_area a) (_bbox_area b))%Q)).
Proof.
  split; [|split].
  - exists (keeps (reading_order_blocks native)). split.
    + intros o. rewrite <- is_duplicate_spec. unfold keeps.
      now rewrite negb_false_iff.
    + cbn. now rewrite new_ocr_blocks_filter.
  - intros o Hin Hle. cbn. apply in_or_app. right.
    rewrite new_ocr_blocks_filter. apply filter_In. split; [exact Hin|].
    apply keeps_spec. intros (n & Hn & Hov). unfold overlaps in Hov.
    specialize (Hle n Hn). apply (Qlt_not_le _ _ Hov Hle).
  - intros a b. split;
      [apply overlap_ratio_zero_area | apply overlap_ratio_quotient].
Qed.

Definition box (x0 y0 x1 y1 : Z) : BBox :=
  (inject_Z x0, inject_Z y0, inject_Z x1, inject_Z y1).

(** Two boxes whose ratio is exactly 1/2: the OCR block is kept. *)
Lemma merge_discards_duplicates_witness :
  let n := mkTextBlock (lit "native") (box 0 0 10 10) paragraph in
  let o := mkTextBlock (lit "ocr") (box 5 0 15 10) paragraph in
  (_overlap_ratio (bbox n) (bbox o) == 1 # 2)%Q
  /\ In o (reading_order_blocks
             (merge (mkExtractedContent [] [] [] [] [n]) (mkOCRResult [] 1 [o]))).
Proof.
  intros n o. split; [reflexivity|].
  apply (merge_discards_duplicates (mkExtractedContent [] [] [] [] [n])
                                   (mkOCRResult [] 1 [o])).
  - left; reflexivity.
  - intros m [<-|[]]. vm_compute. discriminate.
Defined.

(** The text that [merge] adds to the body: the texts of the kept OCR
    blocks that are not blank, one per line. *)
Definition ocr_extra_text (native : ExtractedContent) (ocr : OCRResult) : str :=
  join NL
    (map text
       (filter (fun b => nonempty (strip (text b)))
               (new_ocr_blocks (reading_order_blocks native) (blocks ocr)))).

(** The body text as the claim words it: every kept OCR block
    contributes its text. *)
Definition claimed_body (native : ExtractedContent) (ocr : OCRResult) : str :=
  let extra :=
    join NL (map text (new_ocr_blocks (reading_order_blocks native) (blocks ocr))) in
  if nonempty (body_text native) && nonempty extra
  then body_text native ++ NL ++ extra
  else if nonempty extra then extra else body_text native.

(** C9 as stated fails: a kept OCR block whose text is blank is left out
    of the body. *)
Lemma merge_body_counterexample :
  let native := mkExtractedContent (lit "N") [] [] [] [] in
  let ocr :=
    mkOCRResult [] 1 [mkTextBlock (lit " ") (box 0 0 1 1) paragraph;
                      mkTextBlock (lit "x") (box 2 2 3 3) paragraph] in
  body_text (merge native ocr) = lit "N" ++ NL ++ lit "x"
  /\ claimed_body native ocr = lit "N" ++ NL ++ lit " " ++ NL ++ lit "x"
  /\ body_text (merge native ocr) <> claimed_body native ocr.
Proof.
  vm_compute. repeat split. discriminate.
Qed.

(** C9, amended.  With [extra] the texts of the kept OCR blocks that are
    not blank, joined by line feeds: the merged body is the native body, a
    line feed and [extra] when both are non-empty, [extra] alone when the
    native body is empty, and the native body unchanged when [extra] is
    empty. *)
Theorem merge_body_text (native : ExtractedContent) (ocr : OCRResult) :
  let extra := ocr_extra_text native ocr in
  (body_text native <> [] -> extra <> [] ->
   body_text (merge native ocr) = body_text native ++ NL ++ extra)
  /\ (body_text native = [] -> body_text (merge native ocr) = extra)
  /\ (extra = [] -> body_text (merge native ocr) = body_text native).
Proof.
  cbn zeta. unfold merge, ocr_extra_text. cbn [body_text].
  set (extra := join NL _).
  destruct (body_text native) as [|c b]; destruct extra as [|e x]; cbn;
    repeat split; intros; congruence.
Qed.

Lemma merge_body_text_witness :
  let native := mkExtractedContent (lit "N") [] [] [] [] in
  let ocr :=
    mkOCRResult [] 1 [mkTextBlock (lit " ") (box 0 0 1 1) paragraph;
                      mkTextBlock (lit "x") (box 2 2 3 3) paragraph] in
  body_text (merge native ocr) = lit "N" ++ NL ++ lit "x".
Proof.
  intros native ocr.
  apply (merge_body_text native ocr); vm_compute; discriminate.
Defined.

End Merge.

(* ================================================================= *)
(** * The section hierarchy *)

Section Hierarchy.

(** What both callers of a hierarchy builder do: the flat sections are
    new objects, the builder runs on the references to them in order, and
    the returned roots are read as a forest. *)
Definition forest_of (build : heap -> list ref -> heap * list ref)
  (flat_sections : list obj) : result (list DocumentSection) :=
  let '(h, root) := build flat_sections (seq 0 (length flat_sections)) in
  read_forest h root.

Lemma pop_stack_same h stack lvl :
  PDFProcessor.pop_stack h stack lvl = MarkdownConverter.pop_stack h stack lvl.
Proof.
  induction stack as [|top rest IH]; cbn; [reflexivity|].
  now rewrite IH.
Qed.

Lemma hierarchy_step_same st section :
  PDFProcessor.hierarchy_step st section
  = MarkdownConverter.hierarchy_step st section.
Proof.
  destruct st as [[h root] stack].
  unfold PDFProcessor.hierarchy_step, MarkdownConverter.hierarchy_step.
  now rewrite pop_stack_same.
Qed.

Lemma fold_hierarchy_same flat st :
  fold_left PDFProcessor.hierarchy_step flat st
  = fold_left MarkdownConverter.hierarchy_step flat st.
Proof.
  revert st. induction flat as [|s flat IH]; intros st; cbn; [reflexivity|].
  now rewrite hierarchy_step_same, IH.
Qed.

(** C6.  The builder of the orchestrator and the builder of the codec
    leave the same heap and return the same roots on every heap and every
    list of references, so on every flat sequence of sections they
    produce the same forest. *)
Theorem build_section_hierarchy_same :
  (forall (h : heap) (flat_sections : list ref),
      PDFProcessor._build_section_hierarchy h flat_sections
      = MarkdownConverter._build_section_hierarchy h flat_sections)
  /\ (forall flat_sections : list obj,
         forest_of PDFProcessor._build_section_hierarchy flat_sections
         = forest_of MarkdownConverter._build_section_hierarchy flat_sections).
Proof.
  assert (H : forall h flat,
             PDFProcessor._build_section_hierarchy h flat
             = MarkdownConverter._build_section_hierarchy h flat).
  { intros h [|s flat]; [reflexivity|].
    unfold PDFProcessor._build_section_hierarchy,
      MarkdownConverter._build_section_hierarchy.
    now rewrite fold_hierarchy_same. }
  split; [exact H|].
  intros flat. unfold forest_of. now rewrite H.
Qed.

Lemma build_hierarchy_same (h : heap) (flat_sections : list ref) :
  PDFProcessor._build_section_hierarchy h flat_sections
  = MarkdownConverter._build_section_hierarchy h flat_sections.
Proof.
  destruct flat_sections as [|s flat]; [reflexivity|].
  unfold PDFProcessor._build_section_hierarchy,
    MarkdownConverter._build_section_hierarchy.
  now rewrite fold_hierarchy_same.
Qed.

(** Three headings of levels 1, 2, 3 on the pages 1, 2, 3. *)
Definition nested_flat : list obj :=
  [mkObj (lit "A") 1 [] 1 1 []; mkObj (lit "B") 2 [] 2 2 [];
   mkObj (lit "C") 3 [] 3 3 []].

(** The largest [page_end] in a tree. *)
Fixpoint max_page_end (s : DocumentSection) : Z :=
  fold_left Z.max (map max_page_end (subsections s)) (page_end s).

(** C2 fails on the code: the grandchild C ends on page 3, its parent B is
    extended to page 3 when C is attached, but the root A keeps the page
    end 2 that it got when B was attached. *)
Theorem page_end_not_propagated :
  forest_of PDFProcessor._build_section_hierarchy nested_flat
  = Ok [mkDocumentSection (lit "A") 1 [] 1 2
          [mkDocumentSection (lit "B") 2 [] 2 3
             [mkDocumentSection (lit "C") 3 [] 3 3 []]]]
  /\ forest_of MarkdownConverter._build_section_hierarchy nested_flat
     = forest_of PDFProcessor._build_section_hierarchy nested_flat
  /\ exists a,
      forest_of PDFProcessor._build_section_hierarchy nested_flat = Ok [a]
      /\ page_end a = 2 /\ max_page_end a = 3.
Proof.
  split; [reflexivity|]. split; [reflexivity|].
  eexists. split; [reflexivity|]. split; reflexivity.
Qed.

(** ** The heap stays acyclic, so the forest can always be read *)

Lemma update_length r f h : length (update r f h) = length h.
Proof.
  revert r. induction h as [|o h IH]; intros [|r]; cbn; auto.
Qed.

Lemma deref_update r f h r' :
  deref (update r f h) r'
  = if ((r =? r') && (r <? length h))%nat then f (deref h r') else deref h r'.
Proof.
  unfold deref. revert r r'.
  induction h as [|o h IH]; intros r r'.
  - replace (r <? length (@nil obj))%nat with false by (destruct r; reflexivity).
    rewrite andb_false_r. destruct r, r'; reflexivity.
  - destruct r as [|r], r' as [|r']; cbn; try reflexivity.
    rewrite IH. reflexivity.
Qed.

(** Every reference held in a [subsections] list points forward, to an
    object among the first [k]. *)
Definition forward (k : nat) (h : heap) : Prop :=
  forall r c, In c (o_subsections (deref h r)) -> (r < c < k)%nat.

Lemma pop_stack_incl h stack lvl r :
  In r (MarkdownConverter.pop_stack h stack lvl) -> In r stack.
Proof.
  induction stack as [|top rest IH]; cbn; [tauto|].
  destruct (_ >=? _); [right; auto | cbn; tauto].
Qed.

Definition step_inv (k : nat) (st : heap * list ref * list ref) : Prop :=
  let '(h, root, stack) := st in
  forward k h /\ (forall r, In r stack -> (r < k)%nat)
  /\ (forall r, In r root -> (r < k)%nat).

Lemma hierarchy_step_inv k st :
  step_inv k st -> step_inv (S k) (MarkdownConverter.hierarchy_step st k).
Proof.
  destruct st as [[h root] stack]. intros (Hf & Hs & Hr).
  unfold MarkdownConverter.hierarchy_step.
  pose proof (@pop_stack_incl h stack (o_level (deref h k))) as Hincl.
  destruct (MarkdownConverter.pop_stack h stack (o_level (deref h k)))
    as [|parent stack'] eqn:E.
  - split; [|split].
    + intros r c Hc. specialize (Hf r c Hc). lia.
    + intros r [<-|[]]. lia.
    + intros r Hin. apply in_app_or in Hin as [Hin|[<-|[]]]; [|lia].
      specialize (Hr r Hin). lia.
  - assert (Hp : (parent < k)%nat) by (apply Hs, Hincl; now left).
    assert (Hf' : forward (S k) (update parent (append_subsection k) h)).
    { intros r c. rewrite deref_update.
      destruct ((parent =? r)%nat && (parent <? length h)%nat) eqn:C.
      - apply andb_true_iff in C as [C _]. apply Nat.eqb_eq in C. subst r.
        cbn. intros Hc. apply in_app_or in Hc as [Hc|[<-|[]]]; [|lia].
        specialize (Hf _ _ Hc). lia.
      - intros Hc. specialize (Hf _ _ Hc). lia. }
    split; [|split].
    + destruct (_ >? _); [|exact Hf'].
      intros r c. rewrite deref_update.
      destruct (_ && _); [cbn|]; apply Hf'.
    + intros r [<-|Hin]; [lia|].
      assert (r < k)%nat by (apply Hs, Hincl; exact Hin). lia.
    + intros r Hin. specialize (Hr r Hin). lia.
Qed.

Lemma fold_hierarchy_inv m k st :
  step_inv k st ->
  step_inv (k + m) (fold_left MarkdownConverter.hierarchy_step (seq k m) st).
Proof.
  revert k st. induction m as [|m IH]; intros k st H; cbn.
  - now rewrite Nat.add_0_r.
  - rewrite <- Nat.add_succ_comm. apply IH, hierarchy_step_inv, H.
Qed.

Lemma hierarchy_step_length st s :
  length (fst (fst (MarkdownConverter.hierarchy_step st s)))
  = length (fst (fst st)).
Proof.
  destruct st as [[h root] stack]. unfold MarkdownConverter.hierarchy_step.
  destruct (MarkdownConverter.pop_stack _ _ _); cbn; [reflexivity|].
  destruct (_ >? _); now rewrite ?update_length.
Qed.

Lemma fold_hierarchy_length flat st :
  length (fst (fst (fold_left MarkdownConverter.hierarchy_step flat st)))
  = length (fst (fst st)).
Proof.
  revert st. induction flat as [|s flat IH]; intros st; cbn; [reflexivity|].
  now rewrite IH, hierarchy_step_length.
Qed.

Lemma for_each_read (f : ref -> result DocumentSection) cs :
  (forall c, In c cs -> exists t, f c = Ok t) ->
  forall acc, exists ts,
    for_each (fun acc c => t <- f c ;; Ok (acc ++ [t])) cs acc = Ok (acc ++ ts).
Proof.
  induction cs as [|c cs IH]; intros H acc; cbn.
  - exists []. now rewrite app_nil_r.
  - destruct (H c (or_introl eq_refl)) as [t ->]. cbn.
    destruct (IH (fun c' Hc => H c' (or_intror Hc)) (acc ++ [t])) as [ts ->].
    exists (t :: ts). now rewrite <- app_assoc.
Qed.

Lemma read_section_total h :
  forward (length h) h ->
  forall fuel r,
    (0 < fuel)%nat -> (length h < fuel + r)%nat ->
    exists t, read_section fuel h r = Ok t.
Proof.
  intros Hf. induction fuel as [|fuel IH]; intros r Hpos Hr; [lia|].
  cbn [read_section].
  destruct (@for_each_read (read_section fuel h) (o_subsections (deref h r)))
    with (acc := @nil DocumentSection) as [ts Hts].
  { intros c Hc. specialize (Hf r c Hc). apply IH; lia. }
  rewrite Hts. cbn. eexists; reflexivity.
Qed.

Lemma read_forest_total h roots :
  forward (length h) h -> exists forest, read_forest h roots = Ok forest.
Proof.
  intros Hf. unfold read_forest.
  destruct (@for_each_read (read_section (S (length h)) h) roots)
    with (acc := @nil DocumentSection) as [ts Hts].
  { intros c _. apply read_section_total; [exact Hf | lia | lia]. }
  exists ts. exact Hts.
Qed.

Lemma forward_fresh (flat : list obj) :
  Forall (fun o => o_subsections o = []) flat -> forward 0 flat.
Proof.
  intros H r c. unfold deref.
  destruct (nth_in_or_default r flat null_obj) as [Hin|Hd];
    [|rewrite Hd; intros []].
  rewrite Forall_forall in H. rewrite (H _ Hin). intros [].
Qed.

(** Reading the forest built from new section objects always succeeds. *)
Lemma forest_of_total (flat : list obj) :
  Forall (fun o => o_subsections o = []) flat ->
  exists forest,
    forest_of MarkdownConverter._build_section_hierarchy flat = Ok forest.
Proof.
  intros Hfresh. unfold forest_of, MarkdownConverter._build_section_hierarchy.
  destruct (seq 0 (length flat)) as [|s l] eqn:E.
  - exists []. reflexivity.
  - rewrite <- E.
    pose proof (@fold_hierarchy_inv (length flat) 0 (flat, [], [])) as Hinv.
    pose proof (fold_hierarchy_length (seq 0 (length flat)) (flat, [], [])) as Hlen.
    destruct (fold_left _ _ _) as [[h' root] stack]. cbn in Hlen.
    destruct Hinv as (Hf & _ & _).
    { split; [apply forward_fresh, Hfresh|]. split; intros ? []. }
    apply read_forest_total. cbn in Hf. now rewrite Hlen.
Qed.

End Hierarchy.

(* ================================================================= *)
(** * The per-page loop of the pipeline *)

Section PipelineRun.

Import PDFProcessor.

Variable Page Image : Type.
Variable pdf_path : str.
Variable path_exists : bool.
Variable fitz_open : attempt Z.
Variable load_page : Z -> attempt Page.
Variable classify : Page -> attempt PageClassification.
Variable extract : Page -> attempt ExtractedContent.
Variable _render_page_to_image : Page -> attempt Image.
Variable ocr_page : Image -> attempt OCRResult.
Variable format_2f : Q -> str.
Variable start_time end_time : Q.
Variable config : ProcessingConfig.

Let try_page' :=
  try_page load_page classify extract _render_page_to_image ocr_page format_2f
           config.
Let page_step' :=
  page_step load_page classify extract _render_page_to_image ocr_page format_2f
            config.
Let chunk_step' :=
  chunk_step load_page classify extract _render_page_to_image ocr_page format_2f
             config.
Let process' :=
  process pdf_path path_exists fitz_open load_page classify extract
          _render_page_to_image ocr_page format_2f start_time end_time config.

Definition empty_state : run_state := mkRunState [] [] 0.

(** What one page adds to the state, and the exception that its
    extraction raises, if any. *)
Definition page_delta (i : Z) : run_state := page_step' empty_state i.
Definition page_failure (i : Z) : option exn := snd (try_page' i empty_state).

Definition combine (s d : run_state) : run_state :=
  mkRunState (st_warnings s ++ st_warnings d) (st_pages s ++ st_pages d)
             (st_pages_skipped s + st_pages_skipped d).

Lemma combine_empty s : combine s empty_state = s.
Proof.
  destruct s. unfold combine; cbn. now rewrite !app_nil_r, Z.add_0_r.
Qed.

Lemma combine_assoc a b c : combine (combine a b) c = combine a (combine b c).
Proof.
  unfold combine; cbn. now rewrite !app_assoc, Z.add_assoc.
Qed.

Lemma combine_add_page s p :
  add_page p s = combine s (mkRunState [] [p] 0).
Proof.
  destruct s. unfold combine, add_page; cbn. now rewrite app_nil_r, Z.add_0_r.
Qed.

Lemma combine_add_warning_page s w p :
  add_page p (add_warning w s) = combine s (mkRunState [w] [p] 0).
Proof.
  destruct s. unfold combine, add_page, add_warning; cbn. now rewrite Z.add_0_r.
Qed.

(** The body of the [try] either appends one page, numbered [i + 1], and
    at most the low-confidence warning, or raises and leaves the state as
    it was. *)
Lemma try_page_cases i s :
  (exists p lows,
      try_page' i s = (combine s (mkRunState lows [p] 0), None)
      /\ page_number p = i + 1)
  \/ (exists e, try_page' i s = (s, Some e)).
Proof.
  unfold try_page', try_page.
  destruct (load_page i) as [page|e]; [|right; eauto].
  destruct (classify page) as [c|e]; [|right; eauto].
  destruct (extract_page_content _ _ _ _ _) as [ct|e]; [|right; eauto].
  destruct c.
  - left. do 2 eexists.
    split; [rewrite combine_add_page; reflexivity | reflexivity].
  - destruct (_render_page_to_image page) as [img|e]; [|right; eauto].
    destruct (ocr_page img) as [o|e]; [|right; eauto].
    left. destruct (Qltb _ _); do 2 eexists.
    + split; [rewrite combine_add_warning_page; reflexivity | reflexivity].
    + split; [rewrite combine_add_page; reflexivity | reflexivity].
  - destruct (_render_page_to_image page) as [img|e]; [|right; eauto].
    destruct (ocr_page img) as [o|e]; [|right; eauto].
    left. destruct (Qltb _ _); do 2 eexists.
    + split; [rewrite combine_add_warning_page; reflexivity | reflexivity].
    + split; [rewrite combine_add_page; reflexivity | reflexivity].
Qed.

Lemma try_page_uniform i s :
  try_page' i s
  = (combine s (fst (try_page' i empty_state)), snd (try_page' i empty_state)).
Proof.
  unfold try_page', try_page.
  destruct (load_page i) as [page|e]; cbn; [|now rewrite combine_empty].
  destruct (classify page) as [c|e]; cbn; [|now rewrite combine_empty].
  destruct (extract_page_content _ _ _ _ _) as [ct|e]; cbn;
    [|now rewrite combine_empty].
  destruct c; cbn.
  - now rewrite combine_add_page.
  - destruct (_render_page_to_image page) as [img|e]; cbn;
      [|now rewrite combine_empty].
    destruct (ocr_page img) as [o|e]; cbn; [|now rewrite combine_empty].
    destruct (Qltb _ _); cbn.
    + now rewrite combine_add_warning_page.
    + now rewrite combine_add_page.
  - destruct (_render_page_to_image page) as [img|e]; cbn;
      [|now rewrite combine_empty].
    destruct (ocr_page img) as [o|e]; cbn; [|now rewrite combine_empty].
    destruct (Qltb _ _); cbn.
    + now rewrite combine_add_warning_page.
    + now rewrite combine_add_page.
Qed.

Lemma page_step_delta s i : page_step' s i = combine s (page_delta i).
Proof.
  unfold page_delta, page_step', page_step. fold try_page'.
  rewrite (try_page_uniform i s).
  destruct (try_page' i empty_state) as [d [e|]]; cbn.
  - destruct s, d. unfold combine, skip_page, add_warning; cbn.
    now rewrite <- !app_assoc, Z.add_assoc.
  - reflexivity.
Qed.

(** The two things that can happen to a page. *)
Lemma page_delta_cases i :
  (page_failure i = None
   /\ exists p lows, page_delta i = mkRunState lows [p] 0
                     /\ page_number p = i + 1)
  \/ (exists e, page_failure i = Some e
                /\ page_delta i
                   = mkRunState [unreadable_warning i e] [] 1).
Proof.
  unfold page_delta, page_failure, page_step', page_step. fold try_page'.
  destruct (try_page_cases i empty_state) as [(p & lows & -> & Hp)|(e & ->)].
  - left. split; [reflexivity|]. exists p, lows. split; [reflexivity | exact Hp].
  - right. exists e. split; reflexivity.
Qed.

(** The state after a sequence of page indices. *)
Definition run_pages (idx : list Z) : run_state :=
  fold_right (fun i d => combine (page_delta i) d) empty_state idx.

Lemma fold_page_step idx s :
  fold_left page_step' idx s = combine s (run_pages idx).
Proof.
  revert s. induction idx as [|i idx IH]; intros s; cbn.
  - now rewrite combine_empty.
  - now rewrite IH, page_step_delta, combine_assoc.
Qed.

Lemma run_pages_app a b : run_pages (a ++ b) = combine (run_pages a) (run_pages b).
Proof.
  induction a as [|i a IH]; cbn [app run_pages fold_right].
  - fold (run_pages b). now destruct (run_pages b).
  - fold (run_pages (a ++ b)) (run_pages a). now rewrite IH, combine_assoc.
Qed.

Lemma py_range_nil a b : b <= a -> py_range a b = [].
Proof.
  intros H. unfold py_range. now replace (Z.to_nat (b - a)) with O by lia.
Qed.

Lemma py_range_cons a b : a < b -> py_range a b = a :: py_range (a + 1) b.
Proof.
  intros H. unfold py_range.
  replace (Z.to_nat (b - a)) with (S (Z.to_nat (b - (a + 1)))) by lia.
  cbn [seq map]. f_equal; [lia|].
  rewrite <- seq_shift, map_map. apply map_ext. intros. lia.
Qed.

Lemma py_range_app a b c :
  a <= b <= c -> py_range a b ++ py_range b c = py_range a c.
Proof.
  intros [Hab Hbc].
  remember (Z.to_nat (b - a)) as n eqn:En. revert a Hab En.
  induction n as [|n IH]; intros a Hab En.
  - assert (a = b) by lia. subst. now rewrite py_range_nil by lia.
  - rewrite (@py_range_cons a b), (@py_range_cons a c) by lia.
    cbn. f_equal. apply IH; lia.
Qed.

Lemma py_range_In a b i : In i (py_range a b) <-> a <= i < b.
Proof.
  unfold py_range. rewrite in_map_iff. split.
  - intros (k & <- & Hk). apply in_seq in Hk. lia.
  - intros H. exists (Z.to_nat (i - a)). split; [lia|]. apply in_seq. lia.
Qed.

Lemma py_range_length a b : a <= b -> Z.of_nat (length (py_range a b)) = b - a.
Proof.
  intros H. unfold py_range. rewrite length_map, length_seq. lia.
Qed.

(** The chunks together visit the page indices 0, 1, ... in order. *)
Lemma fold_chunk_step c a b rs s :
  chain a rs b -> Forall (well_sized c) rs ->
  fold_left chunk_step' rs s = combine s (run_pages (py_range a b)).
Proof.
  revert a s. induction rs as [|r rs IH]; intros a s Hch Hall; cbn in *.
  - subst. now rewrite py_range_nil, combine_empty by lia.
  - destruct Hch as [Hs Hch]. inversion Hall as [|? ? Hr Hall']; subst.
    destruct (chain_bounds _ _ Hch Hall') as [Hle _]. unfold well_sized in Hr.
    rewrite (IH _ _ Hch Hall'). unfold chunk_step', chunk_step.
    fold page_step'. rewrite fold_page_step, combine_assoc, <- run_pages_app.
    now rewrite py_range_app by lia.
Qed.

Lemma run_pages_count idx :
  Z.of_nat (length (st_pages (run_pages idx))) + st_pages_skipped (run_pages idx)
  = Z.of_nat (length idx).
Proof.
  induction idx as [|i idx IH]; [reflexivity|].
  cbn [run_pages fold_right]. fold (run_pages idx).
  destruct (page_delta_cases i) as [(_ & p & lows & -> & _)|(e & _ & ->)];
    cbn [combine st_pages st_pages_skipped length app] in *; lia.
Qed.

Lemma run_pages_page idx p :
  In p (st_pages (run_pages idx)) ->
  exists i, In i idx /\ page_failure i = None /\ page_number p = i + 1.
Proof.
  induction idx as [|i idx IH]; [intros []|].
  cbn [run_pages fold_right]. fold (run_pages idx).
  destruct (page_delta_cases i) as [(Hn & q & lows & -> & Hq)|(e & _ & ->)];
    cbn [combine st_pages app].
  - intros [<-|Hin].
    + exists i. split; [now left|]. split; assumption.
    + destruct (IH Hin) as (j & Hj & Hrest). exists j. split; [now right|exact Hrest].
  - intros Hin. destruct (IH Hin) as (j & Hj & Hrest).
    exists j. split; [now right|exact Hrest].
Qed.

Lemma run_pages_outcome idx i :
  In i idx ->
  match page_failure i with
  | None => exists p, In p (st_pages (run_pages idx)) /\ page_number p = i + 1
  | Some e => In (unreadable_warning i e) (st_warnings (run_pages idx))
  end.
Proof.
  induction idx as [|j idx IH]; [intros []|].
  cbn [run_pages fold_right]. fold (run_pages idx). intros [->|Hin].
  - destruct (page_delta_cases i) as [(Hn & q & lows & -> & Hq)|(e & He & ->)].
    + rewrite Hn. exists q. split; [now left | exact Hq].
    + rewrite He. now left.
  - specialize (IH Hin). destruct (page_failure i) as [e|].
    + cbn. apply in_or_app. now right.
    + destruct IH as (p & Hp & Hnum). exists p. split; [|exact Hnum].
      cbn. apply in_or_app. now right.
Qed.

Lemma combine_empty_l d : combine empty_state d = d.
Proof. now destruct d. Qed.

Lemma detect_flat_sections_fresh pages :
  Forall (fun o => o_subsections o = []) (detect_flat_sections pages).
Proof.
  unfold detect_flat_sections. apply Forall_flat_map, Forall_forall.
  intros page _. apply Forall_flat_map, Forall_forall. intros b _.
  destruct (negb (is_heading b)); [constructor|].
  destruct (negb (nonempty (strip (text b)))); repeat constructor.
Qed.

Lemma detect_sections_total pages :
  exists forest, _detect_sections pages = Ok forest.
Proof.
  destruct (forest_of_total (detect_flat_sections_fresh pages)) as [f Hf].
  exists f. rewrite <- Hf. unfold forest_of, _detect_sections.
  now rewrite build_hierarchy_same.
Qed.

(** The run, once the file is open and the chunk size is positive. *)
Lemma process_run n :
  path_exists = true -> fitz_open = Returned n -> 0 <= n ->
  0 < chunk_size config ->
  exists sections,
    _detect_sections (st_pages (run_pages (py_range 0 n))) = Ok sections
    /\ process'
       = Ok (mkDocument sections (st_pages (run_pages (py_range 0 n))),
             mkProcessingSummary n
               (Z.of_nat (length (st_pages (run_pages (py_range 0 n)))))
               (st_pages_skipped (run_pages (py_range 0 n)))
               (st_warnings (run_pages (py_range 0 n)))
               (end_time - start_time)%Q).
Proof.
  intros Hex Hopen Hn Hc.
  destruct (detect_sections_total (st_pages (run_pages (py_range 0 n))))
    as [sections Hs].
  exists sections. split; [exact Hs|].
  unfold process', process. rewrite Hex, Hopen. cbn [negb].
  destruct (@iter_chunks_chain n (chunk_size config) Hn Hc) as (rs & -> & Hch & Hall).
  cbn [bind].
  fold chunk_step'. fold empty_state.
  rewrite fold_chunk_step with (c := chunk_size config) (a := 0) (b := n)
    by assumption.
  rewrite combine_empty_l, Hs. reflexivity.
Qed.

(** ** What the collaborators do for one page

    The body of the [try] calls the collaborators in turn.  These two
    relations say, in terms of what each call returns or raises, whether
    the body raises for the page of index [i], and with which exception,
    or makes a page. *)

Let extract_page_content' :=
  extract_page_content extract _render_page_to_image ocr_page.

Inductive page_raises (i : Z) (e : exn) : Prop :=
| load_raises :
    load_page i = Raised e -> page_raises i e
| classify_raises page :
    load_page i = Returned page -> classify page = Raised e ->
    page_raises i e
| extract_raises page c :
    load_page i = Returned page -> classify page = Returned c ->
    extract_page_content' page c = Raised e ->
    page_raises i e
| render_raises page c content :
    load_page i = Returned page -> classify page = Returned c ->
    extract_page_content' page c = Returned content ->
    c <> NATIVE_TEXT ->
    _render_page_to_image page = Raised e ->
    page_raises i e
| ocr_raises page c content image :
    load_page i = Returned page -> classify page = Returned c ->
    extract_page_content' page c = Returned content ->
    c <> NATIVE_TEXT ->
    _render_page_to_image page = Returned image ->
    ocr_page image = Raised e ->
    page_raises i e.

Inductive page_extracts (i : Z) : PageContent -> Prop :=
| extracts_native page content :
    load_page i = Returned page -> classify page = Returned NATIVE_TEXT ->
    extract_page_content' page NATIVE_TEXT = Returned content ->
    page_extracts i (mkPageContent (i + 1) NATIVE_TEXT content None)
| extracts_ocr page c content image ocr_result :
    load_page i = Returned page -> classify page = Returned c ->
    extract_page_content' page c = Returned content ->
    c <> NATIVE_TEXT ->
    _render_page_to_image page = Returned image ->
    ocr_page image = Returned ocr_result ->
    page_extracts i (mkPageContent (i + 1) c content
                                   (Some (confidence ocr_result))).

(** One of the two happens for every index. *)
Lemma page_outcome i :
  (exists e, page_raises i e) \/ (exists p, page_extracts i p).
Proof.
  destruct (load_page i) as [page|e] eqn:E1;
    [|left; exists e; now apply load_raises].
  destruct (classify page) as [c|e] eqn:E2;
    [|left; exists e; now apply classify_raises with page].
  destruct (extract_page_content' page c) as [ct|e] eqn:E3;
    [|left; exists e; now apply extract_raises with page c].
  assert (Hdec : c = NATIVE_TEXT \/ c <> NATIVE_TEXT)
    by (destruct c; [now left | right; discriminate | right; discriminate]).
  destruct Hdec as [->|Hc].
  { right. eexists. eapply extracts_native; eassumption. }
  destruct (_render_page_to_image page) as [img|e] eqn:E4;
    [|left; exists e; now apply render_raises with page c ct].
  destruct (ocr_page img) as [o|e] eqn:E5;
    [|left; exists e; now apply ocr_raises with page c ct img].
  right. eexists. eapply extracts_ocr; eassumption.
Qed.

(** What the loop does with a page whose extraction raises: one warning
    with the number of the page and the message, one page skipped. *)
Lemma page_raises_delta i e :
  page_raises i e ->
  page_delta i = mkRunState [unreadable_warning i e] [] 1.
Proof.
  unfold page_delta, page_step', page_step, try_page.
  intros [H1|page H1 H2|page c H1 H2 H3|page c ct H1 H2 H3 Hc H4
          |page c ct img H1 H2 H3 Hc H4 H5];
    unfold extract_page_content' in *;
    rewrite H1; try rewrite H2; try rewrite H3; try reflexivity.
  - destruct c; [congruence| |]; now rewrite H4.
  - destruct c; [congruence| |]; now rewrite H4, H5.
Qed.

(** What it does with a page that is extracted: the page is appended, no
    page is skipped. *)
Lemma page_extracts_delta i p :
  page_extracts i p ->
  st_pages (page_delta i) = [p] /\ st_pages_skipped (page_delta i) = 0.
Proof.
  unfold page_delta, page_step', page_step, try_page.
  intros [page ct H1 H2 H3|page c ct img o H1 H2 H3 Hc H4 H5];
    unfold extract_page_content' in *;
    rewrite H1, H2, H3; [now split|].
  destruct c; [congruence| |]; rewrite H4, H5;
    destruct (Qltb _ _); now split.
Qed.

Lemma page_delta_extracts i p :
  In p (st_pages (page_delta i)) -> page_extracts i p.
Proof.
  destruct (page_outcome i) as [[e He]|[q Hq]].
  - rewrite (page_raises_delta He). intros [].
  - destruct (page_extracts_delta Hq) as [-> _]. now intros [<-|[]].
Qed.

Lemma run_pages_delta idx i :
  In i idx ->
  incl (st_pages (page_delta i)) (st_pages (run_pages idx))
  /\ incl (st_warnings (page_delta i)) (st_warnings (run_pages idx)).
Proof.
  induction idx as [|j idx IH]; [intros []|].
  cbn [run_pages fold_right]. fold (run_pages idx).
  cbn [combine st_pages st_warnings]. intros [->|Hin].
  - split; intros x Hx; apply in_or_app; now left.
  - destruct (IH Hin) as [H1 H2].
    split; intros x Hx; apply in_or_app; right; auto.
Qed.

Lemma run_pages_from idx p :
  In p (st_pages (run_pages idx)) ->
  exists i, In i idx /\ In p (st_pages (page_delta i)).
Proof.
  induction idx as [|j idx IH]; [intros []|].
  cbn [run_pages fold_right]. fold (run_pages idx).
  cbn [combine st_pages]. intros Hp. apply in_app_or in Hp as [Hp|Hp].
  - exists j. split; [now left | exact Hp].
  - destruct (IH Hp) as (i & Hi & Hpi). exists i. split; [now right | exact Hpi].
Qed.

Lemma py_range_NoDup a b : NoDup (py_range a b).
Proof.
  remember (Z.to_nat (b - a)) as k eqn:Ek. revert a Ek.
  induction k as [|k IH]; intros a Ek.
  - rewrite py_range_nil by lia. constructor.
  - rewrite py_range_cons by lia. constructor; [|apply IH; lia].
    intros Hin. apply py_range_In in Hin. lia.
Qed.

Lemma run_pages_NoDup idx :
  NoDup idx -> NoDup (map page_number (st_pages (run_pages idx))).
Proof.
  induction 1 as [|i idx Hi _ IH]; [constructor|].
  cbn [run_pages fold_right]. fold (run_pages idx).
  cbn [combine st_pages]. rewrite map_app.
  destruct (page_delta_cases i) as [(_ & q & lows & -> & Hq)|(e & _ & ->)];
    cbn [st_pages map app]; [|exact IH].
  constructor; [|exact IH]. intros Hin.
  apply in_map_iff in Hin as (p & Hp & Hin).
  destruct (run_pages_page _ _ Hin) as (j & Hj & _ & Hpj).
  assert (j = i) by lia. subst j. contradiction.
Qed.

(** C5.  A run completes when the file exists, opens, and the chunk size
    is positive.  In every completed run the summary holds the page count
    of the file, the pages processed are the pages of the document, the
    pages processed and the pages skipped add up to the page count, and
    the elapsed time is not negative when the monotonic clock has not
    gone backwards.  For every page index below the page count, either
    one of the calls for that page raises or they make a page.  When a
    call raises, whichever it is, the warnings hold the text with the
    1-based number of the page and the message of the exception, and the
    document has no page of that number; when they make a page, that page
    is in the document.  Every page of the document is made in this way
    from an index below the page count, and no two pages have the same
    number. *)
Theorem process_accounts_for_every_page :
  (start_time <= end_time)%Q ->
  (forall n, fitz_open = Returned n -> 0 <= n) ->
  (forall n,
      path_exists = true -> fitz_open = Returned n -> 0 < chunk_size config ->
      exists doc summary, process' = Ok (doc, summary))
  /\ (forall doc summary,
        process' = Ok (doc, summary) ->
        fitz_open = Returned (total_pages summary)
        /\ pages_processed summary = Z.of_nat (length (pages doc))
        /\ pages_processed summary + pages_skipped summary = total_pages summary
        /\ (0 <= processing_time_seconds summary)%Q
        /\ (forall i, 0 <= i < total_pages summary ->
              ((exists e, page_raises i e) \/ (exists p, page_extracts i p))
              /\ (forall e, page_raises i e ->
                    In (lit "Corrupted/unreadable page " ++ str_of_Z (i + 1)
                          ++ lit ": " ++ exn_message e)
                       (warnings summary)
                    /\ forall p, In p (pages doc) -> page_number p <> i + 1)
              /\ (forall p, page_extracts i p -> In p (pages doc)))
        /\ (forall p, In p (pages doc) ->
              exists i, 0 <= i < total_pages summary /\ page_extracts i p)
        /\ NoDup (map page_number (pages doc))).
Proof.
  intros Hclock Hlen. split.
  - intros n Hex Hopen Hc.
    destruct (process_run Hex Hopen (Hlen _ Hopen) Hc) as (secs & _ & ->).
    eauto.
  - intros doc summary Hrun.
    assert (Hpre : exists n, path_exists = true /\ fitz_open = Returned n
                             /\ 0 < chunk_size config).
    { revert Hrun. unfold process', process.
      destruct path_exists; [|discriminate]. cbn [negb].
      destruct fitz_open as [n|e]; [|discriminate].
      unfold ChunkManager.iter_chunks.
      destruct (Z.leb_spec (chunk_size config) 0); [discriminate|].
      intros _. exists n. auto. }
    destruct Hpre as (n & Hex & Hopen & Hc).
    destruct (process_run Hex Hopen (Hlen _ Hopen) Hc) as (secs & _ & Heq).
    rewrite Heq in Hrun. injection Hrun as <- <-.
    cbn [pages_processed pages_skipped total_pages processing_time_seconds
         warnings pages].
    assert (Hn : 0 <= n) by (apply Hlen, Hopen).
    split; [exact Hopen|]. split; [reflexivity|].
    split; [|split; [|split; [|split]]].
    + rewrite run_pages_count, py_range_length by exact Hn. lia.
    + unfold Qminus. rewrite <- Qle_minus_iff. exact Hclock.
    + intros i Hi.
      assert (Hin : In i (py_range 0 n)) by (apply py_range_In; lia).
      destruct (run_pages_delta _ _ Hin) as [Hps Hws].
      split; [apply page_outcome|]. split.
      * intros e He. rewrite (page_raises_delta He) in Hws. split.
        -- apply Hws. now left.
        -- intros p Hp Hnum.
           destruct (run_pages_from _ _ Hp) as (j & Hj & Hpj).
           assert (Hq := page_delta_extracts _ _ Hpj).
           assert (j = i).
           { destruct Hq; cbn [page_number] in Hnum; lia. }
           subst j. rewrite (page_raises_delta He) in Hpj. destruct Hpj.
      * intros p Hp. apply Hps.
        destruct (page_extracts_delta Hp) as [-> _]. now left.
    + intros p Hp. destruct (run_pages_from _ _ Hp) as (i & Hi & Hpi).
      exists i. split; [apply py_range_In in Hi; lia|].
      now apply page_delta_extracts.
    + apply run_pages_NoDup, py_range_NoDup.
Qed.

End PipelineRun.

(** A three-page file whose second page cannot be loaded. *)
Definition demo_load_page (i : Z) : attempt Z :=
  if i =? 1 then Raised (Exception (lit "broken xref")) else Returned i.

Definition demo_process (config : ProcessingConfig)
  : result (Document * ProcessingSummary) :=
  PDFProcessor.process (lit "doc.pdf") true (Returned 3) demo_load_page
    (fun _ : Z => Returned NATIVE_TEXT)
    (fun _ : Z => Returned (mkExtractedContent [] [] [] [] []))
    (fun _ : Z => Returned tt)
    (fun _ : unit => Returned (mkOCRResult [] 1 []))
    (fun _ : Q => lit "1.00") 0%Q 1%Q config.

Lemma process_accounts_for_every_page_witness :
  exists doc summary,
    demo_process (mkProcessingConfig 2 (7 # 10) false) = Ok (doc, summary)
    /\ total_pages summary = 3
    /\ pages_processed summary + pages_skipped summary = total_pages summary
    /\ In (lit "Corrupted/unreadable page " ++ str_of_Z (1 + 1) ++ lit ": "
             ++ exn_message (Exception (lit "broken xref")))
          (warnings summary)
    /\ In (mkPageContent (2 + 1) NATIVE_TEXT (mkExtractedContent [] [] [] [] [])
                         None)
          (pages doc).
Proof.
  destruct (@process_accounts_for_every_page Z unit (lit "doc.pdf") true
              (Returned 3) demo_load_page
              (fun _ : Z => Returned NATIVE_TEXT)
              (fun _ : Z => Returned (mkExtractedContent [] [] [] [] []))
              (fun _ : Z => Returned tt)
              (fun _ : unit => Returned (mkOCRResult [] 1 []))
              (fun _ : Q => lit "1.00") 0%Q 1%Q
              (mkProcessingConfig 2 (7 # 10) false)) as [Hc Hp].
  - discriminate.
  - intros n H. injection H as <-. lia.
  - destruct (Hc 3 eq_refl eq_refl ltac:(reflexivity)) as (doc & summary & Hrun).
    exists doc, summary. split; [exact Hrun|].
    destruct (Hp _ _ Hrun) as (Ht & _ & Hsum & _ & Hidx & _).
    injection Ht as Ht. split; [now symmetry|]. split; [exact Hsum|].
    rewrite <- Ht in Hidx. split.
    + destruct (Hidx 1 ltac:(lia)) as (_ & Hr & _).
      apply Hr. now apply load_raises.
    + destruct (Hidx 2 ltac:(lia)) as (_ & _ & He). apply He.
      now apply (@extracts_native Z unit demo_load_page
                   (fun _ : Z => Returned NATIVE_TEXT)
                   (fun _ : Z => Returned (mkExtractedContent [] [] [] [] []))
                   (fun _ : Z => Returned tt)
                   (fun _ : unit => Returned (mkOCRResult [] 1 []))
                   2 2).
Defined.

(* ================================================================= *)
(** * Parsing markup: what holds for every input *)

Section Parsing.

Import MarkdownConverter.

Lemma for_each_invariant {A S : Type} (P : S -> Prop)
  (body : S -> A -> result S) :
  (forall s x s', P s -> body s x = Ok s' -> P s') ->
  forall xs s s', P s -> for_each body xs s = Ok s' -> P s'.
Proof.
  intros Hbody. induction xs as [|x xs IH]; intros s s' Hs; cbn.
  - intros [= <-]. exact Hs.
  - destruct (body s x) as [s1| |] eqn:E; cbn; try discriminate.
    apply IH. eapply Hbody; eauto.
Qed.

(** Every page that [chunk_step] appends satisfies [P]. *)
Lemma from_markdown_pages (P : PageContent -> Prop) :
  (forall fuel n t ec,
      _parse_extracted_content fuel t = Ok ec ->
      P (mkPageContent n NATIVE_TEXT ec None)) ->
  forall fuel s d, from_markdown fuel s = Ok d -> Forall P (pages d).
Proof.
  intros HP fuel s d. unfold from_markdown.
  destruct (negb (nonempty (strip s))); [intros [= <-]; constructor|].
  destruct (_strip_toc fuel s) as [c| |]; cbn; try discriminate.
  destruct (_split_by_pages fuel c) as [chunks| |]; cbn; try discriminate.
  destruct (for_each _ chunks _) as [[ps secs]| |] eqn:E; cbn; try discriminate.
  assert (Hps : Forall P ps).
  { apply (for_each_invariant (fun st => Forall P (fst st))) in E; auto.
    intros [ps0 secs0] [n t] st' H0. unfold chunk_step.
    destruct (_parse_sections_from_chunk fuel t n) as [[so rt]| |]; cbn;
      try discriminate.
    destruct (_parse_extracted_content fuel _) as [ec| |] eqn:Eec; cbn;
      try discriminate.
    intros [= <-]. cbn in *. apply Forall_app. split; [exact H0|].
    constructor; [|constructor]. eapply HP; eauto. }
  destruct (_build_section_hierarchy secs _) as [h root].
  destruct (read_forest h root); cbn; try discriminate.
  intros [= <-]. exact Hps.
Qed.

(** C10.  Every page returned by [from_markdown] is classified
    [NATIVE_TEXT] and has no OCR confidence, whatever the input text; so
    the pages that come back from a rendered document are, whatever
    their classification and confidence were. *)
Theorem from_markdown_native_text :
  (forall fuel s d,
      from_markdown fuel s = Ok d ->
      Forall (fun p => classification p = NATIVE_TEXT /\ ocr_confidence p = None)
             (pages d))
  /\ (forall fuel doc d,
         from_markdown fuel (to_markdown doc) = Ok d ->
         Forall (fun p => classification p = NATIVE_TEXT
                          /\ ocr_confidence p = None)
                (pages d)).
Proof.
  assert (H : forall fuel s d,
             from_markdown fuel s = Ok d ->
             Forall (fun p => classification p = NATIVE_TEXT
                              /\ ocr_confidence p = None) (pages d)).
  { apply from_markdown_pages. intros; split; reflexivity. }
  split; [exact H|]. intros fuel doc d. apply H.
Qed.

(** A scanned page with an OCR confidence. *)
Definition scanned_doc : Document :=
  mkDocument []
    [mkPageContent 1 SCANNED
       (mkExtractedContent (lit "scan") [] [] [] []) (Some (9 # 10))].

Lemma from_markdown_native_text_witness :
  exists d,
    from_markdown 40 (to_markdown scanned_doc) = Ok d
    /\ length (pages d) = 1%nat
    /\ Forall (fun p => classification p = NATIVE_TEXT /\ ocr_confidence p = None)
              (pages d).
Proof.
  eexists. split; [vm_compute; reflexivity|]. split; [reflexivity|].
  apply (proj2 from_markdown_native_text 40%nat scanned_doc).
  vm_compute. reflexivity.
Defined.

(** The page body as the claim words it: the paragraph texts joined by
    one line feed. *)
Definition newline_joined_paragraphs (c : ExtractedContent) : str :=
  join NL (map text (filter is_paragraph (reading_order_blocks c))).

(** C8 as stated fails: two paragraphs are joined by a blank line. *)
Lemma body_text_counterexample :
  exists d p,
    from_markdown 40 (lit "<!-- page: 1 -->" ++ NL ++ lit "a" ++ NL ++ NL ++ lit "b")
    = Ok d
    /\ pages d = [p]
    /\ map text (reading_order_blocks (content p)) = [lit "a"; lit "b"]
    /\ body_text (content p) = lit "a" ++ NL ++ NL ++ lit "b"
    /\ body_text (content p) <> newline_joined_paragraphs (content p).
Proof.
  do 2 eexists. split; [vm_compute; reflexivity|].
  split; [reflexivity|]. split; [reflexivity|]. split; [reflexivity|].
  vm_compute. discriminate.
Qed.

(** ** The paragraph loop can stop without consuming a line *)

(** A page whose first line is a hyphen and a space, with nothing after
    the space, followed by a line of text. *)
Definition stuck_markdown : str :=
  lit "<!-- page: 1 -->" ++ NL ++ lit "- " ++ NL ++ lit "x".

Lemma parse_content_loop_stuck fuel blocks tables :
  parse_content_loop fuel [lit "- "; lit "x"] blocks tables = OutOfFuel.
Proof.
  induction fuel as [|fuel IH]; [reflexivity|].
  cbn [parse_content_loop]. exact IH.
Qed.

Definition stuck_chunk : str := NL ++ lit "- " ++ NL ++ lit "x".

Lemma stuck_strip_toc k : _strip_toc (30 + k) stuck_markdown = Ok stuck_markdown.
Proof. vm_compute. reflexivity. Qed.

Lemma stuck_split_by_pages k :
  _split_by_pages (30 + k) stuck_markdown = Ok [(1, stuck_chunk)].
Proof. vm_compute. reflexivity. Qed.

Lemma stuck_parse_sections k :
  _parse_sections_from_chunk (30 + k) stuck_chunk 1 = Ok ([], stuck_chunk).
Proof. vm_compute. reflexivity. Qed.

Lemma stuck_parse_extracted_content fuel :
  _parse_extracted_content fuel (_strip_section_markers stuck_chunk) = OutOfFuel.
Proof.
  unfold _parse_extracted_content.
  change (strip (_strip_section_markers stuck_chunk))
    with (lit "- " ++ NL ++ lit "x").
  change (split "010" (lit "- " ++ NL ++ lit "x")) with [lit "- "; lit "x"].
  cbn [lit String.list_ascii_of_string app NL].
  change ["-"%char; " "%char] with (lit "- ").
  change ["x"%char] with (lit "x").
  now rewrite parse_content_loop_stuck.
Qed.

(** C7 fails on the code: on [stuck_markdown] no amount of fuel lets
    [from_markdown] return.  The line [- ] is no list item for the main
    loop, whose pattern wants text after the space, yet it ends the
    paragraph loop, whose pattern does not; the paragraph loop therefore
    collects nothing, the index is not advanced, and the main loop runs
    on the same line for ever. *)
Theorem from_markdown_diverges :
  forall fuel, from_markdown fuel stuck_markdown = OutOfFuel.
Proof.
  intros fuel.
  destruct (le_lt_dec 30 fuel) as [Hge|Hlt].
  - replace fuel with (30 + (fuel - 30))%nat by lia.
    generalize (fuel - 30)%nat as k. intros k.
    unfold from_markdown.
    change (negb (nonempty (strip stuck_markdown))) with false. cbv iota.
    rewrite stuck_strip_toc. cbn [bind].
    rewrite stuck_split_by_pages. cbn [bind for_each]. unfold chunk_step.
    rewrite stuck_parse_sections. cbn [bind].
    rewrite stuck_parse_extracted_content. reflexivity.
  - do 30 (destruct fuel as [|fuel]; [vm_compute; reflexivity|]). lia.
Qed.

End Parsing.

(* ================================================================= *)
(** * The round trip of [to_markdown] and [from_markdown]

    The rest of the development follows a rendered document through
    [from_markdown]: the strings first, then the lines of a page and
    what the line parser makes of them, then the pages of a document,
    and last the section objects and the forest that the hierarchy
    builder leaves. *)

(* ================================================================= *)
(** * Strings: prefixes, white space, lines *)

Section Strings.

Lemma strip_prefix_app p s : strip_prefix p (p ++ s) = Some s.
Proof.
  induction p as [|a p IH]; cbn; [reflexivity|].
  now rewrite Ascii.eqb_refl.
Qed.

Lemma strip_prefix_Some p s r : strip_prefix p s = Some r -> s = p ++ r.
Proof.
  revert s. induction p as [|a p IH]; intros s; cbn.
  - now intros [= ->].
  - destruct s as [|b s]; [discriminate|].
    destruct (Ascii.eqb_spec a b) as [->|]; [|discriminate].
    intros H. now rewrite (IH _ H).
Qed.

Lemma startswith_app p s : startswith p (p ++ s) = true.
Proof. unfold startswith. now rewrite strip_prefix_app. Qed.

Lemma endswith_app p s : endswith p (s ++ p) = true.
Proof. unfold endswith. rewrite rev_app_distr. apply startswith_app. Qed.

(** [clean_start s]: [s] does not begin with white space. *)
Definition clean_start (s : str) : Prop :=
  match s with [] => True | c :: _ => isspace c = false end.

(** [clean_end s]: [s] does not end with white space. *)
Definition clean_end (s : str) : Prop := clean_start (rev s).

Lemma dropwhile_clean s : clean_start s -> dropwhile isspace s = s.
Proof. destruct s as [|c s]; cbn; [reflexivity|]. now intros ->. Qed.

Lemma dropwhile_all p a b :
  forallb p a = true -> dropwhile p (a ++ b) = dropwhile p b.
Proof.
  induction a as [|c a IH]; cbn; [reflexivity|].
  intros H. apply andb_true_iff in H as [-> H]. auto.
Qed.

Lemma takewhile_all p a b :
  forallb p a = true -> takewhile p (a ++ b) = a ++ takewhile p b.
Proof.
  induction a as [|c a IH]; cbn; [reflexivity|].
  intros H. apply andb_true_iff in H as [-> H]. now rewrite IH.
Qed.

Lemma dropwhile_length p s : (length (dropwhile p s) <= length s)%nat.
Proof.
  induction s as [|c s IH]; cbn; [lia|]. destruct (p c); cbn; lia.
Qed.

Lemma lstrip_clean s : clean_start s -> lstrip s = s.
Proof. apply dropwhile_clean. Qed.

Lemma rstrip_clean s : clean_end s -> rstrip s = s.
Proof.
  unfold rstrip, clean_end. intros H. rewrite dropwhile_clean by exact H.
  apply rev_involutive.
Qed.

Lemma strip_clean s : clean_start s -> clean_end s -> strip s = s.
Proof.
  intros Hs He. unfold strip. now rewrite (lstrip_clean _ Hs), rstrip_clean.
Qed.

Lemma clean_of_strip s : strip s = s -> clean_start s /\ clean_end s.
Proof.
  intros H. unfold strip, rstrip, lstrip in H.
  assert (Hl : dropwhile isspace s = s).
  { apply (f_equal (@length _)) in H. rewrite length_rev in H.
    pose proof (dropwhile_length isspace (rev (dropwhile isspace s))) as H1.
    rewrite length_rev in H1.
    destruct s as [|c s]; [reflexivity|]. cbn in *.
    destruct (isspace c); [|reflexivity].
    pose proof (dropwhile_length isspace s). lia. }
  split.
  - destruct s as [|c s]; cbn in *; [exact I|].
    destruct (isspace c) eqn:E; [|reflexivity].
    apply (f_equal (@length _)) in Hl.
    pose proof (dropwhile_length isspace s). cbn in Hl. lia.
  - rewrite Hl in H. unfold clean_end.
    apply (f_equal (@rev _)) in H. rewrite rev_involutive in H.
    destruct (rev s) as [|c r]; cbn in *; [exact I|].
    destruct (isspace c) eqn:E; [|reflexivity].
    apply (f_equal (@length _)) in H.
    pose proof (dropwhile_length isspace r). cbn in H. lia.
Qed.

Lemma clean_start_app a b : a <> [] -> clean_start a -> clean_start (a ++ b).
Proof. destruct a; [congruence|]. now cbn. Qed.

Lemma clean_end_app a b : b <> [] -> clean_end b -> clean_end (a ++ b).
Proof.
  unfold clean_end. rewrite rev_app_distr. intros Hb.
  apply clean_start_app. destruct b; [congruence|]. cbn.
  now destruct (rev b).
Qed.

Lemma forallb_rev_true (p : ascii -> bool) l :
  forallb p l = true -> forallb p (rev l) = true.
Proof.
  rewrite !forallb_forall. intros H x Hx. apply H. now apply in_rev.
Qed.

(** White space at both ends is what [strip] removes. *)
Lemma strip_pad a s b :
  forallb isspace a = true -> forallb isspace b = true ->
  s <> [] -> clean_start s -> clean_end s ->
  strip (a ++ s ++ b) = s.
Proof.
  intros Ha Hb Hne Hs He. unfold strip, lstrip, rstrip.
  rewrite dropwhile_all by exact Ha.
  rewrite (dropwhile_clean (s ++ b)) by (now apply clean_start_app).
  rewrite rev_app_distr, dropwhile_all by (now apply forallb_rev_true).
  rewrite dropwhile_clean by exact He. apply rev_involutive.
Qed.

Lemma strip_blank a : forallb isspace a = true -> strip a = [].
Proof.
  intros Ha. unfold strip, lstrip, rstrip.
  rewrite <- (app_nil_r a), dropwhile_all by exact Ha. reflexivity.
Qed.

(** ** Lines *)

Definition nl : ascii := "010"%char.

(** A line holds no line feed. *)
Definition is_line (l : str) : Prop := ~ In nl l.

(** [sep] before every element: the rest of a [join]. *)
Definition tl_join (sep : str) (xs : list str) : str :=
  flat_map (fun x => sep ++ x) xs.

Lemma join_cons sep x xs : join sep (x :: xs) = x ++ tl_join sep xs.
Proof.
  revert x. induction xs as [|y xs IH]; intros x.
  - cbn. now rewrite app_nil_r.
  - change (join sep (x :: y :: xs)) with (x ++ sep ++ join sep (y :: xs)).
    rewrite IH. cbn. now rewrite <- app_assoc.
Qed.

Lemma tl_join_app sep xs ys : tl_join sep (xs ++ ys) = tl_join sep xs ++ tl_join sep ys.
Proof. apply flat_map_app. Qed.

Lemma split_line c l rest :
  ~ In c l -> split c (l ++ c :: rest) = l :: split c rest.
Proof.
  intros H. induction l as [|x l IH]; cbn.
  - now rewrite Ascii.eqb_refl.
  - destruct (Ascii.eqb_spec x c) as [->|_]; [exfalso; apply H; now left|].
    rewrite IH by (intros Hin; apply H; now right). reflexivity.
Qed.

Lemma split_last c l : ~ In c l -> split c l = [l].
Proof.
  intros H. induction l as [|x l IH]; cbn; [reflexivity|].
  destruct (Ascii.eqb_spec x c) as [->|_]; [exfalso; apply H; now left|].
  rewrite IH by (intros Hin; apply H; now right). reflexivity.
Qed.

Lemma split_join l ls :
  Forall is_line (l :: ls) -> split nl (l ++ tl_join NL ls) = l :: ls.
Proof.
  revert l. induction ls as [|l' ls IH]; intros l H.
  - cbn. rewrite app_nil_r. apply split_last. now inversion H.
  - inversion H as [|? ? Hl Hls]; subst. cbn [tl_join flat_map].
    change (NL ++ l') with (nl :: l'). cbn [app].
    rewrite split_line by exact Hl. f_equal. apply IH, Hls.
Qed.

End Strings.


(* ================================================================= *)
(** * Characters and numbers *)

Section Characters.

(** Letters, digits and the space: the characters of plain text. *)
Definition plain_char (c : ascii) : bool := isalnum c || Ascii.eqb c " "%char.

Lemma plain_char_neq c x : plain_char c = true -> plain_char x = false -> c <> x.
Proof. intros Hc Hx ->. congruence. Qed.

Lemma isalnum_plain c : isalnum c = true -> plain_char c = true.
Proof. unfold plain_char. now intros ->. Qed.

Lemma isalnum_not_space c : isalnum c = true -> isspace c = false.
Proof.
  destruct c as [[] [] [] [] [] [] [] []]; vm_compute; congruence.
Qed.

Lemma isdigit_alnum c : isdigit c = true -> isalnum c = true.
Proof. unfold isalnum. now intros ->. Qed.

Lemma forallb_impl (p q : ascii -> bool) s :
  (forall c, p c = true -> q c = true) ->
  forallb p s = true -> forallb q s = true.
Proof.
  intros H. rewrite !forallb_forall. auto.
Qed.

Lemma forallb_not_in (p : ascii -> bool) s x :
  forallb p s = true -> p x = false -> ~ In x s.
Proof.
  rewrite forallb_forall. intros H Hx Hin. specialize (H _ Hin). congruence.
Qed.

Lemma uint_digits d :
  forallb isdigit
    (String.list_ascii_of_string (DecimalString.NilEmpty.string_of_uint d)) = true.
Proof. induction d; cbn; auto. Qed.

Lemma str_of_N_digits n : forallb isdigit (str_of_N n) = true.
Proof.
  unfold str_of_N, DecimalString.NilZero.string_of_uint.
  destruct (N.to_uint n) eqn:E; try (rewrite <- E; apply uint_digits).
  reflexivity.
Qed.

Lemma to_uint_nonnil n : N.to_uint n <> Decimal.Nil.
Proof.
  intros H. pose proof (DecimalN.Unsigned.to_of (N.to_uint n)) as H1.
  rewrite DecimalN.Unsigned.of_to in H1. rewrite H in H1 at 2.
  cbn in H1. rewrite H in H1. discriminate.
Qed.

Lemma str_of_N_nonempty n : str_of_N n <> [].
Proof.
  unfold str_of_N, DecimalString.NilZero.string_of_uint.
  pose proof (to_uint_nonnil n).
  destruct (N.to_uint n); cbn; congruence.
Qed.

Lemma int_of_str_of_N n : int_of_str (str_of_N n) = Some (Z.of_N n).
Proof.
  unfold int_of_str, str_of_N.
  rewrite String.string_of_list_ascii_of_string.
  rewrite DecimalString.NilZero.usu by apply to_uint_nonnil.
  now rewrite DecimalN.Unsigned.of_to.
Qed.

Lemma str_of_Z_nonneg z : 0 <= z -> str_of_Z z = str_of_N (Z.to_N z).
Proof.
  intros H. unfold str_of_Z. destruct (Z.ltb_spec z 0); [lia | reflexivity].
Qed.

Lemma int_of_str_of_Z z : 0 <= z -> int_of_str (str_of_Z z) = Some z.
Proof.
  intros H. rewrite str_of_Z_nonneg, int_of_str_of_N by exact H.
  f_equal. lia.
Qed.

(** The characters of a rendered integer: digits and the minus sign. *)
Definition num_char (c : ascii) : bool := isdigit c || Ascii.eqb c "-"%char.

Lemma str_of_Z_chars z : forallb num_char (str_of_Z z) = true.
Proof.
  assert (H : forall n, forallb num_char (str_of_N n) = true).
  { intros n. apply forallb_impl with (p := isdigit); [|apply str_of_N_digits].
    unfold num_char. now intros c ->. }
  unfold str_of_Z. destruct (z <? 0); [|apply H].
  cbn [forallb]. now rewrite H.
Qed.

End Characters.


(* ================================================================= *)
(** * Where the sentinels can match *)

Section Sentinels.

Import MarkdownConverter.

Definition lt_char : ascii := "<"%char.
Definition not_lt (c : ascii) : bool := negb (Ascii.eqb c lt_char).

(** Every [<] of [s] opens a section marker or, when [allow_page] is
    set, a page marker. *)
Fixpoint guarded (allow_page : bool) (s : str) : Prop :=
  match s with
  | [] => True
  | c :: s' =>
      (c = lt_char ->
       startswith (lit "!-- s") s' = true
       \/ (allow_page = true /\ startswith (lit "!-- p") s' = true))
      /\ guarded allow_page s'
  end.

Lemma startswith_app_r p s t : startswith p s = true -> startswith p (s ++ t) = true.
Proof.
  unfold startswith. destruct (strip_prefix p s) as [r|] eqn:E; [|discriminate].
  intros _. apply strip_prefix_Some in E. subst s.
  now rewrite <- app_assoc, strip_prefix_app.
Qed.

Lemma guarded_app b x y : guarded b x -> guarded b y -> guarded b (x ++ y).
Proof.
  induction x as [|c x IH]; cbn; [auto|].
  intros [Hc Hx] Hy. split; [|auto].
  intros E. destruct (Hc E) as [H|[Hb H]]; [left|right; split; [exact Hb|]];
    now apply startswith_app_r.
Qed.

Lemma guarded_not_lt b s : forallb not_lt s = true -> guarded b s.
Proof.
  induction s as [|c s IH]; cbn; [auto|].
  intros H. apply andb_true_iff in H as [Hc Hs]. split; [|auto].
  intros ->. discriminate.
Qed.

Lemma guarded_weaken s : guarded false s -> guarded true s.
Proof.
  induction s as [|c s IH]; cbn; [auto|].
  intros [Hc Hs]. split; [|auto]. intros E.
  destruct (Hc E) as [H|[Hb _]]; [now left | discriminate].
Qed.

Lemma guarded_flat_map {A} b (f : A -> str) xs :
  Forall (fun x => guarded b (f x)) xs -> guarded b (flat_map f xs).
Proof.
  induction 1; cbn; [exact I|]. now apply guarded_app.
Qed.

Lemma strip_prefix_cons a p c s :
  strip_prefix (a :: p) (c :: s)
  = if Ascii.eqb a c then strip_prefix p s else None.
Proof. reflexivity. Qed.

(** A literal that begins with [<] does not match at a character that is
    not [<]. *)
Lemma strip_prefix_lt p c s :
  c <> lt_char -> strip_prefix (lt_char :: p) (c :: s) = None.
Proof.
  intros H. rewrite strip_prefix_cons.
  destruct (Ascii.eqb_spec lt_char c); [congruence | reflexivity].
Qed.

(** At a guarded position the opening sentinel of the table of contents
    does not match. *)
Lemma toc_open_unmatched c s :
  guarded true (c :: s) -> strip_prefix (lit "<!-- toc -->") (c :: s) = None.
Proof.
  intros [Hc _].
  destruct (Ascii.eqb_spec c lt_char) as [->|Hn];
    [|now apply (@strip_prefix_lt (lit "!-- toc -->"))].
  destruct (Hc eq_refl) as [H|[_ H]]; unfold startswith in H;
    destruct (strip_prefix _ s) as [r|] eqn:E; try discriminate;
    apply strip_prefix_Some in E; subst s; reflexivity.
Qed.

Lemma strip_toc_guarded s :
  guarded true s ->
  forall fuel, (length s < fuel)%nat -> _strip_toc fuel s = Ok s.
Proof.
  induction s as [|c s IH]; intros Hg fuel Hf;
    (destruct fuel as [|fuel]; [cbn in Hf; lia|]).
  - reflexivity.
  - cbn [_strip_toc]. rewrite toc_open_unmatched by exact Hg.
    rewrite IH; [reflexivity | apply Hg | cbn in Hf; lia].
Qed.

Lemma after_first_not_lt a r :
  forallb not_lt a = true ->
  after_first (lit "<!-- /toc -->") (a ++ lit "<!-- /toc -->" ++ r) = Some r.
Proof.
  induction a as [|c a IH]; intros H.
  - cbn [app]. destruct (lit "<!-- /toc -->" ++ r) eqn:E; [discriminate|].
    cbn [after_first]. rewrite <- E. now rewrite strip_prefix_app.
  - apply andb_true_iff in H as [Hc Ha]. cbn [app after_first].
    replace (strip_prefix (lit "<!-- /toc -->") (c :: a ++ lit "<!-- /toc -->" ++ r))
      with (@None str).
    + apply IH, Ha.
    + symmetry. apply (@strip_prefix_lt (lit "!-- /toc -->")).
      intros ->. discriminate.
Qed.

(** Removing a table of contents whose lines hold no [<]. *)
Lemma strip_toc_block a ws r :
  forallb not_lt a = true -> forallb isspace ws = true ->
  clean_start r -> guarded true r ->
  forall fuel,
    (length (lit "<!-- toc -->" ++ a ++ lit "<!-- /toc -->" ++ ws ++ r) < fuel)%nat ->
    _strip_toc fuel (lit "<!-- toc -->" ++ a ++ lit "<!-- /toc -->" ++ ws ++ r)
    = Ok r.
Proof.
  intros Ha Hws Hr Hg fuel Hf.
  destruct fuel as [|fuel]; [lia|].
  remember (a ++ lit "<!-- /toc -->" ++ ws ++ r) as rest eqn:Erest.
  change (_strip_toc (S fuel) (lit "<!-- toc -->" ++ rest))
    with (match strip_prefix (lit "<!-- toc -->") (lit "<!-- toc -->" ++ rest) with
          | Some r0 =>
              match after_first (lit "<!-- /toc -->") r0 with
              | Some r' => _strip_toc fuel (lstrip r')
              | None =>
                  rest0 <- _strip_toc fuel (tl (lit "<!-- toc -->" ++ rest)) ;;
                  Ok ("<"%char :: rest0)
              end
          | None =>
              rest0 <- _strip_toc fuel (tl (lit "<!-- toc -->" ++ rest)) ;;
              Ok ("<"%char :: rest0)
          end).
  rewrite strip_prefix_app. subst rest.
  rewrite after_first_not_lt by exact Ha.
  unfold lstrip. rewrite dropwhile_all, dropwhile_clean by assumption.
  apply strip_toc_guarded; [exact Hg|].
  rewrite !length_app in Hf. cbn in Hf. lia.
Qed.

(** ** Page markers *)

Definition page_marker (digits : str) : str :=
  lit "<!-- page: " ++ digits ++ lit " -->".

Lemma match_page_marker_marker digits r :
  digits <> [] -> forallb isdigit digits = true ->
  match_page_marker (page_marker digits ++ r) = Some (digits, r).
Proof.
  intros Hne Hd. unfold match_page_marker, page_marker.
  rewrite <- !app_assoc, strip_prefix_app.
  rewrite takewhile_all, dropwhile_all by exact Hd.
  replace (takewhile isdigit (lit " -->" ++ r)) with (@nil ascii) by reflexivity.
  replace (dropwhile isdigit (lit " -->" ++ r)) with (lit " -->" ++ r)
    by reflexivity.
  rewrite app_nil_r, strip_prefix_app.
  destruct digits; [congruence | reflexivity].
Qed.

Lemma match_page_marker_guarded c s :
  guarded false (c :: s) -> forall r, match_page_marker ((c :: s) ++ r) = None.
Proof.
  intros [Hc _] r. unfold match_page_marker. cbn [app].
  destruct (Ascii.eqb_spec c lt_char) as [->|Hn].
  - destruct (Hc eq_refl) as [H|[H _]]; [|discriminate].
    unfold startswith in H.
    destruct (strip_prefix _ s) as [r0|] eqn:E; try discriminate.
    apply strip_prefix_Some in E; subst s; reflexivity.
  - now rewrite (@strip_prefix_lt (lit "!-- page: ")).
Qed.

(** Text without page marker stays in one part. *)
Lemma re_split_chunk chunk r p ps :
  guarded false chunk ->
  (forall fuel, (length r < fuel)%nat -> re_split_pages fuel r = Ok (p :: ps)) ->
  forall fuel,
    (length (chunk ++ r) < fuel)%nat ->
    re_split_pages fuel (chunk ++ r) = Ok ((chunk ++ p) :: ps).
Proof.
  intros Hg Hr. induction chunk as [|c chunk IH]; intros fuel Hf.
  - cbn. now apply Hr.
  - destruct fuel as [|fuel]; [lia|].
    change (re_split_pages (S fuel) ((c :: chunk) ++ r))
      with (match match_page_marker ((c :: chunk) ++ r) with
            | Some (digits, r0) =>
                parts <- re_split_pages fuel r0 ;; Ok ([] :: digits :: parts)
            | None =>
                parts <- re_split_pages fuel (chunk ++ r) ;;
                match parts with
                | p0 :: ps0 => Ok ((c :: p0) :: ps0)
                | [] => Ok [[c]]
                end
            end).
    rewrite match_page_marker_guarded by exact Hg.
    rewrite IH; [reflexivity | apply Hg | cbn in Hf; lia].
Qed.

Lemma re_split_at_marker fuel d r :
  d <> [] -> forallb isdigit d = true ->
  re_split_pages (S fuel) (page_marker d ++ r)
  = (parts <- re_split_pages fuel r ;; Ok ([] :: d :: parts)).
Proof.
  intros Hne Hd. pose proof (match_page_marker_marker r Hne Hd) as Hm.
  assert (E : exists x xs, page_marker d ++ r = x :: xs)
    by (do 2 eexists; reflexivity).
  destruct E as (x & xs & E). rewrite E in *.
  cbn [re_split_pages]. now rewrite Hm.
Qed.

Definition marked_chunk (dc : str * str) : str := page_marker (fst dc) ++ snd dc.

Lemma re_split_marked dcs :
  Forall (fun dc => fst dc <> [] /\ forallb isdigit (fst dc) = true
                    /\ guarded false (snd dc)) dcs ->
  forall fuel,
    (length (flat_map marked_chunk dcs) < fuel)%nat ->
    re_split_pages fuel (flat_map marked_chunk dcs)
    = Ok ([] :: flat_map (fun dc => [fst dc; snd dc]) dcs).
Proof.
  induction 1 as [|[d c] dcs (Hne & Hd & Hg) _ IH]; intros fuel Hf.
  - destruct fuel; [cbn in Hf; lia | reflexivity].
  - destruct fuel as [|fuel]; [lia|].
    cbn [fst snd] in Hne, Hd, Hg.
    change (flat_map marked_chunk ((d, c) :: dcs))
      with ((page_marker d ++ c) ++ flat_map marked_chunk dcs) in *.
    rewrite <- app_assoc in *.
    rewrite re_split_at_marker by assumption.
    rewrite (@re_split_chunk c _ [] (flat_map (fun dc => [fst dc; snd dc]) dcs)).
    + cbn. now rewrite app_nil_r.
    + exact Hg.
    + intros f Hlen. now apply IH.
    + rewrite length_app in Hf.
      assert (1 <= length (page_marker d))%nat by (cbn; lia). lia.
Qed.

Lemma page_pairs_marked dcs ns :
  Forall2 (fun dc n => int_of_str (fst dc) = Some n) dcs ns ->
  page_pairs (flat_map (fun dc => [fst dc; snd dc]) dcs)
  = Ok (List.combine ns (map snd dcs)).
Proof.
  induction 1 as [|[d c] n dcs ns Hn _ IH]; [reflexivity|].
  cbn [flat_map app page_pairs fst snd] in *. rewrite Hn, IH. reflexivity.
Qed.

End Sentinels.


(* ================================================================= *)
(** * The lines of a rendered page *)

Section Lines.

Import MarkdownConverter.

(** Plain text: letters, digits and inner spaces. *)
Definition plain (t : str) : Prop := forallb plain_char t = true /\ strip t = t.
Definition plain_text (t : str) : Prop := t <> [] /\ plain t.
(** A title: letters and digits, at least one. *)
Definition title_ok (t : str) : Prop := t <> [] /\ forallb isalnum t = true.

(** What a page is made of, as the parser sees it. *)
Inductive piece : Type :=
| UHeading (n : nat) (t : str)
| UPara (t : str)
| UItems (items : list (nat * str))
| UTable (header : list str) (data : list (list str)).

Definition marker_line (t : str) : str := lit "<!-- section: " ++ t ++ lit " -->".
Definition heading_line (n : nat) (t : str) : str :=
  repeat_str (lit "#") n ++ lit " " ++ t.
Definition item_line (it : nat * str) : str :=
  repeat_str (lit "  ") (fst it) ++ lit "- " ++ snd it.

Definition unit_lines (u : piece) : list str :=
  match u with
  | UHeading n t => [heading_line n t]
  | UPara t => [t]
  | UItems items => map item_line items
  | UTable header data =>
      table_line header :: table_line (repeat (lit "---") (length header))
        :: map table_line data
  end.

Definition item_block (it : nat * str) : TextBlock :=
  mkTextBlock (snd it) ((10 + inject_Z (Z.of_nat (fst it)) * 30)%Q, 0, 0, 0)%Q
              list_item.

Definition unit_blocks (u : piece) : list TextBlock :=
  match u with
  | UHeading n t => [mkTextBlock (heading_line n t) default_bbox heading]
  | UPara t => [mkTextBlock t default_bbox paragraph]
  | UItems items => map item_block items
  | UTable _ _ => []
  end.

Definition unit_tables (u : piece) : list Table :=
  match u with
  | UTable header data => [mkTable (header :: data)]
  | _ => []
  end.

Definition unit_ok (u : piece) : Prop :=
  match u with
  | UHeading n t => (1 <= n <= 6)%nat /\ title_ok t
  | UPara t => plain_text t
  | UItems items => items <> [] /\ Forall (fun it => plain_text (snd it)) items
  | UTable header data =>
      header <> [] /\ Forall plain header
      /\ Forall (fun r => r <> [] /\ Forall plain r) data
  end.

(** ** The first character decides *)

(** A character that starts neither white space nor any markup. *)
Definition ordinary (c : ascii) : bool :=
  negb (isspace c) && negb (Ascii.eqb c "<"%char) && negb (Ascii.eqb c "|"%char)
  && negb (Ascii.eqb c "-"%char) && negb (Ascii.eqb c "#"%char).

Lemma isalnum_ordinary c : isalnum c = true -> ordinary c = true.
Proof. destruct c as [[] [] [] [] [] [] [] []]; vm_compute; congruence. Qed.

Lemma ordinary_spec c :
  ordinary c = true ->
  isspace c = false /\ Ascii.eqb "<"%char c = false /\ Ascii.eqb "|"%char c = false
  /\ Ascii.eqb "-"%char c = false /\ Ascii.eqb "#"%char c = false.
Proof.
  unfold ordinary. rewrite !andb_true_iff, !negb_true_iff.
  rewrite !(Ascii.eqb_sym c). tauto.
Qed.

Lemma plain_char_first c : plain_char c = true -> isspace c = false -> isalnum c = true.
Proof. destruct c as [[] [] [] [] [] [] [] []]; vm_compute; congruence. Qed.

Lemma plain_text_first t :
  plain_text t -> exists c t', t = c :: t' /\ ordinary c = true.
Proof.
  intros [Hne [Hp Hs]]. destruct t as [|c t']; [congruence|].
  exists c, t'. split; [reflexivity|]. apply isalnum_ordinary, plain_char_first.
  - cbn in Hp. now apply andb_true_iff in Hp.
  - now destruct (clean_of_strip Hs).
Qed.

Lemma title_first t : title_ok t -> exists c t', t = c :: t' /\ isalnum c = true.
Proof.
  intros [Hne Ha]. destruct t as [|c t']; [congruence|].
  exists c, t'. split; [reflexivity|]. cbn in Ha. now apply andb_true_iff in Ha.
Qed.

Lemma title_clean t : title_ok t -> clean_start t /\ clean_end t.
Proof.
  intros [Hne Ha]. split.
  - destruct t as [|c t']; [exact I|]. cbn in *.
    apply andb_true_iff in Ha as [Hc _]. now apply isalnum_not_space.
  - unfold clean_end. assert (Hr : forallb isalnum (rev t) = true).
    { rewrite forallb_forall in *. intros x Hx. apply Ha. now apply in_rev. }
    destruct (rev t) as [|c r]; [exact I|]. cbn in *.
    apply andb_true_iff in Hr as [Hc _]. now apply isalnum_not_space.
Qed.

Lemma plain_clean t : plain t -> clean_start t /\ clean_end t.
Proof. intros [_ H]. now apply clean_of_strip. Qed.

(** A line that starts with an ordinary character and is stripped is
    paragraph text, for every test of the parser. *)
Lemma ordinary_line c l :
  ordinary c = true -> strip (c :: l) = c :: l ->
  is_blank (c :: l) = false /\ is_table_line (c :: l) = false
  /\ list_match (c :: l) = None /\ list_prefix_match (c :: l) = false
  /\ heading_match (strip (c :: l)) = None
  /\ heading_prefix_match (strip (c :: l)) = false
  /\ section_match (strip (c :: l)) = None
  /\ marker_match (strip (c :: l)) = false
  /\ is_section_marker_line (c :: l) = false.
Proof.
  intros Ho Hs. destruct (@ordinary_spec c Ho) as (Hsp & Hlt & Hbar & Hhy & Hha).
  assert (Hl : lstrip (c :: l) = c :: l) by (cbn; now rewrite Hsp).
  unfold is_blank, is_table_line, list_match, list_prefix_match, heading_match,
    heading_prefix_match, section_match, marker_match, is_section_marker_line,
    startswith.
  rewrite Hs, Hl.
  cbn [lit String.list_ascii_of_string takewhile dropwhile].
  rewrite !strip_prefix_cons, Hlt, Hbar, Hhy, Hha. cbn. tauto.
Qed.

Lemma plain_text_line t :
  plain_text t ->
  is_blank t = false /\ is_table_line t = false
  /\ list_match t = None /\ list_prefix_match t = false
  /\ heading_match (strip t) = None
  /\ heading_prefix_match (strip t) = false
  /\ section_match (strip t) = None
  /\ marker_match (strip t) = false
  /\ is_section_marker_line t = false.
Proof.
  intros H. destruct (plain_text_first H) as (c & t' & -> & Ho).
  apply ordinary_line; [exact Ho | apply H].
Qed.

Lemma plain_text_continues t : plain_text t -> continues_paragraph t = true.
Proof.
  intros H. destruct (plain_text_line H) as (H1 & H2 & _ & H4 & _ & H6 & _).
  unfold continues_paragraph. now rewrite H1, H2, H4, H6.
Qed.

End Lines.


(* ================================================================= *)
(** * How each kind of line parses *)

Section LineKinds.

Import MarkdownConverter.

Lemma repeat_str_all (p : ascii -> bool) s n :
  forallb p s = true -> forallb p (repeat_str s n) = true.
Proof.
  intros H. induction n as [|n IH]; cbn; [reflexivity|].
  now rewrite forallb_app, H, IH.
Qed.

Lemma repeat_str_length s n : length (repeat_str s n) = (n * length s)%nat.
Proof. induction n as [|n IH]; cbn; [reflexivity|]. rewrite length_app. lia. Qed.

(** ** Heading lines *)

Lemma heading_line_cons n t :
  heading_line (S n) t = "#"%char :: heading_line n t.
Proof. reflexivity. Qed.

Lemma heading_line_strip n t :
  (1 <= n)%nat -> title_ok t -> strip (heading_line n t) = heading_line n t.
Proof.
  intros Hn Ht. apply strip_clean.
  - destruct n; [lia | reflexivity].
  - unfold heading_line. rewrite app_assoc. apply clean_end_app; [apply Ht|].
    apply (title_clean Ht).
Qed.

Lemma heading_line_hashes n t :
  title_ok t ->
  takewhile (Ascii.eqb "#"%char) (heading_line n t) = repeat_str (lit "#") n
  /\ dropwhile (Ascii.eqb "#"%char) (heading_line n t) = " "%char :: t.
Proof.
  intros Ht. unfold heading_line.
  assert (H : forallb (Ascii.eqb "#"%char) (repeat_str (lit "#") n) = true)
    by (now apply repeat_str_all).
  rewrite takewhile_all, dropwhile_all by exact H. cbn. now rewrite app_nil_r.
Qed.

Lemma heading_line_match n t :
  (1 <= n <= 6)%nat -> title_ok t ->
  heading_match (heading_line n t) = Some (Z.of_nat n).
Proof.
  intros Hn Ht. unfold heading_match.
  destruct (heading_line_hashes n Ht) as [-> ->].
  rewrite repeat_str_length. cbn [length lit String.list_ascii_of_string].
  rewrite Nat.mul_1_r.
  replace ((1 <=? n)%nat && (n <=? 6)%nat) with true
    by (symmetry; apply andb_true_iff; split; apply Nat.leb_le; lia).
  destruct (title_first Ht) as (c & t' & -> & Hc).
  cbn [takewhile dropwhile]. change (isspace " ") with true. cbv iota.
  rewrite (isalnum_not_space _ Hc). reflexivity.
Qed.

Lemma heading_line_kind n t :
  (1 <= n <= 6)%nat -> title_ok t ->
  let l := heading_line n t in
  is_blank l = false /\ is_table_line l = false /\ list_match l = None
  /\ heading_match (strip l) = Some (Z.of_nat n)
  /\ section_match (strip l) = None /\ marker_match (strip l) = false
  /\ is_section_marker_line l = false.
Proof.
  intros Hn Ht l. subst l.
  pose proof (@heading_line_strip n t ltac:(lia) Ht) as Hs.
  pose proof (heading_line_match Hn Ht) as Hm.
  unfold is_blank, is_table_line. rewrite Hs, Hm.
  destruct n as [|n]; [lia|]. rewrite heading_line_cons. repeat split.
Qed.

(** ** List item lines *)

Lemma indent_spaces k : forallb isspace (repeat_str (lit "  ") k) = true.
Proof. now apply repeat_str_all. Qed.

Lemma item_line_lstrip it :
  lstrip (item_line it) = lit "- " ++ snd it.
Proof.
  unfold item_line, lstrip. now rewrite dropwhile_all by apply indent_spaces.
Qed.

Lemma item_line_strip it :
  plain_text (snd it) -> strip (item_line it) = lit "- " ++ snd it.
Proof.
  intros [Hne Hp]. unfold strip. rewrite item_line_lstrip.
  apply rstrip_clean, clean_end_app; [exact Hne | apply (plain_clean Hp)].
Qed.

Lemma item_line_match it :
  plain_text (snd it) ->
  list_match (item_line it) = Some ((fst it + fst it)%nat, snd it).
Proof.
  intros Ht. unfold list_match. rewrite item_line_lstrip, strip_prefix_app.
  destruct (plain_text_first Ht) as (c & t' & E & _). rewrite E.
  unfold item_line. rewrite takewhile_all by apply indent_spaces.
  cbn [lit String.list_ascii_of_string app takewhile].
  change (isspace "-") with false. cbv iota.
  rewrite app_nil_r, repeat_str_length. cbn [length].
  replace (fst it * 2)%nat with (fst it + fst it)%nat by lia. reflexivity.
Qed.

Lemma item_line_kind it :
  plain_text (snd it) ->
  let l := item_line it in
  is_blank l = false /\ is_table_line l = false
  /\ section_match (strip l) = None /\ marker_match (strip l) = false
  /\ is_section_marker_line l = false.
Proof.
  intros Ht l. subst l. unfold is_blank, is_table_line, is_section_marker_line.
  rewrite item_line_strip, item_line_lstrip by exact Ht. repeat split.
Qed.

(** ** Table lines *)

Definition pad (c : str) : str := lit " " ++ c ++ lit " ".

Definition cell_ok (c : str) : Prop := ~ In "|"%char c /\ strip c = c.

Lemma plain_cell_ok c : plain c -> cell_ok c.
Proof.
  intros [Hp Hs]. split; [|exact Hs].
  apply (@forallb_not_in plain_char c "|"%char Hp). reflexivity.
Qed.

Lemma tl_join_pad cs :
  tl_join (lit " | ") cs ++ lit " " = lit " " ++ tl_join (lit "|") (map pad cs).
Proof.
  induction cs as [|c cs IH]; [reflexivity|].
  cbn [map tl_join flat_map]. fold (tl_join (lit " | ") cs).
  fold (tl_join (lit "|") (map pad cs)). unfold pad at 1.
  rewrite <- !app_assoc, IH. reflexivity.
Qed.

Lemma padded_join cells :
  cells <> [] ->
  lit " " ++ join (lit " | ") cells ++ lit " " = join (lit "|") (map pad cells).
Proof.
  destruct cells as [|c cs]; [congruence|]. intros _.
  cbn [map]. rewrite !join_cons. unfold pad at 1.
  rewrite <- !app_assoc, tl_join_pad. reflexivity.
Qed.

Lemma table_line_pad cells :
  cells <> [] ->
  table_line cells = "|"%char :: join (lit "|") (map pad cells) ++ lit "|".
Proof.
  intros Hne. rewrite <- (padded_join Hne). unfold table_line.
  cbn [lit String.list_ascii_of_string app]. rewrite <- app_assoc. reflexivity.
Qed.

Lemma pad_cons c : pad c = " "%char :: (c ++ [" "%char]).
Proof. reflexivity. Qed.

Lemma pad_rev c : rev (pad c) = " "%char :: (rev c ++ [" "%char]).
Proof. rewrite pad_cons. cbn [rev]. now rewrite rev_app_distr. Qed.

Lemma pad_no_bar c : ~ In "|"%char c -> ~ In "|"%char (pad c).
Proof.
  intros H Hin. rewrite pad_cons in Hin. destruct Hin as [Hin|Hin]; [discriminate|].
  apply in_app_or in Hin as [Hin|[Hin|[]]]; [tauto | discriminate].
Qed.

Lemma split_padded cells :
  cells <> [] -> Forall cell_ok cells ->
  split "|" (join (lit "|") (map pad cells)) = map pad cells.
Proof.
  destruct cells as [|c cs]; [congruence|]. intros _ H.
  revert c H. induction cs as [|c' cs IH]; intros c H.
  - change (join (lit "|") (map pad [c])) with (pad c).
    change (map pad [c]) with [pad c].
    apply split_last. inversion H as [|? ? [Hc _] _]; subst.
    now apply pad_no_bar.
  - inversion H as [|? ? [Hc _] H']; subst.
    change (join (lit "|") (map pad (c :: c' :: cs)))
      with (pad c ++ "|"%char :: join (lit "|") (map pad (c' :: cs))).
    rewrite split_line by (now apply pad_no_bar).
    rewrite IH by exact H'. reflexivity.
Qed.

Lemma strip_padded c : cell_ok c -> strip (pad c) = c.
Proof.
  intros [_ Hs]. destruct c as [|x c]; [reflexivity|].
  destruct (clean_of_strip Hs) as [H1 H2].
  unfold pad. now apply strip_pad.
Qed.

Lemma join_pad_snoc cells :
  cells <> [] -> exists m, join (lit "|") (map pad cells) = m ++ [" "%char].
Proof.
  destruct cells as [|c cs]; [congruence|]. intros _. revert c.
  induction cs as [|c' cs IH]; intros c.
  - exists (" "%char :: c). reflexivity.
  - destruct (IH c') as [m E].
    change (join (lit "|") (map pad (c :: c' :: cs)))
      with (pad c ++ lit "|" ++ join (lit "|") (map pad (c' :: cs))).
    rewrite E. exists (pad c ++ lit "|" ++ m). now rewrite <- !app_assoc.
Qed.

Lemma join_pad_cons cells :
  cells <> [] -> exists m, join (lit "|") (map pad cells) = " "%char :: m.
Proof.
  destruct cells as [|c cs]; [congruence|]. intros _.
  cbn [map]. rewrite join_cons, pad_cons. eexists. reflexivity.
Qed.

Lemma strip_char_wrap x J a m b m' :
  J = a :: m -> J = m' ++ [b] ->
  Ascii.eqb x a = false -> Ascii.eqb x b = false ->
  strip_char x (x :: J ++ [x]) = J.
Proof.
  intros E E' Ha Hb. unfold strip_char.
  assert (H1 : dropwhile (Ascii.eqb x) (x :: J ++ [x]) = J ++ [x]).
  { cbn [dropwhile]. rewrite Ascii.eqb_refl, E. cbn [app dropwhile].
    now rewrite Ha. }
  rewrite H1, rev_app_distr. cbn [rev app dropwhile].
  rewrite Ascii.eqb_refl, E', rev_app_distr. cbn [rev app dropwhile].
  rewrite Hb. change (b :: rev m') with (rev [b] ++ rev m').
  rewrite <- rev_app_distr. apply rev_involutive.
Qed.

Lemma strip_char_table_line cells :
  cells <> [] ->
  strip_char "|" (table_line cells) = join (lit "|") (map pad cells).
Proof.
  intros Hne. rewrite (table_line_pad Hne).
  destruct (join_pad_cons Hne) as [m E].
  destruct (join_pad_snoc Hne) as [m' E'].
  change (lit "|") with ["|"%char] at 2.
  now apply (@strip_char_wrap "|"%char _ " "%char m " "%char m').
Qed.

Lemma table_cells_line cells :
  cells <> [] -> Forall cell_ok cells -> table_cells (table_line cells) = cells.
Proof.
  intros Hne H. unfold table_cells.
  rewrite strip_char_table_line, split_padded, map_map by assumption.
  rewrite <- (map_id cells) at 2. apply map_ext_in.
  intros c Hc. apply strip_padded. rewrite Forall_forall in H. auto.
Qed.

Lemma table_line_kind cells :
  let l := table_line cells in
  strip l = l /\ is_blank l = false /\ is_table_line l = true
  /\ section_match (strip l) = None /\ marker_match (strip l) = false
  /\ is_section_marker_line l = false.
Proof.
  intros l. subst l.
  assert (Hs : strip (table_line cells) = table_line cells).
  { apply strip_clean; [reflexivity|]. unfold table_line, clean_end.
    rewrite !rev_app_distr. reflexivity. }
  unfold is_blank, is_table_line. rewrite Hs. repeat split.
Qed.

Lemma separator_cells n : is_separator (repeat (lit "---") n) = true.
Proof. induction n as [|n IH]; [reflexivity|]. cbn in *. exact IH. Qed.

Lemma dashes_cell_ok : cell_ok (lit "---").
Proof. split; [|reflexivity]. cbn. intuition discriminate. Qed.

(** The rows that [_parse_table] reads from the lines of a rendered
    table. *)
Lemma table_rows_data i data :
  (2 <= i)%nat ->
  Forall (fun r => r <> [] /\ Forall cell_ok r) data ->
  table_rows i (map table_line data) = data.
Proof.
  intros Hi H. revert i Hi. induction H as [|r data [Hne Hr] _ IH]; intros i Hi.
  - reflexivity.
  - cbn [map table_rows]. rewrite table_cells_line by assumption.
    replace (i =? 1)%nat with false by (symmetry; apply Nat.eqb_neq; lia).
    cbn [andb]. now rewrite IH by lia.
Qed.

Lemma parse_table_lines header data :
  header <> [] -> Forall cell_ok header ->
  Forall (fun r => r <> [] /\ Forall cell_ok r) data ->
  _parse_table (unit_lines (UTable header data)) = Some (mkTable (header :: data)).
Proof.
  intros Hne Hh Hd. unfold _parse_table. cbn [unit_lines length].
  cbn [Nat.ltb Nat.leb]. cbn [table_rows].
  assert (Hsep : table_cells (table_line (repeat (lit "---") (length header)))
                 = repeat (lit "---") (length header)).
  { apply table_cells_line.
    - destruct header; [congruence | discriminate].
    - apply Forall_forall. intros c Hc. apply repeat_spec in Hc. subst c.
      apply dashes_cell_ok. }
  rewrite Hsep, table_cells_line by assumption.
  cbn [Nat.eqb andb]. rewrite separator_cells.
  now rewrite table_rows_data by (lia || assumption).
Qed.

End LineKinds.


(* ================================================================= *)
(** * Parsing the lines of a page *)

Section ParseUnits.

Import MarkdownConverter.

(** The next line, if any, is blank. *)
Definition blank_start (rest : list str) : Prop :=
  match rest with [] => True | l :: _ => l = [] end.

Lemma span_all (p : str -> bool) xs rest :
  Forall (fun x => p x = true) xs ->
  match rest with [] => True | l :: _ => p l = false end ->
  span p (xs ++ rest) = (xs, rest).
Proof.
  intros H Hr. induction H as [|x xs Hx _ IH]; cbn [app span].
  - destruct rest as [|l rest]; [reflexivity|]. cbn. now rewrite Hr.
  - now rewrite Hx, IH.
Qed.

Lemma parse_blank fuel rest b t :
  parse_content_loop (S fuel) ([] :: rest) b t = parse_content_loop fuel rest b t.
Proof. reflexivity. Qed.

Lemma parse_para fuel p rest b t :
  plain_text p -> blank_start rest ->
  parse_content_loop (S fuel) (p :: rest) b t
  = parse_content_loop fuel rest (b ++ [mkTextBlock p default_bbox paragraph]) t.
Proof.
  intros Hp Hr.
  destruct (plain_text_line Hp) as (H1 & H2 & H3 & _ & H5 & _).
  cbn [parse_content_loop]. rewrite H1, H2, H3, H5.
  change (span continues_paragraph (p :: rest))
    with (span continues_paragraph ([p] ++ rest)).
  rewrite (@span_all continues_paragraph [p] rest).
  - cbn [map join]. now rewrite (proj2 (proj2 Hp)).
  - constructor; [|constructor]. now apply plain_text_continues.
  - destruct rest as [|l rest]; [exact I|]. cbn in Hr. now subst l.
Qed.

Lemma parse_heading fuel n ti rest b t :
  (1 <= n <= 6)%nat -> title_ok ti ->
  parse_content_loop (S fuel) (heading_line n ti :: rest) b t
  = parse_content_loop fuel rest
      (b ++ [mkTextBlock (heading_line n ti) default_bbox heading]) t.
Proof.
  intros Hn Ht.
  destruct (heading_line_kind Hn Ht) as (H1 & H2 & H3 & H4 & _).
  cbn [parse_content_loop]. rewrite H1, H2, H3, H4.
  now rewrite heading_line_strip by (lia || assumption).
Qed.

Lemma half_double k : Z.of_nat (k + k) / 2 = Z.of_nat k.
Proof.
  rewrite Nat2Z.inj_add. symmetry. apply Z.div_unique with (r := 0); lia.
Qed.

Lemma parse_items items fuel rest b t :
  Forall (fun it => plain_text (snd it)) items ->
  parse_content_loop (length items + fuel) (map item_line items ++ rest) b t
  = parse_content_loop fuel rest (b ++ map item_block items) t.
Proof.
  intros H. revert b. induction H as [|it items Hit _ IH]; intros b.
  - cbn. now rewrite app_nil_r.
  - destruct (item_line_kind it Hit) as (H1 & H2 & _).
    cbn [length Nat.add map app parse_content_loop].
    rewrite H1, H2, (item_line_match it Hit), half_double, IH.
    cbn [map]. now rewrite <- app_assoc.
Qed.

Lemma parse_table fuel header data rest b t :
  unit_ok (UTable header data) -> blank_start rest ->
  parse_content_loop (S fuel) (unit_lines (UTable header data) ++ rest) b t
  = parse_content_loop fuel rest b (t ++ [mkTable (header :: data)]).
Proof.
  intros (Hne & Hh & Hd) Hr.
  assert (Hh' : Forall cell_ok header)
    by (eapply Forall_impl; [|exact Hh]; apply plain_cell_ok).
  assert (Hd' : Forall (fun r => r <> [] /\ Forall cell_ok r) data).
  { eapply Forall_impl; [|exact Hd]. intros r [? Hr']. split; [assumption|].
    eapply Forall_impl; [|exact Hr']. apply plain_cell_ok. }
  assert (Hall : Forall (fun l => is_table_line l = true /\ strip l = l)
                        (unit_lines (UTable header data))).
  { cbn [unit_lines]. repeat constructor; try apply table_line_kind.
    apply Forall_map, Forall_forall. intros r _. split; apply table_line_kind. }
  assert (Hspan : span is_table_line (unit_lines (UTable header data) ++ rest)
                  = (unit_lines (UTable header data), rest)).
  { apply span_all.
    - eapply Forall_impl; [|exact Hall]. now intros l [? _].
    - destruct rest as [|l rest]; [exact I|]. cbn in Hr. now subst l. }
  assert (Hstrip : map strip (unit_lines (UTable header data))
                   = unit_lines (UTable header data)).
  { rewrite <- (map_id (unit_lines _)) at 2. apply map_ext_in.
    intros l Hl. rewrite Forall_forall in Hall. now apply Hall. }
  remember (unit_lines (UTable header data)) as ls eqn:Els.
  assert (E : exists l ls', ls = l :: ls' /\ is_blank l = false
                            /\ is_table_line l = true).
  { subst ls. cbn [unit_lines]. do 2 eexists. split; [reflexivity|].
    split; apply table_line_kind. }
  destruct E as (l & ls' & E & Hb & Ht).
  rewrite E in Hspan |- *. cbn [app parse_content_loop].
  rewrite Hb, Ht. cbn [app] in Hspan. rewrite Hspan.
  rewrite <- E, Hstrip, Els.
  now rewrite parse_table_lines by assumption.
Qed.

(** Units, each after at least one blank line. *)
Definition spaced (us : list (nat * piece)) : list str :=
  flat_map (fun nu => repeat [] (S (fst nu)) ++ unit_lines (snd nu)) us.

Lemma spaced_blank_start us : blank_start (spaced us).
Proof. destruct us as [|[n u] us]; [exact I | reflexivity]. Qed.

Lemma parse_blanks n fuel rest b t :
  parse_content_loop (n + fuel) (repeat [] n ++ rest) b t
  = parse_content_loop fuel rest b t.
Proof. induction n as [|n IH]; [reflexivity|]. cbn [Nat.add repeat app]. now rewrite parse_blank. Qed.

(** The number of iterations of the main loop that a piece takes. *)
Definition unit_steps (u : piece) : nat :=
  match u with UItems items => length items | _ => 1%nat end.

Lemma parse_unit u fuel rest b t :
  unit_ok u -> blank_start rest ->
  parse_content_loop (unit_steps u + fuel) (unit_lines u ++ rest) b t
  = parse_content_loop fuel rest (b ++ unit_blocks u) (t ++ unit_tables u).
Proof.
  intros Hu Hr. destruct u as [n ti|p|items|header data];
    cbn [unit_steps unit_blocks unit_tables].
  - destruct Hu as [Hn Ht]. rewrite app_nil_r. now apply parse_heading.
  - rewrite app_nil_r. now apply parse_para.
  - destruct Hu as [_ Hi]. rewrite app_nil_r. now apply parse_items.
  - rewrite app_nil_r. now apply parse_table.
Qed.

Definition spaced_steps (us : list (nat * piece)) : nat :=
  fold_right (fun nu acc => S (fst nu) + unit_steps (snd nu) + acc)%nat O us.

Lemma parse_spaced us fuel b t :
  Forall (fun nu => unit_ok (snd nu)) us ->
  parse_content_loop (spaced_steps us + S fuel) (spaced us) b t
  = Ok (b ++ flat_map (fun nu => unit_blocks (snd nu)) us,
        t ++ flat_map (fun nu => unit_tables (snd nu)) us).
Proof.
  intros H. revert b t. induction H as [|[n u] us Hu _ IH]; intros b t.
  - cbn. now rewrite !app_nil_r.
  - cbn [spaced flat_map spaced_steps fold_right fst snd].
    fold (spaced us). fold (spaced_steps us).
    rewrite <- !Nat.add_assoc, <- app_assoc.
    rewrite (parse_blanks (S n)).
    rewrite parse_unit by (assumption || apply spaced_blank_start).
    rewrite IH. now rewrite <- !app_assoc.
Qed.

Lemma steps_le_lines us : (spaced_steps us <= length (spaced us))%nat.
Proof.
  induction us as [|[n u] us IH]; [cbn; lia|].
  cbn [spaced flat_map spaced_steps fold_right fst snd]. fold (spaced us).
  fold (spaced_steps us). rewrite !length_app, repeat_length.
  assert (unit_steps u <= length (unit_lines u))%nat.
  { destruct u; cbn; rewrite ?length_map; lia. }
  unfold str in *. lia.
Qed.

End ParseUnits.


(* ================================================================= *)
(** * Section markers *)

Section Markers.

Import MarkdownConverter.

Lemma marker_line_strip t : strip (marker_line t) = marker_line t.
Proof.
  apply strip_clean; [reflexivity|]. unfold marker_line, clean_end.
  rewrite !rev_app_distr. reflexivity.
Qed.

Lemma marker_line_match t : t <> [] -> section_match (marker_line t) = Some t.
Proof.
  intros Hne. unfold section_match, marker_line.
  rewrite strip_prefix_app, endswith_app, length_app. cbn [length lit String.list_ascii_of_string].
  replace (5 <=? length t + 4)%nat with true
    by (symmetry; apply Nat.leb_le; destruct t; [congruence | cbn; lia]).
  cbn [andb]. replace (length t + 4 - 4)%nat with (length t + 0)%nat by lia.
  now rewrite firstn_app_2, app_nil_r.
Qed.

Lemma marker_line_is_marker t :
  t <> [] ->
  is_section_marker_line (marker_line t) = true
  /\ marker_match (strip (marker_line t)) = true.
Proof.
  intros Hne. rewrite marker_line_strip. split; [|reflexivity].
  unfold is_section_marker_line.
  replace (lstrip (marker_line t)) with (marker_line t) by reflexivity.
  unfold marker_line at 1. rewrite strip_prefix_app.
  assert (Hr : rstrip (t ++ lit " -->") = t ++ lit " -->").
  { apply rstrip_clean. unfold clean_end. now rewrite rev_app_distr. }
  rewrite Hr, endswith_app, length_app. cbn [length lit String.list_ascii_of_string].
  apply andb_true_iff. split; [reflexivity|].
  apply Nat.leb_le. destruct t; [congruence | cbn; lia].
Qed.

(** A line that no test for markers recognises. *)
Definition non_marker (l : str) : Prop :=
  section_match (strip l) = None /\ marker_match (strip l) = false
  /\ is_section_marker_line l = false.

Lemma non_marker_blank : non_marker [].
Proof. repeat split. Qed.

Lemma non_marker_unit u : unit_ok u -> Forall non_marker (unit_lines u).
Proof.
  destruct u as [n t|p|items|header data]; cbn [unit_ok unit_lines].
  - intros [Hn Ht]. constructor; [|constructor].
    destruct (heading_line_kind Hn Ht) as (_ & _ & _ & _ & H).
    exact H.
  - intros Hp. constructor; [|constructor].
    destruct (plain_text_line Hp) as (_ & _ & _ & _ & _ & _ & H). exact H.
  - intros [_ H]. apply Forall_map. eapply Forall_impl; [|exact H].
    intros it Hit. destruct (item_line_kind it Hit) as (_ & _ & H'). exact H'.
  - intros _. repeat constructor; try apply table_line_kind.
    apply Forall_map, Forall_forall. intros r _.
    repeat split; apply table_line_kind.
Qed.

Lemma parse_sections_skip fuel l rest pn :
  non_marker l ->
  parse_sections_loop (S fuel) (l :: rest) pn
  = (r <- parse_sections_loop fuel rest pn ;;
     let '(sections, remaining_lines) := r in
     Ok (sections, l :: remaining_lines)).
Proof. intros (H & _). cbn [parse_sections_loop]. now rewrite H. Qed.

Lemma parse_sections_none ls pn :
  Forall non_marker ls ->
  forall fuel, (length ls < fuel)%nat ->
               parse_sections_loop fuel ls pn = Ok ([], ls).
Proof.
  induction 1 as [|l ls Hl _ IH]; intros fuel Hf;
    (destruct fuel as [|fuel]; [cbn in Hf; lia|]).
  - reflexivity.
  - rewrite parse_sections_skip by exact Hl.
    rewrite IH by (cbn in Hf; lia). reflexivity.
Qed.

Lemma parse_sections_marker fuel n t rest pn :
  (1 <= n <= 6)%nat -> title_ok t ->
  parse_sections_loop (S fuel) (marker_line t :: [] :: heading_line n t :: rest) pn
  = (let '(content_lines, rest') :=
       span (fun next_line => negb (marker_match (strip next_line))) rest in
     r <- parse_sections_loop fuel rest' pn ;;
     let '(sections, remaining_lines) := r in
     Ok (mkObj t (Z.of_nat n) (strip (join NL content_lines)) pn pn [] :: sections,
         remaining_lines)).
Proof.
  intros Hn Ht. cbn [parse_sections_loop].
  rewrite marker_line_strip, marker_line_match by apply Ht.
  destruct (heading_line_kind Hn Ht) as (Hb & _ & _ & Hm & _).
  cbn [skip_blank]. change (is_blank []) with true. cbv iota.
  rewrite Hb, Hm. now destruct (span _ rest).
Qed.

(** The lines that a section contributes to its page. *)
Definition section_lines (s : nat * str) : list str :=
  [[]; marker_line (snd s); []; heading_line (fst s) (snd s)].

Definition section_ok (s : nat * str) : Prop :=
  (1 <= fst s <= 6)%nat /\ title_ok (snd s).

(** The parsed object of a section on page [pn]. *)
Definition parsed_as (pn : Z) (s : nat * str) (o : obj) : Prop :=
  o_title o = snd s /\ o_level o = Z.of_nat (fst s)
  /\ o_page_start o = pn /\ o_page_end o = pn /\ o_subsections o = [].

Lemma parse_sections_from_marker pn tail :
  Forall non_marker tail ->
  forall secs s,
    Forall section_ok (s :: secs) ->
    forall fuel,
      (length (tl (section_lines s) ++ flat_map section_lines secs ++ tail) < fuel)%nat ->
      exists objs rem,
        parse_sections_loop fuel
          (tl (section_lines s) ++ flat_map section_lines secs ++ tail) pn
        = Ok (objs, rem)
        /\ Forall2 (parsed_as pn) (s :: secs) objs.
Proof.
  intros Htail. induction secs as [|s2 secs IH]; intros s Hok fuel Hf;
    inversion Hok as [|? ? [Hn Ht] Hok']; subst;
    (destruct fuel as [|fuel]; [cbn in Hf; lia|]);
    cbn [section_lines tl app flat_map] in Hf |- *;
    rewrite parse_sections_marker by assumption.
  - assert (Hs : span (fun next_line => negb (marker_match (strip next_line))) tail
                 = (tail, [])).
    { rewrite <- (app_nil_r tail) at 1. apply span_all; [|exact I].
      eapply Forall_impl; [|exact Htail]. intros l (_ & H & _). now rewrite H. }
    rewrite Hs. destruct fuel as [|fuel]; [cbn in Hf; lia|]. cbn.
    do 2 eexists. split; [reflexivity|]. repeat constructor.
  - remember (tl (section_lines s2) ++ flat_map section_lines secs ++ tail)
      as rest eqn:Erest.
    change ([] :: marker_line (snd s2) :: [] :: heading_line (fst s2) (snd s2)
               :: flat_map section_lines secs ++ tail)
      with ([[]] ++ tl (section_lines s2) ++ flat_map section_lines secs ++ tail)
      in Hf |- *.
    rewrite <- Erest in Hf |- *.
    rewrite (@span_all _ [[]] rest).
    + destruct (IH s2 Hok' fuel) as (objs & rem & E & HF).
      { rewrite <- Erest. cbn in Hf. lia. }
      rewrite <- Erest in E. rewrite E. cbn. do 2 eexists.
      split; [reflexivity|]. constructor; [repeat split | exact HF].
    + repeat constructor.
    + subst rest. cbn [section_lines tl app].
      inversion Hok' as [|? ? [_ Ht2] _]; subst.
      destruct (@marker_line_is_marker (snd s2)) as [_ H]; [apply Ht2|].
      now rewrite H.
Qed.

Lemma parse_sections_page pn secs tail :
  Forall section_ok secs -> Forall non_marker tail ->
  forall fuel,
    (length (flat_map section_lines secs ++ tail) < fuel)%nat ->
    exists objs rem,
      parse_sections_loop fuel (flat_map section_lines secs ++ tail) pn
      = Ok (objs, rem)
      /\ Forall2 (parsed_as pn) secs objs.
Proof.
  intros Hok Htail fuel Hf. destruct secs as [|s secs].
  - cbn [flat_map app] in *. rewrite parse_sections_none by assumption.
    do 2 eexists. split; [reflexivity | constructor].
  - destruct fuel as [|fuel]; [lia|].
    change (flat_map section_lines (s :: secs) ++ tail)
      with ([] :: tl (section_lines s) ++ flat_map section_lines secs ++ tail) in *.
    rewrite parse_sections_skip by apply non_marker_blank.
    destruct (@parse_sections_from_marker pn tail Htail secs s Hok fuel)
      as (objs & rem & E & HF); [cbn in Hf |- *; lia|].
    rewrite E. cbn. do 2 eexists. split; [reflexivity | exact HF].
Qed.

(** Deleting the marker lines of a page. *)
Lemma filter_markers secs tail :
  Forall section_ok secs -> Forall non_marker tail ->
  filter (fun line => negb (is_section_marker_line line))
         (flat_map section_lines secs ++ tail)
  = flat_map (fun s => [[]; []; heading_line (fst s) (snd s)]) secs ++ tail.
Proof.
  intros Hok Htail. rewrite filter_app. f_equal.
  - induction Hok as [|s secs [Hn Ht] _ IH]; [reflexivity|].
    cbn [flat_map app section_lines filter].
    destruct (@marker_line_is_marker (snd s)) as [H _]; [apply Ht|].
    destruct (heading_line_kind Hn Ht) as (_ & _ & _ & _ & _ & _ & H').
    rewrite H, H'. cbn. now rewrite <- IH.
  - induction Htail as [|l tail (_ & _ & H) _ IH]; [reflexivity|].
    cbn. now rewrite H, IH.
Qed.

End Markers.


(* ================================================================= *)
(** * What the renderer writes *)

Section Rendering.

Import MarkdownConverter.

(** The x-position of nesting level [k]. *)
Definition canonical_x (k : nat) : Q := (10 + inject_Z (Z.of_nat k) * 30)%Q.

(** The nesting level that [_render_list_items] gives an item. *)
Definition item_level (base_x : Q) (item : TextBlock) : nat :=
  let indent_offset := (bbox0 (bbox item) - base_x)%Q in
  Z.to_nat (if Qltb 15 indent_offset then int_of_Q (indent_offset / 30) else 0).

Definition item_of (base_x : Q) (item : TextBlock) : nat * str :=
  (item_level base_x item, text item).

Definition run_base (first : TextBlock) (others : list TextBlock) : Q :=
  min_of (bbox0 (bbox first)) (map (fun item => bbox0 (bbox item)) others).

Definition flush_items (items : list TextBlock) : list piece :=
  match items with
  | [] => []
  | first :: others => [UItems (map (item_of (run_base first others)) items)]
  end.

(** The units of a list of blocks, given the run of list items that is
    being collected: the loop of [_render_blocks]. *)
Fixpoint block_units (blocks items : list TextBlock) : list piece :=
  match blocks with
  | [] => flush_items items
  | block :: rest =>
      if is_list_item block then block_units rest (items ++ [block])
      else flush_items items ++ UPara (text block) :: block_units rest []
  end.

(** The text of a piece. *)
Definition unit_text (u : piece) : str := join NL (unit_lines u).

Lemma flush_units parts items :
  flush parts items = parts ++ map unit_text (flush_items items).
Proof.
  destruct items as [|first others]; unfold flush, flush_items.
  - cbn [map]. now rewrite app_nil_r.
  - f_equal. unfold _render_list_items, unit_text.
    change (map (fun u => join NL (unit_lines u)) [UItems ?x])
      with [join NL (map item_line x)].
    rewrite map_map. do 2 f_equal. apply map_ext. intros item.
    unfold list_item_line, item_line, item_of, item_level, run_base. cbn [fst snd].
    now rewrite <- app_assoc.
Qed.

Lemma render_blocks_units blocks parts items :
  render_blocks_loop blocks parts items
  = parts ++ map unit_text (block_units blocks items).
Proof.
  revert parts items. induction blocks as [|b blocks IH]; intros parts items;
    cbn [render_blocks_loop block_units].
  - apply flush_units.
  - destruct (is_list_item b); [apply IH|].
    rewrite IH, flush_units, map_app, <- !app_assoc. reflexivity.
Qed.

(** ** Units of well-formed content are well formed *)

Definition unit_flush (u : piece) : Prop :=
  match u with
  | UItems ((k, _) :: _) => k = 0%nat
  | _ => True
  end.

Lemma unit_lines_nonempty u :
  unit_ok u -> exists l ls, unit_lines u = l :: ls /\ l <> [].
Proof.
  destruct u as [n t|p|items|header data]; cbn [unit_ok unit_lines].
  - intros [Hn _]. do 2 eexists. split; [reflexivity|].
    destruct n; [lia | discriminate].
  - intros [Hne _]. eauto.
  - intros [Hne _]. destruct items as [|it items]; [congruence|].
    do 2 eexists. split; [reflexivity|]. unfold item_line.
    intros E. apply app_eq_nil in E as [_ E]. discriminate.
  - intros _. do 2 eexists. split; [reflexivity | discriminate].
Qed.

Lemma unit_text_nonempty u : unit_ok u -> nonempty (unit_text u) = true.
Proof.
  intros H. destruct (unit_lines_nonempty u H) as (l & ls & E & Hl).
  unfold unit_text. rewrite E, join_cons. destruct l; [congruence | reflexivity].
Qed.

Lemma filter_nonempty_units us :
  Forall unit_ok us -> filter nonempty (map unit_text us) = map unit_text us.
Proof.
  induction 1 as [|u us Hu _ IH]; [reflexivity|].
  cbn. now rewrite (unit_text_nonempty u Hu), IH.
Qed.

(** ** Joining *)

Lemma join_flatten sep x xs ys :
  join sep (join sep (x :: xs) :: ys) = join sep ((x :: xs) ++ ys).
Proof.
  cbn [app]. rewrite !join_cons, tl_join_app. now rewrite <- app_assoc.
Qed.

Lemma tl_join_blank_line l ls :
  NLNL ++ join NL (l :: ls) = tl_join NL ([] :: l :: ls).
Proof. rewrite join_cons. reflexivity. Qed.

Lemma tl_join_units us :
  Forall unit_ok us ->
  tl_join NLNL (map unit_text us)
  = tl_join NL (flat_map (fun u => [] :: unit_lines u) us).
Proof.
  induction 1 as [|u us Hu _ IH]; [reflexivity|].
  cbn [map tl_join flat_map]. fold (tl_join NLNL (map unit_text us)).
  fold (tl_join NL (flat_map (fun u => [] :: unit_lines u) us)).
  rewrite IH. change (flat_map (fun x => NL ++ x) ?l) with (tl_join NL l).
  rewrite tl_join_app. f_equal.
  destruct (unit_lines_nonempty u Hu) as (l & ls & E & _).
  unfold unit_text. rewrite E. apply tl_join_blank_line.
Qed.

End Rendering.


(* ================================================================= *)
(** * Documents that survive the round trip *)

Section CleanDocuments.

Import MarkdownConverter.

(** A block is a paragraph or a list item of plain text; a list item
    sits at the x-position of a nesting level. *)
Definition block_ok (b : TextBlock) : Prop :=
  plain_text (text b)
  /\ match block_type b with
     | paragraph => True
     | list_item => exists k, (bbox0 (bbox b) == canonical_x k)%Q
     | _ => False
     end.

Definition nonempty_list {A : Type} (l : list A) : bool :=
  match l with [] => false | _ => true end.

(** Every run of consecutive list items starts at nesting level 0. *)
Fixpoint runs_flush (after_item : bool) (blocks : list TextBlock) : Prop :=
  match blocks with
  | [] => True
  | b :: rest =>
      (is_list_item b = true -> after_item = false ->
       (bbox0 (bbox b) == canonical_x 0)%Q)
      /\ runs_flush (is_list_item b) rest
  end.

(** A table has a header of at least one column and rows of as many
    cells, all plain. *)
Definition table_ok (t : Table) : Prop :=
  match rows t with
  | [] => False
  | header :: data =>
      header <> [] /\ Forall plain header
      /\ Forall (fun r => length r = length header /\ Forall plain r) data
  end.

Definition content_ok (c : ExtractedContent) : Prop :=
  Forall block_ok (reading_order_blocks c)
  /\ runs_flush false (reading_order_blocks c)
  /\ Forall table_ok (tables c)
  /\ (reading_order_blocks c = [] -> body_text c = []).

Definition table_unit (t : Table) : piece :=
  match rows t with
  | [] => UTable [] []
  | header :: data => UTable header data
  end.

Definition content_units (c : ExtractedContent) : list piece :=
  block_units (reading_order_blocks c) [] ++ map table_unit (tables c).

(** ** Tables *)

Lemma render_table_unit t :
  table_ok t ->
  _render_table t = unit_text (table_unit t)
  /\ unit_ok (table_unit t) /\ unit_tables (table_unit t) = [t].
Proof.
  unfold table_ok, _render_table, table_unit, unit_text.
  destruct t as [[|header data]]; cbn [rows]; [tauto|].
  intros (Hne & Hh & Hd). split; [|split].
  - cbn [unit_lines app].
    assert (E : map (fun row => table_line
                        (firstn (length header)
                           (row ++ repeat [] (length header - length row)))) data
                = map table_line data).
    { apply map_ext_in. intros r Hr.
      rewrite Forall_forall in Hd. destruct (Hd r Hr) as [Hl _].
      unfold str in *. rewrite Hl, Nat.sub_diag. cbn [repeat].
      rewrite app_nil_r, <- Hl. now rewrite firstn_all. }
    unfold str in *. now rewrite E.
  - cbn [unit_ok]. split; [exact Hne|]. split; [exact Hh|].
    eapply Forall_impl; [|exact Hd]. intros r [Hl Hr]. split; [|exact Hr].
    intros ->. destruct header; [congruence | discriminate].
  - reflexivity.
Qed.

(** ** The base of a run and the levels of its items *)

Lemma min_of_head x ys : Forall (fun y => (x <= y)%Q) ys -> min_of x ys = x.
Proof.
  unfold min_of. induction 1 as [|y ys Hy _ IH]; [reflexivity|].
  cbn [fold_left]. now rewrite (proj2 (Qltb_ge y x) Hy).
Qed.

Lemma int_of_Q_inject q z : (q == inject_Z z)%Q -> int_of_Q q = z.
Proof.
  unfold Qeq, int_of_Q. cbn. rewrite Z.mul_1_r. intros ->.
  apply Z.quot_mul. discriminate.
Qed.

Lemma canonical_offset x base k :
  (base == canonical_x 0)%Q -> (x == canonical_x k)%Q ->
  (x - base == inject_Z (Z.of_nat k * 30))%Q.
Proof.
  intros -> ->. unfold canonical_x, Qeq, Qminus, Qplus, Qmult, Qopp, inject_Z.
  cbn [Qnum Qden Pos.mul]. lia.
Qed.

Lemma item_level_canonical base item k :
  (base == canonical_x 0)%Q -> (bbox0 (bbox item) == canonical_x k)%Q ->
  item_level base item = k.
Proof.
  intros Hb Hx. unfold item_level. cbv zeta.
  pose proof (canonical_offset Hb Hx) as Ho.
  destruct (Qltb 15 (bbox0 (bbox item) - base)) eqn:E.
  - rewrite (@int_of_Q_inject _ (Z.of_nat k)); [lia|].
    rewrite Ho. unfold Qeq, Qdiv, Qmult, Qinv, inject_Z.
    cbn [Qnum Qden Pos.mul]. lia.
  - apply Qltb_ge in E. rewrite Ho in E. unfold Qle, inject_Z in E.
    cbn [Qnum Qden] in E. lia.
Qed.

Lemma canonical_x_le k : (canonical_x 0 <= canonical_x k)%Q.
Proof.
  unfold canonical_x, Qle, Qplus, Qmult, inject_Z. cbn [Qnum Qden Pos.mul]. lia.
Qed.

End CleanDocuments.


(* ================================================================= *)
(** * From blocks to units and back *)

Section BlocksAndUnits.

Import MarkdownConverter.

(** What the round trip keeps of a block: its kind, its text and, for a
    list item, its x-position. *)
Definition block_sim (b b' : TextBlock) : Prop :=
  block_type b' = block_type b /\ text b' = text b
  /\ (is_list_item b = true -> (bbox0 (bbox b') == bbox0 (bbox b))%Q).

Lemma is_list_item_type b : is_list_item b = true -> block_type b = list_item.
Proof. unfold is_list_item. destruct (block_type b); congruence. Qed.

Definition head_flush (items : list TextBlock) : Prop :=
  match items with
  | [] => True
  | first :: _ => (bbox0 (bbox first) == canonical_x 0)%Q
  end.

Definition all_items (items : list TextBlock) : Prop :=
  Forall (fun b => block_ok b /\ is_list_item b = true) items.

Lemma item_canonical b :
  block_ok b -> is_list_item b = true ->
  exists k, (bbox0 (bbox b) == canonical_x k)%Q.
Proof.
  intros [_ H] Hi. now rewrite (is_list_item_type b Hi) in H.
Qed.

Lemma flush_items_spec items :
  all_items items -> head_flush items ->
  Forall (fun u => unit_ok u /\ unit_flush u) (flush_items items)
  /\ Forall2 block_sim items (flat_map unit_blocks (flush_items items)).
Proof.
  intros Hall Hhead. destruct items as [|first others]; [split; constructor|].
  cbn [head_flush] in Hhead. unfold flush_items.
  assert (Hbase : run_base first others = bbox0 (bbox first)).
  { apply min_of_head. inversion Hall as [|? ? _ Ho]; subst.
    apply Forall_map. eapply Forall_impl; [|exact Ho].
    intros b [Hb Hi]. destruct (item_canonical Hb Hi) as [k Hk].
    rewrite Hhead, Hk. apply canonical_x_le. }
  rewrite Hbase. set (base := bbox0 (bbox first)) in *.
  assert (Hlevel : forall b, In b (first :: others) ->
                             exists k, (bbox0 (bbox b) == canonical_x k)%Q
                                       /\ item_level base b = k).
  { intros b Hin. unfold all_items in Hall. rewrite Forall_forall in Hall.
    destruct (Hall b Hin) as [Hb Hi].
    destruct (item_canonical Hb Hi) as [k Hk]. exists k. split; [exact Hk|].
    now apply item_level_canonical. }
  split.
  - constructor; [|constructor]. split.
    + cbn [unit_ok]. split; [discriminate|].
      apply Forall_map. eapply Forall_impl; [|exact Hall].
      intros b [[Hb _] _]. exact Hb.
    + cbn [map unit_flush item_of].
      destruct (Hlevel first (or_introl eq_refl)) as (k & Hk & Hl).
      rewrite Hl. subst base. rewrite Hhead in Hk.
      unfold canonical_x, Qeq, Qplus, Qmult, inject_Z in Hk.
      cbn [Qnum Qden Pos.mul] in Hk. lia.
  - cbn [flat_map unit_blocks]. rewrite app_nil_r, map_map.
    remember (first :: others) as items eqn:E. clear E Hbase Hhead.
    induction items as [|b items IH]; [constructor|].
    cbn [map]. constructor.
    + destruct (Hlevel b (or_introl eq_refl)) as (k & Hk & Hl).
      assert (Hi : is_list_item b = true)
        by (inversion Hall as [|? ? [_ Hi] _]; exact Hi).
      unfold block_sim, item_block, item_of. cbn [fst snd text bbox block_type bbox0].
      rewrite (is_list_item_type b Hi). split; [reflexivity|].
      split; [reflexivity|]. intros _. rewrite Hl, Hk. reflexivity.
    + apply IH.
      * now inversion Hall.
      * intros b' Hb'. apply Hlevel. now right.
Qed.

Lemma all_items_snoc items b :
  all_items items -> block_ok b -> is_list_item b = true ->
  all_items (items ++ [b]).
Proof.
  intros H Hb Hi. apply Forall_app. split; [exact H|].
  constructor; [split; assumption | constructor].
Qed.

Lemma block_units_spec blocks :
  forall items,
    all_items items -> head_flush items ->
    Forall block_ok blocks -> runs_flush (nonempty_list items) blocks ->
    Forall (fun u => unit_ok u /\ unit_flush u) (block_units blocks items)
    /\ Forall2 block_sim (items ++ blocks)
                         (flat_map unit_blocks (block_units blocks items)).
Proof.
  induction blocks as [|b blocks IH]; intros items Hall Hhead Hok Hrun.
  - cbn [block_units]. rewrite app_nil_r. now apply flush_items_spec.
  - inversion Hok as [|? ? Hb Hok']; subst. destruct Hrun as [Hfirst Hrun].
    cbn [block_units]. destruct (is_list_item b) eqn:Hi.
    + destruct (IH (items ++ [b])) as [H1 H2].
      * now apply all_items_snoc.
      * destruct items as [|f items]; [|exact Hhead].
        cbn. apply Hfirst; reflexivity.
      * exact Hok'.
      * replace (nonempty_list (items ++ [b])) with true
          by (now destruct items). exact Hrun.
      * split; [exact H1|]. now rewrite <- app_assoc in H2.
    + destruct (flush_items_spec Hall Hhead) as [F1 F2].
      destruct (IH []) as [H1 H2];
        [constructor | exact I | exact Hok' | exact Hrun |].
      assert (Hpara : block_type b = paragraph).
      { destruct Hb as [_ Hb]. unfold is_list_item in Hi.
        destruct (block_type b); congruence || tauto. }
      split.
      * apply Forall_app. split; [exact F1|]. constructor; [|exact H1].
        split; [apply Hb | exact I].
      * rewrite flat_map_app. apply Forall2_app; [exact F2|].
        cbn [flat_map unit_blocks app]. constructor; [|exact H2].
        unfold block_sim. cbn [block_type text]. rewrite Hi.
        repeat split; [now rewrite Hpara | discriminate].
Qed.

Lemma block_units_nonempty blocks items :
  blocks <> [] -> block_units blocks items <> [].
Proof.
  revert items. induction blocks as [|b blocks IH]; intros items Hne;
    [congruence|].
  cbn [block_units]. destruct (is_list_item b).
  - destruct blocks as [|b' blocks].
    + cbn. now destruct items.
    + apply IH. discriminate.
  - intros E. apply app_eq_nil in E as [_ E]. discriminate.
Qed.

Lemma block_units_no_table blocks items :
  flat_map unit_tables (block_units blocks items) = [].
Proof.
  revert items. induction blocks as [|b blocks IH]; intros items;
    cbn [block_units].
  - now destruct items.
  - destruct (is_list_item b); [apply IH|].
    rewrite flat_map_app. cbn [flat_map unit_tables app]. rewrite IH.
    now destruct items.
Qed.

Lemma table_units_blocks ts : flat_map unit_blocks (map table_unit ts) = [].
Proof.
  induction ts as [|t ts IH]; [reflexivity|].
  cbn [map flat_map]. rewrite IH. unfold table_unit. now destruct (rows t).
Qed.

Lemma table_units_tables ts :
  Forall table_ok ts -> flat_map unit_tables (map table_unit ts) = ts.
Proof.
  induction 1 as [|t ts Ht _ IH]; [reflexivity|].
  cbn [map flat_map]. rewrite IH.
  destruct (render_table_unit t Ht) as (_ & _ & E). now rewrite E.
Qed.

Lemma table_units_ok ts :
  Forall table_ok ts ->
  Forall (fun u => unit_ok u /\ unit_flush u) (map table_unit ts).
Proof.
  intros H. apply Forall_map. eapply Forall_impl; [|exact H].
  intros t Ht. destruct (render_table_unit t Ht) as (_ & Hu & _).
  split; [exact Hu|]. unfold table_unit. now destruct (rows t).
Qed.

Lemma content_units_spec c :
  content_ok c ->
  Forall (fun u => unit_ok u /\ unit_flush u) (content_units c)
  /\ Forall2 block_sim (reading_order_blocks c)
                       (flat_map unit_blocks (content_units c))
  /\ flat_map unit_tables (content_units c) = tables c.
Proof.
  intros (Hb & Hr & Ht & _). unfold content_units.
  destruct (@block_units_spec (reading_order_blocks c) [])
    as [H1 H2]; [constructor | exact I | exact Hb | exact Hr |].
  split; [|split].
  - apply Forall_app. split; [exact H1 | now apply table_units_ok].
  - now rewrite flat_map_app, table_units_blocks, app_nil_r.
  - now rewrite flat_map_app, block_units_no_table, table_units_tables.
Qed.

Lemma render_content_units c :
  content_ok c ->
  _render_content c = join NLNL (map unit_text (content_units c)).
Proof.
  intros Hc. destruct (content_units_spec Hc) as (Hu & _ & _).
  assert (Hu' : Forall unit_ok (content_units c))
    by (eapply Forall_impl; [|exact Hu]; now intros u [? _]).
  destruct Hc as (Hb & Hr & Ht & Hbody). unfold _render_content, content_units in *.
  assert (Etab : map _render_table (tables c)
                 = map unit_text (map table_unit (tables c))).
  { rewrite map_map. apply map_ext_in. intros t Hin.
    rewrite Forall_forall in Ht.
    exact (proj1 (render_table_unit t (Ht t Hin))). }
  rewrite Etab. apply Forall_app in Hu' as [Hbu Htu].
  destruct (reading_order_blocks c) as [|b bs] eqn:E.
  - rewrite (Hbody eq_refl). cbn [nonempty app block_units flush_items map].
    now rewrite filter_nonempty_units.
  - unfold _render_blocks. rewrite render_blocks_units. cbn [app].
    rewrite filter_nonempty_units by exact Hbu.
    pose proof (@block_units_nonempty (b :: bs) [] ltac:(discriminate)) as Hne.
    destruct (block_units (b :: bs) []) as [|u us]; [congruence|].
    inversion Hbu as [|? ? Hu0 _]; subst.
    cbn [filter].
    replace (nonempty (join NLNL (map unit_text (u :: us)))) with true.
    + rewrite filter_nonempty_units by exact Htu.
      rewrite map_app. cbn [map]. now rewrite join_flatten.
    + cbn [map]. rewrite join_cons.
      pose proof (unit_text_nonempty u Hu0) as Hn.
      destruct (unit_text u); [discriminate | reflexivity].
Qed.

End BlocksAndUnits.


(* ================================================================= *)
(** * The characters and the ends of rendered lines *)

Section LineShapes.

Import MarkdownConverter.

(** The characters of the lines of a piece. *)
Definition content_char (c : ascii) : bool :=
  plain_char c || Ascii.eqb c "|"%char || Ascii.eqb c "-"%char
  || Ascii.eqb c "#"%char.

Lemma plain_content c : plain_char c = true -> content_char c = true.
Proof. unfold content_char. now intros ->. Qed.

Lemma content_not_lt c : content_char c = true -> not_lt c = true.
Proof. destruct c as [[] [] [] [] [] [] [] []]; vm_compute; congruence. Qed.

Lemma content_not_nl c : content_char c = true -> c <> nl.
Proof. intros H ->. vm_compute in H. discriminate. Qed.

Lemma content_is_line l : forallb content_char l = true -> is_line l.
Proof.
  intros H Hin. rewrite forallb_forall in H. now apply (content_not_nl (H _ Hin)).
Qed.

Lemma content_guarded b l : forallb content_char l = true -> guarded b l.
Proof.
  intros H. apply guarded_not_lt.
  apply forallb_impl with (p := content_char); [apply content_not_lt | exact H].
Qed.

Lemma forallb_join (p : ascii -> bool) sep parts :
  forallb p sep = true -> Forall (fun x => forallb p x = true) parts ->
  forallb p (join sep parts) = true.
Proof.
  intros Hs H. destruct H as [|x xs Hx H]; [reflexivity|].
  rewrite join_cons, forallb_app, Hx. cbn [andb].
  induction H as [|y ys Hy _ IH]; [reflexivity|].
  unfold tl_join in *. cbn [flat_map]. now rewrite !forallb_app, Hs, Hy, IH.
Qed.

Lemma plain_chars t : plain t -> forallb content_char t = true.
Proof.
  intros [H _]. apply forallb_impl with (p := plain_char); [apply plain_content | exact H].
Qed.

Lemma title_chars t : title_ok t -> forallb content_char t = true.
Proof.
  intros [_ H]. apply forallb_impl with (p := isalnum); [|exact H].
  intros c Hc. now apply plain_content, isalnum_plain.
Qed.

Lemma table_line_chars cells :
  Forall plain cells -> forallb content_char (table_line cells) = true.
Proof.
  intros H. unfold table_line. rewrite !forallb_app.
  rewrite forallb_join; [reflexivity | reflexivity |].
  eapply Forall_impl; [|exact H]. apply plain_chars.
Qed.

(** What every line of a piece is like. *)
Definition line_ok (l : str) : Prop :=
  l <> [] /\ forallb content_char l = true /\ clean_end l.

Lemma table_line_ok cells : Forall plain cells -> line_ok (table_line cells).
Proof.
  intros H. split; [discriminate|]. split; [now apply table_line_chars|].
  unfold table_line, clean_end. rewrite !rev_app_distr. reflexivity.
Qed.

Lemma dashes_plain n : Forall (fun c => forallb content_char c = true)
                              (repeat (lit "---") n).
Proof. apply Forall_forall. intros c Hc. apply repeat_spec in Hc. now subst. Qed.

Lemma unit_lines_ok u : unit_ok u -> Forall line_ok (unit_lines u).
Proof.
  destruct u as [n t|p|items|header data]; cbn [unit_ok unit_lines].
  - intros [Hn Ht]. constructor; [|constructor]. split; [|split].
    + destruct n; [lia | discriminate].
    + unfold heading_line. rewrite !forallb_app, (title_chars Ht).
      rewrite repeat_str_all by reflexivity. reflexivity.
    + unfold heading_line. rewrite app_assoc.
      apply clean_end_app; [apply Ht | apply (title_clean Ht)].
  - intros [Hne Hp]. constructor; [|constructor]. split; [exact Hne|].
    split; [now apply plain_chars | apply (plain_clean Hp)].
  - intros [_ H]. apply Forall_map. eapply Forall_impl; [|exact H].
    intros it [Hne Hp]. unfold item_line. split; [|split].
    + intros E. apply app_eq_nil in E as [_ E]. discriminate.
    + rewrite !forallb_app, (plain_chars Hp).
      rewrite repeat_str_all by reflexivity. reflexivity.
    + rewrite app_assoc. apply clean_end_app; [exact Hne | apply (plain_clean Hp)].
  - intros (Hne & Hh & Hd). constructor; [now apply table_line_ok|].
    constructor.
    + split; [discriminate|]. split.
      * unfold table_line. rewrite !forallb_app.
        rewrite forallb_join; [reflexivity | reflexivity | apply dashes_plain].
      * unfold table_line, clean_end. rewrite !rev_app_distr. reflexivity.
    + apply Forall_map. eapply Forall_impl; [|exact Hd].
      intros r [_ Hr]. now apply table_line_ok.
Qed.

Lemma unit_first_clean u l ls :
  unit_ok u -> unit_flush u -> unit_lines u = l :: ls -> clean_start l.
Proof.
  destruct u as [n t|p|items|header data]; cbn [unit_ok unit_lines unit_flush].
  - intros [Hn _] _ [= <- _]. destruct n; [lia | reflexivity].
  - intros [_ Hp] _ [= <- _]. apply (plain_clean Hp).
  - intros _ Hf E. destruct items as [|[k t] items]; [discriminate|].
    subst k. injection E as <- _. reflexivity.
  - intros _ _ [= <- _]. reflexivity.
Qed.

(** Lines that end with the last line of a piece. *)
Definition ends_ok (ls : list str) : Prop :=
  exists init l, ls = init ++ [l] /\ line_ok l.

Lemma ends_ok_app a b : ends_ok b -> ends_ok (a ++ b).
Proof.
  intros (init & l & -> & Hl). exists (a ++ init), l.
  split; [now rewrite app_assoc | exact Hl].
Qed.

Lemma ends_ok_unit u : unit_ok u -> ends_ok (unit_lines u).
Proof.
  intros Hu. pose proof (unit_lines_ok u Hu) as H.
  destruct (unit_lines_nonempty u Hu) as (l & ls & E & _). rewrite E in *.
  destruct (@exists_last _ (l :: ls)) as (init & x & Ex); [discriminate|].
  exists init, x. split; [exact Ex|]. rewrite Ex in H.
  apply Forall_app in H as [_ H]. now inversion H.
Qed.

Lemma ends_ok_spaced u us :
  unit_ok u -> Forall (fun nu => unit_ok (snd nu)) us ->
  ends_ok (unit_lines u ++ spaced us).
Proof.
  intros Hu H. revert u Hu. induction H as [|[n v] us Hv _ IH]; intros u Hu.
  - cbn [spaced flat_map]. rewrite app_nil_r. now apply ends_ok_unit.
  - cbn [spaced flat_map fst snd]. fold (spaced us).
    rewrite <- app_assoc. apply ends_ok_app, ends_ok_app. now apply IH.
Qed.

Lemma join_ends init l :
  exists m, join NL (init ++ [l]) = m ++ l.
Proof.
  destruct init as [|x init].
  - exists []. reflexivity.
  - cbn [app]. rewrite join_cons, tl_join_app. cbn [tl_join flat_map].
    rewrite app_nil_r. exists (x ++ tl_join NL init ++ NL).
    now rewrite <- !app_assoc.
Qed.

Lemma clean_end_join ls : ends_ok ls -> clean_end (join NL ls).
Proof.
  intros (init & l & -> & Hne & _ & Hc).
  destruct (join_ends init l) as [m ->]. now apply clean_end_app.
Qed.

Lemma spaced_lines us :
  Forall (fun nu => unit_ok (snd nu)) us -> Forall is_line (spaced us).
Proof.
  induction 1 as [|[n u] us Hu _ IH]; [constructor|].
  cbn [spaced flat_map fst snd]. fold (spaced us). rewrite <- app_assoc.
  apply Forall_app. split; [|apply Forall_app; split; [|exact IH]].
  - apply Forall_forall. intros l Hl. apply repeat_spec in Hl. subst l.
    intros [].
  - eapply Forall_impl; [|apply (unit_lines_ok u Hu)].
    intros l (_ & H & _). now apply content_is_line.
Qed.

Lemma tl_join_blanks n : forallb isspace (tl_join NL (repeat [] n)) = true.
Proof. induction n as [|n IH]; [reflexivity|]. cbn. exact IH. Qed.

End LineShapes.


(* ================================================================= *)
(** * A rendered page, parsed *)

Section PageRoundTrip.

Import MarkdownConverter.

Definition flush_ok (u : piece) : Prop := unit_ok u /\ unit_flush u.

(** The content that the parser builds from units. *)
Definition parsed_content (us : list (nat * piece)) : ExtractedContent :=
  let blocks := flat_map (fun nu => unit_blocks (snd nu)) us in
  mkExtractedContent (join NLNL (map text (filter is_paragraph blocks)))
                     [] [] (flat_map (fun nu => unit_tables (snd nu)) us) blocks.

Lemma tl_join_length (ls : list str) : (length ls <= length (tl_join NL ls))%nat.
Proof.
  induction ls as [|l ls IH]; [cbn; lia|].
  cbn [tl_join flat_map]. fold (tl_join NL ls).
  rewrite !length_app. cbn [length NL]. unfold str in *. lia.
Qed.

Lemma parse_page_text us n :
  Forall (fun nu => flush_ok (snd nu)) us ->
  forall fuel, (length (spaced us) < fuel)%nat ->
  _parse_extracted_content fuel (tl_join NL (spaced us ++ repeat [] n))
  = Ok (parsed_content us).
Proof.
  intros H fuel Hf. destruct H as [|[k u] us [Hu Hfl] H].
  - cbn [spaced flat_map app]. unfold _parse_extracted_content.
    rewrite strip_blank by apply tl_join_blanks. reflexivity.
  - cbn [fst snd] in Hu, Hfl.
    assert (Hok : Forall (fun nu => unit_ok (snd nu)) us).
    { eapply Forall_impl; [|exact H]. now intros nu [? _]. }
    destruct (unit_lines_nonempty u Hu) as (l & ls & E & Hne).
    pose proof (steps_le_lines ((k, u) :: us)) as Hsteps.
    set (core := unit_lines u ++ spaced us).
    assert (Espaced : spaced ((k, u) :: us) = repeat [] (S k) ++ core).
    { unfold core, spaced. cbn [flat_map fst snd]. now rewrite <- app_assoc. }
    assert (Ecore : core = l :: (ls ++ spaced us)) by (unfold core; now rewrite E).
    assert (Hlines : Forall is_line core).
    { unfold core. apply Forall_app. split; [|now apply spaced_lines].
      eapply Forall_impl; [|apply (unit_lines_ok u Hu)].
      intros x (_ & Hx & _). now apply content_is_line. }
    assert (Hstart : clean_start l).
    { eapply unit_first_clean; eassumption. }
    assert (Etext : tl_join NL (spaced ((k, u) :: us) ++ repeat [] n)
                    = (tl_join NL (repeat [] (S k)) ++ NL)
                        ++ join NL core ++ tl_join NL (repeat [] n)).
    { rewrite Espaced, !tl_join_app, Ecore, join_cons.
      cbn [tl_join flat_map]. now rewrite <- !app_assoc. }
    assert (Hjne : join NL core <> []).
    { rewrite Ecore, join_cons. destruct l; [congruence | discriminate]. }
    assert (Estrip : strip (tl_join NL (spaced ((k, u) :: us) ++ repeat [] n))
                     = join NL core).
    { rewrite Etext. apply strip_pad.
      - rewrite forallb_app, tl_join_blanks. reflexivity.
      - apply tl_join_blanks.
      - exact Hjne.
      - rewrite Ecore, join_cons. now apply clean_start_app.
      - apply clean_end_join. unfold core. now apply ends_ok_spaced. }
    unfold _parse_extracted_content. rewrite Estrip.
    destruct (join NL core) as [|c0 j0] eqn:EJ; [congruence|]. rewrite <- EJ.
    assert (Esplit : split "010" (join NL core) = core).
    { rewrite Ecore, join_cons. apply split_join. now rewrite <- Ecore. }
    rewrite Esplit.
    cbn [spaced_steps fold_right fst snd] in Hsteps. fold (spaced_steps us) in Hsteps.
    replace fuel
      with (unit_steps u + (spaced_steps us + S (fuel - unit_steps u - spaced_steps us - 1)))%nat
      by lia.
    unfold core. rewrite parse_unit by (assumption || apply spaced_blank_start).
    rewrite parse_spaced by exact Hok.
    reflexivity.
Qed.

(** The lines of a page after its marker: its sections, its units, and
    the blank lines before the next marker. *)
Definition page_lines (secs : list (nat * str)) (cunits : list piece) (n : nat)
  : list str :=
  flat_map section_lines secs
    ++ flat_map (fun u => [] :: unit_lines u) cunits ++ repeat [] n.

Definition page_units (secs : list (nat * str)) (cunits : list piece)
  : list (nat * piece) :=
  map (fun s => (1%nat, UHeading (fst s) (snd s))) secs
    ++ map (fun u => (0%nat, u)) cunits.

Lemma spaced_page secs cunits :
  spaced (page_units secs cunits)
  = flat_map (fun s => [[]; []; heading_line (fst s) (snd s)]) secs
      ++ flat_map (fun u => [] :: unit_lines u) cunits.
Proof.
  unfold spaced, page_units. rewrite flat_map_app. f_equal.
  - rewrite !flat_map_concat_map, map_map. reflexivity.
  - rewrite !flat_map_concat_map, map_map. reflexivity.
Qed.

Lemma spaced_page_length secs cunits n :
  (length (spaced (page_units secs cunits)) <= length (page_lines secs cunits n))%nat.
Proof.
  rewrite spaced_page. unfold page_lines. rewrite !length_app.
  assert (length (flat_map (fun s => [[]; []; heading_line (fst s) (snd s)]) secs)
          <= length (flat_map section_lines secs))%nat.
  { induction secs as [|s secs IH]; [cbn; lia|]. cbn in *. lia. }
  unfold str in *. lia.
Qed.

Lemma marker_line_line t : title_ok t -> is_line (marker_line t).
Proof.
  intros Ht. unfold is_line, marker_line. rewrite !in_app_iff.
  intros [H|[H|H]].
  - cbn in H. repeat (destruct H as [H|H]; [discriminate|]). exact H.
  - now apply (@content_is_line t (title_chars Ht)).
  - cbn in H. repeat (destruct H as [H|H]; [discriminate|]). exact H.
Qed.

Lemma unit_lines_line u : unit_ok u -> Forall is_line (unit_lines u).
Proof.
  intros Hu. eapply Forall_impl; [|apply (unit_lines_ok u Hu)].
  intros x (_ & Hx & _). now apply content_is_line.
Qed.

Lemma blank_line : is_line [].
Proof. intros []. Qed.

Lemma blank_lines_line n : Forall is_line (repeat [] n).
Proof.
  apply Forall_forall. intros l Hl. apply repeat_spec in Hl. subst l.
  apply blank_line.
Qed.

Lemma page_lines_line secs cunits n :
  Forall section_ok secs -> Forall flush_ok cunits ->
  Forall is_line (page_lines secs cunits n).
Proof.
  intros Hs Hu. unfold page_lines. rewrite !Forall_app. split; [|split].
  - apply Forall_flat_map. eapply Forall_impl; [|exact Hs].
    intros s [Hn Ht]. unfold section_lines.
    repeat constructor; try apply blank_line.
    + now apply marker_line_line.
    + assert (H : Forall is_line (unit_lines (UHeading (fst s) (snd s))))
        by (apply unit_lines_line; now split).
      now inversion H.
  - apply Forall_flat_map. eapply Forall_impl; [|exact Hu].
    intros u [Hu' _]. constructor; [apply blank_line | now apply unit_lines_line].
  - apply blank_lines_line.
Qed.

Lemma page_tail_non_marker cunits n :
  Forall flush_ok cunits ->
  Forall non_marker (flat_map (fun u => [] :: unit_lines u) cunits ++ repeat [] n).
Proof.
  intros Hu. apply Forall_app. split.
  - apply Forall_flat_map. eapply Forall_impl; [|exact Hu].
    intros u [Hu' _]. constructor; [apply non_marker_blank | now apply non_marker_unit].
  - apply Forall_forall. intros l Hl. apply repeat_spec in Hl. subst l.
    apply non_marker_blank.
Qed.

Lemma page_units_ok secs cunits :
  Forall section_ok secs -> Forall flush_ok cunits ->
  Forall (fun nu => flush_ok (snd nu)) (page_units secs cunits).
Proof.
  intros Hs Hu. unfold page_units. apply Forall_app. split; apply Forall_map.
  - eapply Forall_impl; [|exact Hs]. intros s Hs'. split; [exact Hs' | exact I].
  - eapply Forall_impl; [|exact Hu]. now intros u Hu'.
Qed.

(** One page of the loop of [from_markdown]. *)
Lemma chunk_step_page pn secs cunits n pages objs :
  Forall section_ok secs -> Forall flush_ok cunits ->
  forall fuel,
    (S (length (page_lines secs cunits n)) < fuel)%nat ->
    exists objs',
      chunk_step fuel (pages, objs) (pn, tl_join NL (page_lines secs cunits n))
      = Ok (pages ++ [mkPageContent pn NATIVE_TEXT
                        (parsed_content (page_units secs cunits)) None],
            objs ++ objs')
      /\ Forall2 (parsed_as pn) secs objs'.
Proof.
  intros Hs Hu fuel Hf.
  pose proof (page_lines_line n Hs Hu) as Hlines.
  pose proof (page_tail_non_marker n Hu) as Htail.
  assert (Esplit : split "010" (tl_join NL (page_lines secs cunits n))
                   = [] :: page_lines secs cunits n).
  { apply (split_join (l := [])). constructor; [apply blank_line | exact Hlines]. }
  destruct fuel as [|fuel]; [lia|].
  destruct (@parse_sections_page pn secs _ Hs Htail fuel) as (objs' & rem & Eparse & Hobjs).
  { fold (page_lines secs cunits n). lia. }
  exists objs'. split; [|exact Hobjs].
  unfold chunk_step, _parse_sections_from_chunk, _strip_section_markers.
  rewrite Esplit, parse_sections_skip by apply non_marker_blank.
  unfold page_lines at 1. rewrite Eparse. cbn [bind].
  cbn [filter is_section_marker_line].
  unfold page_lines. rewrite filter_markers by assumption.
  replace (is_section_marker_line []) with false by reflexivity. cbn [negb].
  rewrite join_cons. cbn [app]. rewrite app_assoc, <- spaced_page.
  rewrite parse_page_text.
  - reflexivity.
  - now apply page_units_ok.
  - pose proof (spaced_page_length secs cunits n). lia.
Qed.

End PageRoundTrip.


(* ================================================================= *)
(** * The text of a rendered document *)

Section SectionInduction.

Variable P : DocumentSection -> Prop.
Hypothesis step : forall t l c ps pe subs,
    Forall P subs -> P (mkDocumentSection t l c ps pe subs).

Fixpoint section_induction (s : DocumentSection) : P s :=
  match s with
  | mkDocumentSection t l c ps pe subs =>
      step t l c ps pe
        ((fix go (ss : list DocumentSection) : Forall P ss :=
            match ss with
            | [] => Forall_nil P
            | x :: xs => Forall_cons x (section_induction x) (go xs)
            end) subs)
  end.

End SectionInduction.

Section RenderedText.

Import MarkdownConverter.

(** The sections of a document in document order. *)
Fixpoint preorder (s : DocumentSection) : list DocumentSection :=
  s :: flat_map preorder (subsections s).

Definition key (s : DocumentSection) : nat * str := (Z.to_nat (level s), title s).

Definition section_clean (s : DocumentSection) : Prop :=
  title_ok (title s) /\ 1 <= level s <= 6 /\ section_content s = [].

Lemma section_clean_ok s : section_clean s -> section_ok (key s).
Proof. intros (Ht & Hl & _). split; [cbn; lia | exact Ht]. Qed.

(** ** Characters that are not [<] *)

Lemma forallb_dropwhile (p q : ascii -> bool) s :
  forallb p s = true -> forallb p (dropwhile q s) = true.
Proof.
  induction s as [|c s IH]; [reflexivity|]. intros H. cbn [dropwhile].
  destruct (q c); [|exact H]. apply IH. cbn in H.
  now apply andb_true_iff in H.
Qed.

Lemma forallb_strip (p : ascii -> bool) s :
  forallb p s = true -> forallb p (strip s) = true.
Proof.
  intros H. unfold strip, rstrip, lstrip.
  now apply forallb_rev_true, forallb_dropwhile, forallb_rev_true, forallb_dropwhile.
Qed.

Lemma forallb_strip_char (p : ascii -> bool) c s :
  forallb p s = true -> forallb p (strip_char c s) = true.
Proof.
  intros H. unfold strip_char.
  now apply forallb_rev_true, forallb_dropwhile, forallb_rev_true, forallb_dropwhile.
Qed.

Lemma forallb_filter (p q : ascii -> bool) s :
  forallb p s = true -> forallb p (filter q s) = true.
Proof.
  rewrite !forallb_forall. intros H x Hx. apply filter_In in Hx. now apply H.
Qed.

Lemma forallb_collapse (p q : ascii -> bool) b s :
  p "-"%char = true -> forallb p s = true ->
  forallb p (collapse_runs q b s) = true.
Proof.
  intros Hh. revert b. induction s as [|c s IH]; intros b H; [reflexivity|].
  cbn in H. apply andb_true_iff in H as [Hc Hs]. cbn [collapse_runs].
  destruct (q c); [destruct b|]; cbn [forallb]; rewrite ?Hh, ?Hc, IH; auto.
Qed.

Lemma lower_not_lt c : not_lt c = true -> not_lt (lower_char c) = true.
Proof. destruct c as [[] [] [] [] [] [] [] []]; vm_compute; congruence. Qed.

Lemma slugify_not_lt t : forallb not_lt t = true -> forallb not_lt (_slugify t) = true.
Proof.
  intros H. unfold _slugify.
  apply forallb_strip_char, forallb_collapse; [reflexivity|].
  apply forallb_collapse; [reflexivity|].
  apply forallb_filter, forallb_strip. unfold lower.
  rewrite forallb_forall in *. intros x Hx. apply in_map_iff in Hx as (c & <- & Hc).
  now apply lower_not_lt, H.
Qed.

Lemma num_not_lt z : forallb not_lt (str_of_Z z) = true.
Proof.
  apply forallb_impl with (p := num_char); [|apply str_of_Z_chars].
  intros c. destruct c as [[] [] [] [] [] [] [] []]; vm_compute; congruence.
Qed.

Lemma title_not_lt t : title_ok t -> forallb not_lt t = true.
Proof.
  intros Ht. apply forallb_impl with (p := content_char);
    [apply content_not_lt | now apply title_chars].
Qed.

Lemma toc_line_not_lt depth t ps pe :
  title_ok t -> forallb not_lt (toc_line (depth, t, ps, pe)) = true.
Proof.
  intros Ht. unfold toc_line. rewrite !forallb_app.
  rewrite repeat_str_all by reflexivity.
  rewrite (title_not_lt Ht), (@slugify_not_lt t (title_not_lt Ht)), !num_not_lt.
  reflexivity.
Qed.

Definition entry_ok (e : nat * str * Z * Z) : Prop :=
  let '(_, t, _, _) := e in title_ok t.

Lemma toc_entries_ok s :
  forall depth, Forall section_clean (preorder s) ->
                Forall entry_ok (toc_entries depth s).
Proof.
  induction s as [t l c ps pe subs IH] using section_induction.
  intros depth H. cbn [preorder toc_entries subsections title page_start page_end] in *.
  inversion H as [|? ? Hs Hsubs]; subst. constructor; [apply Hs|].
  clear H Hs. induction IH as [|x xs Hx _ IHxs]; [constructor|].
  cbn [flat_map] in *. apply Forall_app in Hsubs as [H1 H2].
  apply Forall_app. split; [now apply Hx | now apply IHxs].
Qed.

Lemma collect_toc_ok sections :
  Forall section_clean (flat_map preorder sections) ->
  Forall entry_ok (_collect_toc_entries sections 0).
Proof.
  unfold _collect_toc_entries. induction sections as [|s ss IH]; [constructor|].
  cbn [flat_map]. intros H. apply Forall_app in H as [H1 H2].
  apply Forall_app. split; [now apply toc_entries_ok | now apply IH].
Qed.

Lemma toc_lines_not_lt entries :
  Forall entry_ok entries ->
  forallb not_lt (tl_join NL (map toc_line entries) ++ NL) = true.
Proof.
  intros H. rewrite forallb_app, andb_true_iff. split; [|reflexivity].
  induction H as [|[[[depth t] ps] pe] es He _ IH]; [reflexivity|].
  cbn [map tl_join flat_map]. rewrite !forallb_app.
  cbn [entry_ok] in He. rewrite (toc_line_not_lt depth ps pe He).
  unfold tl_join in IH. now rewrite IH.
Qed.

(** The table of contents: nothing, or lines without [<] between the two
    sentinels. *)
Lemma generate_toc_shape sections :
  Forall section_clean (flat_map preorder sections) ->
  _generate_toc sections = []
  \/ exists a, forallb not_lt a = true
               /\ _generate_toc sections
                  = lit "<!-- toc -->" ++ a ++ lit "<!-- /toc -->".
Proof.
  intros H. apply collect_toc_ok in H. unfold _generate_toc.
  destruct (_collect_toc_entries sections 0) as [|e es] eqn:E; [now left|].
  right. rewrite <- E in *. clear E.
  exists (tl_join NL (map toc_line (_collect_toc_entries sections 0)) ++ NL).
  split; [now apply toc_lines_not_lt|].
  cbn [app]. rewrite join_cons, tl_join_app. cbn [tl_join flat_map].
  now rewrite app_nil_r, <- !app_assoc.
Qed.

End RenderedText.


(* ================================================================= *)
(** * The pages of a rendered document *)

Section RenderedPages.

Import MarkdownConverter.

Variable sections : list DocumentSection.

Definition page_keys (p : PageContent) : list (nat * str) :=
  map key (_find_sections_on_page sections (page_number p)).

Definition page_body (p : PageContent) : list str :=
  flat_map section_lines (page_keys p)
    ++ flat_map (fun u => [] :: unit_lines u) (content_units (content p)).

Definition page_clean (p : PageContent) : Prop :=
  0 <= page_number p
  /\ Forall section_clean (_find_sections_on_page sections (page_number p))
  /\ content_ok (content p).

Lemma section_parts_lines ss :
  Forall section_clean ss ->
  tl_join NLNL (flat_map section_parts ss)
  = tl_join NL (flat_map section_lines (map key ss)).
Proof.
  induction 1 as [|s ss (_ & _ & Hc) _ IH]; [reflexivity|].
  cbn [map flat_map]. rewrite !tl_join_app, IH. f_equal.
  unfold section_parts. rewrite Hc. reflexivity.
Qed.

Lemma rendered_content_lines c :
  content_ok c ->
  tl_join NLNL (if nonempty (_render_content c) then [_render_content c] else [])
  = tl_join NL (flat_map (fun u => [] :: unit_lines u) (content_units c)).
Proof.
  intros Hc. rewrite (render_content_units Hc).
  destruct (content_units_spec Hc) as (Hu & _ & _).
  assert (Hu' : Forall unit_ok (content_units c))
    by (eapply Forall_impl; [|exact Hu]; now intros u [? _]).
  rewrite <- (tl_join_units Hu').
  destruct (content_units c) as [|u us]; [reflexivity|].
  inversion Hu' as [|? ? Hu1 _]; subst.
  pose proof (unit_text_nonempty u Hu1) as Hne.
  cbn [map] in *.
  assert (Hj : nonempty (join NLNL (unit_text u :: map unit_text us)) = true).
  { rewrite join_cons. now destruct (unit_text u). }
  rewrite Hj. cbn [tl_join flat_map]. rewrite app_nil_r, join_cons.
  reflexivity.
Qed.

Lemma page_parts_text p :
  page_clean p ->
  tl_join NLNL (page_parts sections p)
  = NLNL ++ page_marker (str_of_Z (page_number p)) ++ tl_join NL (page_body p).
Proof.
  intros (_ & Hs & Hc). unfold page_parts, page_body, page_keys.
  cbn [app tl_join flat_map]. fold (tl_join NLNL).
  change (flat_map (fun x => NLNL ++ x) ?l) with (tl_join NLNL l).
  rewrite !tl_join_app, (section_parts_lines Hs), (rendered_content_lines Hc).
  unfold page_marker. now rewrite <- !app_assoc.
Qed.

(** The digits and the text of every page. *)
Fixpoint chunks (pages : list PageContent) : list (str * str) :=
  match pages with
  | [] => []
  | p :: rest =>
      (str_of_Z (page_number p),
       tl_join NL (page_body p
                     ++ repeat [] (match rest with [] => 1 | _ => 2 end)))
        :: chunks rest
  end.

Lemma pages_text pages :
  pages <> [] -> Forall page_clean pages ->
  tl_join NLNL (flat_map (page_parts sections) pages) ++ NL
  = NLNL ++ flat_map marked_chunk (chunks pages).
Proof.
  intros Hne H. induction H as [|p rest Hp Hrest IH]; [congruence|].
  cbn [flat_map chunks]. rewrite tl_join_app, (page_parts_text Hp).
  unfold marked_chunk at 1. cbn [fst snd]. rewrite tl_join_app.
  destruct rest as [|q rest].
  - cbn [flat_map chunks tl_join repeat]. now rewrite <- !app_assoc.
  - rewrite <- !app_assoc. rewrite IH by discriminate.
    cbn [repeat tl_join flat_map]. now rewrite <- !app_assoc.
Qed.

Lemma join_tl (xs : list str) : xs <> [] -> NLNL ++ join NLNL xs = tl_join NLNL xs.
Proof. destruct xs; [congruence|]. intros _. now rewrite join_cons. Qed.

Lemma page_parts_nonempty pages :
  pages <> [] -> flat_map (page_parts sections) pages <> [].
Proof. destruct pages; [congruence | discriminate]. Qed.

End RenderedPages.


(* ================================================================= *)
(** * From the text back to the pages *)

Section TextToPages.

Import MarkdownConverter.

Lemma to_markdown_unfold ss ps :
  to_markdown (mkDocument ss ps)
  = let toc := _generate_toc ss in
    let parts := (if nonempty toc then [toc] else [])
                   ++ flat_map (page_parts ss) ps in
    match parts with
    | [] => []
    | _ => join NLNL parts ++ NL
    end.
Proof. reflexivity. Qed.

Variable sections : list DocumentSection.
Hypothesis sections_clean : Forall section_clean (flat_map preorder sections).

Definition toc_open : str := lit "<!-- toc -->".
Definition toc_close : str := lit "<!-- /toc -->".

(** The text of a document with pages: the page chunks, after the table
    of contents when there is one. *)
Lemma to_markdown_shape pages :
  pages <> [] -> Forall (page_clean sections) pages ->
  exists a,
    forallb not_lt a = true
    /\ (to_markdown (mkDocument sections pages)
        = flat_map marked_chunk (chunks sections pages)
        \/ to_markdown (mkDocument sections pages)
           = toc_open ++ a ++ toc_close ++ NLNL
               ++ flat_map marked_chunk (chunks sections pages)).
Proof.
  intros Hne Hp. rewrite to_markdown_unfold. cbv zeta.
  pose proof (page_parts_nonempty sections Hne) as HX.
  pose proof (pages_text Hne Hp) as Ht.
  destruct (generate_toc_shape sections sections_clean) as [E|(a & Ha & E)]; rewrite E.
  - exists []. split; [reflexivity|]. left. cbn [nonempty app].
    destruct (flat_map (page_parts sections) pages) as [|x xs] eqn:EX; [congruence|].
    apply (app_inv_head NLNL). rewrite app_assoc, join_tl by discriminate.
    exact Ht.
  - exists a. split; [exact Ha|]. right.
    replace (nonempty (lit "<!-- toc -->" ++ a ++ lit "<!-- /toc -->")) with true
      by reflexivity.
    cbn [app]. rewrite join_cons, <- app_assoc, Ht.
    unfold toc_open, toc_close. now rewrite <- !app_assoc.
Qed.

Lemma marker_line_guarded t : title_ok t -> guarded false (marker_line t).
Proof.
  intros Ht. unfold marker_line.
  change (lit "<!-- section: " ++ t ++ lit " -->")
    with (lt_char :: lit "!-- section: " ++ t ++ lit " -->").
  cbn [guarded]. split; [intros _; now left|].
  apply guarded_not_lt. rewrite !forallb_app, (title_not_lt Ht). reflexivity.
Qed.

Lemma page_lines_guarded secs cunits n :
  Forall section_ok secs -> Forall flush_ok cunits ->
  Forall (guarded false) (page_lines secs cunits n).
Proof.
  intros Hs Hu. unfold page_lines. rewrite !Forall_app. split; [|split].
  - apply Forall_flat_map. eapply Forall_impl; [|exact Hs].
    intros s [Hn Ht]. unfold section_lines.
    constructor; [exact I|]. constructor; [now apply marker_line_guarded|].
    constructor; [exact I|]. constructor; [|constructor].
    assert (H : Forall line_ok (unit_lines (UHeading (fst s) (snd s))))
      by (apply unit_lines_ok; now split).
    inversion H as [|? ? (_ & Hc & _) _]; subst. now apply content_guarded.
  - apply Forall_flat_map. eapply Forall_impl; [|exact Hu].
    intros u [Hu' _]. constructor; [exact I|].
    eapply Forall_impl; [|apply (unit_lines_ok u Hu')].
    intros l (_ & Hc & _). now apply content_guarded.
  - apply Forall_forall. intros l Hl. apply repeat_spec in Hl. now subst l.
Qed.

Lemma tl_join_guarded ls :
  Forall (guarded false) ls -> guarded false (tl_join NL ls).
Proof.
  intros H. apply guarded_flat_map. eapply Forall_impl; [|exact H].
  intros l Hl. apply guarded_app; [|exact Hl].
  cbn. split; [discriminate | exact I].
Qed.

Lemma page_body_lines p n :
  page_body sections p ++ repeat [] n
  = page_lines (page_keys sections p) (content_units (content p)) n.
Proof. unfold page_body, page_lines. now rewrite <- app_assoc. Qed.

Lemma page_clean_units p :
  page_clean sections p ->
  Forall section_ok (page_keys sections p)
  /\ Forall flush_ok (content_units (content p)).
Proof.
  intros (_ & Hs & Hc). split.
  - unfold page_keys. apply Forall_map. eapply Forall_impl; [|exact Hs].
    apply section_clean_ok.
  - now destruct (content_units_spec Hc) as (Hu & _).
Qed.

Definition chunk_ok (dc : str * str) : Prop :=
  fst dc <> [] /\ forallb isdigit (fst dc) = true /\ guarded false (snd dc).

Lemma chunks_ok pages :
  Forall (page_clean sections) pages -> Forall chunk_ok (chunks sections pages).
Proof.
  induction 1 as [|p rest Hp _ IH]; [constructor|].
  cbn [chunks]. constructor; [|exact IH].
  destruct (page_clean_units Hp) as [Hs Hu]. destruct Hp as (Hn & _ & _).
  unfold chunk_ok. cbn [fst snd]. rewrite str_of_Z_nonneg by exact Hn.
  split; [apply str_of_N_nonempty|]. split; [apply str_of_N_digits|].
  rewrite page_body_lines. now apply tl_join_guarded, page_lines_guarded.
Qed.

Lemma page_marker_guarded d : forallb isdigit d = true -> guarded true (page_marker d).
Proof.
  intros Hd. unfold page_marker.
  change (lit "<!-- page: " ++ d ++ lit " -->")
    with (lt_char :: lit "!-- page: " ++ d ++ lit " -->").
  cbn [guarded]. split; [intros _; right; now split|].
  apply guarded_not_lt. rewrite !forallb_app.
  assert (forallb not_lt d = true).
  { apply forallb_impl with (p := isdigit); [|exact Hd].
    intros c. destruct c as [[] [] [] [] [] [] [] []]; vm_compute; congruence. }
  now rewrite H.
Qed.

Lemma chunks_guarded dcs :
  Forall chunk_ok dcs -> guarded true (flat_map marked_chunk dcs).
Proof.
  intros H. apply guarded_flat_map. eapply Forall_impl; [|exact H].
  intros dc (_ & Hd & Hg). unfold marked_chunk.
  apply guarded_app; [now apply page_marker_guarded | now apply guarded_weaken].
Qed.

Lemma chunks_numbers pages :
  Forall (page_clean sections) pages ->
  Forall2 (fun dc n => int_of_str (fst dc) = Some n)
          (chunks sections pages) (map page_number pages).
Proof.
  induction 1 as [|p rest (Hn & _) _ IH]; [constructor|].
  cbn [chunks map]. constructor; [|exact IH].
  cbn [fst]. now apply int_of_str_of_Z.
Qed.

(** ** Stripping *)

Lemma in_dropwhile (p : ascii -> bool) c s :
  In c s -> p c = false -> In c (dropwhile p s).
Proof.
  intros Hin Hc. induction s as [|x s IH]; [exact Hin|].
  cbn [dropwhile]. destruct (p x) eqn:E; [|exact Hin].
  destruct Hin as [->|Hin]; [congruence | now apply IH].
Qed.

Lemma strip_nonempty c s : In c s -> isspace c = false -> strip s <> [].
Proof.
  intros Hin Hc. unfold strip, rstrip, lstrip.
  assert (H : In c (rev (dropwhile isspace (rev (dropwhile isspace s))))).
  { apply in_rev. rewrite rev_involutive.
    apply in_dropwhile; [|exact Hc]. apply (proj1 (in_rev _ _)).
    now apply in_dropwhile. }
  intros E. now rewrite E in H.
Qed.

Lemma chunks_start pages :
  pages <> [] ->
  exists rest, flat_map marked_chunk (chunks sections pages) = lt_char :: rest.
Proof.
  destruct pages as [|p ps]; [congruence|]. intros _.
  cbn [chunks flat_map]. unfold marked_chunk at 1, page_marker. cbn [fst snd].
  eexists. reflexivity.
Qed.

Section WithPages.

Variable pages : list PageContent.
Hypothesis pages_nonempty : pages <> [].
Hypothesis pages_clean : Forall (page_clean sections) pages.

Abbreviation md := (to_markdown (mkDocument sections pages)).
Abbreviation body := (flat_map marked_chunk (chunks sections pages)).

Lemma body_length : (length body <= length md)%nat.
Proof.
  destruct (to_markdown_shape pages_nonempty pages_clean) as (a & _ & [E|E]);
    rewrite E; [lia|].
  rewrite !length_app. lia.
Qed.

Lemma md_not_blank : negb (nonempty (strip md)) = false.
Proof.
  assert (H : In lt_char md).
  { destruct (chunks_start pages_nonempty) as [rest Er].
    destruct (to_markdown_shape pages_nonempty pages_clean) as (a & _ & [E|E]);
      rewrite E.
    - rewrite Er. now left.
    - now left. }
  pose proof (@strip_nonempty lt_char md H eq_refl) as Hne.
  now destruct (strip md).
Qed.

Lemma strip_toc_md fuel :
  (length md < fuel)%nat -> _strip_toc fuel md = Ok body.
Proof.
  intros Hf. pose proof (chunks_guarded (chunks_ok pages_clean)) as Hg.
  destruct (to_markdown_shape pages_nonempty pages_clean) as (a & Ha & [E|E]);
    rewrite E in *.
  - now apply strip_toc_guarded.
  - apply strip_toc_block; try assumption; try reflexivity.
    destruct (chunks_start pages_nonempty) as [rest Er]. rewrite Er. reflexivity.
Qed.

Lemma split_by_pages_body fuel :
  (length md < fuel)%nat ->
  _split_by_pages fuel body
  = Ok (List.combine (map page_number pages) (map snd (chunks sections pages))).
Proof.
  intros Hf. pose proof body_length as Hb. unfold _split_by_pages.
  rewrite re_split_marked by (apply (chunks_ok pages_clean) || lia).
  cbn [bind tl]. apply page_pairs_marked, chunks_numbers, pages_clean.
Qed.

End WithPages.

End TextToPages.


(* ================================================================= *)
(** * The loop over the page chunks *)

Section ChunkLoop.

Import MarkdownConverter.

Variable sections : list DocumentSection.

(** What a new section object keeps of the section it was rendered from. *)
Definition parsed_from (s : DocumentSection) (o : obj) : Prop :=
  o_title o = title s /\ o_level o = level s /\ o_subsections o = [].

Definition parsed_page (p : PageContent) : PageContent :=
  mkPageContent (page_number p) NATIVE_TEXT
    (parsed_content (page_units (page_keys sections p)
                                (content_units (content p))))
    None.

Definition found (pages : list PageContent) : list DocumentSection :=
  flat_map (fun p => _find_sections_on_page sections (page_number p)) pages.

Lemma parsed_as_from pn ss :
  Forall section_clean ss ->
  forall objs, Forall2 (parsed_as pn) (map key ss) objs ->
               Forall2 parsed_from ss objs.
Proof.
  induction 1 as [|s ss (_ & Hl & _) _ IH]; intros objs H;
    inversion H as [|? o ? os Ho Hos]; subst; constructor; [|now apply IH].
  destruct Ho as (Ht & Hlv & _ & _ & Hsub). cbn [key fst snd] in *.
  split; [exact Ht|]. split; [|exact Hsub]. rewrite Hlv. lia.
Qed.

Lemma for_each_chunks fuel pages :
  Forall (page_clean sections) pages ->
  Forall (fun dc => (S (length (snd dc)) < fuel)%nat) (chunks sections pages) ->
  forall acc_pages acc_objs,
  exists objs,
    for_each (chunk_step fuel)
             (List.combine (map page_number pages)
                           (map snd (chunks sections pages)))
             (acc_pages, acc_objs)
    = Ok (acc_pages ++ map parsed_page pages, acc_objs ++ objs)
    /\ Forall2 parsed_from (found pages) objs.
Proof.
  induction 1 as [|p rest Hp _ IH]; intros Hfuel acc_pages acc_objs.
  - exists []. cbn. rewrite !app_nil_r. split; [reflexivity | constructor].
  - cbn [chunks map List.combine for_each snd] in *.
    inversion Hfuel as [|? ? Hf Hfuel']; subst. cbn [snd] in Hf.
    destruct (page_clean_units Hp) as [Hs Hu].
    set (n := match rest with [] => 1%nat | _ => 2%nat end) in *.
    rewrite page_body_lines in *.
    pose proof (tl_join_length
                  (page_lines (page_keys sections p) (content_units (content p)) n))
      as Hlen.
    destruct (@chunk_step_page (page_number p) _ _ n acc_pages acc_objs Hs Hu fuel)
      as (objs1 & E1 & H1); [unfold str in *; lia|].
    rewrite E1. cbn [bind].
    destruct (IH Hfuel' (acc_pages ++ [parsed_page p]) (acc_objs ++ objs1))
      as (objs2 & E2 & H2).
    exists (objs1 ++ objs2). split.
    + unfold parsed_page at 1 in E2. rewrite E2. now rewrite <- !app_assoc.
    + unfold found. cbn [flat_map]. apply Forall2_app; [|exact H2].
      destruct Hp as (_ & Hc & _).
      apply (@parsed_as_from (page_number p) _ Hc). exact H1.
Qed.

Lemma flat_map_length_in {A} (f : A -> str) x xs :
  In x xs -> (length (f x) <= length (flat_map f xs))%nat.
Proof.
  induction xs as [|y ys IH]; [intros []|].
  cbn [flat_map]. rewrite length_app. intros [->|Hin]; [lia|].
  specialize (IH Hin). lia.
Qed.

Lemma chunks_fuel fuel pages :
  (length (flat_map marked_chunk (chunks sections pages)) < fuel)%nat ->
  Forall (fun dc => (S (length (snd dc)) < fuel)%nat) (chunks sections pages).
Proof.
  intros Hf. apply Forall_forall. intros dc Hin.
  pose proof (flat_map_length_in marked_chunk dc _ Hin) as Hle.
  unfold marked_chunk at 1, page_marker in Hle. rewrite !length_app in Hle.
  cbn [length lit String.list_ascii_of_string] in Hle. unfold str in *. lia.
Qed.

End ChunkLoop.


(* ================================================================= *)
(** * The forest that the hierarchy builder leaves *)

Section BuiltForest.

Import MarkdownConverter.

(** [spans h cs lo hi]: the trees below the references [cs], read in
    document order, are the objects [lo], [lo + 1], ..., [hi - 1]. *)
Inductive spans (h : heap) : list ref -> nat -> nat -> Prop :=
| spans_nil lo : spans h [] lo lo
| spans_cons c cs mid hi :
    spans h (o_subsections (deref h c)) (S c) mid ->
    spans h cs mid hi ->
    spans h (c :: cs) c hi.

Definition subtree (h : heap) (r : ref) (hi : nat) : Prop :=
  spans h (o_subsections (deref h r)) (S r) hi.

Lemma spans_le h cs lo hi : spans h cs lo hi -> (lo <= hi)%nat.
Proof. induction 1; lia. Qed.

Lemma spans_app h cs1 cs2 lo mid hi :
  spans h cs1 lo mid -> spans h cs2 mid hi -> spans h (cs1 ++ cs2) lo hi.
Proof.
  induction 1 as [lo|c cs m1 m2 H1 _ H2 IH2]; intros H; [exact H|].
  cbn [app]. apply spans_cons with m1; [exact H1 | now apply IH2].
Qed.

Lemma spans_frame h h' cs lo hi :
  spans h cs lo hi ->
  (forall r, (lo <= r < hi)%nat ->
             o_subsections (deref h' r) = o_subsections (deref h r)) ->
  spans h' cs lo hi.
Proof.
  induction 1 as [lo|c cs mid hi H1 IH1 H2 IH2]; intros Hsame; [constructor|].
  pose proof (spans_le H1). pose proof (spans_le H2).
  apply spans_cons with mid.
  - rewrite Hsame by lia. apply IH1. intros r Hr. apply Hsame. lia.
  - apply IH2. intros r Hr. apply Hsame. lia.
Qed.

(** The stack below a section that is still open: each entry holds the
    one above it as its last subsection, the lowest is the last root. *)
Fixpoint below (h : heap) (rest root : list ref) (c : ref) : Prop :=
  match rest with
  | [] => exists done, root = done ++ [c] /\ spans h done 0 c
  | p :: rest' =>
      (exists done, o_subsections (deref h p) = done ++ [c]
                    /\ spans h done (S p) c)
      /\ below h rest' root p
  end.

Definition spine (h : heap) (stack root : list ref) (hi : nat) : Prop :=
  match stack with
  | [] => spans h root 0 hi
  | top :: rest => subtree h top hi /\ below h rest root top
  end.

Lemma spine_pop h top rest root hi :
  spine h (top :: rest) root hi -> spine h rest root hi.
Proof.
  intros [Ht Hb]. destruct rest as [|p rest]; cbn [spine below] in *.
  - destruct Hb as (done & -> & Hd). eapply spans_app; [exact Hd|].
    apply spans_cons with hi; [exact Ht | constructor].
  - destruct Hb as [(done & E & Hd) Hb]. split; [|exact Hb].
    unfold subtree. rewrite E. eapply spans_app; [exact Hd|].
    apply spans_cons with hi; [exact Ht | constructor].
Qed.

Lemma spine_pop_stack h stack lvl root hi :
  spine h stack root hi -> spine h (pop_stack h stack lvl) root hi.
Proof.
  induction stack as [|top rest IH]; intros H; [exact H|].
  cbn [pop_stack]. destruct (_ >=? _); [|exact H].
  apply IH. eapply spine_pop. exact H.
Qed.

Lemma spine_close h stack root hi : spine h stack root hi -> spans h root 0 hi.
Proof.
  induction stack as [|top rest IH]; intros H; [exact H|].
  apply IH. eapply spine_pop. exact H.
Qed.

Lemma below_frame h h' rest root c :
  below h rest root c ->
  (forall r, (r < c)%nat ->
             o_subsections (deref h' r) = o_subsections (deref h r)) ->
  below h' rest root c.
Proof.
  revert c. induction rest as [|p rest IH]; intros c; cbn [below].
  - intros (done & E & Hd) Hs. exists done. split; [exact E|].
    eapply spans_frame; [exact Hd|]. intros r Hr. apply Hs. lia.
  - intros [(done & E & Hd) Hb] Hs. pose proof (spans_le Hd). split.
    + exists done. split; [rewrite Hs by lia; exact E|].
      eapply spans_frame; [exact Hd|]. intros r Hr. apply Hs. lia.
    + apply IH; [exact Hb|]. intros r Hr. apply Hs. lia.
Qed.

Definition fresh_from (k : nat) (h : heap) : Prop :=
  forall r, (k <= r)%nat -> o_subsections (deref h r) = [].

Definition build_inv (k : nat) (st : heap * list ref * list ref) : Prop :=
  let '(h, root, stack) := st in
  spine h stack root k /\ fresh_from k h.

Definition okey (o : obj) : str * Z := (o_title o, o_level o).
Definition skey (s : DocumentSection) : str * Z := (title s, level s).

(** What attaching [k] to [parent] does to the heap. *)
Lemma attach_spec h parent k :
  (parent < length h)%nat ->
  let h1 := update parent (append_subsection k) h in
  let h2 := if o_page_end (deref h1 k) >? o_page_end (deref h1 parent)
            then update parent (set_page_end (o_page_end (deref h1 k))) h1
            else h1 in
  (forall r, r <> parent -> deref h2 r = deref h r)
  /\ o_subsections (deref h2 parent) = o_subsections (deref h parent) ++ [k]
  /\ forall r, okey (deref h2 r) = okey (deref h r).
Proof.
  intros Hp h1 h2.
  assert (H1 : forall r, deref h1 r
                         = if (parent =? r)%nat then append_subsection k (deref h r)
                           else deref h r).
  { intros r. unfold h1. rewrite deref_update.
    destruct (Nat.ltb_spec parent (length h)); [|lia]. now rewrite andb_true_r. }
  assert (H2 : forall r, deref h2 r
                         = if (parent =? r)%nat
                           then (if o_page_end (deref h1 k) >? o_page_end (deref h1 parent)
                                 then set_page_end (o_page_end (deref h1 k)) (deref h1 r)
                                 else deref h1 r)
                           else deref h1 r).
  { intros r. unfold h2. destruct (_ >? _).
    - assert (Hl1 : length h1 = length h) by apply update_length.
      rewrite deref_update, Hl1.
      destruct (Nat.ltb_spec parent (length h)); [|lia]. now rewrite andb_true_r.
    - now destruct (parent =? r)%nat. }
  split; [|split].
  - intros r Hr. rewrite H2.
    destruct (Nat.eqb_spec parent r) as [E|Hn]; [congruence|].
    rewrite (H1 r). destruct (Nat.eqb_spec parent r); [congruence | reflexivity].
  - rewrite H2, Nat.eqb_refl.
    destruct (_ >? _); cbn [set_page_end o_subsections];
      rewrite (H1 parent), Nat.eqb_refl; reflexivity.
  - intros r. rewrite H2. destruct (parent =? r)%nat eqn:Er.
    + destruct (_ >? _); unfold okey; cbn [set_page_end o_title o_level];
        rewrite (H1 r), Er; reflexivity.
    + rewrite (H1 r), Er. reflexivity.
Qed.

Lemma hierarchy_step_spine k st :
  (k < length (fst (fst st)))%nat ->
  build_inv k st -> build_inv (S k) (hierarchy_step st k).
Proof.
  destruct st as [[h root] stack]. cbn [fst]. intros Hk [Hsp Hfr].
  unfold hierarchy_step.
  pose proof (@spine_pop_stack h stack (o_level (deref h k)) root k Hsp) as Hsp'.
  destruct (pop_stack h stack (o_level (deref h k))) as [|parent rest].
  - cbn [spine] in Hsp'. split.
    + cbn [spine below]. split.
      * unfold subtree. rewrite Hfr by lia. constructor.
      * exists root. now split.
    + intros r Hr. apply Hfr. lia.
  - destruct Hsp' as [Ht Hb]. pose proof (spans_le Ht) as Hlt.
    destruct (@attach_spec h parent k) as (Hother & Hparent & _); [lia|].
    cbv zeta in Hother, Hparent.
    set (h2 := if _ >? _ then _ else _) in *.
    split.
    + cbn [spine below]. split; [|split].
      * unfold subtree. rewrite Hother by lia. rewrite Hfr by lia. constructor.
      * exists (o_subsections (deref h parent)). split; [exact Hparent|].
        eapply spans_frame; [exact Ht|]. intros r Hr.
        rewrite Hother by lia. reflexivity.
      * eapply below_frame; [exact Hb|]. intros r Hr.
        rewrite Hother by lia. reflexivity.
    + intros r Hr. rewrite Hother by lia. apply Hfr. lia.
Qed.

Lemma hierarchy_step_keys st s r :
  okey (deref (fst (fst (hierarchy_step st s))) r)
  = okey (deref (fst (fst st)) r).
Proof.
  destruct st as [[h root] stack]. unfold hierarchy_step.
  destruct (pop_stack h stack (o_level (deref h s))) as [|parent rest];
    [reflexivity|].
  cbn [fst]. destruct (Nat.ltb_spec parent (length h)) as [Hp|Hp].
  - now destruct (@attach_spec h parent s Hp) as (_ & _ & H).
  - assert (E : forall f h', length h' = length h -> update parent f h' = h').
    { intros f h' Hl. apply nth_ext with (d := null_obj) (d' := null_obj).
      - apply update_length.
      - intros n _. fold (deref (update parent f h') n). fold (deref h' n).
        rewrite deref_update.
        destruct (Nat.ltb_spec parent (length h')); [lia|].
        now rewrite andb_false_r. }
    rewrite !E by (rewrite ?E; reflexivity). now destruct (_ >? _); rewrite ?E.
Qed.

Lemma fold_hierarchy_spine m :
  forall k st,
    (k + m <= length (fst (fst st)))%nat ->
    build_inv k st ->
    build_inv (k + m) (fold_left hierarchy_step (seq k m) st)
    /\ forall r, okey (deref (fst (fst (fold_left hierarchy_step (seq k m) st))) r)
                 = okey (deref (fst (fst st)) r).
Proof.
  induction m as [|m IH]; intros k st Hlen H; cbn [seq fold_left].
  - rewrite Nat.add_0_r. now split.
  - destruct (IH (S k) (hierarchy_step st k)) as [H1 H2].
    + rewrite hierarchy_step_length. unfold heap in *. lia.
    + apply hierarchy_step_spine; [unfold heap in *; lia | exact H].
    + rewrite <- Nat.add_succ_comm. split; [exact H1|].
      intros r. rewrite H2. apply hierarchy_step_keys.
Qed.

(** Reading what [spans] describes. *)
Lemma read_spans h cs lo hi :
  spans h cs lo hi ->
  forall f, (hi <= f + lo)%nat ->
  forall acc, exists ts,
    for_each (fun acc c => t <- read_section f h c ;; Ok (acc ++ [t])) cs acc
    = Ok (acc ++ ts)
    /\ map skey (flat_map preorder ts)
       = map (fun r => okey (deref h r)) (seq lo (hi - lo)).
Proof.
  induction 1 as [lo|c cs mid hi H1 IH1 H2 IH2]; intros f Hf acc.
  - exists []. rewrite app_nil_r, Nat.sub_diag. now split.
  - pose proof (spans_le H1). pose proof (spans_le H2).
    destruct f as [|f]; [lia|].
    destruct (IH1 f ltac:(lia) []) as (subs & E1 & K1).
    set (t := mkDocumentSection (o_title (deref h c)) (o_level (deref h c))
                (o_content (deref h c)) (o_page_start (deref h c))
                (o_page_end (deref h c)) subs).
    destruct (IH2 (S f) ltac:(lia) (acc ++ [t])) as (ts & E2 & K2).
    assert (Hread : read_section (S f) h c = Ok t).
    { cbn [read_section]. rewrite E1. reflexivity. }
    exists (t :: ts). split.
    + cbn [for_each]. rewrite Hread. cbn [bind].
      rewrite E2, <- app_assoc. reflexivity.
    + change (flat_map preorder (t :: ts))
        with (t :: flat_map preorder subs ++ flat_map preorder ts).
      cbn [map]. rewrite map_app, K1, K2.
      replace (hi - c)%nat with (S ((mid - S c) + (hi - mid)))%nat by lia.
      cbn [seq map]. rewrite seq_app, map_app.
      replace (S c + (mid - S c))%nat with mid by lia. reflexivity.
Qed.

Lemma map_nth_seq (objs : list obj) :
  map (fun r => deref objs r) (seq 0 (length objs)) = objs.
Proof.
  induction objs as [|o objs IH]; [reflexivity|].
  cbn [length seq map]. unfold deref at 1. cbn [nth]. f_equal.
  rewrite <- seq_shift, map_map. exact IH.
Qed.

(** The sections that [from_markdown] returns are the new section objects
    in the order in which they were found. *)
Lemma built_forest_keys (objs : list obj) :
  Forall (fun o => o_subsections o = []) objs ->
  exists forest,
    (let '(h, root) := _build_section_hierarchy objs (seq 0 (length objs)) in
     read_forest h root) = Ok forest
    /\ map skey (flat_map preorder forest) = map okey objs.
Proof.
  intros Hfresh. unfold _build_section_hierarchy.
  destruct (seq 0 (length objs)) as [|s l] eqn:E.
  - exists []. split; [reflexivity|].
    destruct objs; [reflexivity | discriminate].
  - rewrite <- E. clear E.
    match goal with
    | |- context [fold_left ?f ?l ?s0] =>
        pose proof (@fold_hierarchy_spine (length objs) 0 s0) as Hfold;
        pose proof (fold_hierarchy_length l s0) as Hlen;
        destruct (fold_left f l s0) as [[h root] stack]
    end.
    cbn [fst] in Hfold, Hlen.
    destruct Hfold as [[Hsp _] Hkeys].
    + cbn. lia.
    + split; [constructor|]. intros r _. unfold deref.
      destruct (nth_in_or_default r objs null_obj) as [Hin|Hd];
        [|now rewrite Hd].
      rewrite Forall_forall in Hfresh. now apply Hfresh.
    + apply spine_close in Hsp. cbn [Nat.add] in Hsp.
      destruct (@read_spans h root 0 (length objs) Hsp (S (length h))) with (acc := @nil DocumentSection)
        as (forest & Er & Kr); [unfold heap in *; lia|].
      exists forest. split; [exact Er|].
      rewrite Kr, Nat.sub_0_r.
      rewrite (map_ext _ (fun r => okey (deref objs r)) Hkeys).
      rewrite <- (map_map (fun r => deref objs r) okey).
      now rewrite map_nth_seq.
Qed.

End BuiltForest.


(* ================================================================= *)
(** * The round trip *)

Section RoundTrip.

Import MarkdownConverter.

(** Two pages with the same tables, the same paragraph texts, and the
    same list items at the same x-positions. *)
Definition item_sim (b b' : TextBlock) : Prop :=
  text b' = text b /\ (bbox0 (bbox b') == bbox0 (bbox b))%Q.

Definition same_content (p p' : PageContent) : Prop :=
  tables (content p') = tables (content p)
  /\ map text (filter is_paragraph (reading_order_blocks (content p')))
     = map text (filter is_paragraph (reading_order_blocks (content p)))
  /\ Forall2 item_sim
       (filter is_list_item (reading_order_blocks (content p)))
       (filter is_list_item (reading_order_blocks (content p'))).

(** The documents of the round trip. *)
Definition round_trip_ready (d : Document) : Prop :=
  Forall section_clean (flat_map preorder (sections d))
  /\ found (sections d) (pages d) = flat_map preorder (sections d)
  /\ Forall (fun p => 0 <= page_number p /\ content_ok (content p)) (pages d).

Lemma block_sim_filters bs bs' :
  Forall2 block_sim bs bs' ->
  map text (filter is_paragraph bs') = map text (filter is_paragraph bs)
  /\ Forall2 item_sim (filter is_list_item bs) (filter is_list_item bs').
Proof.
  induction 1 as [|b b' bs bs' (Ht & Hx & Hi) _ [IH1 IH2]]; [split; constructor|].
  assert (Ep : is_paragraph b' = is_paragraph b)
    by (unfold is_paragraph; now rewrite Ht).
  assert (Ei : is_list_item b' = is_list_item b)
    by (unfold is_list_item; now rewrite Ht).
  cbn [filter]. rewrite Ep, Ei. split.
  - destruct (is_paragraph b); [|exact IH1]. cbn [map]. now rewrite Hx, IH1.
  - destruct (is_list_item b); [|exact IH2].
    constructor; [|exact IH2]. split; [exact Hx | now apply Hi].
Qed.

Lemma heading_blocks keys :
  let hs := flat_map (fun nu : nat * piece => unit_blocks (snd nu))
              (map (fun s : nat * str => (1%nat, UHeading (fst s) (snd s))) keys) in
  filter is_paragraph hs = [] /\ filter is_list_item hs = [].
Proof.
  induction keys as [|s keys [IH1 IH2]]; [split; reflexivity|].
  cbn. cbn in IH1, IH2. now rewrite IH1, IH2.
Qed.

Lemma units_of_content (f : piece -> list TextBlock) cunits :
  flat_map (fun nu : nat * piece => f (snd nu)) (map (fun u => (0%nat, u)) cunits)
  = flat_map f cunits.
Proof. rewrite !flat_map_concat_map, map_map. reflexivity. Qed.

Lemma units_of_tables (f : piece -> list Table) cunits :
  flat_map (fun nu : nat * piece => f (snd nu)) (map (fun u => (0%nat, u)) cunits)
  = flat_map f cunits.
Proof. rewrite !flat_map_concat_map, map_map. reflexivity. Qed.

Lemma heading_tables keys :
  flat_map (fun nu : nat * piece => unit_tables (snd nu))
    (map (fun s : nat * str => (1%nat, UHeading (fst s) (snd s))) keys) = [].
Proof. induction keys as [|s keys IH]; [reflexivity | exact IH]. Qed.

Lemma parsed_page_same secs p :
  content_ok (content p) -> same_content p (parsed_page secs p).
Proof.
  intros Hc. destruct (content_units_spec Hc) as (_ & Hsim & Htab).
  destruct (block_sim_filters Hsim) as [Hpar Hitems].
  destruct (heading_blocks (page_keys secs p)) as [Hh1 Hh2]. cbv zeta in Hh1, Hh2.
  unfold same_content, parsed_page, parsed_content, page_units.
  cbn [content tables reading_order_blocks].
  rewrite !flat_map_app, !filter_app, Hh1, Hh2, heading_tables.
  rewrite units_of_content, units_of_tables. cbn [app].
  split; [exact Htab|]. split; [exact Hpar | exact Hitems].
Qed.

Lemma preorder_nil ss : flat_map preorder ss = [] -> ss = [].
Proof. destruct ss as [|s ss]; [reflexivity|]. destruct s; discriminate. Qed.

Lemma parsed_from_keys ss objs :
  Forall2 parsed_from ss objs ->
  map okey objs = map skey ss
  /\ Forall (fun o => o_subsections o = []) objs.
Proof.
  induction 1 as [|s o ss objs (Ht & Hl & Hs) _ [IH1 IH2]]; [split; constructor|].
  split; [|now constructor].
  cbn [map]. rewrite IH1. unfold okey, skey. now rewrite Ht, Hl.
Qed.

Lemma found_clean ss pages :
  Forall section_clean (found ss pages) ->
  Forall (fun p => 0 <= page_number p /\ content_ok (content p)) pages ->
  Forall (page_clean ss) pages.
Proof.
  intros Hs Hp. induction Hp as [|p rest [Hn Hc] _ IH]; [constructor|].
  unfold found in Hs. cbn [flat_map] in Hs. apply Forall_app in Hs as [H1 H2].
  constructor; [|apply IH; exact H2].
  split; [exact Hn|]. split; [exact H1 | exact Hc].
Qed.

End RoundTrip.


Section RoundTripTheorem.

Import MarkdownConverter.

(** C1 (amended): a document whose sections have alphanumeric titles,
    levels 1 to 6 and no content and are found page by page in document
    order, whose pages have page numbers that are not negative, blocks
    that are paragraphs and list items of letters, digits and inner
    spaces, every run of list items at canonical x-positions starting
    with an item at 10.0, and tables of such cells with rows as wide as
    the header: [from_markdown] of [to_markdown] returns, for every fuel
    above the length of the text, a document with the same page numbers
    in the same order, the same section titles and levels in document
    order, and on every page the same tables, the same paragraph texts
    and the same list items at the same x-positions. *)
Theorem to_markdown_round_trip (d : Document) :
  round_trip_ready d ->
  forall fuel, (length (to_markdown d) < fuel)%nat ->
  exists d',
    from_markdown fuel (to_markdown d) = Ok d'
    /\ map page_number (pages d') = map page_number (pages d)
    /\ map skey (flat_map preorder (sections d'))
       = map skey (flat_map preorder (sections d))
    /\ Forall2 same_content (pages d) (pages d').
Proof.
  destruct d as [ss ps]. unfold round_trip_ready. cbn [sections pages].
  intros (Hs & Hfound & Hp) fuel Hf.
  destruct ps as [|p0 ps0].
  - cbn in Hfound. symmetry in Hfound. apply preorder_nil in Hfound. subst ss.
    exists (mkDocument [] []). split; [reflexivity|].
    split; [reflexivity|]. split; [reflexivity | constructor].
  - remember (p0 :: ps0) as ps eqn:Eps.
    assert (Hne : ps <> []) by (subst ps; discriminate).
    assert (Hclean : Forall (page_clean ss) ps).
    { apply found_clean; [rewrite Hfound; exact Hs | exact Hp]. }
    clear Eps. pose proof (body_length Hs Hne Hclean) as Hbody.
    unfold from_markdown.
    rewrite (md_not_blank Hs Hne Hclean).
    rewrite (strip_toc_md Hs Hne Hclean Hf). cbn [bind].
    rewrite (split_by_pages_body Hs Hne Hclean Hf). cbn [bind].
    destruct (@for_each_chunks ss fuel ps Hclean) with (acc_pages := @nil PageContent)
                                                       (acc_objs := @nil obj)
      as (objs & E & Hobjs).
    { apply chunks_fuel. lia. }
    rewrite E. cbn [bind app].
    destruct (parsed_from_keys Hobjs) as [Hkeys Hfresh].
    destruct (built_forest_keys Hfresh) as (forest & Eb & Kb).
    destruct (_build_section_hierarchy objs (seq 0 (length objs))) as [h root].
    rewrite Eb. cbn [bind].
    eexists. split; [reflexivity|]. cbn [sections pages].
    split; [|split].
    + rewrite map_map. reflexivity.
    + rewrite Kb, Hkeys, Hfound. reflexivity.
    + clear - Hp. induction Hp as [|p rest [_ Hc] _ IH]; [constructor|].
      cbn [map]. constructor; [now apply parsed_page_same | exact IH].
Qed.

End RoundTripTheorem.


(** A report of two pages: a chapter with a subsection on the first
    page, a second chapter on the second. *)
Definition report_doc : Document :=
  mkDocument
    [mkDocumentSection (lit "Intro") 1 [] 1 1
       [mkDocumentSection (lit "Scope") 2 [] 1 1 []];
     mkDocumentSection (lit "Results") 1 [] 2 2 []]
    [mkPageContent 1 NATIVE_TEXT
       (mkExtractedContent (lit "ignored") [] []
          [mkTable [[lit "k"; lit "v"]; [lit "a"; lit "1"]]]
          [mkTextBlock (lit "first words") (0, 0, 0, 0)%Q paragraph;
           mkTextBlock (lit "one") (10, 0, 0, 0)%Q list_item;
           mkTextBlock (lit "two") (40, 0, 0, 0)%Q list_item;
           mkTextBlock (lit "last words") (0, 0, 0, 0)%Q paragraph])
       None;
     mkPageContent 2 SCANNED
       (mkExtractedContent [] [] [] []
          [mkTextBlock (lit "x") (7, 0, 0, 0)%Q paragraph])
       (Some (9 # 10))].

Lemma to_markdown_round_trip_witness :
  round_trip_ready report_doc
  /\ exists d',
      MarkdownConverter.from_markdown 400 (MarkdownConverter.to_markdown report_doc)
      = Ok d'
      /\ map page_number (pages d') = [1; 2]
      /\ map skey (flat_map preorder (sections d'))
         = [(lit "Intro", 1); (lit "Scope", 2); (lit "Results", 1)]
      /\ Forall2 same_content (pages report_doc) (pages d').
Proof.
  assert (Hplain : forall t, t <> [] -> forallb plain_char t = true ->
                             strip t = t -> plain_text t).
  { intros t H1 H2 H3. split; [exact H1 | split; assumption]. }
  assert (H : round_trip_ready report_doc).
  { split; [|split].
    - repeat (constructor;
              [split; [split; [discriminate | reflexivity]
                      | split; [cbn; lia | reflexivity]]|]).
      constructor.
    - reflexivity.
    - constructor; [|constructor; [|constructor]].
      + split; [cbn; lia|]. split; [|split; [|split]].
        * constructor; [split; [apply Hplain; [discriminate | reflexivity | reflexivity] | exact I]|].
          constructor; [split; [apply Hplain; [discriminate | reflexivity | reflexivity]
                               | exists 0%nat; reflexivity]|].
          constructor; [split; [apply Hplain; [discriminate | reflexivity | reflexivity]
                               | exists 1%nat; reflexivity]|].
          constructor; [split; [apply Hplain; [discriminate | reflexivity | reflexivity] | exact I]|].
          constructor.
        * cbn. repeat split; discriminate || (intros _ _; reflexivity) || idtac.
        * constructor; [|constructor]. cbn.
          split; [discriminate|]. split.
          -- repeat constructor.
          -- repeat constructor.
        * discriminate.
      + split; [cbn; lia|]. split; [|split; [|split]].
        * constructor; [split; [apply Hplain; [discriminate | reflexivity | reflexivity] | exact I]|].
          constructor.
        * cbn. repeat split; discriminate.
        * constructor.
        * discriminate. }
  split; [exact H|].
  destruct (@to_markdown_round_trip report_doc H 400%nat) as (d' & E & H1 & H2 & H3).
  { apply Nat.ltb_lt. vm_compute. reflexivity. }
  exists d'. split; [exact E|]. split; [exact H1|]. split; [exact H2 | exact H3].
Defined.

(** A page whose first list item is nested below the second. *)
Definition nested_first : Document :=
  mkDocument []
    [mkPageContent 1 NATIVE_TEXT
       (mkExtractedContent [] [] [] []
          [mkTextBlock (lit "a") (40, 0, 0, 0)%Q list_item;
           mkTextBlock (lit "b") (10, 0, 0, 0)%Q list_item])
       None].

(** The x-position of every list item of a page relative to the first
    one: the relative nesting that the claim speaks of.  [Qred] gives
    the fraction in lowest terms. *)
Definition relative_nesting (p : PageContent) : list Q :=
  match filter MarkdownConverter.is_list_item (reading_order_blocks (content p)) with
  | [] => []
  | (first :: _) as items =>
      map (fun b => (bbox0 (bbox b) - bbox0 (bbox first))%Q) items
  end.

(** C1 as stated fails: the list items of [nested_first] are at canonical
    x-positions, the first one level deeper than the second; after the
    round trip both are at the same level. *)
Lemma round_trip_counterexample :
  Forall (fun p => Forall (fun b => exists k, (bbox0 (bbox b) == canonical_x k)%Q)
                          (reading_order_blocks (content p)))
         (pages nested_first)
  /\ exists d' p p',
      MarkdownConverter.from_markdown 60 (MarkdownConverter.to_markdown nested_first)
      = Ok d'
      /\ pages nested_first = [p] /\ pages d' = [p']
      /\ map text (reading_order_blocks (content p')) = [lit "a"; lit "b"]
      /\ map Qred (relative_nesting p) = [0; -30]%Q
      /\ map Qred (relative_nesting p') = [0; 0]%Q.
Proof.
  split.
  - constructor; [|constructor].
    constructor; [exists 1%nat; reflexivity|].
    constructor; [exists 0%nat; reflexivity | constructor].
  - do 3 eexists. split; [vm_compute; reflexivity|].
    split; [reflexivity|]. split; [reflexivity|]. split; [reflexivity|].
    split; vm_compute; reflexivity.
Qed.


(* ================================================================= *)
(** * Areas and ratios *)

Section Ratios.

Import ContentMerger.

Lemma py_max_Qmax a b : (Py.max a b == Qmax a b)%Q.
Proof.
  unfold Py.max. destruct (Qltb a b) eqn:E.
  - apply Qltb_lt in E. symmetry. apply Q.max_r. apply Qlt_le_weak, E.
  - apply Qltb_ge in E. symmetry. apply Q.max_l. exact E.
Qed.

Lemma py_max_cases a b :
  ((a < b)%Q /\ Py.max a b = b) \/ ((b <= a)%Q /\ Py.max a b = a).
Proof.
  unfold Py.max. destruct (Qltb a b) eqn:E.
  - left. split; [now apply Qltb_lt | reflexivity].
  - right. split; [now apply Qltb_ge | reflexivity].
Qed.

Lemma py_min_cases a b :
  ((b < a)%Q /\ Py.min a b = b) \/ ((a <= b)%Q /\ Py.min a b = a).
Proof.
  unfold Py.min. destruct (Qltb b a) eqn:E.
  - left. split; [now apply Qltb_lt | reflexivity].
  - right. split; [now apply Qltb_ge | reflexivity].
Qed.

(** The side of a box along one axis, as [_bbox_area] takes it. *)
Definition side (lo hi : Q) : Q := Py.max 0 (hi - lo).

Lemma side_nonneg lo hi : (0 <= side lo hi)%Q.
Proof. unfold side. destruct (py_max_cases 0 (hi - lo)) as [[H ->]|[H ->]]; lra. Qed.

Lemma side_pos lo hi : (0 < side lo hi)%Q -> (side lo hi == hi - lo)%Q /\ (lo < hi)%Q.
Proof.
  unfold side. destruct (py_max_cases 0 (hi - lo)) as [[H ->]|[H ->]]; intros; split; lra.
Qed.

(** The side of the intersection of two intervals is at most the side of
    each. *)
Lemma side_inter a0 a1 b0 b1 :
  (side (Py.max a0 b0) (Py.min a1 b1) <= side a0 a1)%Q
  /\ (side (Py.max a0 b0) (Py.min a1 b1) <= side b0 b1)%Q.
Proof.
  unfold side.
  destruct (py_max_cases a0 b0) as [[H1 ->]|[H1 ->]];
    destruct (py_min_cases a1 b1) as [[H2 ->]|[H2 ->]];
    repeat match goal with
           | |- context [Py.max 0 ?x] =>
               destruct (py_max_cases 0 x) as [[? ->]|[? ->]]
           end; split; lra.
Qed.

Lemma bbox_area_sides b :
  _bbox_area b = (side (bbox0 b) (bbox2 b) * side (bbox1 b) (bbox3 b))%Q.
Proof. reflexivity. Qed.

Lemma intersection_area_sides a b :
  _intersection_area a b
  = (side (Py.max (bbox0 a) (bbox0 b)) (Py.min (bbox2 a) (bbox2 b))
     * side (Py.max (bbox1 a) (bbox1 b)) (Py.min (bbox3 a) (bbox3 b)))%Q.
Proof. reflexivity. Qed.

Lemma bbox_area_nonneg b : (0 <= _bbox_area b)%Q.
Proof.
  rewrite bbox_area_sides.
  pose proof (side_nonneg (bbox0 b) (bbox2 b)).
  pose proof (side_nonneg (bbox1 b) (bbox3 b)). nra.
Qed.

Lemma intersection_area_bounds a b :
  (0 <= _intersection_area a b)%Q
  /\ (_intersection_area a b <= _bbox_area a)%Q
  /\ (_intersection_area a b <= _bbox_area b)%Q.
Proof.
  rewrite intersection_area_sides, !bbox_area_sides.
  destruct (side_inter (bbox0 a) (bbox2 a) (bbox0 b) (bbox2 b)) as [Hx1 Hx2].
  destruct (side_inter (bbox1 a) (bbox3 a) (bbox1 b) (bbox3 b)) as [Hy1 Hy2].
  pose proof (side_nonneg (Py.max (bbox0 a) (bbox0 b)) (Py.min (bbox2 a) (bbox2 b))).
  pose proof (side_nonneg (Py.max (bbox1 a) (bbox1 b)) (Py.min (bbox3 a) (bbox3 b))).
  split; [nra|]. split; apply Qmult_le_compat_nonneg; split; assumption.
Qed.

Lemma overlap_ratio_cases a b :
  ((_bbox_area a == 0 \/ _bbox_area b == 0)%Q /\ _overlap_ratio a b = 0%Q)
  \/ ((0 < _bbox_area a)%Q /\ (0 < _bbox_area b)%Q
      /\ _overlap_ratio a b
         = (_intersection_area a b / Py.min (_bbox_area a) (_bbox_area b))%Q).
Proof.
  unfold _overlap_ratio. cbv zeta.
  pose proof (bbox_area_nonneg a) as Ha. pose proof (bbox_area_nonneg b) as Hb.
  destruct (Qeq_bool (_bbox_area a) 0) eqn:Ea.
  { left. split; [left; now apply Qeq_bool_iff | reflexivity]. }
  destruct (Qeq_bool (_bbox_area b) 0) eqn:Eb.
  { left. split; [right; now apply Qeq_bool_iff | reflexivity]. }
  right. apply Qeq_bool_neq in Ea, Eb.
  split; [|split; [|reflexivity]].
  - destruct (Qlt_le_dec 0 (_bbox_area a)); [assumption|].
    exfalso. apply Ea. lra.
  - destruct (Qlt_le_dec 0 (_bbox_area b)); [assumption|].
    exfalso. apply Eb. lra.
Qed.

(** X1.  [_overlap_ratio] returns a value between 0 and 1, whatever the
    two boxes are, also when their corners are out of order. *)
Theorem overlap_ratio_unit_interval (a b : BBox) :
  (0 <= _overlap_ratio a b <= 1)%Q.
Proof.
  destruct (overlap_ratio_cases a b) as [[_ ->]|(Ha & Hb & ->)]; [lra|].
  destruct (intersection_area_bounds a b) as (H0 & H1 & H2).
  assert (Hm : (0 < Py.min (_bbox_area a) (_bbox_area b))%Q
               /\ (_intersection_area a b
                   <= Py.min (_bbox_area a) (_bbox_area b))%Q).
  { destruct (py_min_cases (_bbox_area a) (_bbox_area b)) as [[_ ->]|[_ ->]];
      split; assumption. }
  destruct Hm as [Hpos Hle]. split.
  - apply Qle_shift_div_l; [exact Hpos | lra].
  - apply Qle_shift_div_r; [exact Hpos | lra].
Qed.

#[local] Instance py_max_proper : Proper (Qeq ==> Qeq ==> Qeq) Py.max.
Proof.
  intros a a' Ha b b' Hb. rewrite !py_max_Qmax. now rewrite Ha, Hb.
Qed.

#[local] Instance py_min_proper : Proper (Qeq ==> Qeq ==> Qeq) Py.min.
Proof.
  intros a a' Ha b b' Hb. rewrite !py_min_Qmin. now rewrite Ha, Hb.
Qed.

Lemma py_max_comm a b : (Py.max a b == Py.max b a)%Q.
Proof. rewrite !py_max_Qmax. apply Q.max_comm. Qed.

Lemma py_min_comm a b : (Py.min a b == Py.min b a)%Q.
Proof. rewrite !py_min_Qmin. apply Q.min_comm. Qed.

Lemma intersection_area_comm a b :
  (_intersection_area a b == _intersection_area b a)%Q.
Proof.
  unfold _intersection_area. cbv zeta.
  rewrite (py_max_comm (bbox0 a)), (py_max_comm (bbox1 a)),
    (py_min_comm (bbox2 a)), (py_min_comm (bbox3 a)).
  reflexivity.
Qed.

Lemma overlap_ratio_comm a b : (_overlap_ratio a b == _overlap_ratio b a)%Q.
Proof.
  destruct (overlap_ratio_cases a b) as [[H ->]|(Ha & Hb & ->)];
    destruct (overlap_ratio_cases b a) as [[H' ->]|(Hb' & Ha' & ->)];
    try reflexivity; try (exfalso; destruct H; lra);
    try (exfalso; destruct H'; lra).
  rewrite intersection_area_comm, py_min_comm. reflexivity.
Qed.

Lemma overlap_ratio_self a :
  ~ (_bbox_area a == 0)%Q -> (_overlap_ratio a a == 1)%Q.
Proof.
  intros Hne.
  destruct (overlap_ratio_cases a a) as [[H _]|(Ha & _ & ->)];
    [exfalso; tauto|].
  assert (Emax : forall x, Py.max x x = x)
    by (intros x; unfold Py.max; now destruct (Qltb x x)).
  assert (Emin : forall x, Py.min x x = x)
    by (intros x; unfold Py.min; now destruct (Qltb x x)).
  assert (E1 : _intersection_area a a = _bbox_area a).
  { unfold _intersection_area, _bbox_area. cbv zeta.
    now rewrite (Emax (bbox0 a)), (Emax (bbox1 a)), (Emin (bbox2 a)),
      (Emin (bbox3 a)). }
  rewrite E1, Emin. field. lra.
Qed.

(** X2.  The overlap ratio does not depend on the order of the two boxes,
    and a box of non-zero area overlaps itself with ratio 1. *)
Theorem overlap_ratio_symmetric (a b : BBox) :
  (_overlap_ratio a b == _overlap_ratio b a)%Q
  /\ (~ (_bbox_area a == 0)%Q -> (_overlap_ratio a a == 1)%Q).
Proof. split; [apply overlap_ratio_comm | apply overlap_ratio_self]. Qed.

End Ratios.

Lemma overlap_ratio_symmetric_witness :
  (ContentMerger._overlap_ratio (box 0 0 4 3) (box 0 0 4 3) == 1)%Q.
Proof.
  apply (proj2 (overlap_ratio_symmetric (box 0 0 4 3) (box 0 0 4 3))).
  vm_compute. discriminate.
Defined.

(* ================================================================= *)
(** * Merging twice *)

Section MergeTwice.

Import ContentMerger.

Lemma is_duplicate_app xs ys o :
  is_duplicate (xs ++ ys) o = is_duplicate xs o || is_duplicate ys o.
Proof.
  induction xs as [|x xs IH]; [reflexivity|].
  cbn [app is_duplicate]. destruct (Qltb _ _); [reflexivity | exact IH].
Qed.

Lemma self_duplicate kept o :
  In o kept -> ~ (_bbox_area (bbox o) == 0)%Q -> is_duplicate kept o = true.
Proof.
  intros Hin Ha. apply is_duplicate_spec. exists o. split; [exact Hin|].
  unfold overlaps. rewrite (overlap_ratio_self Ha). reflexivity.
Qed.

Lemma new_ocr_blocks_again native os :
  Forall (fun o => ~ (_bbox_area (bbox o) == 0)%Q) os ->
  new_ocr_blocks (native ++ new_ocr_blocks native os) os = [].
Proof.
  intros Hpos. rewrite !new_ocr_blocks_filter.
  set (kept := filter (keeps native) os).
  assert (H : forall o, In o os -> keeps (native ++ kept) o = false).
  { intros o Hin. unfold keeps. rewrite is_duplicate_app, negb_false_iff.
    destruct (is_duplicate native o) eqn:E; [reflexivity|]. cbn [orb].
    apply self_duplicate.
    - apply filter_In. split; [exact Hin|]. unfold keeps. now rewrite E.
    - rewrite Forall_forall in Hpos. now apply Hpos. }
  clearbody kept. induction os as [|o os IH]; [reflexivity|].
  cbn [filter]. rewrite (H o (or_introl eq_refl)).
  apply IH.
  - now inversion Hpos.
  - intros o' Hin. apply H. now right.
Qed.

(** X3.  Merging the same OCR result a second time changes nothing when
    every OCR block has a box of non-zero area: the blocks that were
    appended the first time are now duplicates of themselves.  And an OCR
    result without blocks leaves the native content as it is. *)
Theorem merge_idempotent (native : ExtractedContent) (ocr : OCRResult) :
  (Forall (fun o => ~ (_bbox_area (bbox o) == 0)%Q) (blocks ocr) ->
   merge (merge native ocr) ocr = merge native ocr)
  /\ (blocks ocr = [] -> merge native ocr = native).
Proof.
  split.
  - intros Hpos. unfold merge at 1. cbv zeta.
    replace (reading_order_blocks (merge native ocr))
      with (reading_order_blocks native
              ++ new_ocr_blocks (reading_order_blocks native) (blocks ocr))
      by reflexivity.
    rewrite new_ocr_blocks_again by exact Hpos.
    cbn [filter map join nonempty andb]. rewrite andb_false_r, app_nil_r.
    reflexivity.
  - intros E. unfold merge. rewrite E. cbn [new_ocr_blocks filter map join nonempty].
    rewrite andb_false_r, app_nil_r. now destruct native.
Qed.

Lemma merge_idempotent_witness :
  let native := mkExtractedContent (lit "N") [] [] []
                  [mkTextBlock (lit "N") (box 0 0 10 10) paragraph] in
  let ocr := mkOCRResult (lit "x") 1
               [mkTextBlock (lit "x") (box 20 0 30 10) paragraph] in
  merge (merge native ocr) ocr = merge native ocr
  /\ merge native (mkOCRResult [] 0 []) = native.
Proof.
  intros native ocr. split.
  - apply (proj1 (merge_idempotent native ocr)).
    constructor; [|constructor]. vm_compute. discriminate.
  - apply (proj2 (merge_idempotent native (mkOCRResult [] 0 []))). reflexivity.
Defined.

End MergeTwice.


(* ================================================================= *)
(** * The page classifier *)

Section Classifier.

Import PageClassifier.

(** The text area that [_compute_text_coverage] adds up. *)
Definition text_area (page : Page) : Q :=
  fold_left add_block_area (text_blocks page) 0%Q.

Lemma add_block_area_nonneg acc block :
  (0 <= acc)%Q -> (0 <= add_block_area acc block)%Q.
Proof.
  destruct block as [[[[[[x0 y0] x1] y1] t] n] ty]. unfold add_block_area.
  intros H. destruct (ty =? 0); [|exact H].
  cbv zeta. pose proof (side_nonneg x0 x1). pose proof (side_nonneg y0 y1).
  unfold side in *. nra.
Qed.

Lemma fold_area_nonneg blocks acc :
  (0 <= acc)%Q -> (0 <= fold_left add_block_area blocks acc)%Q.
Proof.
  revert acc. induction blocks as [|b bs IH]; intros acc H; [exact H|].
  cbn [fold_left]. now apply IH, add_block_area_nonneg.
Qed.

Lemma text_coverage_cases page :
  let page_area := (rect_width page * rect_height page)%Q in
  (((page_area <= 0)%Q \/ text_blocks page = [])
   /\ _compute_text_coverage page = 0%Q)
  \/ ((0 < page_area)%Q /\ text_blocks page <> []
      /\ _compute_text_coverage page = Py.min (text_area page / page_area) 1).
Proof.
  cbv zeta. unfold _compute_text_coverage, text_area. cbv zeta.
  destruct (Qle_bool (rect_width page * rect_height page) 0) eqn:E.
  - left. split; [left; now apply Qle_bool_iff | reflexivity].
  - assert (Hpos : (0 < rect_width page * rect_height page)%Q).
    { apply Qnot_le_lt. intros H. apply Qle_bool_iff in H. congruence. }
    destruct (text_blocks page) as [|b bs] eqn:Eb.
    + left. split; [now right | reflexivity].
    + right. split; [exact Hpos|]. split; [discriminate | reflexivity].
Qed.

(** X4.  The text coverage of a page is between 0 and 1, whatever the
    page rectangle and the blocks are. *)
Theorem text_coverage_unit_interval (page : Page) :
  (0 <= _compute_text_coverage page <= 1)%Q.
Proof.
  destruct (text_coverage_cases page) as [[_ ->]|(Hpos & _ & ->)]; [lra|].
  pose proof (@fold_area_nonneg (text_blocks page) 0%Q ltac:(lra)) as Hta.
  fold (text_area page) in Hta.
  assert (Hr : (0 <= text_area page / (rect_width page * rect_height page))%Q).
  { apply Qle_shift_div_l; [exact Hpos | lra]. }
  destruct (py_min_cases (text_area page / (rect_width page * rect_height page)) 1)
    as [[H ->]|[H ->]]; lra.
Qed.

Lemma classify_by_ratio_spec r :
  (classify_by_ratio r = NATIVE_TEXT <-> (8 # 10 < r)%Q)
  /\ (classify_by_ratio r = SCANNED <-> (r < 2 # 10)%Q)
  /\ (classify_by_ratio r = MIXED <-> (2 # 10 <= r <= 8 # 10)%Q).
Proof.
  unfold classify_by_ratio, _NATIVE_TEXT_THRESHOLD, _SCANNED_THRESHOLD.
  destruct (Qltb (8 # 10) r) eqn:E1; [apply Qltb_lt in E1 | apply Qltb_ge in E1];
    (destruct (Qltb r (2 # 10)) eqn:E2;
     [apply Qltb_lt in E2 | apply Qltb_ge in E2]);
    repeat split; intros; try discriminate; try reflexivity; try lra.
Qed.

(** X5.  A page whose rectangle has no area, or that has no block at all,
    is classified as scanned.  For any other page the classification
    compares the added-up area of the text blocks with the page area:
    native text above 80 percent, scanned below 20 percent, mixed from 20 to
    80 percent, both bounds included. *)
Theorem classify_by_area (page : Page) :
  let page_area := (rect_width page * rect_height page)%Q in
  (((page_area <= 0)%Q \/ text_blocks page = []) -> classify page = SCANNED)
  /\ ((0 < page_area)%Q -> text_blocks page <> [] ->
      (classify page = NATIVE_TEXT <-> ((8 # 10) * page_area < text_area page)%Q)
      /\ (classify page = SCANNED <-> (text_area page < (2 # 10) * page_area)%Q)
      /\ (classify page = MIXED
          <-> ((2 # 10) * page_area <= text_area page
               /\ text_area page <= (8 # 10) * page_area)%Q)).
Proof.
  cbv zeta. unfold classify. cbv zeta.
  destruct (classify_by_ratio_spec (_compute_text_coverage page)) as (Hn & Hs & Hm).
  destruct (text_coverage_cases page) as [[Hdeg E]|(Hpos & Hne & E)];
    cbv zeta in *; rewrite E in *.
  - split; [intros _; apply Hs; lra|].
    intros Hpos Hne. exfalso. destruct Hdeg; [lra | contradiction].
  - split; [intros [H|H]; [lra | contradiction]|]. intros _ _.
    set (pa := (rect_width page * rect_height page)%Q) in *.
    set (ta := text_area page) in *.
    assert (Er : (ta / pa * pa == ta)%Q) by (field; lra).
    set (r := (ta / pa)%Q) in *. clearbody r ta pa.
    rewrite Hn, Hs, Hm.
    destruct (py_min_cases r 1) as [[H ->]|[H ->]]; repeat split; intros;
      try nra.
Qed.

Lemma classify_by_area_witness :
  let page := mkPage 100 100
                [(0%Q, 0%Q, 95%Q, 95%Q, lit "text", 0, 0);
                 (0%Q, 0%Q, 50%Q, 50%Q, lit "image", 1, 1)] in
  classify page = NATIVE_TEXT
  /\ classify (mkPage 100 100 []) = SCANNED.
Proof.
  intros page. split.
  - apply (proj2 (classify_by_area page)); vm_compute; congruence.
  - apply (proj1 (classify_by_area (mkPage 100 100 []))). now right.
Defined.

End Classifier.


(* ================================================================= *)
(** * Helpers of the text extractor *)

Section ExtractorHelpers.

Import TextExtractor.

Lemma takewhile_dropwhile (p : ascii -> bool) s :
  takewhile p s ++ dropwhile p s = s.
Proof.
  induction s as [|c s IH]; [reflexivity|]. cbn.
  destruct (p c); [cbn; now rewrite IH | reflexivity].
Qed.

Lemma takewhile_forallb (p : ascii -> bool) s : forallb p (takewhile p s) = true.
Proof.
  induction s as [|c s IH]; [reflexivity|]. cbn.
  destruct (p c) eqn:E; [cbn; now rewrite E | reflexivity].
Qed.

Lemma takewhile_app_stop (p : ascii -> bool) ds c rest :
  forallb p ds = true -> p c = false ->
  takewhile p (ds ++ c :: rest) = ds /\ dropwhile p (ds ++ c :: rest) = c :: rest.
Proof.
  intros Hd Hc. induction ds as [|d ds IH]; cbn.
  - now rewrite Hc.
  - cbn in Hd. apply andb_true_iff in Hd as [H1 H2]. rewrite H1.
    destruct (IH H2) as [-> ->]. now split.
Qed.

(** X6.  [_starts_with_number] holds exactly for a text that, after its
    leading white space, starts with one or more digits followed by a
    full stop or a closing parenthesis. *)
Theorem starts_with_number_spec (t : str) :
  _starts_with_number t = true
  <-> exists digits c rest,
      lstrip t = digits ++ c :: rest
      /\ digits <> [] /\ forallb isdigit digits = true
      /\ (c = "."%char \/ c = ")"%char).
Proof.
  unfold _starts_with_number. cbv zeta. split.
  - intros H. destruct (lstrip t) as [|x s] eqn:E; [discriminate|].
    rewrite <- E in *. clear E x s.
    destruct (takewhile isdigit (lstrip t)) as [|d ds] eqn:Et; [discriminate|].
    destruct (dropwhile isdigit (lstrip t)) as [|c rest] eqn:Ed; [discriminate|].
    exists (d :: ds), c, rest. split; [|split; [discriminate|split]].
    + rewrite <- Et, <- Ed. symmetry. apply takewhile_dropwhile.
    + rewrite <- Et. apply takewhile_forallb.
    + apply orb_true_iff in H as [H|H]; apply Ascii.eqb_eq in H; auto.
  - intros (digits & c & rest & E & Hne & Hd & Hc). rewrite E.
    assert (Hnd : isdigit c = false) by (destruct Hc; subst c; reflexivity).
    destruct (@takewhile_app_stop isdigit digits c rest Hd Hnd) as [-> ->].
    destruct digits as [|d ds]; [congruence|]. cbn [app].
    destruct Hc; subst c; reflexivity.
Qed.

Lemma starts_with_number_spec_witness :
  _starts_with_number (lit "  12) item") = true
  /\ _starts_with_number (lit "12 items") = false.
Proof.
  split.
  - apply (proj2 (starts_with_number_spec (lit "  12) item"))).
    exists (lit "12"), ")"%char, (lit " item").
    split; [reflexivity|]. split; [discriminate|]. split; [reflexivity | now right].
  - reflexivity.
Defined.

(** ** Table regions *)

Definition contains (r b : BBox) : Prop :=
  (bbox0 r <= bbox0 b /\ bbox2 b <= bbox2 r
   /\ bbox1 r <= bbox1 b /\ bbox3 b <= bbox3 r)%Q.

(** The two boxes share no area. *)
Definition apart (b r : BBox) : Prop :=
  (bbox2 b <= bbox0 r \/ bbox2 r <= bbox0 b
   \/ bbox3 b <= bbox1 r \/ bbox3 r <= bbox1 b)%Q.

Lemma overlaps_loop_apart b area rects :
  Forall (apart b) rects -> overlaps_loop b area rects = false.
Proof.
  induction 1 as [|r rs Hr _ IH]; [reflexivity|].
  cbn [overlaps_loop]. cbv zeta.
  assert (E : Qltb (Py.max (bbox0 b) (bbox0 r)) (Py.min (bbox2 b) (bbox2 r))
              && Qltb (Py.max (bbox1 b) (bbox1 r)) (Py.min (bbox3 b) (bbox3 r))
              = false).
  { apply andb_false_iff.
    destruct (py_max_cases (bbox0 b) (bbox0 r)) as [[? ->]|[? ->]];
      destruct (py_min_cases (bbox2 b) (bbox2 r)) as [[? ->]|[? ->]];
      destruct (py_max_cases (bbox1 b) (bbox1 r)) as [[? ->]|[? ->]];
      destruct (py_min_cases (bbox3 b) (bbox3 r)) as [[? ->]|[? ->]];
      destruct Hr as [Hr|[Hr|[Hr|Hr]]];
      try (left; apply Qltb_ge; lra); try (right; apply Qltb_ge; lra). }
  rewrite E. exact IH.
Qed.

Lemma overlaps_loop_inside b rects r :
  In r rects -> contains r b ->
  (bbox0 b < bbox2 b)%Q -> (bbox1 b < bbox3 b)%Q ->
  overlaps_loop b ((bbox2 b - bbox0 b) * (bbox3 b - bbox1 b))%Q rects = true.
Proof.
  intros Hin (H0 & H2 & H1 & H3) Hw Hh.
  induction rects as [|r' rs IH]; [destruct Hin|].
  cbn [overlaps_loop]. cbv zeta.
  destruct (Qltb _ _ && Qltb _ _) eqn:E.
  2:{ destruct Hin as [->|Hin]; [|now apply IH]. exfalso.
      apply andb_false_iff in E.
      destruct (py_max_cases (bbox0 b) (bbox0 r)) as [[? Ea]|[? Ea]];
        destruct (py_min_cases (bbox2 b) (bbox2 r)) as [[? Eb]|[? Eb]];
        destruct (py_max_cases (bbox1 b) (bbox1 r)) as [[? Ec]|[? Ec]];
        destruct (py_min_cases (bbox3 b) (bbox3 r)) as [[? Ed]|[? Ed]];
        rewrite Ea, Eb, Ec, Ed in E;
        destruct E as [E|E]; apply Qltb_ge in E; lra. }
  destruct (Qltb (1 # 2) _) eqn:E2; [reflexivity|].
  destruct Hin as [->|Hin]; [|now apply IH]. exfalso.
  apply Qltb_ge in E2. revert E2.
  destruct (py_max_cases (bbox0 b) (bbox0 r)) as [[? ->]|[? ->]];
    destruct (py_min_cases (bbox2 b) (bbox2 r)) as [[? ->]|[? ->]];
    destruct (py_max_cases (bbox1 b) (bbox1 r)) as [[? ->]|[? ->]];
    destruct (py_min_cases (bbox3 b) (bbox3 r)) as [[? ->]|[? ->]];
    try lra; intros E2; apply Qlt_not_le in E2; [exact E2|];
    apply Qlt_shift_div_l; nra.
Qed.

(** X7.  A block that shares no area with any table region is never
    reported, in particular when there is no table; a block that lies
    inside a table region is always reported when its area is at least
    the floor of one millionth that the function puts under the block
    area. *)
Theorem overlaps_any_regions (bbox : BBox) (rects : list BBox) :
  (Forall (apart bbox) rects -> _overlaps_any bbox rects = false)
  /\ (forall r,
        In r rects -> contains r bbox ->
        (bbox0 bbox < bbox2 bbox)%Q -> (bbox1 bbox < bbox3 bbox)%Q ->
        (1 # 1000000 <= (bbox2 bbox - bbox0 bbox) * (bbox3 bbox - bbox1 bbox))%Q ->
        _overlaps_any bbox rects = true).
Proof.
  split.
  - intros H. unfold _overlaps_any. cbv zeta. now apply overlaps_loop_apart.
  - intros r Hin Hc Hw Hh Harea. unfold _overlaps_any. cbv zeta.
    destruct (py_max_cases ((bbox2 bbox - bbox0 bbox) * (bbox3 bbox - bbox1 bbox))%Q
                           (1 # 1000000)) as [[H _]|[_ ->]]; [lra|].
    eapply overlaps_loop_inside; eauto.
Qed.

Lemma overlaps_any_regions_witness :
  _overlaps_any (box 1 1 2 2) [box 0 0 10 10] = true
  /\ _overlaps_any (box 1 1 2 2) [box 5 0 10 10] = false.
Proof.
  split.
  - apply (proj2 (overlaps_any_regions (box 1 1 2 2) [box 0 0 10 10])
                 (box 0 0 10 10)).
    + now left.
    + repeat split; vm_compute; congruence.
    + reflexivity.
    + reflexivity.
    + vm_compute. congruence.
  - apply (proj1 (overlaps_any_regions (box 1 1 2 2) [box 5 0 10 10])).
    constructor; [|constructor]. left. vm_compute. congruence.
Defined.

End ExtractorHelpers.


(* ================================================================= *)
(** * The OCR engine *)

Section StripTwice.

Lemma dropwhile_app_stop (p : ascii -> bool) l c r :
  p c = false -> dropwhile p (l ++ c :: r) = dropwhile p l ++ c :: r.
Proof.
  intros Hc. induction l as [|x l IH]; cbn; [now rewrite Hc|].
  destruct (p x); [exact IH | reflexivity].
Qed.

Lemma dropwhile_head (p : ascii -> bool) s :
  match dropwhile p s with [] => True | c :: _ => p c = false end.
Proof.
  induction s as [|x s IH]; cbn; [exact I|].
  destruct (p x) eqn:E; [exact IH | exact E].
Qed.

Lemma strip_is_clean t : clean_start (strip t) /\ clean_end (strip t).
Proof.
  unfold strip, rstrip, lstrip. split.
  - pose proof (dropwhile_head isspace t) as H.
    destruct (dropwhile isspace t) as [|c s]; [exact I|].
    cbn [rev]. rewrite dropwhile_app_stop by exact H.
    rewrite rev_app_distr. exact H.
  - unfold clean_end. rewrite rev_involutive. apply dropwhile_head.
Qed.

Lemma strip_strip t : strip (strip t) = strip t.
Proof. destruct (strip_is_clean t). now apply strip_clean. Qed.

End StripTwice.

Section OcrResults.

Import OCREngine.

(** The rows that the loop of [_run_ocr] keeps, and the block of a row. *)
Definition is_word (w : Word) : bool :=
  negb (w_conf w =? -1) && nonempty (strip (w_text w)).

Definition word_block (w : Word) : TextBlock :=
  mkTextBlock (strip (w_text w))
    (inject_Z (w_left w), inject_Z (w_top w),
     inject_Z (w_left w) + inject_Z (w_width w),
     inject_Z (w_top w) + inject_Z (w_height w))%Q
    paragraph.

Lemma fold_word_step data s :
  fold_left word_step data s
  = mkOcrState
      (st_blocks s ++ map word_block (filter is_word data))
      (st_word_confidences s ++ map w_conf (filter is_word data))
      (st_full_text_parts s ++ map (fun w => strip (w_text w)) (filter is_word data)).
Proof.
  revert s. induction data as [|w data IH]; intros s.
  - cbn. rewrite !app_nil_r. now destruct s.
  - cbn [fold_left filter]. rewrite IH. unfold word_step, is_word. cbv zeta.
    destruct (w_conf w =? -1); cbn [negb andb orb]; [reflexivity|].
    destruct (nonempty (strip (w_text w))); cbn [negb map]; [|reflexivity].
    cbn [st_blocks st_word_confidences st_full_text_parts].
    now rewrite <- !app_assoc.
Qed.

Lemma sum_from xs acc : fold_left Z.add xs acc = acc + OCREngine.sum xs.
Proof.
  unfold OCREngine.sum. revert acc.
  induction xs as [|x xs IH]; intros acc; cbn [fold_left]; [lia|].
  rewrite (IH (acc + x)), (IH (0 + x)). lia.
Qed.

Lemma sum_bounds xs :
  Forall (fun c => 0 <= c <= 100) xs ->
  0 <= OCREngine.sum xs <= 100 * Z.of_nat (length xs).
Proof.
  induction 1 as [|x xs Hx _ IH]; [cbn; lia|].
  unfold OCREngine.sum in *. cbn [fold_left length].
  rewrite sum_from. unfold OCREngine.sum. lia.
Qed.

Lemma clamp_bounds c : (0 <= Py.max 0 (Py.min 1 c) <= 1)%Q.
Proof.
  destruct (py_min_cases 1 c) as [[? ->]|[? ->]];
    match goal with
    | |- context [Py.max 0 ?x] => destruct (py_max_cases 0 x) as [[? ->]|[? ->]]
    end; lra.
Qed.

Lemma clamp_inside c : (0 <= c <= 1)%Q -> (Py.max 0 (Py.min 1 c) == c)%Q.
Proof.
  intros H. destruct (py_min_cases 1 c) as [[? ->]|[? ->]];
    match goal with
    | |- context [Py.max 0 ?x] => destruct (py_max_cases 0 x) as [[? ->]|[? ->]]
    end; lra.
Qed.

Lemma ocr_result_blocks data :
  blocks (ocr_result_of data) = map word_block (filter is_word data)
  /\ ocr_text (ocr_result_of data)
     = join (lit " ") (map text (blocks (ocr_result_of data))).
Proof.
  unfold ocr_result_of. cbv zeta. rewrite fold_word_step.
  cbn [blocks ocr_text st_blocks st_full_text_parts app]. split; [reflexivity|].
  now rewrite map_map.
Qed.

Variable Image : Type.
Variable preprocessing : bool.
Variable _preprocess : Image -> attempt Image.
Variable image_to_data : Image -> attempt (list Word).

Abbreviation run_ocr := (_run_ocr preprocessing _preprocess image_to_data).

Lemma run_ocr_returns image r :
  run_ocr image = Returned r -> exists data, r = ocr_result_of data.
Proof.
  unfold _run_ocr. destruct preprocessing.
  - destruct (_preprocess image) as [img|e]; [|discriminate].
    destruct (image_to_data img) as [data|e]; [|discriminate].
    intros [= <-]. now exists data.
  - destruct (image_to_data image) as [data|e]; [|discriminate].
    intros [= <-]. now exists data.
Qed.

(** X8.  Whatever Tesseract reports, the result of [_run_ocr] has a
    confidence between 0 and 1, its text is the texts of its blocks
    joined by single spaces, and every block is a paragraph whose text is
    stripped and not empty; without any block the text is empty and the
    confidence is 0. *)
Theorem run_ocr_result (image : Image) (r : OCRResult) :
  run_ocr image = Returned r ->
  (0 <= confidence r <= 1)%Q
  /\ ocr_text r = join (lit " ") (map text (blocks r))
  /\ Forall (fun b => block_type b = paragraph /\ text b <> []
                      /\ strip (text b) = text b) (blocks r)
  /\ (blocks r = [] -> ocr_text r = [] /\ confidence r = 0%Q).
Proof.
  intros H. apply run_ocr_returns in H as [data ->].
  destruct (ocr_result_blocks data) as [Eb Et].
  split; [apply clamp_bounds|]. split; [exact Et|]. split.
  - rewrite Eb. apply Forall_map, Forall_forall. intros w Hw.
    apply filter_In in Hw as [_ Hw]. unfold is_word in Hw.
    apply andb_true_iff in Hw as [_ Hw]. cbn [word_block block_type text].
    split; [reflexivity|]. split; [|apply strip_strip].
    now destruct (strip (w_text w)).
  - intros E. rewrite Et, E. split; [reflexivity|].
    rewrite Eb in E. unfold ocr_result_of. cbv zeta. rewrite fold_word_step.
    cbn [confidence st_word_confidences app].
    destruct (filter is_word data); [reflexivity | discriminate].
Qed.

(** X9.  When the confidences of the recognised words are between 0 and
    100, the confidence of the result is their mean divided by 100: the
    clamp leaves it alone.  Rows with confidence -1 or blank text do not
    count. *)
Theorem run_ocr_confidence_mean (image : Image) (data : list Word) :
  (if preprocessing
   then exists img, _preprocess image = Returned img
                    /\ image_to_data img = Returned data
   else image_to_data image = Returned data) ->
  let confs := map w_conf (filter is_word data) in
  confs <> [] ->
  Forall (fun c => 0 <= c <= 100) confs ->
  exists r,
    run_ocr image = Returned r
    /\ (confidence r
        == inject_Z (OCREngine.sum confs) / inject_Z (Z.of_nat (length confs)) / 100)%Q.
Proof.
  intros Hdata confs Hne Hall. exists (ocr_result_of data). split.
  - unfold _run_ocr. destruct preprocessing.
    + destruct Hdata as (img & -> & ->). reflexivity.
    + now rewrite Hdata.
  - unfold ocr_result_of. cbv zeta. rewrite fold_word_step.
    cbn [confidence st_word_confidences app]. fold confs.
    destruct confs as [|c cs] eqn:E; [congruence|]. rewrite <- E in *.
    pose proof (sum_bounds Hall) as Hs.
    assert (Hlen : 0 < Z.of_nat (length confs)) by (rewrite E; cbn; lia).
    apply clamp_inside.
    set (n := Z.of_nat (length confs)) in *. set (t := OCREngine.sum confs) in *.
    assert (Hn : (0 < inject_Z n)%Q)
      by (change 0%Q with (inject_Z 0); rewrite <- Zlt_Qlt; exact Hlen).
    assert (Ht0 : (0 <= inject_Z t)%Q)
      by (change 0%Q with (inject_Z 0); rewrite <- Zle_Qle; lia).
    assert (Ht1 : (inject_Z t <= 100 * inject_Z n)%Q).
    { change 100%Q with (inject_Z 100). rewrite <- inject_Z_mult, <- Zle_Qle. lia. }
    split.
    + apply Qle_shift_div_l; [lra|]. apply Qle_shift_div_l; [exact Hn | lra].
    + apply Qle_shift_div_r; [lra|]. apply Qle_shift_div_r; [exact Hn | lra].
Qed.

End OcrResults.

Lemma run_ocr_result_witness :
  let data := [OCREngine.mkWord (lit " Hello ") 90 0 0 40 10;
               OCREngine.mkWord (lit "page") (-1) 0 0 100 100;
               OCREngine.mkWord (lit "world") 95 50 0 40 10] in
  let r := OCREngine.ocr_result_of data in
  ocr_text r = lit "Hello world" /\ (0 <= confidence r <= 1)%Q.
Proof.
  intros data r.
  destruct (@run_ocr_result Datatypes.unit false (fun i => Returned i)
              (fun _ => Returned data) tt r eq_refl) as (Hc & Ht & _).
  split; [exact Ht | exact Hc].
Defined.

Lemma run_ocr_confidence_mean_witness :
  let data := [OCREngine.mkWord (lit " Hello ") 90 0 0 40 10;
               OCREngine.mkWord (lit "page") (-1) 0 0 100 100;
               OCREngine.mkWord (lit "world") 95 50 0 40 10] in
  exists r,
    OCREngine._run_ocr false (fun i => Returned i) (fun _ => Returned data) tt
    = Returned r
    /\ (confidence r == 925 # 1000)%Q.
Proof.
  intros data.
  destruct (@run_ocr_confidence_mean Datatypes.unit false (fun i => Returned i)
              (fun _ => Returned data) tt data eq_refl) as (r & E & Hc).
  - discriminate.
  - repeat constructor; cbn; lia.
  - exists r. split; [exact E|]. rewrite Hc. reflexivity.
Defined.


(* ================================================================= *)
(** * The question matcher *)

Section Leaves.

Import QAMatcher.

Definition is_leaf (s : DocumentSection) : bool :=
  match subsections s with [] => true | _ => false end.

Lemma filter_flat_map {A B} (p : B -> bool) (f : A -> list B) l :
  filter p (flat_map f l) = flat_map (fun x => filter p (f x)) l.
Proof.
  induction l as [|x l IH]; [reflexivity|].
  cbn [flat_map]. now rewrite filter_app, IH.
Qed.

Lemma flat_map_ext_Forall {A B} (f g : A -> list B) l :
  Forall (fun x => f x = g x) l -> flat_map f l = flat_map g l.
Proof. induction 1 as [|x l Hx _ IH]; [reflexivity|]. cbn. now rewrite Hx, IH. Qed.

Lemma collect_leaves s : collect s = filter is_leaf (preorder s).
Proof.
  induction s as [t l c ps pe subs IH] using section_induction.
  destruct subs as [|x xs].
  - reflexivity.
  - change (collect (mkDocumentSection t l c ps pe (x :: xs)))
      with (flat_map collect (x :: xs)).
    change (preorder (mkDocumentSection t l c ps pe (x :: xs)))
      with (mkDocumentSection t l c ps pe (x :: xs) :: flat_map preorder (x :: xs)).
    cbn [filter is_leaf subsections].
    rewrite filter_flat_map. now apply flat_map_ext_Forall.
Qed.

Lemma collect_nonempty s : collect s <> [].
Proof.
  induction s as [t l c ps pe subs IH] using section_induction.
  destruct subs as [|x xs]; [discriminate|].
  change (collect (mkDocumentSection t l c ps pe (x :: xs)))
    with (collect x ++ flat_map collect xs).
  inversion IH as [|? ? Hx _]; subst. destruct (collect x); [congruence | discriminate].
Qed.

(** X10.  [split_into_sections] returns the sections of the document that
    have no subsections, each one once and in document order; there is at
    least one as soon as the document has a section. *)
Theorem split_into_sections_leaves (d : Document) :
  split_into_sections d = filter is_leaf (flat_map preorder (sections d))
  /\ (sections d <> [] -> split_into_sections d <> []).
Proof.
  unfold split_into_sections. split.
  - rewrite filter_flat_map. apply flat_map_ext_Forall, Forall_forall.
    intros s _. apply collect_leaves.
  - destruct (sections d) as [|s ss]; [congruence|]. intros _. cbn [flat_map].
    pose proof (collect_nonempty s). destruct (collect s); [congruence | discriminate].
Qed.

Lemma split_into_sections_leaves_witness :
  split_into_sections
    (mkDocument [mkDocumentSection (lit "A") 1 [] 1 2
                   [mkDocumentSection (lit "B") 2 [] 2 2 []]] [])
  <> [].
Proof.
  apply (proj2 (split_into_sections_leaves
                  (mkDocument [mkDocumentSection (lit "A") 1 [] 1 2
                                 [mkDocumentSection (lit "B") 2 [] 2 2 []]] []))).
  discriminate.
Defined.

End Leaves.

Section Ranking.

Import QAMatcher.

Variable top_n : Z.
Variable min_similarity : Q.
Variable answer_sections : list DocumentSection.
Variable scores : list Q.

(** The match that the loop builds for the section of index [idx]. *)
Definition match_of (idx : nat) : MatchResult :=
  let section := nth idx answer_sections (mkDocumentSection [] 0 [] 0 0 []) in
  mkMatchResult (title section) (page_start section, page_end section)
                (nth idx scores 0%Q) (firstn 500 (section_content section)).

(** The ranking up to the first score below the threshold. *)
Fixpoint above_threshold (ranked_indices : list nat) : list nat :=
  match ranked_indices with
  | [] => []
  | idx :: rest =>
      if Qltb (nth idx scores 0%Q) min_similarity then []
      else idx :: above_threshold rest
  end.

Definition in_range (idx : nat) : Prop :=
  (idx < length scores)%nat /\ (idx < length answer_sections)%nat.

Lemma rank_loop_closed ranked :
  Forall in_range ranked ->
  forall acc,
    rank_loop top_n min_similarity answer_sections scores ranked acc
    = Ok (acc ++ map match_of
                   (firstn (Z.to_nat (top_n - Z.of_nat (length acc)))
                           (above_threshold ranked))).
Proof.
  induction 1 as [|idx rest [Hs Ha] _ IH]; intros acc.
  - cbn. now rewrite firstn_nil, app_nil_r.
  - cbn [rank_loop above_threshold].
    destruct (nth_error scores idx) as [score|] eqn:Es;
      [|apply nth_error_None in Es; lia].
    rewrite (nth_error_nth _ _ 0%Q Es).
    destruct (Qltb score min_similarity).
    { now rewrite firstn_nil, app_nil_r. }
    destruct (Z.geb_spec (Z.of_nat (length acc)) top_n) as [Hge|Hlt].
    { replace (Z.to_nat (top_n - Z.of_nat (length acc))) with 0%nat by lia.
      cbn. now rewrite app_nil_r. }
    destruct (nth_error answer_sections idx) as [section|] eqn:Ea;
      [|apply nth_error_None in Ea; lia].
    rewrite IH, length_app. cbn [length].
    replace (Z.to_nat (top_n - Z.of_nat (length acc)))
      with (S (Z.to_nat (top_n - Z.of_nat (length acc + 1)))) by lia.
    cbn [firstn map]. rewrite <- app_assoc. cbn [app].
    do 3 f_equal. unfold match_of. cbv zeta.
    rewrite (nth_error_nth _ _ _ Ea), (nth_error_nth _ _ 0%Q Es). reflexivity.
Qed.

Lemma above_threshold_good ranked :
  Forall (fun idx => (min_similarity <= nth idx scores 0)%Q) (above_threshold ranked).
Proof.
  induction ranked as [|idx rest IH]; [constructor|].
  cbn [above_threshold]. destruct (Qltb _ _) eqn:E; [constructor|].
  constructor; [now apply Qltb_ge | exact IH].
Qed.

Lemma Forall_firstn {A} (P : A -> Prop) n l : Forall P l -> Forall P (firstn n l).
Proof.
  intros H. revert n. induction H as [|x l Hx _ IH]; intros [|n]; cbn;
    constructor; auto.
Qed.

(** X11.  The matches of a question are the sections of the ranking, in
    its order, up to the first score below [min_similarity] and at most
    [top_n] of them; so no match scores below the threshold, and there is
    no match at all when [top_n] is not positive or the best-ranked score
    is below the threshold. *)
Theorem rank_loop_matches (ranked : list nat) :
  Forall in_range ranked ->
  exists ms,
    rank_loop top_n min_similarity answer_sections scores ranked [] = Ok ms
    /\ ms = map match_of (firstn (Z.to_nat top_n) (above_threshold ranked))
    /\ Z.of_nat (length ms) <= Z.max 0 top_n
    /\ Forall (fun m => (min_similarity <= similarity_score m)%Q) ms
    /\ (top_n <= 0 -> ms = [])
    /\ (forall idx rest, ranked = idx :: rest ->
                         (nth idx scores 0 < min_similarity)%Q -> ms = []).
Proof.
  intros Hr. eexists. split; [apply (rank_loop_closed Hr)|].
  cbn [app length]. rewrite Z.sub_0_r. split; [reflexivity|]. split; [|split; [|split]].
  - rewrite length_map, length_firstn. lia.
  - apply Forall_map. apply Forall_firstn.
    eapply Forall_impl; [|apply above_threshold_good]. now intros idx H.
  - intros H. replace (Z.to_nat top_n) with 0%nat by lia. reflexivity.
  - intros idx rest -> Hlt. cbn [above_threshold].
    apply Qltb_lt in Hlt. rewrite Hlt. now rewrite firstn_nil.
Qed.

End Ranking.

Lemma rank_loop_matches_witness :
  let secs := [mkDocumentSection (lit "A") 1 (lit "alpha") 1 1 [];
               mkDocumentSection (lit "B") 1 (lit "beta") 2 3 [];
               mkDocumentSection (lit "C") 1 (lit "gamma") 4 4 []] in
  let scores := [3 # 10; 9 # 10; 6 # 10]%Q in
  exists ms,
    QAMatcher.rank_loop 3 (1 # 2) secs scores [1; 2; 0]%nat [] = Ok ms
    /\ map QAMatcher.section_title ms = [lit "B"; lit "C"].
Proof.
  intros secs scores.
  destruct (@rank_loop_matches 3 (1 # 2) secs scores [1; 2; 0]%nat)
    as (ms & E & -> & _).
  - repeat constructor.
  - eexists. split; [exact E | reflexivity].
Defined.


Section Matching.

Import QAMatcher.

Variable similarity_matrix : list str -> list str -> list (list Q).
Variable argsort : list Q -> list nat.
Variable top_n : Z.
Variable min_similarity : Q.
Variable answer_sections : list DocumentSection.

Abbreviation run_match :=
  (fun questions => match_ similarity_matrix argsort questions answer_sections
                           top_n min_similarity).

(** What holds of the matches of every question. *)
Definition matches_ok (ms : list MatchResult) : Prop :=
  Z.of_nat (length ms) <= Z.max 0 top_n
  /\ Forall (fun m => (min_similarity <= similarity_score m)%Q) ms.

Lemma rank_loop_keeps scores ranked :
  forall acc ms,
    rank_loop top_n min_similarity answer_sections scores ranked acc = Ok ms ->
    matches_ok acc -> matches_ok ms.
Proof.
  induction ranked as [|idx rest IH]; intros acc ms; cbn [rank_loop].
  - now intros [= <-].
  - destruct (nth_error scores idx) as [score|]; [|discriminate].
    destruct (Qltb score min_similarity) eqn:E; [now intros [= <-]|].
    destruct (Z.geb_spec (Z.of_nat (length acc)) top_n); [now intros [= <-]|].
    destruct (nth_error answer_sections idx) as [section|]; [|discriminate].
    intros Hrun [Hlen Hall]. apply (IH _ _ Hrun). split.
    + rewrite length_app. cbn [length]. lia.
    + apply Forall_app. split; [exact Hall|]. constructor; [|constructor].
      cbn [similarity_score]. now apply Qltb_ge.
Qed.

Definition result_ok (r : QAMatch) : Prop :=
  (is_unmatched r = true <-> matches r = []) /\ matches_ok (matches r).

Lemma question_loop_results matrix questions :
  forall i rs,
    question_loop argsort top_n min_similarity answer_sections matrix i questions
    = Ok rs ->
    map question rs = questions /\ Forall result_ok rs.
Proof.
  induction questions as [|q rest IH]; intros i rs; cbn [question_loop].
  - intros [= <-]. split; [reflexivity | constructor].
  - destruct (nth_error matrix i) as [scores|]; [|discriminate]. cbv zeta.
    destruct (rank_loop _ _ _ _ _ _) as [ms| |] eqn:Em; cbn [bind]; try discriminate.
    destruct (question_loop _ _ _ _ _ _ _) as [rs'| |] eqn:Er; cbn [bind];
      try discriminate.
    intros [= <-]. destruct (IH _ _ Er) as [Hq Hall].
    split; [cbn; now rewrite Hq|]. constructor; [|exact Hall].
    split; cbn [is_unmatched matches].
    + destruct ms; cbn; split; congruence.
    + eapply rank_loop_keeps; [exact Em|]. split; [cbn; lia | constructor].
Qed.

(** The rows of the matrix and the rankings that the array library
    returns for the questions: a row for every question, and in every
    ranking only indices of the row and of the sections. *)
Definition well_shaped (matrix : list (list Q)) (n : nat) : Prop :=
  forall i, (i < n)%nat ->
            exists scores,
              nth_error matrix i = Some scores
              /\ Forall (in_range answer_sections scores) (argsort scores).

Lemma question_loop_total matrix questions :
  forall i,
    (forall j, (j < length questions)%nat ->
               exists scores,
                 nth_error matrix (i + j) = Some scores
                 /\ Forall (in_range answer_sections scores) (argsort scores)) ->
    exists rs,
      question_loop argsort top_n min_similarity answer_sections matrix i questions
      = Ok rs.
Proof.
  induction questions as [|q rest IH]; intros i H; cbn [question_loop].
  - now exists [].
  - destruct (H 0%nat ltac:(cbn; lia)) as (scores & Es & Hr).
    rewrite Nat.add_0_r in Es. rewrite Es. cbv zeta.
    rewrite (@rank_loop_closed top_n min_similarity answer_sections scores
               (rev (argsort scores)))
      by (apply Forall_rev, Hr).
    cbn [bind].
    destruct (IH (S i)) as [rs ->].
    + intros j Hj. replace (S i + j)%nat with (i + S j)%nat by lia.
      apply H. cbn. lia.
    + eexists. reflexivity.
Qed.

(** X12.  [match] answers every question once and in order; a question is
    flagged as unmatched exactly when it has no match, no question has
    more than [top_n] matches, and no match scores below
    [min_similarity].  Without questions the result is empty, and without
    answer sections every question is unmatched; neither case calls the
    encoder.  The call returns whenever the similarity matrix has a row
    for each question and the rankings hold valid indices. *)
Theorem match_results (questions : list str) :
  (forall rs,
      run_match questions = Ok rs ->
      map question rs = questions /\ Forall result_ok rs)
  /\ (questions = [] -> run_match questions = Ok [])
  /\ (answer_sections = [] ->
      run_match questions = Ok (map (fun q => mkQAMatch q [] true) questions))
  /\ (well_shaped
        (similarity_matrix questions (map section_content answer_sections))
        (length questions) ->
      exists rs, run_match questions = Ok rs).
Proof.
  unfold match_. split; [|split; [|split]].
  - intros rs. destruct questions as [|q qs]; [intros [= <-]; now split|].
    destruct answer_sections as [|s ss] eqn:Ea.
    + intros [= <-].
      change (mkQAMatch q [] true :: map (fun q0 => mkQAMatch q0 [] true) qs)
        with (map (fun q0 => mkQAMatch q0 [] true) (q :: qs)).
      split.
      * rewrite map_map. cbn [question]. now rewrite map_id.
      * apply Forall_map, Forall_forall. intros x _.
        split; cbn; [tauto|]. split; [cbn; lia | constructor].
    + rewrite <- Ea. apply question_loop_results.
  - now intros ->.
  - intros ->. now destruct questions.
  - intros H. destruct questions as [|q qs]; [now exists []|].
    destruct answer_sections as [|s ss] eqn:Ea; [eexists; reflexivity|].
    rewrite <- Ea in *. apply question_loop_total. intros j Hj. now apply H.
Qed.

End Matching.

Lemma match_results_witness :
  let secs := [mkDocumentSection (lit "A") 1 (lit "alpha") 1 1 [];
               mkDocumentSection (lit "B") 1 (lit "beta") 2 3 []] in
  let matrix := fun (_ _ : list str) => [[3 # 10; 9 # 10]%Q] in
  let argsort := fun (_ : list Q) => [0; 1]%nat in
  exists rs,
    QAMatcher.match_ matrix argsort [lit "what is beta"] secs 3 (1 # 2) = Ok rs
    /\ map QAMatcher.question rs = [lit "what is beta"].
Proof.
  intros secs matrix argsort.
  destruct (@match_results matrix argsort 3 (1 # 2) secs [lit "what is beta"])
    as (Hok & _ & _ & Htotal).
  destruct Htotal as [rs E].
  - intros i Hi. cbn in Hi. assert (i = 0%nat) by lia. subst i.
    eexists. split; [reflexivity|]. repeat constructor.
  - exists rs. split; [exact E|]. apply (Hok rs E).
Defined.


(* ================================================================= *)
(** * Anchors of the table of contents *)

Section Slugs.

Import MarkdownConverter.

(** [s.strip()] and [s.strip(c)] trim both ends by a class of
    characters. *)
Definition trim (p : ascii -> bool) (s : str) : str :=
  rev (dropwhile p (rev (dropwhile p s))).

Lemma strip_trim s : strip s = trim isspace s.
Proof. reflexivity. Qed.

Lemma strip_char_trim c s : strip_char c s = trim (Ascii.eqb c) s.
Proof. reflexivity. Qed.

Definition head_not (p : ascii -> bool) (s : str) : Prop :=
  match s with [] => True | c :: _ => p c = false end.

Lemma trim_ends p s : head_not p (trim p s) /\ head_not p (rev (trim p s)).
Proof.
  unfold trim. split.
  - pose proof (dropwhile_head p s) as H.
    destruct (dropwhile p s) as [|c r]; [exact I|].
    cbn [rev]. rewrite dropwhile_app_stop by exact H.
    rewrite rev_app_distr. exact H.
  - rewrite rev_involutive. apply dropwhile_head.
Qed.

Lemma trim_id p s : head_not p s -> head_not p (rev s) -> trim p s = s.
Proof.
  intros H1 H2. unfold trim.
  assert (E : forall x, head_not p x -> dropwhile p x = x).
  { intros [|c x]; cbn; [reflexivity|]. now intros ->. }
  rewrite (E s H1), (E (rev s) H2). apply rev_involutive.
Qed.

(** A trimmed string is a piece of the string. *)
Lemma trim_piece p s : exists a b, s = a ++ trim p s ++ b.
Proof.
  unfold trim. exists (takewhile p s), (rev (takewhile p (rev (dropwhile p s)))).
  rewrite <- rev_app_distr, takewhile_dropwhile, rev_involutive.
  symmetry. apply takewhile_dropwhile.
Qed.

(** No two hyphens side by side. *)
Fixpoint single_hyphens (s : str) : bool :=
  match s with
  | c1 :: r =>
      match r with
      | c2 :: _ => negb (is_hyphen c1 && is_hyphen c2) && single_hyphens r
      | [] => true
      end
  | [] => true
  end.

Lemma single_hyphens_app a b :
  single_hyphens (a ++ b) = true -> single_hyphens a = true /\ single_hyphens b = true.
Proof.
  induction a as [|c a IH]; [now split|].
  destruct a as [|c' a].
  - cbn [app]. intros H. split; [reflexivity|].
    destruct b as [|x b]; [reflexivity|].
    cbn [single_hyphens] in H. now apply andb_true_iff in H.
  - intros H. change ((c :: c' :: a) ++ b) with (c :: c' :: a ++ b) in H.
    cbn [single_hyphens] in H. apply andb_true_iff in H as [H1 H2].
    destruct (IH H2) as [Ha Hb]. split; [|exact Hb].
    cbn [single_hyphens]. now rewrite H1.
Qed.

(** The characters of a slug: lower-case letters, digits and hyphens. *)
Definition slug_char (c : ascii) : bool := islower c || isdigit c || is_hyphen c.

Lemma collapse_after_run s : head_not is_hyphen (collapse_runs is_hyphen true s).
Proof.
  induction s as [|x t IH]; [exact I|]. cbn [collapse_runs].
  destruct (is_hyphen x) eqn:Ex; [exact IH | exact Ex].
Qed.

Lemma single_hyphens_cons c x r :
  single_hyphens (c :: x :: r)
  = negb (is_hyphen c && is_hyphen x) && single_hyphens (x :: r).
Proof. reflexivity. Qed.

Lemma collapse_single b s : single_hyphens (collapse_runs is_hyphen b s) = true.
Proof.
  revert b. induction s as [|c s IH]; intros b; [reflexivity|].
  cbn [collapse_runs]. destruct (is_hyphen c) eqn:Ec.
  - destruct b; [apply IH|].
    pose proof (collapse_after_run s) as H. specialize (IH true).
    destruct (collapse_runs is_hyphen true s) as [|x r]; [reflexivity|].
    rewrite single_hyphens_cons, IH. cbn [head_not] in H.
    now rewrite H, andb_false_r.
  - specialize (IH false).
    destruct (collapse_runs is_hyphen false s) as [|x r]; [reflexivity|].
    rewrite single_hyphens_cons, IH, Ec. reflexivity.
Qed.

Lemma collapse_chars (p q : ascii -> bool) b s :
  q "-"%char = true ->
  (forall c, In c s -> p c = false -> q c = true) ->
  forallb q (collapse_runs p b s) = true.
Proof.
  intros Hh. revert b. induction s as [|c s IH]; intros b H; [reflexivity|].
  cbn [collapse_runs].
  assert (Hs : forall c0, In c0 s -> p c0 = false -> q c0 = true)
    by (intros c0 Hin; apply H; now right).
  destruct (p c) eqn:Ec.
  - destruct b; cbn [forallb]; rewrite ?Hh; now apply IH.
  - cbn [forallb]. rewrite (H c (or_introl eq_refl) Ec). now apply IH.
Qed.

(** Without a character of the class, nothing is collapsed. *)
Lemma collapse_none (p : ascii -> bool) b s :
  forallb (fun c => negb (p c)) s = true -> collapse_runs p b s = s.
Proof.
  revert b. induction s as [|c s IH]; intros b H; [reflexivity|].
  cbn in H. apply andb_true_iff in H as [Hc Hs]. apply negb_true_iff in Hc.
  cbn [collapse_runs]. rewrite Hc. now rewrite IH.
Qed.

(** Single hyphens stay as they are. *)
Lemma collapse_hyphens_id s :
  single_hyphens s = true ->
  collapse_runs is_hyphen false s = s
  /\ (head_not is_hyphen s -> collapse_runs is_hyphen true s = s).
Proof.
  induction s as [|c s IH]; intros H; [now split|].
  assert (Hs : single_hyphens s = true).
  { destruct s as [|c' s]; [reflexivity|]. cbn [single_hyphens] in H.
    now apply andb_true_iff in H. }
  destruct (IH Hs) as [IH1 IH2]. cbn [collapse_runs].
  destruct (is_hyphen c) eqn:Ec.
  - assert (Hn : head_not is_hyphen s).
    { destruct s as [|c' s]; [exact I|]. cbn [single_hyphens] in H.
      apply andb_true_iff in H as [H _]. rewrite Ec in H. cbn in H.
      now apply negb_true_iff in H. }
    split.
    + unfold is_hyphen in Ec. apply Ascii.eqb_eq in Ec. subst c.
      now rewrite (IH2 Hn).
    + cbn [head_not]. congruence.
  - split; [now rewrite IH1 | intros _; now rewrite IH1].
Qed.

Definition slug_keep (c : ascii) : bool := isword c || isspace c || is_hyphen c.
Definition slug_gap (c : ascii) : bool := isspace c || Ascii.eqb c "_"%char.

Lemma lower_not_upper c : isupper (lower_char c) = false.
Proof. destruct c as [[] [] [] [] [] [] [] []]; vm_compute; reflexivity. Qed.

Lemma kept_is_slug c :
  slug_keep c = true -> isupper c = false -> slug_gap c = false -> slug_char c = true.
Proof. destruct c as [[] [] [] [] [] [] [] []]; vm_compute; congruence. Qed.

Lemma slug_char_facts c :
  slug_char c = true ->
  lower_char c = c /\ isspace c = false /\ slug_keep c = true /\ slug_gap c = false.
Proof. destruct c as [[] [] [] [] [] [] [] []]; vm_compute; intuition congruence. Qed.

Lemma in_trim p c s : In c (trim p s) -> In c s.
Proof.
  intros H. destruct (trim_piece p s) as (a & b & E). rewrite E.
  apply in_or_app. right. apply in_or_app. now left.
Qed.

Lemma head_not_sym s :
  head_not (Ascii.eqb "-"%char) s <-> head_not is_hyphen s.
Proof. destruct s as [|c s]; [tauto|]. cbn. unfold is_hyphen. now rewrite Ascii.eqb_sym. Qed.

Lemma slugify_props t :
  forallb slug_char (_slugify t) = true
  /\ single_hyphens (_slugify t) = true
  /\ head_not is_hyphen (_slugify t)
  /\ head_not is_hyphen (rev (_slugify t)).
Proof.
  unfold _slugify. cbv zeta. fold slug_keep. fold slug_gap.
  set (s1 := filter slug_keep (strip (lower t))).
  set (s2 := collapse_runs slug_gap false s1).
  set (s3 := collapse_runs is_hyphen false s2).
  assert (H1 : forall c, In c s1 -> slug_keep c = true /\ isupper c = false).
  { intros c Hc. apply filter_In in Hc as [Hc Hk]. split; [exact Hk|].
    rewrite strip_trim in Hc. apply in_trim in Hc. unfold lower in Hc.
    apply in_map_iff in Hc as (x & <- & _). apply lower_not_upper. }
  assert (H2 : forallb slug_char s2 = true).
  { apply collapse_chars; [reflexivity|]. intros c Hc Hg.
    destruct (H1 c Hc). now apply kept_is_slug. }
  assert (H3 : forallb slug_char s3 = true).
  { apply collapse_chars; [reflexivity|]. intros c Hc _.
    rewrite forallb_forall in H2. now apply H2. }
  rewrite strip_char_trim.
  destruct (trim_piece (Ascii.eqb "-"%char) s3) as (a & b & E).
  destruct (trim_ends (Ascii.eqb "-"%char) s3) as [He1 He2].
  split; [|split; [|split]].
  - rewrite forallb_forall in *. intros c Hc. apply H3. now apply in_trim in Hc.
  - pose proof (collapse_single false s2) as Hs. fold s3 in Hs. rewrite E in Hs.
    apply single_hyphens_app in Hs as [_ Hs].
    now apply single_hyphens_app in Hs as [Hs _].
  - now apply head_not_sym.
  - now apply head_not_sym.
Qed.

(** The characters of ASCII, the code points below 128.  On them the
    classes [\w] and [\s] and [str.lower] of the source are the ones of
    this file; above them the source knows further letters, digits and
    white space. *)
Definition isascii (c : ascii) : bool := (nat_of_ascii c <? 128)%nat.

(** X13.  The slug of a title of ASCII characters holds only lower-case
    letters a to z, digits 0 to 9 and hyphens, never two hyphens in a
    row, and neither starts nor ends with a hyphen. *)
Theorem slugify_shape (t : str) :
  forallb isascii t = true ->
  forallb slug_char (_slugify t) = true
  /\ single_hyphens (_slugify t) = true
  /\ startswith (lit "-") (_slugify t) = false
  /\ endswith (lit "-") (_slugify t) = false.
Proof.
  intros _. destruct (slugify_props t) as (H1 & H2 & H3 & H4).
  assert (Hs : forall s, head_not is_hyphen s -> startswith (lit "-") s = false).
  { intros [|c s] H; [reflexivity|]. cbn [head_not] in H. unfold is_hyphen in H.
    unfold startswith. change (lit "-") with ["-"%char]. cbn [strip_prefix].
    now rewrite Ascii.eqb_sym, H. }
  split; [exact H1|]. split; [exact H2|]. split; [now apply Hs|].
  unfold endswith. now apply Hs.
Qed.

Lemma map_id_on (f : ascii -> ascii) s :
  (forall c, In c s -> f c = c) -> map f s = s.
Proof.
  induction s as [|c s IH]; intros H; [reflexivity|].
  cbn. rewrite (H c (or_introl eq_refl)), IH; [reflexivity|].
  intros x Hx. apply H. now right.
Qed.

Lemma filter_all (p : ascii -> bool) s : forallb p s = true -> filter p s = s.
Proof.
  induction s as [|c s IH]; intros H; [reflexivity|].
  cbn in *. apply andb_true_iff in H as [-> Hs]. now rewrite IH.
Qed.

(** X14.  Making a slug of a slug changes nothing. *)
Theorem slugify_idempotent (t : str) : _slugify (_slugify t) = _slugify t.
Proof.
  destruct (slugify_props t) as (H1 & H2 & H3 & H4).
  set (s := _slugify t) in *. clearbody s. unfold _slugify. cbv zeta.
  fold slug_keep. fold slug_gap.
  assert (Hf : forall c, In c s ->
                         lower_char c = c /\ isspace c = false
                         /\ slug_keep c = true /\ slug_gap c = false).
  { intros c Hc. rewrite forallb_forall in H1. now apply slug_char_facts, H1. }
  assert (E1 : lower s = s) by (apply map_id_on; intros c Hc; now apply Hf).
  assert (E2 : strip s = s).
  { rewrite strip_trim. apply trim_id.
    - destruct s as [|c r]; [exact I|]. apply (Hf c). now left.
    - destruct (rev s) as [|c r] eqn:Er; [exact I|]. apply (Hf c).
      apply in_rev. rewrite Er. now left. }
  assert (E3 : filter slug_keep s = s).
  { apply filter_all, forallb_forall. intros c Hc. now apply Hf. }
  assert (E4 : collapse_runs slug_gap false s = s).
  { apply collapse_none, forallb_forall. intros c Hc.
    apply negb_true_iff. now apply Hf. }
  rewrite E1, E2, E3, E4, (proj1 (collapse_hyphens_id s H2)).
  rewrite strip_char_trim. apply trim_id; now apply head_not_sym.
Qed.

End Slugs.

Lemma slugify_shape_witness :
  MarkdownConverter._slugify (lit " Hello,  World_2 -- (draft)! ")
  = lit "hello-world-2-draft"
  /\ forallb slug_char
       (MarkdownConverter._slugify (lit " Hello,  World_2 -- (draft)! ")) = true.
Proof.
  split; [reflexivity|].
  apply (@slugify_shape (lit " Hello,  World_2 -- (draft)! ")). reflexivity.
Defined.

(* ================================================================= *)
(** * The shape of a built hierarchy *)

Section BuiltShape.

Import MarkdownConverter.

(** The fields of a section that the builder never writes. *)
Definition stable (o : obj) : str * Z * str * Z :=
  (o_title o, o_level o, o_content o, o_page_start o).

Definition fields (s : DocumentSection) : str * Z * str * Z :=
  (title s, level s, section_content s, page_start s).

Lemma stable_level o o' : stable o = stable o' -> o_level o = o_level o'.
Proof. unfold stable. now intros [= _ H _ _]. Qed.

Lemma stable_page_start o o' :
  stable o = stable o' -> o_page_start o = o_page_start o'.
Proof. unfold stable. now intros [= _ _ _ H]. Qed.

Lemma update_stable p (f : obj -> obj) h r :
  (forall o, stable (f o) = stable o) ->
  stable (deref (update p f h) r) = stable (deref h r).
Proof.
  intros Hf. rewrite deref_update. destruct (_ && _); [apply Hf | reflexivity].
Qed.

Lemma hierarchy_step_stable st s r :
  stable (deref (fst (fst (hierarchy_step st s))) r)
  = stable (deref (fst (fst st)) r).
Proof.
  destruct st as [[h root] stack]. unfold hierarchy_step.
  destruct (pop_stack h stack (o_level (deref h s))) as [|parent rest];
    [reflexivity|].
  cbn [fst]. destruct (_ >? _).
  - rewrite update_stable by reflexivity. now rewrite update_stable.
  - now rewrite update_stable.
Qed.

(** The section left on top of the stack is above the new one. *)
Lemma pop_stack_head h stack lvl p rest :
  pop_stack h stack lvl = p :: rest -> o_level (deref h p) < lvl.
Proof.
  induction stack as [|top stack IH]; cbn [pop_stack]; [discriminate|].
  rewrite Z.geb_leb. destruct (Z.leb_spec lvl (o_level (deref h top))).
  - exact IH.
  - now intros [= -> _].
Qed.

(** The last page of a parent after a section is attached to it. *)
Lemma attach_page_end h parent k :
  (parent < length h)%nat -> parent <> k ->
  let h1 := update parent (append_subsection k) h in
  let h2 := if o_page_end (deref h1 k) >? o_page_end (deref h1 parent)
            then update parent (set_page_end (o_page_end (deref h1 k))) h1
            else h1 in
  o_page_end (deref h2 parent)
  = Z.max (o_page_end (deref h parent)) (o_page_end (deref h k)).
Proof.
  intros Hp Hk h1 h2.
  assert (Hl1 : length h1 = length h) by apply update_length.
  assert (E1 : deref h1 k = deref h k).
  { unfold h1. rewrite deref_update.
    destruct (Nat.eqb_spec parent k); [contradiction | reflexivity]. }
  assert (E2 : o_page_end (deref h1 parent) = o_page_end (deref h parent)).
  { unfold h1. rewrite deref_update. now destruct (_ && _). }
  unfold h2. rewrite E1, E2, Z.gtb_ltb.
  destruct (Z.ltb_spec (o_page_end (deref h parent)) (o_page_end (deref h k))).
  - rewrite deref_update, Hl1, Nat.eqb_refl.
    destruct (Nat.ltb_spec parent (length h)); [|lia]. cbn. lia.
  - rewrite E2. lia.
Qed.

(** The last page of every section is the largest of its own and those
    that its direct subsections had when they were attached. *)
Definition pages_inv (h0 h : heap) : Prop :=
  forall r,
    o_page_end (deref h r)
    = fold_left Z.max
        (map (fun c => o_page_end (deref h0 c)) (o_subsections (deref h r)))
        (o_page_end (deref h0 r)).

(** A subsection lies deeper than the section that holds it. *)
Definition levels_inv (h0 h : heap) : Prop :=
  forall r c, In c (o_subsections (deref h r)) ->
              o_level (deref h0 r) < o_level (deref h0 c).

Definition shape_inv (h0 : heap) (k : nat) (st : heap * list ref * list ref)
  : Prop :=
  build_inv k st
  /\ (forall r, stable (deref (fst (fst st)) r) = stable (deref h0 r))
  /\ pages_inv h0 (fst (fst st))
  /\ levels_inv h0 (fst (fst st)).

Lemma hierarchy_step_shape h0 k st :
  (k < length (fst (fst st)))%nat ->
  shape_inv h0 k st -> shape_inv h0 (S k) (hierarchy_step st k).
Proof.
  intros Hk (Hb & Hst & Hpg & Hlv).
  split; [now apply hierarchy_step_spine|].
  split; [intros r; now rewrite hierarchy_step_stable|].
  destruct st as [[h root] stack]. cbn [fst] in *. destruct Hb as [Hsp Hfr].
  unfold hierarchy_step.
  pose proof (@spine_pop_stack h stack (o_level (deref h k)) root k Hsp) as Hsp'.
  destruct (pop_stack h stack (o_level (deref h k))) as [|parent rest] eqn:Epop;
    [now split|].
  destruct Hsp' as [Ht _]. pose proof (spans_le Ht) as Hlt.
  apply pop_stack_head in Epop.
  destruct (@attach_spec h parent k) as (Hother & Hparent & _); [lia|].
  pose proof (@attach_page_end h parent k) as Hend.
  cbv zeta in Hother, Hparent, Hend. cbn [fst].
  set (h2 := if _ >? _ then _ else _) in *.
  specialize (Hend ltac:(lia) ltac:(lia)).
  split.
  - intros r. destruct (Nat.eq_dec r parent) as [->|Hr].
    + rewrite Hend, Hparent, map_app, fold_left_app, <- Hpg. cbn [map fold_left].
      f_equal. rewrite (Hpg k), Hfr by lia. reflexivity.
    + rewrite Hother by exact Hr. apply Hpg.
  - intros r c. destruct (Nat.eq_dec r parent) as [->|Hr].
    + rewrite Hparent. intros Hc. apply in_app_or in Hc as [Hc|[<-|[]]].
      * now apply Hlv.
      * now rewrite <- (stable_level (Hst parent)), <- (stable_level (Hst k)).
    + rewrite Hother by exact Hr. apply Hlv.
Qed.

Lemma fold_hierarchy_shape h0 m :
  forall k st,
    (k + m <= length (fst (fst st)))%nat ->
    shape_inv h0 k st ->
    shape_inv h0 (k + m) (fold_left hierarchy_step (seq k m) st).
Proof.
  induction m as [|m IH]; intros k st Hlen H; cbn [seq fold_left].
  - now rewrite Nat.add_0_r.
  - rewrite <- Nat.add_succ_comm. apply IH.
    + rewrite hierarchy_step_length. unfold heap in *. lia.
    + apply hierarchy_step_shape; [unfold heap in *; lia | exact H].
Qed.

(** ** Reading the built heap *)

Lemma for_each_read_inv (f : ref -> result DocumentSection) cs :
  forall acc res,
    for_each (fun acc c => t <- f c ;; Ok (acc ++ [t])) cs acc = Ok res ->
    exists ts, res = acc ++ ts /\ Forall2 (fun c t => f c = Ok t) cs ts.
Proof.
  induction cs as [|c cs IH]; intros acc res; cbn [for_each].
  - intros [= <-]. exists []. now rewrite app_nil_r.
  - destruct (f c) as [t| |] eqn:E; cbn [bind]; try discriminate.
    intros H. destruct (IH _ _ H) as (ts & -> & Hts).
    exists (t :: ts). rewrite <- app_assoc. split; [reflexivity|].
    now constructor.
Qed.

(** A section of the tree and the object it was read from. *)
Definition node_of (h : heap) (r : ref) (s : DocumentSection) : Prop :=
  fields s = stable (deref h r)
  /\ page_end s = o_page_end (deref h r)
  /\ map fields (subsections s)
     = map (fun c => stable (deref h c)) (o_subsections (deref h r)).

Lemma read_section_fields fuel h r t :
  read_section fuel h r = Ok t ->
  fields t = stable (deref h r) /\ page_end t = o_page_end (deref h r).
Proof.
  destruct fuel as [|fuel]; [discriminate|]. cbn [read_section].
  destruct (for_each _ _ _) as [subs| |]; cbn [bind]; try discriminate.
  intros [= <-]. now split.
Qed.

Lemma read_section_nodes h :
  forall fuel r t,
    read_section fuel h r = Ok t ->
    forall s, In s (preorder t) -> exists r', node_of h r' s.
Proof.
  induction fuel as [|fuel IH]; intros r t; [discriminate|].
  cbn [read_section].
  destruct (for_each _ _ _) as [subs| |] eqn:E; cbn [bind]; try discriminate.
  intros [= <-]. apply for_each_read_inv in E as (ts & -> & Hts).
  cbn [app preorder subsections]. intros s [<-|Hs].
  - exists r. split; [reflexivity|]. split; [reflexivity|].
    cbn [subsections]. induction Hts as [|c x cs xs Hc _ IHs]; [reflexivity|].
    cbn [map]. f_equal; [|exact IHs]. now apply read_section_fields in Hc.
  - apply in_flat_map in Hs as (x & Hx & Hs).
    induction Hts as [|c y cs ys Hc _ IHs]; [destruct Hx|].
    destruct Hx as [->|Hx]; [|now apply IHs].
    eapply IH; eassumption.
Qed.

Lemma read_forest_nodes h roots forest :
  read_forest h roots = Ok forest ->
  forall s, In s (flat_map preorder forest) -> exists r, node_of h r s.
Proof.
  unfold read_forest. intros E.
  apply for_each_read_inv in E as (ts & -> & Hts). cbn [app].
  intros s Hs. apply in_flat_map in Hs as (x & Hx & Hs).
  induction Hts as [|c y cs ys Hc _ IHs]; [destruct Hx|].
  destruct Hx as [->|Hx]; [|now apply IHs].
  eapply read_section_nodes; eassumption.
Qed.

(** Reading what [spans] describes, with every field that the builder
    leaves alone. *)
Lemma read_spans_fields h cs lo hi :
  spans h cs lo hi ->
  forall f, (hi <= f + lo)%nat ->
  forall acc, exists ts,
    for_each (fun acc c => t <- read_section f h c ;; Ok (acc ++ [t])) cs acc
    = Ok (acc ++ ts)
    /\ map fields (flat_map preorder ts)
       = map (fun r => stable (deref h r)) (seq lo (hi - lo)).
Proof.
  induction 1 as [lo|c cs mid hi H1 IH1 H2 IH2]; intros f Hf acc.
  - exists []. rewrite app_nil_r, Nat.sub_diag. now split.
  - pose proof (spans_le H1). pose proof (spans_le H2).
    destruct f as [|f]; [lia|].
    destruct (IH1 f ltac:(lia) []) as (subs & E1 & K1).
    set (t := mkDocumentSection (o_title (deref h c)) (o_level (deref h c))
                (o_content (deref h c)) (o_page_start (deref h c))
                (o_page_end (deref h c)) subs).
    destruct (IH2 (S f) ltac:(lia) (acc ++ [t])) as (ts & E2 & K2).
    assert (Hread : read_section (S f) h c = Ok t).
    { cbn [read_section]. rewrite E1. reflexivity. }
    exists (t :: ts). split.
    + cbn [for_each]. rewrite Hread. cbn [bind].
      rewrite E2, <- app_assoc. reflexivity.
    + change (flat_map preorder (t :: ts))
        with (t :: flat_map preorder subs ++ flat_map preorder ts).
      cbn [map]. rewrite map_app, K1, K2.
      replace (hi - c)%nat with (S ((mid - S c) + (hi - mid)))%nat by lia.
      cbn [seq map]. rewrite seq_app, map_app.
      replace (S c + (mid - S c))%nat with mid by lia. reflexivity.
Qed.

(** The largest of a page and the first pages of the subsections. *)
Definition last_page (s : DocumentSection) : Z :=
  fold_left Z.max (map page_start (subsections s)) (page_start s).

(** The forest that the builder makes of new section objects. *)
Lemma built_forest_shape (objs : list obj) :
  Forall (fun o => o_subsections o = []) objs ->
  exists forest,
    forest_of _build_section_hierarchy objs = Ok forest
    /\ map fields (flat_map preorder forest) = map stable objs
    /\ (forall s, In s (flat_map preorder forest) ->
                  Forall (fun c => level s < level c) (subsections s))
    /\ (Forall (fun o => o_page_end o = o_page_start o) objs ->
        forall s, In s (flat_map preorder forest) -> page_end s = last_page s).
Proof.
  intros Hfresh. unfold forest_of, _build_section_hierarchy.
  destruct (seq 0 (length objs)) as [|s0 l] eqn:E.
  - exists []. split; [reflexivity|].
    split; [destruct objs; [reflexivity | discriminate]|].
    split; [intros s []|intros _ s []].
  - rewrite <- E. clear E.
    match goal with
    | |- context [fold_left ?f ?l ?s0] =>
        pose proof (@fold_hierarchy_shape objs (length objs) 0 s0) as Hfold;
        pose proof (fold_hierarchy_length l s0) as Hlen;
        destruct (fold_left f l s0) as [[h root] stack]
    end.
    cbn [fst] in Hfold, Hlen.
    assert (Hempty : forall r, o_subsections (deref objs r) = []).
    { intros r. unfold deref.
      destruct (nth_in_or_default r objs null_obj) as [Hin|Hd];
        [|now rewrite Hd].
      rewrite Forall_forall in Hfresh. now apply Hfresh. }
    destruct Hfold as ([Hsp _] & Hst & Hpg & Hlv).
    { cbn. lia. }
    { split; [|split; [|split]].
      - split; [constructor|]. intros r _. apply Hempty.
      - reflexivity.
      - intros r. now rewrite Hempty.
      - intros r c. now rewrite Hempty. }
    cbn [fst] in Hst, Hpg, Hlv.
    apply spine_close in Hsp. cbn [Nat.add] in Hsp.
    destruct (@read_spans_fields h root 0 (length objs) Hsp (S (length h)))
      with (acc := @nil DocumentSection) as (forest & Er & Kr);
      [unfold heap in *; lia|].
    exists forest. split; [exact Er|].
    pose proof (read_forest_nodes _ _ Er) as Hnodes.
    split; [|split].
    + rewrite Kr, Nat.sub_0_r.
      rewrite (map_ext _ (fun r => stable (deref objs r)) Hst).
      rewrite <- (map_map (fun r => deref objs r) stable).
      now rewrite map_nth_seq.
    + intros s Hs. destruct (Hnodes s Hs) as (r & Hf & _ & Hsub).
      assert (Hl : level s = o_level (deref objs r)).
      { rewrite <- (stable_level (Hst r)). unfold fields, stable in Hf.
        now injection Hf. }
      rewrite Hl. clear Hl Hf. specialize (Hlv r).
      revert Hsub Hlv. generalize (o_subsections (deref h r)).
      induction (subsections s) as [|c cs IH]; intros [|x xs] Hsub Hlv;
        try discriminate; constructor.
      * cbn [map] in Hsub. injection Hsub as _ Hc _ _ _.
        rewrite Hc, (stable_level (Hst x)).
        apply Hlv. now left.
      * cbn [map] in Hsub. injection Hsub as _ _ _ _ Hsub. apply (IH xs Hsub).
        intros c' Hc'. apply Hlv. now right.
    + intros Hsame s Hs. destruct (Hnodes s Hs) as (r & Hf & He & Hsub).
      assert (Hinit : forall r', o_page_end (deref objs r')
                                 = o_page_start (deref h r')).
      { intros r'. rewrite (stable_page_start (Hst r')). unfold deref at 1 2.
        destruct (nth_in_or_default r' objs null_obj) as [Hin|Hd];
          [|now rewrite Hd].
        rewrite Forall_forall in Hsame. now apply Hsame. }
      unfold last_page. rewrite He, Hpg, Hinit.
      replace (page_start s) with (o_page_start (deref h r))
        by (unfold fields, stable in Hf; now injection Hf).
      f_equal. rewrite (map_ext _ (fun c => o_page_start (deref h c)) Hinit).
      transitivity (map (fun k : str * Z * str * Z => snd k) (map fields (subsections s))).
      * rewrite Hsub, map_map. reflexivity.
      * rewrite map_map. reflexivity.
Qed.

End BuiltShape.

Section BuiltShapeTheorems.

Import MarkdownConverter.

Definition fresh (o : obj) : Prop := o_subsections o = [].

(** X15.  The builder neither drops, repeats nor reorders sections: read
    in document order, the forest made of new section objects holds the
    sections of the flat list, one for one, with the title, the level, the
    content and the first page that they had. *)
Theorem build_hierarchy_document_order (flat_sections : list obj) :
  Forall fresh flat_sections ->
  exists forest,
    forest_of _build_section_hierarchy flat_sections = Ok forest
    /\ map fields (flat_map preorder forest) = map stable flat_sections.
Proof.
  intros H. destruct (built_forest_shape H) as (forest & E & K & _).
  exists forest. now split.
Qed.

(** X16.  In the forest that the builder returns every subsection has a
    level strictly greater than the level of the section that holds it. *)
Theorem build_hierarchy_levels (flat_sections : list obj)
  (forest : list DocumentSection) :
  Forall fresh flat_sections ->
  forest_of _build_section_hierarchy flat_sections = Ok forest ->
  forall s c,
    In s (flat_map preorder forest) -> In c (subsections s) ->
    level s < level c.
Proof.
  intros H E s c Hs Hc.
  destruct (built_forest_shape H) as (forest' & E' & _ & L & _).
  rewrite E in E'. injection E' as <-.
  specialize (L s Hs). rewrite Forall_forall in L. now apply L.
Qed.

(** X17.  When every section given to the builder ends on the page on
    which it starts, a section of the returned forest ends on the largest
    of its own first page and the first pages of its direct subsections:
    the pages of deeper descendants do not reach it. *)
Theorem build_hierarchy_page_end (flat_sections : list obj)
  (forest : list DocumentSection) :
  Forall fresh flat_sections ->
  Forall (fun o => o_page_end o = o_page_start o) flat_sections ->
  forest_of _build_section_hierarchy flat_sections = Ok forest ->
  forall s, In s (flat_map preorder forest) -> page_end s = last_page s.
Proof.
  intros H Hp E s Hs.
  destruct (built_forest_shape H) as (forest' & E' & _ & _ & P).
  rewrite E in E'. injection E' as <-. now apply P.
Qed.

End BuiltShapeTheorems.

Definition chapter_flat : list obj :=
  [mkObj (lit "Intro") 1 (lit "text") 1 1 [];
   mkObj (lit "Scope") 2 [] 2 2 [];
   mkObj (lit "Terms") 3 [] 4 4 [];
   mkObj (lit "Method") 1 [] 5 5 []].

Definition chapter_terms : DocumentSection :=
  mkDocumentSection (lit "Terms") 3 [] 4 4 [].
Definition chapter_scope : DocumentSection :=
  mkDocumentSection (lit "Scope") 2 [] 2 4 [chapter_terms].
Definition chapter_intro : DocumentSection :=
  mkDocumentSection (lit "Intro") 1 (lit "text") 1 2 [chapter_scope].
Definition chapter_forest : list DocumentSection :=
  [chapter_intro; mkDocumentSection (lit "Method") 1 [] 5 5 []].

Lemma chapter_flat_fresh : Forall fresh chapter_flat.
Proof. repeat constructor. Qed.

Lemma build_hierarchy_document_order_witness :
  exists forest,
    forest_of MarkdownConverter._build_section_hierarchy chapter_flat = Ok forest
    /\ map fields (flat_map preorder forest) = map stable chapter_flat.
Proof. apply (build_hierarchy_document_order chapter_flat_fresh). Defined.

Lemma build_hierarchy_levels_witness : level chapter_intro < level chapter_scope.
Proof.
  apply (@build_hierarchy_levels chapter_flat chapter_forest).
  - exact chapter_flat_fresh.
  - reflexivity.
  - cbn. tauto.
  - cbn. tauto.
Defined.

Lemma build_hierarchy_page_end_witness : page_end chapter_intro = 2.
Proof.
  change 2 with (last_page chapter_intro).
  apply (@build_hierarchy_page_end chapter_flat chapter_forest).
  - exact chapter_flat_fresh.
  - repeat constructor.
  - reflexivity.
  - cbn. tauto.
Defined.

(* ================================================================= *)
(** * The sections that a run detects *)

Section DetectedSections.

Import PDFProcessor.

Lemma count_hashes_nonneg s : 0 <= count_hashes s.
Proof.
  induction s as [|c s IH]; cbn [count_hashes]; [lia|].
  destruct (Ascii.eqb c "#"%char); lia.
Qed.

Lemma estimate_heading_level_range block :
  1 <= _estimate_heading_level block <= 6.
Proof.
  unfold _estimate_heading_level. cbv zeta.
  destruct (startswith _ _); [|lia].
  destruct (Z.leb_spec 1 (count_hashes (strip (text block))));
    destruct (Z.leb_spec (count_hashes (strip (text block))) 6); cbn; lia.
Qed.

(** What the headings of the pages say: title, level, content and page of
    the section of every heading block that is not blank. *)
Definition heading_sections (pages : list PageContent) : list (str * Z * str * Z) :=
  flat_map
    (fun page =>
       map (fun block => (strip (text block), _estimate_heading_level block,
                          @nil ascii, page_number page))
           (filter (fun block => is_heading block && nonempty (strip (text block)))
                   (reading_order_blocks (content page))))
    pages.

Lemma detect_flat_sections_stable pages :
  map stable (detect_flat_sections pages) = heading_sections pages.
Proof.
  unfold detect_flat_sections, heading_sections.
  induction pages as [|page pages IH]; [reflexivity|].
  cbn [flat_map]. rewrite map_app, IH. f_equal.
  induction (reading_order_blocks (content page)) as [|b bs IHb]; [reflexivity|].
  cbn [flat_map filter]. rewrite map_app, IHb.
  destruct (is_heading b); [|reflexivity]. cbn [negb andb].
  destruct (nonempty (strip (text b))); reflexivity.
Qed.

Lemma detect_flat_sections_shape pages :
  Forall (fun o => o_page_end o = o_page_start o /\ 1 <= o_level o <= 6)
         (detect_flat_sections pages).
Proof.
  unfold detect_flat_sections. apply Forall_flat_map, Forall_forall.
  intros page _. apply Forall_flat_map, Forall_forall. intros b _.
  destruct (negb (is_heading b)); [constructor|].
  destruct (negb (nonempty (strip (text b)))); [constructor|].
  constructor; [|constructor]. split; [reflexivity|].
  apply estimate_heading_level_range.
Qed.

(** X18.  [_detect_sections] always returns.  Read in document order,
    its forest holds one section for every heading block whose text is
    not blank, in the order of the pages and of the blocks on them, with
    the stripped text as title, no content, and the number of the page as
    first page.  Every level is between 1 and 6, a subsection lies deeper
    than the section that holds it, and a section ends on the largest of
    its first page and the first pages of its direct subsections. *)
Theorem detect_sections_headings (pages : list PageContent) :
  exists forest,
    _detect_sections pages = Ok forest
    /\ map fields (flat_map preorder forest) = heading_sections pages
    /\ forall s, In s (flat_map preorder forest) ->
                 1 <= level s <= 6
                 /\ page_end s = last_page s
                 /\ Forall (fun c => level s < level c) (subsections s).
Proof.
  destruct (built_forest_shape (detect_flat_sections_fresh pages))
    as (forest & E & K & L & P).
  exists forest. split; [|split].
  - rewrite <- E. unfold forest_of, _detect_sections.
    now rewrite build_hierarchy_same.
  - now rewrite K, detect_flat_sections_stable.
  - pose proof (detect_flat_sections_shape pages) as Hshape.
    intros s Hs. split; [|split].
    + apply (in_map fields) in Hs. rewrite K in Hs.
      apply in_map_iff in Hs as (o & Ho & Hin).
      rewrite Forall_forall in Hshape. destruct (Hshape o Hin) as [_ Hl].
      unfold fields, stable in Ho. injection Ho as _ Ho _ _. lia.
    + apply P; [|exact Hs]. eapply Forall_impl; [|exact Hshape].
      now intros o [Ho _].
    + now apply L.
Qed.

End DetectedSections.

(** Two headings on two pages, the second one level below the first. *)
Definition heading_pages : list PageContent :=
  [mkPageContent 1 NATIVE_TEXT
     (mkExtractedContent [] [] [] []
        [mkTextBlock (lit " Intro ") (0, 0, 0, 0)%Q heading;
         mkTextBlock (lit "text") (0, 0, 0, 0)%Q paragraph]) None;
   mkPageContent 2 NATIVE_TEXT
     (mkExtractedContent [] [] [] []
        [mkTextBlock (lit "## Scope") (0, 0, 0, 0)%Q heading]) None].

Lemma detect_sections_headings_witness :
  exists a,
    PDFProcessor._detect_sections heading_pages = Ok [a]
    /\ map title (preorder a) = [lit "Intro"; lit "## Scope"]
    /\ page_end a = last_page a
    /\ 1 <= level a <= 6.
Proof.
  destruct (detect_sections_headings heading_pages) as (forest & E & _ & H).
  assert (E' := E). vm_compute in E'. injection E' as E'.
  rewrite <- E' in *. eexists. split; [exact E|]. split; [reflexivity|].
  destruct (H _ (or_introl eq_refl)) as (Hl & Hp & _). split; assumption.
Defined.

(* ================================================================= *)
(** * The sections of a parsed document *)

Section ParsedSections.

Import MarkdownConverter.

Lemma section_match_nonempty s t : section_match s = Some t -> t <> [].
Proof.
  unfold section_match. destruct (strip_prefix _ s) as [r|]; [|discriminate].
  destruct (endswith _ r); cbn [andb]; [|discriminate].
  destruct (Nat.leb_spec 5 (length r)); [|discriminate].
  intros [= <-] E. apply (f_equal (@length ascii)) in E.
  rewrite length_firstn in E. cbn [length] in E. lia.
Qed.

Lemma heading_match_range s l : heading_match s = Some l -> 1 <= l <= 6.
Proof.
  unfold heading_match. cbv zeta.
  set (n := length (takewhile (Ascii.eqb "#"%char) s)).
  destruct (Nat.leb_spec 1 n); cbn [andb]; [|discriminate].
  destruct (Nat.leb_spec n 6); [|discriminate].
  destruct (takewhile isspace _) as [|c [|c' r]]; [discriminate| |].
  - destruct (dropwhile isspace _); [discriminate|]. intros [= <-]. lia.
  - intros [= <-]. lia.
Qed.

(** A section object as the parser makes it for page [n]. *)
Definition parsed_obj (n : Z) (o : obj) : Prop :=
  fresh o /\ o_page_start o = n /\ o_page_end o = n
  /\ 1 <= o_level o <= 6 /\ o_title o <> [].

Lemma parse_sections_loop_objs n :
  forall fuel lines objs rem,
    parse_sections_loop fuel lines n = Ok (objs, rem) ->
    Forall (parsed_obj n) objs.
Proof.
  induction fuel as [|fuel IH]; intros lines objs rem; [discriminate|].
  cbn [parse_sections_loop]. destruct lines as [|line rest].
  { intros [= <- _]. constructor. }
  destruct (section_match (strip line)) as [t|] eqn:Et.
  - apply section_match_nonempty in Et.
    assert (Hdone : forall level sc rest',
               1 <= level <= 6 ->
               (r <- parse_sections_loop fuel rest' n ;;
                let '(sections, remaining_lines) := r in
                Ok (mkObj t level sc n n [] :: sections, remaining_lines))
               = Ok (objs, rem) ->
               Forall (parsed_obj n) objs).
    { intros level sc rest' Hl.
      destruct (parse_sections_loop fuel rest' n) as [[objs' rem']| |] eqn:E;
        cbn [bind]; try discriminate.
      intros [= <- _]. constructor; [|now apply IH in E].
      unfold parsed_obj, fresh. cbn. intuition lia. }
    destruct (skip_blank rest) as [|l r]; [apply Hdone; lia|].
    destruct (heading_match (strip l)) as [lv|] eqn:El; [|apply Hdone; lia].
    destruct (span _ r) as [cl r']. apply Hdone.
    now apply heading_match_range in El.
  - destruct (parse_sections_loop fuel rest n) as [[objs' rem']| |] eqn:E;
      cbn [bind]; try discriminate.
    intros [= <- _]. now apply IH in E.
Qed.

(** The section objects found so far, each on a page found so far. *)
Definition chunks_inv (st : list PageContent * list obj) : Prop :=
  Forall (fun o => exists p, In p (fst st) /\ parsed_obj (page_number p) o)
         (snd st).

Lemma chunk_step_objs fuel st chunk st' :
  chunks_inv st -> chunk_step fuel st chunk = Ok st' -> chunks_inv st'.
Proof.
  destruct st as [ps objs], chunk as [n t]. unfold chunk_step, chunks_inv.
  cbn [fst snd]. intros H.
  unfold _parse_sections_from_chunk.
  destruct (parse_sections_loop fuel _ n) as [[so rem]| |] eqn:E; cbn [bind];
    try discriminate.
  destruct (_parse_extracted_content fuel _) as [ec| |]; cbn [bind];
    try discriminate.
  intros [= <-]. cbn [fst snd]. apply Forall_app. split.
  - eapply Forall_impl; [|exact H]. intros o (p & Hp & Ho).
    exists p. split; [apply in_or_app; now left | exact Ho].
  - apply parse_sections_loop_objs in E.
    eapply Forall_impl; [|exact E]. intros o Ho.
    exists (mkPageContent n NATIVE_TEXT ec None).
    split; [apply in_or_app; right; now left | exact Ho].
Qed.

(** The forest of a parsed document is built from section objects of
    its pages. *)
Lemma from_markdown_objs fuel s d :
  from_markdown fuel s = Ok d ->
  exists objs,
    forest_of _build_section_hierarchy objs = Ok (sections d)
    /\ Forall (fun o => exists p, In p (pages d) /\ parsed_obj (page_number p) o)
              objs.
Proof.
  unfold from_markdown.
  destruct (negb (nonempty (strip s))).
  { intros [= <-]. exists []. split; [reflexivity | constructor]. }
  destruct (_strip_toc fuel s) as [c| |]; cbn [bind]; try discriminate.
  destruct (_split_by_pages fuel c) as [chunks| |]; cbn [bind]; try discriminate.
  destruct (for_each _ chunks _) as [[ps objs]| |] eqn:E; cbn [bind];
    try discriminate.
  apply (for_each_invariant chunks_inv) in E;
    [|intros st x st'; apply chunk_step_objs|constructor].
  unfold chunks_inv in E. cbn [fst snd] in E.
  intros H. exists objs. unfold forest_of.
  destruct (_build_section_hierarchy objs _) as [h root].
  destruct (read_forest h root) as [forest| |]; cbn [bind] in *;
    try discriminate.
  injection H as <-. now split.
Qed.

(** X19.  In every document that [from_markdown] returns, each section,
    at any depth, has a title that is not empty and a level between 1
    and 6, starts on the page of one of the page markers, lies above its
    subsections, and ends on the largest of its first page and the first
    pages of its direct subsections. *)
Theorem from_markdown_sections (fuel : nat) (markdown_str : str) (d : Document) :
  from_markdown fuel markdown_str = Ok d ->
  forall s,
    In s (flat_map preorder (sections d)) ->
    title s <> []
    /\ 1 <= level s <= 6
    /\ (exists p, In p (pages d) /\ page_number p = page_start s)
    /\ Forall (fun c => level s < level c) (subsections s)
    /\ page_end s = last_page s.
Proof.
  intros H s Hs. destruct (from_markdown_objs _ _ H) as (objs & E & Hobjs).
  assert (Hfresh : Forall fresh objs).
  { eapply Forall_impl; [|exact Hobjs]. now intros o (p & _ & Ho & _). }
  destruct (built_forest_shape Hfresh) as (forest & E' & K & L & P).
  rewrite E in E'. injection E' as <-.
  pose proof (in_map fields _ _ Hs) as Hf. rewrite K in Hf.
  apply in_map_iff in Hf as (o & Ho & Hin).
  rewrite Forall_forall in Hobjs.
  destruct (Hobjs o Hin) as (p & Hp & _ & Hstart & _ & Hl & Ht).
  unfold fields, stable in Ho. injection Ho as Ho1 Ho2 _ Ho4.
  split; [congruence|]. split; [lia|].
  split; [exists p; split; [exact Hp | congruence]|].
  split; [now apply L|].
  apply P; [|exact Hs]. apply Forall_forall. intros o' Hin'.
  destruct (Hobjs o' Hin') as (p' & _ & _ & H1 & H2 & _). congruence.
Qed.

End ParsedSections.

Definition chapter_doc : Document :=
  mkDocument chapter_forest
    [mkPageContent 1 NATIVE_TEXT (mkExtractedContent [] [] [] [] []) None;
     mkPageContent 2 NATIVE_TEXT (mkExtractedContent [] [] [] [] []) None].

Lemma from_markdown_sections_witness :
  exists d s,
    MarkdownConverter.from_markdown 400 (MarkdownConverter.to_markdown chapter_doc)
    = Ok d
    /\ sections d = [s]
    /\ title s = lit "Intro" /\ page_end s = last_page s.
Proof.
  eexists. eexists. split; [vm_compute; reflexivity|].
  split; [reflexivity|]. split; [reflexivity|].
  eapply (@from_markdown_sections 400
            (MarkdownConverter.to_markdown chapter_doc)).
  - vm_compute. reflexivity.
  - cbn. tauto.
Defined.

(* ================================================================= *)
(** * The pages of a parsed document *)

Section ParsedPages.

Import MarkdownConverter.

(** A block as the parser makes it: a text that is not empty, one of
    three types, and a bounding box that holds nothing but the nesting of
    a list item. *)
Definition parsed_block (b : TextBlock) : Prop :=
  text b <> []
  /\ match block_type b with
     | list_item =>
         exists k, 0 <= k /\ bbox b = (10 + inject_Z k * 30, 0, 0, 0)%Q
     | heading | paragraph => bbox b = default_bbox
     | _ => False
     end.

Definition parsed_table (t : Table) : Prop := rows t <> [].

Lemma parse_table_rows ls t : _parse_table ls = Some t -> parsed_table t.
Proof.
  unfold _parse_table, parsed_table. destruct (_ <? _)%nat; [discriminate|].
  destruct (table_rows 0 ls) as [|r rs]; [discriminate|].
  intros [= <-]. discriminate.
Qed.

Lemma span_head (p : str -> bool) lines l taken rest :
  span p lines = (l :: taken, rest) -> p l = true.
Proof.
  destruct lines as [|x xs]; [discriminate|]. cbn [span].
  destruct (p x) eqn:E; [|discriminate].
  destruct (span p xs). now intros [= <- _ _].
Qed.

Lemma parse_content_loop_blocks :
  forall fuel lines blocks tables r,
    Forall parsed_block blocks -> Forall parsed_table tables ->
    parse_content_loop fuel lines blocks tables = Ok r ->
    Forall parsed_block (fst r) /\ Forall parsed_table (snd r).
Proof.
  induction fuel as [|fuel IH]; intros lines blocks tables r Hb Ht;
    [discriminate|].
  cbn [parse_content_loop]. destruct lines as [|line rest].
  { intros [= <-]. now split. }
  destruct (is_blank line) eqn:Eblank; [now apply IH|].
  destruct (is_table_line line).
  { destruct (span is_table_line (line :: rest)) as [tl rest'].
    apply IH; [exact Hb|].
    destruct (_parse_table (map strip tl)) as [t|] eqn:Et; [|exact Ht].
    apply Forall_app. split; [exact Ht|].
    constructor; [|constructor]. now apply parse_table_rows in Et. }
  destruct (list_match line) as [[indent item_text]|] eqn:El.
  { apply IH; [|exact Ht]. apply Forall_app. split; [exact Hb|].
    constructor; [|constructor]. split.
    - cbn [text]. unfold list_match in El.
      destruct (strip_prefix _ _) as [[|c t]|]; try discriminate.
      injection El as _ <-. discriminate.
    - cbn [block_type bbox]. exists (Z.of_nat indent / 2).
      split; [apply Z.div_pos; lia | reflexivity]. }
  destruct (heading_match (strip line)) as [lv|] eqn:Eh.
  { apply IH; [|exact Ht]. apply Forall_app. split; [exact Hb|].
    constructor; [|constructor]. split; [|reflexivity].
    cbn [text]. intros E. rewrite E in Eh. discriminate. }
  destruct (span continues_paragraph (line :: rest)) as [para rest'] eqn:Es.
  apply IH; [|exact Ht]. destruct para as [|p ps]; [exact Hb|].
  apply Forall_app. split; [exact Hb|].
  constructor; [|constructor]. split; [|reflexivity].
  cbn [text map]. rewrite join_cons. apply span_head in Es.
  unfold continues_paragraph, is_blank in Es.
  destruct (strip p); [discriminate|]. discriminate.
Qed.

Lemma parse_extracted_content_blocks fuel t ec :
  _parse_extracted_content fuel t = Ok ec ->
  headers ec = [] /\ footers ec = []
  /\ Forall parsed_block (reading_order_blocks ec)
  /\ Forall parsed_table (tables ec).
Proof.
  unfold _parse_extracted_content. cbv zeta.
  destruct (strip t) as [|c s].
  { intros [= <-]. repeat split; constructor. }
  destruct (parse_content_loop fuel _ [] []) as [[blocks tables]| |] eqn:E;
    cbn [bind]; try discriminate.
  intros [= <-]. cbn.
  apply parse_content_loop_blocks in E; [|constructor|constructor].
  destruct E as [Hb Ht]. now repeat split.
Qed.

(** X20.  Every page that [from_markdown] returns has no headers and no
    footers.  Each of its blocks has a text that is not empty and is a
    paragraph or a heading with the bounding box (0, 0, 0, 0), or a list
    item whose box holds only the horizontal position 10 + 30 k of its
    nesting level k; each of its tables has at least one row. *)
Theorem from_markdown_page_content (fuel : nat) (markdown_str : str)
  (d : Document) :
  from_markdown fuel markdown_str = Ok d ->
  Forall (fun p => headers (content p) = [] /\ footers (content p) = []
                   /\ Forall parsed_block (reading_order_blocks (content p))
                   /\ Forall parsed_table (tables (content p)))
         (pages d).
Proof.
  revert fuel markdown_str d. apply from_markdown_pages.
  intros fuel n t ec H. cbn [content]. now apply parse_extracted_content_blocks in H.
Qed.

End ParsedPages.

Definition notes_page : PageContent :=
  mkPageContent 1 MIXED
    (mkExtractedContent (lit "body") [lit "head"] [lit "foot"]
       [mkTable [[lit "a"; lit "b"]; [lit "c"]]]
       [mkTextBlock (lit "one") (40, 0, 0, 0)%Q list_item;
        mkTextBlock (lit "two") (75, 0, 0, 0)%Q list_item;
        mkTextBlock (lit "rest") (1, 2, 3, 4)%Q paragraph])
    (Some (1 # 2)).

Lemma from_markdown_page_content_witness :
  exists d p,
    MarkdownConverter.from_markdown 200
      (MarkdownConverter.to_markdown (mkDocument [] [notes_page])) = Ok d
    /\ pages d = [p]
    /\ headers (content p) = [] /\ footers (content p) = []
    /\ length (reading_order_blocks (content p)) = 3%nat.
Proof.
  eexists. eexists. split; [vm_compute; reflexivity|].
  split; [reflexivity|].
  pose proof (@from_markdown_page_content 200
                (MarkdownConverter.to_markdown (mkDocument [] [notes_page])) _
                ltac:(vm_compute; reflexivity)) as H.
  inversion H as [|? ? (H1 & H2 & _) _]. cbn [content] in *.
  split; [exact H1|]. split; [exact H2 | reflexivity].
Defined.

(* ================================================================= *)
(** * Tables, rendered and parsed *)

Section TableRoundTrip.

Import MarkdownConverter.

(** [(row + [""] * (n - len(row)))[:n]] *)
Definition fit (n : nat) (row : list str) : list str :=
  firstn n (row ++ repeat [] (n - length row)).

(** A cell that a table line can hold: no bar, no line feed, no white
    space at its ends. *)
Definition bare_cell (c : str) : Prop :=
  strip c = c /\ ~ In "|"%char c /\ ~ In nl c.

Lemma bare_cell_ok c : bare_cell c -> cell_ok c.
Proof. intros (Hs & Hb & _). now split. Qed.

Lemma fit_length n row : length (fit n row) = n.
Proof.
  unfold fit. rewrite length_firstn, length_app, repeat_length. lia.
Qed.

Lemma fit_cells n row : Forall bare_cell row -> Forall bare_cell (fit n row).
Proof.
  intros H. unfold fit. apply Forall_firstn, Forall_app. split; [exact H|].
  apply Forall_forall. intros x Hx. apply repeat_spec in Hx. subst x.
  repeat split; intros [].
Qed.

Lemma not_in_forallb (x : ascii) s :
  ~ In x s -> forallb (fun c => negb (Ascii.eqb c x)) s = true.
Proof.
  intros H. apply forallb_forall. intros c Hc.
  destruct (Ascii.eqb_spec c x) as [->|]; [contradiction | reflexivity].
Qed.

Lemma table_line_is_line cells :
  Forall bare_cell cells -> is_line (table_line cells).
Proof.
  intros H. unfold is_line.
  apply (@forallb_not_in (fun c => negb (Ascii.eqb c nl))); [|reflexivity].
  unfold table_line. rewrite !forallb_app.
  rewrite forallb_join; [reflexivity | reflexivity |].
  eapply Forall_impl; [|exact H]. intros c (_ & _ & Hc).
  now apply not_in_forallb.
Qed.

Lemma clean_end_lines l ls :
  Forall (fun x => x <> [] /\ clean_end x) (l :: ls) ->
  clean_end (l ++ tl_join NL ls).
Proof.
  revert l. induction ls as [|l' ls IH]; intros l H.
  - cbn. rewrite app_nil_r. now inversion H.
  - inversion H as [|? ? _ H']; subst. cbn [tl_join flat_map].
    fold (tl_join NL ls). rewrite <- app_assoc.
    assert (Hne : l' ++ tl_join NL ls <> []).
    { inversion H' as [|? ? [Hl _] _]; subst. destruct l'; [congruence|].
      discriminate. }
    apply clean_end_app; [destruct (NL ++ _) eqn:E; discriminate|].
    apply clean_end_app; [exact Hne | now apply IH].
Qed.

(** The lines of a rendered table: every row after the header is fit to
    the width of the header. *)
Lemma render_table_lines header data :
  _render_table (mkTable (header :: data))
  = join NL (unit_lines (UTable header (map (fit (length header)) data))).
Proof.
  unfold _render_table. cbn [rows unit_lines app]. now rewrite map_map.
Qed.

(** X21.  A table whose header has at least one column and whose cells
    hold no bar, no line feed and no white space at their ends is read
    back from its rendered text as the only content of the page, with
    every row after the header padded with empty cells or cut to the
    width of the header. *)
Theorem render_table_round_trip (fuel : nat) (header : list str)
  (data : list (list str)) :
  header <> [] ->
  Forall bare_cell header ->
  Forall (Forall bare_cell) data ->
  (2 <= fuel)%nat ->
  _parse_extracted_content fuel (_render_table (mkTable (header :: data)))
  = Ok (mkExtractedContent [] [] [] 
          [mkTable (header :: map (fit (length header)) data)] []).
Proof.
  intros Hne Hh Hd Hfuel. rewrite render_table_lines.
  set (data' := map (fit (length header)) data).
  assert (Hd' : Forall (fun r => r <> [] /\ Forall bare_cell r) data').
  { apply Forall_map. eapply Forall_impl; [|exact Hd]. intros r Hr. split.
    - intros E. apply (f_equal (@length str)) in E. rewrite fit_length in E.
      destruct header; [congruence | discriminate].
    - now apply fit_cells. }
  assert (Hsep : Forall bare_cell (repeat (lit "---") (length header))).
  { apply Forall_forall. intros c Hc. apply repeat_spec in Hc. subst c.
    split; [reflexivity|]. split; cbn; intuition discriminate. }
  set (lines := unit_lines (UTable header data')).
  assert (Hcells : exists rows, lines = map table_line rows
                                /\ Forall (Forall bare_cell) rows).
  { exists (header :: repeat (lit "---") (length header) :: data').
    split; [reflexivity|]. constructor; [exact Hh|]. constructor; [exact Hsep|].
    eapply Forall_impl; [|exact Hd']. now intros r [_ Hr]. }
  destruct Hcells as (rs & Hrs & Hcs).
  assert (Hkind : Forall (fun l => is_table_line l = true /\ strip l = l
                                   /\ is_line l /\ l <> [] /\ clean_end l)
                         lines).
  { rewrite Hrs. apply Forall_map. eapply Forall_impl; [|exact Hcs].
    intros r Hr. destruct (table_line_kind r) as (H1 & _ & H3 & _).
    split; [exact H3|]. split; [exact H1|].
    split; [now apply table_line_is_line|].
    split; [discriminate|]. now apply clean_of_strip in H1. }
  assert (Elines : lines = table_line header
                           :: table_line (repeat (lit "---") (length header))
                           :: map table_line data') by reflexivity.
  assert (Hparse : _parse_table lines = Some (mkTable (header :: data'))).
  { apply parse_table_lines; [exact Hne| |].
    - eapply Forall_impl; [|exact Hh]. apply bare_cell_ok.
    - eapply Forall_impl; [|exact Hd']. intros r [Hr Hc]. split; [exact Hr|].
      eapply Forall_impl; [|exact Hc]. apply bare_cell_ok. }
  assert (Hstrip : map strip lines = lines).
  { rewrite <- (map_id lines) at 2. apply map_ext_in. intros l Hl.
    rewrite Forall_forall in Hkind. now apply Hkind. }
  assert (Hspan : span is_table_line lines = (lines, [])).
  { rewrite <- (app_nil_r lines) at 1. apply span_all; [|exact I].
    eapply Forall_impl; [|exact Hkind]. now intros l [? _]. }
  assert (Htext : strip (join NL lines) = join NL lines).
  { rewrite Elines, join_cons. apply strip_clean.
    - reflexivity.
    - apply clean_end_lines.
      eapply Forall_impl; [|exact Hkind].
      now intros l (_ & _ & _ & ? & ?). }
  assert (Hsplit : split "010" (join NL lines) = lines).
  { rewrite Elines, join_cons. apply split_join.
    eapply Forall_impl; [|exact Hkind]. now intros l (_ & _ & ? & _). }
  unfold _parse_extracted_content. cbv zeta. rewrite Htext.
  destruct (join NL lines) as [|c s] eqn:Ej.
  { rewrite Elines, join_cons in Ej. discriminate. }
  rewrite Hsplit. destruct fuel as [|[|fuel]]; [lia | lia |].
  rewrite Elines at 1. cbn [parse_content_loop].
  destruct (table_line_kind header) as (_ & -> & -> & _).
  rewrite <- Elines, Hspan, Hstrip, Hparse. reflexivity.
Qed.

End TableRoundTrip.

Lemma render_table_round_trip_witness :
  MarkdownConverter._parse_extracted_content 2
    (MarkdownConverter._render_table
       (mkTable [[lit "k"; lit "v"]; [lit "a"]; [lit "b"; lit "c"; lit "d"]]))
  = Ok (mkExtractedContent [] [] []
          [mkTable [[lit "k"; lit "v"]; [lit "a"; []]; [lit "b"; lit "c"]]] []).
Proof.
  apply (@render_table_round_trip 2 [lit "k"; lit "v"]
           [[lit "a"]; [lit "b"; lit "c"; lit "d"]]).
  - discriminate.
  - repeat constructor; cbn; intuition discriminate.
  - repeat constructor; cbn; intuition discriminate.
  - lia.
Defined.

(* ================================================================= *)
(** * What a run returns and what it raises *)

Section PipelineOutcome.

Import PDFProcessor.

Variable Page Image : Type.
Variable pdf_path : str.
Variable path_exists : bool.
Variable fitz_open : attempt Z.
Variable load_page : Z -> attempt Page.
Variable classify : Page -> attempt PageClassification.
Variable extract : Page -> attempt ExtractedContent.
Variable _render_page_to_image : Page -> attempt Image.
Variable ocr_page : Image -> attempt OCRResult.
Variable format_2f : Q -> str.
Variable start_time end_time : Q.
Variable config : ProcessingConfig.

Abbreviation process' :=
  (process pdf_path path_exists fitz_open load_page classify extract
           _render_page_to_image ocr_page format_2f start_time end_time config).
Abbreviation delta :=
  (page_delta load_page classify extract _render_page_to_image ocr_page
              format_2f config).
Abbreviation run :=
  (run_pages load_page classify extract _render_page_to_image ocr_page
             format_2f config).

(** A page whose OCR confidence is below the threshold of the run. *)
Definition low_confidence (threshold : Q) (p : PageContent) : bool :=
  match ocr_confidence p with
  | Some c => Qltb c threshold
  | None => false
  end.

(** Only the pages of native text have no OCR confidence. *)
Definition confidence_by_class (p : PageContent) : Prop :=
  classification p = NATIVE_TEXT <-> ocr_confidence p = None.

Definition low_pages (s : run_state) : Z :=
  Z.of_nat (length (filter (low_confidence (ocr_threshold config)) (st_pages s))).

(** What one page index adds to the run. *)
Lemma page_delta_shape i :
  Forall (fun p => confidence_by_class p /\ page_number p = i + 1)
         (st_pages (delta i))
  /\ Z.of_nat (length (st_warnings (delta i)))
     = st_pages_skipped (delta i) + low_pages (delta i).
Proof.
  unfold page_delta, page_step, try_page, low_pages, confidence_by_class.
  destruct (load_page i) as [page|e]; [|split; [constructor | reflexivity]].
  destruct (classify page) as [c|e]; [|split; [constructor | reflexivity]].
  destruct (extract_page_content _ _ _ _ _) as [ct|e];
    [|split; [constructor | reflexivity]].
  assert (Hocr : forall c', c' <> NATIVE_TEXT ->
            let r :=
              match _render_page_to_image page with
              | Raised e => (empty_state, Some e)
              | Returned image =>
                  match ocr_page image with
                  | Raised e => (empty_state, Some e)
                  | Returned ocr_result =>
                      (add_page
                         (mkPageContent (i + 1) c' ct
                                        (Some (confidence ocr_result)))
                         (if Qltb (confidence ocr_result) (ocr_threshold config)
                          then add_warning
                                 (low_confidence_warning format_2f i
                                    (confidence ocr_result)) empty_state
                          else empty_state), None)
                  end
              end in
            let d := match r with
                     | (s', None) => s'
                     | (s', Some exc) =>
                         skip_page (add_warning (unreadable_warning i exc) s')
                     end in
            Forall (fun p => (classification p = NATIVE_TEXT
                              <-> ocr_confidence p = None)
                             /\ page_number p = i + 1) (st_pages d)
            /\ Z.of_nat (length (st_warnings d))
               = st_pages_skipped d
                 + Z.of_nat (length (filter (low_confidence (ocr_threshold config))
                                            (st_pages d)))).
  { intros c' Hc'. cbv zeta.
    destruct (_render_page_to_image page) as [img|e];
      [|split; [constructor | reflexivity]].
    destruct (ocr_page img) as [o|e]; [|split; [constructor | reflexivity]].
    unfold low_confidence.
    destruct (Qltb (confidence o) (ocr_threshold config)) eqn:E; cbn;
      rewrite E; (split; [|reflexivity]);
      (constructor; [|constructor]); (split; [|reflexivity]);
      split; [contradiction | discriminate | contradiction | discriminate]. }
  destruct c.
  - cbn. split; [|reflexivity]. constructor; [|constructor].
    split; [|reflexivity]. split; reflexivity.
  - apply Hocr. discriminate.
  - apply Hocr. discriminate.
Qed.

Lemma py_range_sorted a b : StronglySorted Z.lt (py_range a b).
Proof.
  remember (Z.to_nat (b - a)) as n eqn:En. revert a En.
  induction n as [|n IH]; intros a En.
  - rewrite py_range_nil by lia. constructor.
  - rewrite py_range_cons by lia. constructor; [apply IH; lia|].
    apply Forall_forall. intros i Hi. apply py_range_In in Hi. lia.
Qed.

Lemma run_pages_shape idx :
  Forall confidence_by_class (st_pages (run idx))
  /\ Z.of_nat (length (st_warnings (run idx)))
     = st_pages_skipped (run idx) + low_pages (run idx)
  /\ (StronglySorted Z.lt idx ->
      StronglySorted Z.lt (map page_number (st_pages (run idx)))).
Proof.
  induction idx as [|i idx (IH1 & IH2 & IH3)].
  { split; [constructor|]. split; [reflexivity | constructor]. }
  cbn [run_pages fold_right]. fold (run idx).
  destruct (page_delta_shape i) as [Hd Hw].
  unfold low_pages in *. cbn [combine st_pages st_warnings st_pages_skipped].
  split; [|split].
  - apply Forall_app. split; [|exact IH1].
    eapply Forall_impl; [|exact Hd]. now intros p [Hp _].
  - rewrite filter_app, !length_app, !Nat2Z.inj_add. lia.
  - intros Hs. inversion Hs as [|? ? Hs' Hlt]; subst. specialize (IH3 Hs').
    assert (Hbig : Forall (fun p => i + 1 < page_number p) (st_pages (run idx))).
    { apply Forall_forall. intros p Hp.
      destruct (run_pages_page _ _ _ _ _ _ _ _ _ Hp) as (j & Hj & _ & ->).
      rewrite Forall_forall in Hlt. specialize (Hlt j Hj). lia. }
    rewrite map_app.
    destruct (page_delta_cases load_page classify extract
                _render_page_to_image ocr_page format_2f config i)
      as [(_ & q & lows & E & Hq)|(e & _ & E)]; rewrite E;
      cbn [st_pages map app]; [|exact IH3].
    constructor; [exact IH3|].
    apply Forall_map. eapply Forall_impl; [|exact Hbig].
    intros p Hp. cbn in *. lia.
Qed.

(** A run that returns went through the pages 0, 1, ... of the file. *)
Lemma process_result doc summary :
  (forall n, fitz_open = Returned n -> 0 <= n) ->
  process' = Ok (doc, summary) ->
  exists n,
    path_exists = true /\ fitz_open = Returned n /\ 0 < chunk_size config
    /\ _detect_sections (pages doc) = Ok (sections doc)
    /\ pages doc = st_pages (run (py_range 0 n))
    /\ warnings summary = st_warnings (run (py_range 0 n))
    /\ pages_skipped summary = st_pages_skipped (run (py_range 0 n)).
Proof.
  intros Hlen Hrun.
  assert (Hpre : exists n, path_exists = true /\ fitz_open = Returned n
                           /\ 0 < chunk_size config).
  { revert Hrun. unfold process.
    destruct path_exists; [|discriminate]. cbn [negb].
    destruct fitz_open as [n|e]; [|discriminate].
    unfold ChunkManager.iter_chunks.
    destruct (Z.leb_spec (chunk_size config) 0); [discriminate|].
    intros _. exists n. auto. }
  destruct Hpre as (n & Hex & Hopen & Hc). exists n.
  destruct (process_run pdf_path load_page classify extract
              _render_page_to_image ocr_page format_2f start_time end_time
              config Hex Hopen (Hlen _ Hopen) Hc) as (secs & Hs & Heq).
  rewrite Heq in Hrun. injection Hrun as <- <-. cbn. auto 10.
Qed.

(** X22.  [process] raises in three cases only: the path does not exist
    ([FileNotFoundError]), the file cannot be opened ([RuntimeError]), or
    the chunk size of the configuration is not positive ([ValueError]).
    Whatever is raised while a page is loaded, classified or extracted
    never leaves the call. *)
Theorem process_errors :
  (forall n, fitz_open = Returned n -> 0 <= n) ->
  match process' with
  | Ok _ =>
      path_exists = true /\ 0 < chunk_size config
      /\ exists n, fitz_open = Returned n
  | Raise e =>
      (path_exists = false
       /\ e = FileNotFoundError (lit "File not found: " ++ pdf_path))
      \/ (path_exists = true /\ (exists x, fitz_open = Raised x)
          /\ e = RuntimeError (lit "Not a valid PDF: " ++ pdf_path))
      \/ (path_exists = true /\ (exists n, fitz_open = Returned n)
          /\ chunk_size config <= 0
          /\ e = ValueError (lit "chunk_size must be positive, got "
                               ++ str_of_Z (chunk_size config)))
  | OutOfFuel => False
  end.
Proof.
  intros Hlen.
  destruct path_exists eqn:Hex; [|left; now split].
  destruct fitz_open as [n|x] eqn:Hopen.
  - destruct (Z.leb_spec (chunk_size config) 0) as [Hc|Hc].
    + unfold process, ChunkManager.iter_chunks. cbn [negb].
      destruct (Z.leb_spec (chunk_size config) 0); [|lia]. cbn [bind].
      right. right. split; [reflexivity|]. split; [now exists n|]. now split.
    + destruct (process_run pdf_path load_page classify extract
                  _render_page_to_image ocr_page format_2f start_time end_time
                  config (path_exists := true) (fitz_open := Returned n)
                  eq_refl eq_refl (Hlen n eq_refl) Hc) as (secs & _ & ->).
      split; [reflexivity|]. split; [exact Hc | now exists n].
  - cbn. right. left. split; [reflexivity|]. split; [now exists x | reflexivity].
Qed.

(** X23.  In the document of a run the pages stand in strictly ascending
    order of their numbers, a page has no OCR confidence exactly when it
    is classified as native text, and the sections are those of the
    heading blocks of these pages, in their order. *)
Theorem process_document (doc : Document) (summary : ProcessingSummary) :
  (forall n, fitz_open = Returned n -> 0 <= n) ->
  process' = Ok (doc, summary) ->
  StronglySorted Z.lt (map page_number (pages doc))
  /\ Forall confidence_by_class (pages doc)
  /\ map fields (flat_map preorder (sections doc)) = heading_sections (pages doc).
Proof.
  intros Hlen Hrun.
  destruct (process_result Hlen Hrun) as (n & _ & _ & _ & Hs & Hp & _).
  rewrite Hp in Hs |- *.
  destruct (run_pages_shape (py_range 0 n)) as (H1 & _ & H3).
  split; [apply H3, py_range_sorted|]. split; [exact H1|].
  destruct (built_forest_shape
              (detect_flat_sections_fresh (st_pages (run (py_range 0 n)))))
    as (forest & E & K & _).
  unfold forest_of in E. rewrite <- build_hierarchy_same in E.
  unfold _detect_sections in Hs. rewrite Hs in E. injection E as ->.
  now rewrite K, detect_flat_sections_stable.
Qed.

(** X24.  The warnings of a run are as many as the pages it skipped and
    the pages whose OCR confidence is below the threshold of the
    configuration, taken together. *)
Theorem process_warnings (doc : Document) (summary : ProcessingSummary) :
  (forall n, fitz_open = Returned n -> 0 <= n) ->
  process' = Ok (doc, summary) ->
  Z.of_nat (length (warnings summary))
  = pages_skipped summary
    + Z.of_nat (length (filter (low_confidence (ocr_threshold config))
                               (pages doc))).
Proof.
  intros Hlen Hrun.
  destruct (process_result Hlen Hrun) as (n & _ & _ & _ & _ & Hp & Hw & Hk).
  rewrite Hp, Hw, Hk. apply (run_pages_shape (py_range 0 n)).
Qed.

End PipelineOutcome.

(** A three-page file: the first page is native text with a heading, the
    second cannot be loaded, the third is a scan that is read with
    confidence 0.5. *)
Definition scan_load_page (i : Z) : attempt Z :=
  if i =? 1 then Raised (Exception (lit "broken xref")) else Returned i.

Definition scan_classify (page : Z) : attempt PageClassification :=
  Returned (if page =? 0 then NATIVE_TEXT else SCANNED).

Definition scan_extract (page : Z) : attempt ExtractedContent :=
  Returned (mkExtractedContent (lit "Title") [] [] []
              [mkTextBlock (lit "Title") (0, 0, 0, 0)%Q heading]).

Definition scan_process (config : ProcessingConfig)
  : result (Document * ProcessingSummary) :=
  PDFProcessor.process (lit "scan.pdf") true (Returned 3) scan_load_page
    scan_classify scan_extract
    (fun _ : Z => Returned tt)
    (fun _ : unit => Returned (mkOCRResult (lit "word") (1 # 2) []))
    (fun _ : Q => lit "0.50") 0%Q 1%Q config.

Lemma process_errors_witness :
  match scan_process (mkProcessingConfig 0 (7 # 10) false) with
  | Raise e =>
      e = ValueError (lit "chunk_size must be positive, got " ++ str_of_Z 0)
  | _ => False
  end.
Proof.
  pose proof (@process_errors Z unit (lit "scan.pdf") true (Returned 3)
                scan_load_page scan_classify scan_extract
                (fun _ : Z => Returned tt)
                (fun _ : unit => Returned (mkOCRResult (lit "word") (1 # 2) []))
                (fun _ : Q => lit "0.50") 0%Q 1%Q
                (mkProcessingConfig 0 (7 # 10) false)
                ltac:(intros n [= <-]; lia)) as H.
  fold (scan_process (mkProcessingConfig 0 (7 # 10) false)) in H.
  destruct (scan_process (mkProcessingConfig 0 (7 # 10) false)) as [r|e|].
  - destruct H as (_ & H & _). cbn in H. lia.
  - destruct H as [[H _]|[(_ & [x H] & _)|(_ & _ & _ & H)]];
      [discriminate | discriminate | exact H].
  - exact H.
Defined.

Lemma process_document_witness :
  exists doc summary,
    scan_process (mkProcessingConfig 2 (7 # 10) false) = Ok (doc, summary)
    /\ map page_number (pages doc) = [1; 3]
    /\ StronglySorted Z.lt (map page_number (pages doc))
    /\ map title (sections doc) = [lit "Title"].
Proof.
  eexists. eexists. split; [vm_compute; reflexivity|].
  split; [reflexivity|]. split; [|reflexivity].
  eapply (@process_document Z unit (lit "scan.pdf") true (Returned 3)
            scan_load_page scan_classify scan_extract
            (fun _ : Z => Returned tt)
            (fun _ : unit => Returned (mkOCRResult (lit "word") (1 # 2) []))
            (fun _ : Q => lit "0.50") 0%Q 1%Q
            (mkProcessingConfig 2 (7 # 10) false) _ _).
  - intros n [= <-]. lia.
  - vm_compute. reflexivity.
Defined.

Lemma process_warnings_witness :
  exists doc summary,
    scan_process (mkProcessingConfig 2 (7 # 10) false) = Ok (doc, summary)
    /\ length (warnings summary) = 2%nat
    /\ Z.of_nat (length (warnings summary))
       = pages_skipped summary
         + Z.of_nat (length (filter (low_confidence (7 # 10)) (pages doc))).
Proof.
  eexists. eexists. split; [vm_compute; reflexivity|].
  split; [reflexivity|].
  apply (@process_warnings Z unit (lit "scan.pdf") true (Returned 3)
           scan_load_page scan_classify scan_extract
           (fun _ : Z => Returned tt)
           (fun _ : unit => Returned (mkOCRResult (lit "word") (1 # 2) []))
           (fun _ : Q => lit "0.50") 0%Q 1%Q
           (mkProcessingConfig 2 (7 # 10) false)).
  - intros n [= <-]. lia.
  - vm_compute. reflexivity.
Defined.

(* ================================================================= *)
(** * Text that the parser drops *)

Section LostText.

Import MarkdownConverter.

(** X25.  Text in which no [<] opens anything but a section marker has
    no page marker, and [from_markdown] returns the empty document for
    it: whatever stands outside the pages, section markers included, is
    dropped. *)
Theorem from_markdown_without_pages (fuel : nat) (markdown_str : str) :
  guarded false markdown_str ->
  (length markdown_str < fuel)%nat ->
  from_markdown fuel markdown_str = Ok (mkDocument [] []).
Proof.
  intros Hg Hf. unfold from_markdown.
  destruct (negb (nonempty (strip markdown_str))); [reflexivity|].
  rewrite strip_toc_guarded by (apply guarded_weaken, Hg || exact Hf).
  cbn [bind]. unfold _split_by_pages.
  rewrite <- (app_nil_r markdown_str) at 1.
  rewrite (@re_split_chunk markdown_str [] [] []).
  - reflexivity.
  - exact Hg.
  - intros [|f] Hl; [cbn in Hl; lia | reflexivity].
  - now rewrite app_nil_r.
Qed.

Definition entry_title (e : nat * str * Z * Z) : str := snd (fst (fst e)).

(** The table of contents lists the sections in document order. *)
Lemma toc_entries_titles s :
  forall depth, map entry_title (toc_entries depth s) = map title (preorder s).
Proof.
  induction s as [t l c ps pe subs IH] using section_induction.
  intros depth. cbn [toc_entries preorder map subsections title]. f_equal.
  induction IH as [|x xs Hx _ IHxs]; [reflexivity|].
  cbn [flat_map]. now rewrite !map_app, Hx, IHxs.
Qed.

Lemma collect_toc_titles sections depth :
  map entry_title (_collect_toc_entries sections depth)
  = map title (flat_map preorder sections).
Proof.
  unfold _collect_toc_entries. induction sections as [|s ss IH]; [reflexivity|].
  cbn [flat_map]. now rewrite !map_app, toc_entries_titles, IH.
Qed.

Lemma toc_line_no_lt e :
  forallb not_lt (entry_title e) = true -> forallb not_lt (toc_line e) = true.
Proof.
  destruct e as [[[depth t] ps] pe]. cbn [entry_title fst snd]. intros Ht.
  unfold toc_line. rewrite !forallb_app.
  rewrite repeat_str_all by reflexivity.
  rewrite Ht, (slugify_not_lt _ Ht), !num_not_lt. reflexivity.
Qed.

Lemma toc_lines_no_lt entries :
  Forall (fun e => forallb not_lt (entry_title e) = true) entries ->
  forallb not_lt (tl_join NL (map toc_line entries) ++ NL) = true.
Proof.
  intros H. rewrite forallb_app, andb_true_iff. split; [|reflexivity].
  induction H as [|e es He _ IH]; [reflexivity|].
  cbn [map tl_join flat_map]. rewrite !forallb_app.
  rewrite (toc_line_no_lt _ He). unfold tl_join in IH. now rewrite IH.
Qed.

(** X26.  A document that has sections but no pages is rendered as its
    table of contents alone, and does not come back: when no title holds
    a [<], [from_markdown] returns the empty document for the rendered
    text. *)
Theorem to_markdown_sections_only (fuel : nat) (sections : list DocumentSection) :
  Forall (fun s => forallb not_lt (title s) = true) (flat_map preorder sections) ->
  (length (to_markdown (mkDocument sections [])) < fuel)%nat ->
  from_markdown fuel (to_markdown (mkDocument sections []))
  = Ok (mkDocument [] []).
Proof.
  intros Ht. rewrite to_markdown_unfold. cbv zeta. cbn [flat_map].
  rewrite app_nil_r. unfold _generate_toc.
  assert (He : Forall (fun e => forallb not_lt (entry_title e) = true)
                      (_collect_toc_entries sections 0)).
  { apply Forall_map with (f := entry_title)
                          (P := fun t => forallb not_lt t = true).
    rewrite collect_toc_titles. now apply Forall_map. }
  destruct (_collect_toc_entries sections 0) as [|e es] eqn:E.
  { intros _. destruct fuel; reflexivity. }
  rewrite <- E in *. clear E.
  set (a := tl_join NL (map toc_line (_collect_toc_entries sections 0)) ++ NL).
  assert (Etoc : join NL ([lit "<!-- toc -->"]
                            ++ map toc_line (_collect_toc_entries sections 0)
                            ++ [lit "<!-- /toc -->"])
                 = lit "<!-- toc -->" ++ a ++ lit "<!-- /toc -->").
  { unfold a. cbn [app]. rewrite join_cons, tl_join_app.
    cbn [tl_join flat_map]. now rewrite app_nil_r, <- !app_assoc. }
  rewrite Etoc.
  replace (nonempty (lit "<!-- toc -->" ++ a ++ lit "<!-- /toc -->"))
    with true by reflexivity.
  cbn [join]. rewrite <- !app_assoc. intros Hf.
  unfold from_markdown.
  destruct (negb (nonempty (strip _))); [reflexivity|].
  rewrite <- (app_nil_r NL).
  rewrite strip_toc_block;
    [|now apply toc_lines_no_lt|reflexivity|exact I|exact I|exact Hf].
  destruct fuel as [|f]; [cbn in Hf; lia | reflexivity].
Qed.

End LostText.

Lemma from_markdown_without_pages_witness :
  MarkdownConverter.from_markdown 60
    (lit "<!-- section: A -->" ++ NL ++ lit "# A" ++ NL ++ NL ++ lit "text")
  = Ok (mkDocument [] []).
Proof.
  apply from_markdown_without_pages.
  - cbn. intuition discriminate.
  - cbn. lia.
Defined.

Lemma to_markdown_sections_only_witness :
  MarkdownConverter.to_markdown (mkDocument chapter_forest []) <> []
  /\ MarkdownConverter.from_markdown 400
       (MarkdownConverter.to_markdown (mkDocument chapter_forest []))
     = Ok (mkDocument [] []).
Proof.
  split; [discriminate|].
  apply to_markdown_sections_only.
  - repeat constructor.
  - apply Nat.ltb_lt. vm_compute. reflexivity.
Defined.

(* ================================================================= *)
(** * text_extractor.py: the median font size *)

Section MedianSize.

Import TextExtractor.

(** How many sizes are smaller, and how many are greater. *)
Definition smaller (m : Q) (sizes : list Q) : nat :=
  length (filter (fun x => Qltb x m) sizes).
Definition greater (m : Q) (sizes : list Q) : nat :=
  length (filter (fun x => Qltb m x) sizes).

Lemma insert_sorted_filter (p : Q -> bool) x l :
  length (filter p (insert_sorted x l)) = length (filter p (x :: l)).
Proof.
  induction l as [|y l IH]; [reflexivity|]. cbn [insert_sorted].
  destruct (Qltb x y); [reflexivity|].
  cbn [filter] in *. destruct (p y), (p x); cbn [length] in *; lia.
Qed.

Lemma insert_sorted_In y x l : In y (insert_sorted x l) <-> y = x \/ In y l.
Proof.
  induction l as [|z l IH]; cbn [insert_sorted].
  - cbn. intuition.
  - destruct (Qltb x z); cbn [In] in *; intuition.
Qed.

Lemma insert_sorted_sorted x l :
  StronglySorted Qle l -> StronglySorted Qle (insert_sorted x l).
Proof.
  induction 1 as [|y l Hs IH Hy]; cbn [insert_sorted].
  - repeat constructor.
  - destruct (Qltb x y) eqn:E.
    + apply Qltb_lt in E. constructor; [now constructor|].
      constructor; [now apply Qlt_le_weak|].
      eapply Forall_impl; [|exact Hy]. intros z Hz.
      apply Qle_trans with y; [now apply Qlt_le_weak | exact Hz].
    + apply Qltb_ge in E. constructor; [exact IH|].
      apply Forall_forall. intros z Hz. apply insert_sorted_In in Hz as [->|Hz].
      * exact E.
      * rewrite Forall_forall in Hy. now apply Hy.
Qed.

Lemma fold_insert_sorted l :
  forall acc,
    StronglySorted Qle acc ->
    let r := fold_left (fun sorted x => insert_sorted x sorted) l acc in
    StronglySorted Qle r
    /\ (forall p, length (filter p r) = (length (filter p l) + length (filter p acc))%nat)
    /\ (forall y, In y r <-> In y l \/ In y acc).
Proof.
  induction l as [|x l IH]; intros acc Hacc; cbn [fold_left].
  - split; [exact Hacc|]. split; [reflexivity | cbn; intuition].
  - destruct (IH (insert_sorted x acc) (insert_sorted_sorted x Hacc))
      as (H1 & H2 & H3).
    split; [exact H1|]. split.
    + intros p. rewrite H2, insert_sorted_filter. cbn [filter].
      destruct (p x); cbn [length]; lia.
    + intros y. rewrite H3, insert_sorted_In. cbn [In]. intuition.
Qed.

Lemma sort_spec l :
  StronglySorted Qle (sort l)
  /\ (forall p, length (filter p (sort l)) = length (filter p l))
  /\ (forall y, In y (sort l) <-> In y l)
  /\ length (sort l) = length l.
Proof.
  destruct (@fold_insert_sorted l [] ltac:(constructor)) as (H1 & H2 & H3).
  fold (sort l) in *. split; [exact H1|].
  assert (Hp : forall p, length (filter p (sort l)) = length (filter p l)).
  { intros p. rewrite H2. cbn. lia. }
  split; [exact Hp|]. split.
  - intros y. rewrite H3. cbn. intuition.
  - specialize (Hp (fun _ => true)).
    assert (Hall : forall l0 : list Q, filter (fun _ => true) l0 = l0).
    { induction l0 as [|z l0 IH0]; [reflexivity|]. cbn. now rewrite IH0. }
    now rewrite !Hall in Hp.
Qed.

Lemma filter_none (p : Q -> bool) l :
  Forall (fun x => p x = false) l -> filter p l = [].
Proof.
  induction 1 as [|x l Hx _ IH]; [reflexivity|]. cbn. now rewrite Hx.
Qed.

Lemma sorted_nth l :
  StronglySorted Qle l ->
  forall mid, (mid < length l)%nat ->
    (smaller (nth mid l 0%Q) l <= mid)%nat
    /\ (greater (nth mid l 0%Q) l <= length l - mid - 1)%nat.
Proof.
  unfold smaller, greater.
  induction 1 as [|x l Hs IH Hx]; intros mid Hmid; [cbn in Hmid; lia|].
  destruct mid as [|mid]; cbn [nth length filter].
  - assert (E : Qltb x x = false) by (apply Qltb_ge, Qle_refl). rewrite E.
    rewrite filter_none.
    + pose proof (filter_length_le (fun x0 => Qltb x x0) l). cbn. lia.
    + eapply Forall_impl; [|exact Hx]. intros z Hz. now apply Qltb_ge.
  - cbn [length] in Hmid. destruct (IH mid ltac:(lia)) as [H1 H2].
    assert (Hle : (x <= nth mid l 0)%Q).
    { rewrite Forall_forall in Hx. apply Hx, nth_In. lia. }
    apply Qltb_ge in Hle. rewrite Hle.
    destruct (Qltb x (nth mid l 0%Q)); cbn [length]; lia.
Qed.

(** X27.  The median font size is 12 when the text blocks hold no
    span.  Otherwise it is one of the sizes of the spans, at most half
    of the sizes are smaller than it and fewer than half are greater. *)
Theorem median_font_size_spec (d : TextDict) :
  let sizes := span_sizes d in
  let m := _median_font_size d in
  match sizes with
  | [] => m = 12%Q
  | _ =>
      In m sizes
      /\ (2 * smaller m sizes <= length sizes)%nat
      /\ (2 * greater m sizes < length sizes)%nat
  end.
Proof.
  cbv zeta. unfold _median_font_size.
  destruct (span_sizes d) as [|s0 l] eqn:E; [reflexivity|].
  rewrite <- E. set (sizes := span_sizes d).
  assert (Hn : (0 < length sizes)%nat) by (unfold sizes; rewrite E; cbn; lia).
  destruct (sort_spec sizes) as (Hs & Hp & Hin & Hlen).
  assert (Hmid : (length (sort sizes) / 2 < length (sort sizes))%nat).
  { rewrite Hlen. apply Nat.div_lt; lia. }
  destruct (sorted_nth Hs Hmid) as [Hb Ha].
  unfold smaller, greater in *. rewrite !Hp in *. rewrite Hlen in *.
  pose proof (Nat.div_mod_eq (length sizes) 2) as Hd.
  pose proof (Nat.mod_upper_bound (length sizes) 2 ltac:(lia)) as Hm.
  split; [apply Hin, nth_In; lia|]. split; lia.
Qed.

End MedianSize.

(* ================================================================= *)
(** * text_extractor.py: the blocks of a page *)

Section ExtractedBlocks.

Import TextExtractor.

Variable page : Page.

(** The middle of a box, top to bottom. *)
Definition mid_y (b : BBox) : Q := ((bbox1 b + bbox3 b) / 2)%Q.

Definition in_header_zone (b : TextBlock) : bool :=
  Qltb (mid_y (bbox b)) (rect_height page * _HEADER_ZONE).

Definition in_footer_zone (b : TextBlock) : bool :=
  negb (in_header_zone b)
  && Qltb (rect_height page * _FOOTER_ZONE) (mid_y (bbox b)).

(** The blocks of the dictionary that the loop does not skip. *)
Definition kept (block : Block) : bool :=
  is_text_block block
  && negb (_overlaps_any (block_bbox block) (snd (_extract_tables page)))
  && nonempty (strip (_block_text block)).

Definition block_of (block : Block) : TextBlock :=
  mkTextBlock (strip (_block_text block)) (block_bbox block)
    (_classify_block block (_median_font_size (text_dict page))).

Definition step : extract_state -> Block -> extract_state :=
  extract_step (rect_height page * _HEADER_ZONE) (rect_height page * _FOOTER_ZONE)
               (_median_font_size (text_dict page)) (snd (_extract_tables page)).

Lemma step_kept st block :
  st_blocks (step st block)
  = st_blocks st ++ (if kept block then [block_of block] else [])
  /\ st_headers (step st block)
     = st_headers st
       ++ map text (filter in_header_zone
                           (if kept block then [block_of block] else []))
  /\ st_footers (step st block)
     = st_footers st
       ++ map text (filter in_footer_zone
                           (if kept block then [block_of block] else [])).
Proof.
  unfold step, extract_step, kept.
  destruct (is_text_block block); cbn [negb andb];
    [|now rewrite !app_nil_r].
  destruct (_overlaps_any _ _); cbn [negb andb]; [now rewrite !app_nil_r|].
  destruct (nonempty (strip (_block_text block))); cbn [negb];
    [|now rewrite !app_nil_r].
  cbv zeta. unfold in_footer_zone, in_header_zone, block_of, mid_y.
  cbn [filter bbox].
  destruct (Qltb _ (rect_height page * _HEADER_ZONE)); cbn [negb andb map].
  - cbn [st_blocks st_headers st_footers text]. now rewrite app_nil_r.
  - destruct (Qltb (rect_height page * _FOOTER_ZONE) _);
      cbn [st_blocks st_headers st_footers text map]; now rewrite !app_nil_r.
Qed.

Lemma fold_step blocks :
  forall st,
    let r := fold_left step blocks st in
    st_blocks r = st_blocks st ++ map block_of (filter kept blocks)
    /\ st_headers r
       = st_headers st
         ++ map text (filter in_header_zone (map block_of (filter kept blocks)))
    /\ st_footers r
       = st_footers st
         ++ map text (filter in_footer_zone (map block_of (filter kept blocks))).
Proof.
  induction blocks as [|block blocks IH]; intros st; cbn [fold_left filter].
  - cbn. now rewrite !app_nil_r.
  - destruct (IH (step st block)) as (H1 & H2 & H3).
    destruct (step_kept st block) as (K1 & K2 & K3).
    cbv zeta in *. rewrite H1, H2, H3, K1, K2, K3.
    destruct (kept block); cbn [map filter app];
      rewrite ?app_nil_r, <- ?app_assoc; [|now repeat split].
    destruct (in_header_zone (block_of block)),
             (in_footer_zone (block_of block));
      cbn [map app]; rewrite ?app_nil_r, <- ?app_assoc; now repeat split.
Qed.

Lemma classify_block_types block median_size :
  _classify_block block median_size = heading
  \/ _classify_block block median_size = list_item
  \/ _classify_block block median_size = paragraph.
Proof.
  unfold _classify_block. destruct (first_span_loop _ _); [|auto].
  cbv zeta. destruct (Qltb _ _); [auto|]. destruct (_ && _); [auto|].
  destruct (match lstrip _ with [] => _ | _ => _ end); auto.
Qed.

(** X28.  The blocks that [extract] returns are, in the order of the
    page, the text blocks of the dictionary that do not lie in a table
    and whose text is not blank, each with its box and with its text
    stripped; a block is a heading, a list item or a paragraph.  The
    headers are the texts of the blocks whose middle lies in the top
    tenth of the page and the footers those of the blocks in the bottom
    tenth, so every header and footer is among the blocks as well. *)
Theorem extract_blocks :
  let c := extract page in
  reading_order_blocks c
  = map block_of (filter kept (get (dict_blocks (text_dict page)) []))
  /\ Forall (fun b => text b <> [] /\ strip (text b) = text b
                      /\ (block_type b = heading \/ block_type b = list_item
                          \/ block_type b = paragraph))
            (reading_order_blocks c)
  /\ headers c = map text (filter in_header_zone (reading_order_blocks c))
  /\ footers c = map text (filter in_footer_zone (reading_order_blocks c)).
Proof.
  cbv zeta. unfold extract. cbv zeta.
  destruct (_extract_tables page) as [tables table_rects] eqn:Et.
  cbn [reading_order_blocks headers footers].
  pose proof (fold_step (get (dict_blocks (text_dict page)) [])
                        (mkExtractState [] [] [] [])) as H.
  cbv zeta in H. unfold step in H. rewrite Et in H. cbn [snd] in H.
  destruct H as (H1 & H2 & H3). cbn [st_blocks st_headers st_footers app] in *.
  rewrite H1, H2, H3. split; [reflexivity|]. split; [|now split].
  apply Forall_map, Forall_forall. intros block Hb.
  apply filter_In in Hb as [_ Hk]. unfold kept in Hk.
  apply andb_true_iff in Hk as [_ Hk]. unfold block_of. cbn [text block_type].
  split; [now destruct (strip (_block_text block))|].
  split; [apply strip_strip | apply classify_block_types].
Qed.

End ExtractedBlocks.

(* ================================================================= *)
(** * The indentation of list items *)

Section ListItems.

Import MarkdownConverter.

Lemma min_of_spec xs :
  forall x,
    (min_of x xs <= x)%Q
    /\ Forall (fun y => (min_of x xs <= y)%Q) xs
    /\ (min_of x xs = x \/ In (min_of x xs) xs).
Proof.
  unfold min_of. induction xs as [|y ys IH]; intros x; cbn [fold_left].
  - split; [apply Qle_refl|]. split; [constructor | now left].
  - destruct (IH (if Qltb y x then y else x)) as (H1 & H2 & H3).
    destruct (Qltb y x) eqn:E.
    + apply Qltb_lt in E. split; [|split].
      * apply Qle_trans with y; [exact H1 | now apply Qlt_le_weak].
      * constructor; [exact H1 | exact H2].
      * right. destruct H3 as [->|H3]; [now left | now right].
    + apply Qltb_ge in E. split; [exact H1|]. split.
      * constructor; [now apply Qle_trans with x | exact H2].
      * destruct H3 as [H3|H3]; [now left | right; now right].
Qed.

(** [int(q)] of a number that is at least 0 and less than 1. *)
Lemma int_of_Q_small q : (0 <= q)%Q -> (q < 1)%Q -> int_of_Q q = 0.
Proof.
  unfold Qle, Qlt, int_of_Q. cbn. intros H0 H1.
  apply Z.quot_small. lia.
Qed.

(** The horizontal position of the leftmost item. *)
Definition leftmost (first : TextBlock) (others : list TextBlock) : Q :=
  min_of (bbox0 (bbox first)) (map (fun item => bbox0 (bbox item)) others).

(** The line of an item that lies [offset] right of the leftmost one. *)
Definition nested_line (base_x : Q) (item : TextBlock) : str :=
  repeat_str (lit "  ")
             (Z.to_nat (int_of_Q ((bbox0 (bbox item) - base_x) / 30)))
    ++ lit "- " ++ text item.

Lemma list_item_line_nested base_x item :
  (base_x <= bbox0 (bbox item))%Q ->
  list_item_line base_x item = nested_line base_x item.
Proof.
  intros H. unfold list_item_line, nested_line. cbv zeta.
  destruct (Qltb 15 (bbox0 (bbox item) - base_x)) eqn:E;
    [now rewrite <- app_assoc|].
  apply Qltb_ge in E. rewrite int_of_Q_small.
  - now rewrite <- app_assoc.
  - apply Qle_shift_div_l; [reflexivity|]. lra.
  - apply Qlt_shift_div_r; [reflexivity|]. lra.
Qed.

(** X29.  A run of list items is rendered one item per line.  The line
    of an item is indented by two spaces for every full 30 units that the
    item lies right of the leftmost item of the run, so an item less than
    30 units right of it is not indented; the threshold of 15 units
    changes nothing. *)
Theorem render_list_items_nesting (first : TextBlock) (others : list TextBlock) :
  let base_x := leftmost first others in
  _render_list_items (first :: others)
  = join NL (map (nested_line base_x) (first :: others))
  /\ Forall (fun item => (base_x <= bbox0 (bbox item))%Q) (first :: others)
  /\ Exists (fun item => bbox0 (bbox item) = base_x) (first :: others).
Proof.
  cbv zeta. unfold leftmost.
  destruct (min_of_spec (map (fun item => bbox0 (bbox item)) others)
                        (bbox0 (bbox first))) as (H1 & H2 & H3).
  set (base_x := min_of _ _) in *.
  assert (Hall : Forall (fun item => (base_x <= bbox0 (bbox item))%Q)
                        (first :: others)).
  { constructor; [exact H1|]. rewrite Forall_forall in *. intros item Hin.
    apply H2, in_map_iff. now exists item. }
  split; [|split].
  - unfold _render_list_items. fold base_x. f_equal.
    apply map_ext_in. intros item Hin. apply list_item_line_nested.
    rewrite Forall_forall in Hall. now apply Hall.
  - exact Hall.
  - destruct H3 as [H3|H3].
    + apply Exists_cons_hd. now symmetry.
    + apply Exists_cons_tl. apply in_map_iff in H3 as (item & E & Hin).
      apply Exists_exists. exists item. now split.
Qed.

End ListItems.

(* ================================================================= *)
(** * The sections of a page *)

Section SectionsOnPage.

Import MarkdownConverter.

Lemma find_in_section_filter (n : Z) (s : DocumentSection) :
  find_in_section n s = filter (fun x => page_start x =? n) (preorder s).
Proof.
  induction s as [t l c ps pe subs IH] using section_induction.
  cbn [find_in_section preorder filter subsections page_start].
  assert (E : flat_map (find_in_section n) subs
              = filter (fun x => page_start x =? n) (flat_map preorder subs)).
  { induction IH as [|x xs Hx _ IHxs]; [reflexivity|].
    cbn [flat_map]. now rewrite filter_app, Hx, IHxs. }
  rewrite E. now destruct (ps =? n).
Qed.

(** X30.  [_find_sections_on_page] returns the sections that start on
    the page, whatever their depth and whatever pages they extend over,
    in document order. *)
Theorem find_sections_on_page_spec (sections : list DocumentSection) (n : Z) :
  _find_sections_on_page sections n
  = filter (fun s => page_start s =? n) (flat_map preorder sections).
Proof.
  unfold _find_sections_on_page.
  induction sections as [|s ss IH]; [reflexivity|].
  cbn [flat_map]. now rewrite filter_app, find_in_section_filter, IH.
Qed.

End SectionsOnPage.

(* ================================================================= *)
(** * The body of a parsed page and the lines it comes from *)

Section PageBody.

Import MarkdownConverter.

(** How the main loop of [_parse_extracted_content] takes a line that is
    neither blank nor a line of a table: as a list item, as a heading,
    or as a line of a paragraph. *)
Definition is_item_line (l : str) (indent : nat) (item_text : str) : Prop :=
  is_blank l = false /\ is_table_line l = false
  /\ list_match l = Some (indent, item_text).

Definition is_heading_line (l : str) : Prop :=
  is_blank l = false /\ is_table_line l = false
  /\ list_match l = None /\ heading_match (strip l) <> None.

Definition is_paragraph_line (l : str) : Prop :=
  is_blank l = false /\ is_table_line l = false
  /\ list_match l = None /\ heading_match (strip l) = None.

(** The blocks that the loop makes. *)
Definition item_block_of (indent : nat) (item_text : str) : TextBlock :=
  mkTextBlock item_text
    ((10 + inject_Z (Z.of_nat indent / 2) * 30)%Q, 0, 0, 0)%Q list_item.

Definition heading_block_of (l : str) : TextBlock :=
  mkTextBlock (strip l) default_bbox heading.

Definition paragraph_block_of (ls : list str) : TextBlock :=
  mkTextBlock (join NL (map strip ls)) default_bbox paragraph.

(** No line of a table comes first. *)
Definition off_table (ls : list str) : Prop :=
  match ls with [] => True | l :: _ => is_table_line l = false end.

(** [run] is a run of table lines of [lines] that cannot be extended:
    the line before it and the line after it, if any, are no table
    lines. *)
Definition table_run (lines run : list str) : Prop :=
  exists pre post,
    lines = pre ++ run ++ post /\ run <> []
    /\ Forall (fun l => is_table_line l = true) run
    /\ off_table (rev pre) /\ off_table post.

(** A block that the loop makes of lines of [lines]: of a list item, of
    a heading, or of lines of a paragraph. *)
Definition block_from (lines : list str) (b : TextBlock) : Prop :=
  (exists l indent item_text,
      In l lines /\ is_item_line l indent item_text
      /\ b = item_block_of indent item_text)
  \/ (exists l, In l lines /\ is_heading_line l /\ b = heading_block_of l)
  \/ (exists ls,
        ls <> [] /\ Forall (fun l => In l lines /\ is_paragraph_line l) ls
        /\ b = paragraph_block_of ls).

(** What the blocks and tables of a page keep of its lines, and what
    they are made of. *)
Definition lines_kept (lines : list str) (blocks : list TextBlock)
  (tables : list Table) : Prop :=
  (forall l indent item_text,
      In l lines -> is_item_line l indent item_text ->
      In (item_block_of indent item_text) blocks)
  /\ (forall l, In l lines -> is_heading_line l ->
                In (heading_block_of l) blocks)
  /\ (forall l, In l lines -> is_paragraph_line l ->
                exists ls, In l ls /\ In (paragraph_block_of ls) blocks)
  /\ (forall b, In b blocks -> block_from lines b)
  /\ (forall run, table_run lines run -> (2 <= length run)%nat ->
                  exists tb, _parse_table (map strip run) = Some tb
                             /\ In tb tables)
  /\ (forall tb, In tb tables ->
                 exists run, table_run lines run /\ (2 <= length run)%nat
                             /\ _parse_table (map strip run) = Some tb).

(** ** Lines and their kinds *)

Lemma blank_not_table l : is_blank l = true -> is_table_line l = false.
Proof.
  unfold is_blank, is_table_line. destruct (strip l); [reflexivity | discriminate].
Qed.

Lemma no_prefix_no_item l : list_prefix_match l = false -> list_match l = None.
Proof.
  unfold list_prefix_match, list_match, startswith.
  now destruct (strip_prefix (lit "- ") (lstrip l)).
Qed.

Lemma no_prefix_no_heading s :
  heading_prefix_match s = false -> heading_match s = None.
Proof.
  unfold heading_prefix_match, heading_match. cbv zeta.
  set (n := length (takewhile (Ascii.eqb "#"%char) s)).
  destruct ((1 <=? n) && (n <=? 6))%nat; [|reflexivity]. cbn [andb].
  destruct (dropwhile (Ascii.eqb "#"%char) s) as [|c r]; [reflexivity|].
  cbn [takewhile]. now intros ->.
Qed.

Lemma continues_paragraph_line l :
  continues_paragraph l = true -> is_paragraph_line l.
Proof.
  unfold continues_paragraph. intros H.
  apply andb_true_iff in H as [H H4]. apply andb_true_iff in H as [H H3].
  apply andb_true_iff in H as [H1 H2].
  apply negb_true_iff in H1, H2, H3, H4.
  split; [exact H1|]. split; [exact H2|].
  split; [now apply no_prefix_no_item | now apply no_prefix_no_heading].
Qed.

Lemma span_app (p : str -> bool) lines :
  lines = fst (span p lines) ++ snd (span p lines)
  /\ Forall (fun l => p l = true) (fst (span p lines))
  /\ match snd (span p lines) with [] => True | l :: _ => p l = false end.
Proof.
  induction lines as [|l rest IH]; cbn [span]; [now repeat split|].
  destruct (p l) eqn:E; [|now repeat split].
  destruct (span p rest) as [a b]. cbn [fst snd] in *.
  destruct IH as (H1 & H2 & H3). split; [now rewrite H1 at 1|].
  split; [now constructor | exact H3].
Qed.

Lemma parse_table_some ls :
  (2 <= length ls)%nat -> exists tb, _parse_table ls = Some tb.
Proof.
  intros H. unfold _parse_table.
  destruct (Nat.ltb_spec (length ls) 2); [lia|].
  destruct ls as [|l rest]; [cbn in H; lia|]. cbn [table_rows].
  cbn [Nat.eqb andb]. eexists. reflexivity.
Qed.

Lemma parse_table_length ls tb :
  _parse_table ls = Some tb -> (2 <= length ls)%nat.
Proof.
  unfold _parse_table. destruct (Nat.ltb_spec (length ls) 2); [discriminate|].
  intros _. assumption.
Qed.

(** ** Runs of table lines *)

Lemma off_table_app a b : a <> [] -> off_table (a ++ b) <-> off_table a.
Proof. destruct a; [congruence | reflexivity]. Qed.

Lemma off_table_rev_app a b :
  b <> [] -> off_table (rev (a ++ b)) <-> off_table (rev b).
Proof.
  intros H. rewrite rev_app_distr. apply off_table_app.
  intros E. apply (f_equal (@rev str)) in E. rewrite rev_involutive in E.
  now subst.
Qed.

Lemma off_table_rev_all a :
  Forall (fun l => is_table_line l = false) a -> off_table (rev a).
Proof.
  intros H. apply Forall_rev in H. now destruct H.
Qed.

Lemma table_run_nil run : ~ table_run [] run.
Proof.
  intros (pre & post & E & Hne & _). symmetry in E.
  apply app_eq_nil in E as [_ E]. apply app_eq_nil in E as [E _]. contradiction.
Qed.

Lemma table_run_prefix_intro pre0 rest run :
  Forall (fun l => is_table_line l = false) pre0 ->
  table_run rest run -> table_run (pre0 ++ rest) run.
Proof.
  intros H0 (pre & post & -> & Hne & Hall & Hpre & Hpost).
  exists (pre0 ++ pre), post. rewrite <- app_assoc.
  split; [reflexivity|]. split; [exact Hne|]. split; [exact Hall|].
  split; [|exact Hpost].
  destruct pre as [|x pre'].
  - rewrite app_nil_r. now apply off_table_rev_all.
  - now apply off_table_rev_app.
Qed.

Lemma table_run_prefix_elim pre0 rest run :
  Forall (fun l => is_table_line l = false) pre0 ->
  table_run (pre0 ++ rest) run -> table_run rest run.
Proof.
  induction 1 as [|x pre0 Hx _ IH]; [trivial|].
  intros (pre & post & E & Hne & Hall & Hpre & Hpost). apply IH.
  destruct pre as [|y pre1].
  - destruct run as [|r run']; [contradiction|]. cbn in E.
    injection E as <- _. inversion Hall; congruence.
  - cbn [app] in E. injection E as <- E.
    exists pre1, post. split; [exact E|]. split; [exact Hne|].
    split; [exact Hall|]. split; [|exact Hpost].
    destruct pre1 as [|z pre2]; [exact I|].
    change (x :: z :: pre2) with ([x] ++ z :: pre2) in Hpre.
    now apply off_table_rev_app in Hpre.
Qed.

Lemma table_run_after run0 rest run :
  off_table rest -> table_run rest run -> table_run (run0 ++ rest) run.
Proof.
  intros Hoff (pre & post & -> & Hne & Hall & Hpre & Hpost).
  destruct pre as [|x pre'].
  { destruct run as [|r run']; [contradiction|]. cbn in Hoff.
    inversion Hall; congruence. }
  exists (run0 ++ x :: pre'), post. rewrite <- app_assoc.
  split; [reflexivity|]. split; [exact Hne|]. split; [exact Hall|].
  split; [|exact Hpost]. now apply off_table_rev_app.
Qed.

Lemma run_unique a b c d :
  Forall (fun l => is_table_line l = true) a ->
  Forall (fun l => is_table_line l = true) c ->
  off_table b -> off_table d -> a ++ b = c ++ d -> a = c.
Proof.
  intros Ha. revert c. induction Ha as [|x a Hx _ IH]; intros c Hc Hb Hd E.
  - destruct c as [|y c]; [reflexivity|]. cbn in E. subst b. cbn in Hb.
    inversion Hc; congruence.
  - destruct c as [|y c].
    + cbn in E. subst d. cbn in Hd. congruence.
    + cbn in E. injection E as <- E. f_equal. inversion Hc; subst.
      now apply IH with (c := c).
Qed.

Lemma split_after_run run0 rest :
  Forall (fun l => is_table_line l = true) run0 ->
  forall pre tail,
    pre <> [] -> off_table (rev pre) -> pre ++ tail = run0 ++ rest ->
    exists pre', pre' <> [] /\ pre = run0 ++ pre' /\ rest = pre' ++ tail.
Proof.
  induction 1 as [|x run0 Hx _ IH]; intros pre tail Hne Hoff E.
  - exists pre. now repeat split.
  - destruct pre as [|y pre1]; [contradiction|]. cbn in E.
    injection E as -> E.
    destruct pre1 as [|z pre2]; [cbn in Hoff; congruence|].
    destruct (IH (z :: pre2) tail) as (pre' & H1 & H2 & H3);
      [discriminate| |exact E|].
    + change (x :: z :: pre2) with ([x] ++ z :: pre2) in Hoff.
      now apply off_table_rev_app in Hoff.
    + exists pre'. split; [exact H1|]. split; [now rewrite H2 | exact H3].
Qed.

Lemma table_run_head run0 rest run :
  Forall (fun l => is_table_line l = true) run0 -> off_table rest ->
  table_run (run0 ++ rest) run -> run = run0 \/ table_run rest run.
Proof.
  intros H0 Hoff (pre & post & E & Hne & Hall & Hpre & Hpost).
  destruct pre as [|y pre1].
  - left. cbn in E. symmetry in E. symmetry.
    now apply (@run_unique run0 rest run post).
  - right. symmetry in E.
    destruct (@split_after_run run0 rest H0 (y :: pre1) (run ++ post))
      as (pre' & H1 & H2 & H3); [discriminate | exact Hpre | exact E |].
    exists pre', post. split; [exact H3|]. split; [exact Hne|].
    split; [exact Hall|]. split; [|exact Hpost].
    rewrite H2 in Hpre. now apply off_table_rev_app in Hpre.
Qed.

(** ** What the loop keeps *)

Lemma block_from_incl lines lines' b :
  (forall l, In l lines -> In l lines') ->
  block_from lines b -> block_from lines' b.
Proof.
  intros Hin [(l & i & t & H1 & H2 & H3)|[(l & H1 & H2 & H3)|(ls & H1 & H2 & H3)]].
  - left. exists l, i, t. auto.
  - right. left. exists l. auto.
  - right. right. exists ls. split; [exact H1|]. split; [|exact H3].
    eapply Forall_impl; [|exact H2]. intros x [Hx1 Hx2]. auto.
Qed.

Lemma lines_kept_nil : lines_kept [] [] [].
Proof.
  repeat split; try (intros; contradiction).
  - intros run H. now apply table_run_nil in H.
Qed.

(** Lines that are no table lines, before the lines that follow. *)
Lemma lines_kept_prefix pre0 rest bs0 nb nt :
  Forall (fun l => is_table_line l = false) pre0 ->
  lines_kept rest nb nt ->
  (forall l indent item_text,
      In l pre0 -> is_item_line l indent item_text ->
      In (item_block_of indent item_text) bs0) ->
  (forall l, In l pre0 -> is_heading_line l -> In (heading_block_of l) bs0) ->
  (forall l, In l pre0 -> is_paragraph_line l ->
             exists ls, In l ls /\ In (paragraph_block_of ls) bs0) ->
  (forall b, In b bs0 -> block_from pre0 b) ->
  lines_kept (pre0 ++ rest) (bs0 ++ nb) nt.
Proof.
  intros Hoff (K1 & K2 & K3 & K4 & K5 & K6) P1 P2 P3 P4.
  split; [|split; [|split; [|split; [|split]]]].
  - intros l indent t Hin Hl. apply in_or_app.
    apply in_app_or in Hin as [Hin|Hin]; [left | right]; eauto.
  - intros l Hin Hl. apply in_or_app.
    apply in_app_or in Hin as [Hin|Hin]; [left | right]; eauto.
  - intros l Hin Hl. apply in_app_or in Hin as [Hin|Hin].
    + destruct (P3 l Hin Hl) as (ls & H1 & H2). exists ls.
      split; [exact H1 | apply in_or_app; now left].
    + destruct (K3 l Hin Hl) as (ls & H1 & H2). exists ls.
      split; [exact H1 | apply in_or_app; now right].
  - intros b Hin. apply in_app_or in Hin as [Hin|Hin].
    + apply block_from_incl with pre0; [|now apply P4].
      intros l Hl. apply in_or_app. now left.
    + apply block_from_incl with rest; [|now apply K4].
      intros l Hl. apply in_or_app. now right.
  - intros run Hrun Hlen. apply table_run_prefix_elim in Hrun; [|exact Hoff].
    now apply K5.
  - intros tb Htb. destruct (K6 tb Htb) as (run & H1 & H2 & H3).
    exists run. split; [now apply table_run_prefix_intro|]. now split.
Qed.

(** A run of table lines, before the lines that follow. *)
Lemma lines_kept_run run0 rest nb nt :
  run0 <> [] ->
  Forall (fun l => is_table_line l = true) run0 -> off_table rest ->
  lines_kept rest nb nt ->
  lines_kept (run0 ++ rest) nb
    (match _parse_table (map strip run0) with
     | Some table => [table]
     | None => []
     end ++ nt).
Proof.
  intros Hne Hall Hoff (K1 & K2 & K3 & K4 & K5 & K6).
  assert (Hrun0 : forall l, In l run0 -> is_table_line l = true)
    by (now apply Forall_forall).
  split; [|split; [|split; [|split; [|split]]]].
  - intros l indent t Hin Hl. apply in_app_or in Hin as [Hin|Hin];
      [|now apply (K1 l)].
    destruct Hl as (_ & Hl & _). rewrite (Hrun0 l Hin) in Hl. discriminate.
  - intros l Hin Hl. apply in_app_or in Hin as [Hin|Hin];
      [|now apply K2].
    destruct Hl as (_ & Hl & _). rewrite (Hrun0 l Hin) in Hl. discriminate.
  - intros l Hin Hl. apply in_app_or in Hin as [Hin|Hin];
      [|now apply K3].
    destruct Hl as (_ & Hl & _). rewrite (Hrun0 l Hin) in Hl. discriminate.
  - intros b Hin. apply block_from_incl with rest; [|now apply K4].
    intros l Hl. apply in_or_app. now right.
  - intros run Hrun Hlen.
    apply table_run_head in Hrun as [->|Hrun]; [| |exact Hall|exact Hoff].
    + destruct (@parse_table_some (map strip run0)) as [tb Htb];
        [now rewrite length_map|].
      exists tb. split; [exact Htb|]. rewrite Htb. now left.
    + destruct (K5 run Hrun Hlen) as (tb & H1 & H2). exists tb.
      split; [exact H1 | apply in_or_app; now right].
  - intros tb Htb. apply in_app_or in Htb as [Htb|Htb].
    + destruct (_parse_table (map strip run0)) as [tb0|] eqn:E; [|destruct Htb].
      destruct Htb as [<-|[]]. exists run0. split; [|split; [|exact E]].
      * exists [], rest. now repeat split.
      * apply parse_table_length in E. now rewrite length_map in E.
    + destruct (K6 tb Htb) as (run & H1 & H2 & H3). exists run.
      split; [now apply table_run_after|]. now split.
Qed.

Lemma parse_content_loop_kept :
  forall fuel lines blocks tables r,
    parse_content_loop fuel lines blocks tables = Ok r ->
    exists nb nt, r = (blocks ++ nb, tables ++ nt) /\ lines_kept lines nb nt.
Proof.
  induction fuel as [|fuel IH]; intros lines blocks tables r; [discriminate|].
  cbn [parse_content_loop]. destruct lines as [|line rest].
  { intros [= <-]. exists [], []. rewrite !app_nil_r.
    split; [reflexivity | apply lines_kept_nil]. }
  destruct (is_blank line) eqn:Eblank.
  { intros H. destruct (IH _ _ _ _ H) as (nb & nt & -> & K).
    exists nb, nt. split; [reflexivity|].
    apply (@lines_kept_prefix [line] rest [] nb nt); try exact K.
    - constructor; [now apply blank_not_table | constructor].
    - intros l i t [<-|[]] (Hl & _). congruence.
    - intros l [<-|[]] (Hl & _). congruence.
    - intros l [<-|[]] (Hl & _). congruence.
    - intros b []. }
  destruct (is_table_line line) eqn:Etable.
  { pose proof (span_app is_table_line (line :: rest)) as (E & Hall & Hoff).
    destruct (span is_table_line (line :: rest)) as [run0 rest'] eqn:Es.
    cbn [fst snd] in *. intros H.
    assert (Hne : run0 <> []).
    { intros ->. cbn in E. subst rest'. cbn in Hoff. congruence. }
    destruct (IH _ _ _ _ H) as (nb & nt & -> & K).
    exists nb, (match _parse_table (map strip run0) with
                | Some table => [table]
                | None => []
                end ++ nt).
    split.
    - f_equal. destruct (_parse_table (map strip run0));
        [now rewrite <- app_assoc | reflexivity].
    - rewrite E. now apply lines_kept_run. }
  destruct (list_match line) as [[indent item_text]|] eqn:El.
  { intros H. destruct (IH _ _ _ _ H) as (nb & nt & -> & K).
    exists (item_block_of indent item_text :: nb), nt.
    split; [now rewrite <- app_assoc|].
    apply (@lines_kept_prefix [line] rest [item_block_of indent item_text] nb nt);
      try exact K.
    - constructor; [exact Etable | constructor].
    - intros l i t [<-|[]] (_ & _ & Hl). rewrite El in Hl.
      injection Hl as <- <-. now left.
    - intros l [<-|[]] (_ & _ & Hl & _). congruence.
    - intros l [<-|[]] (_ & _ & Hl & _). congruence.
    - intros b [<-|[]]. left. exists line, indent, item_text.
      split; [now left|]. split; [now repeat split | reflexivity]. }
  destruct (heading_match (strip line)) as [lv|] eqn:Eh.
  { intros H. destruct (IH _ _ _ _ H) as (nb & nt & -> & K).
    exists (heading_block_of line :: nb), nt.
    split; [now rewrite <- app_assoc|].
    apply (@lines_kept_prefix [line] rest [heading_block_of line] nb nt);
      try exact K.
    - constructor; [exact Etable | constructor].
    - intros l i t [<-|[]] (_ & _ & Hl). congruence.
    - intros l [<-|[]] _. now left.
    - intros l [<-|[]] (_ & _ & _ & Hl). congruence.
    - intros b [<-|[]]. right. left. exists line.
      split; [now left|]. split; [|reflexivity].
      split; [exact Eblank|]. split; [exact Etable|]. split; [exact El|].
      congruence. }
  pose proof (span_app continues_paragraph (line :: rest)) as (E & Hall & Hoff).
  destruct (span continues_paragraph (line :: rest)) as [para rest'] eqn:Es.
  cbn [fst snd] in *. intros H.
  destruct para as [|p ps].
  { cbn in E. subst rest'. now apply IH in H. }
  destruct (IH _ _ _ _ H) as (nb & nt & -> & K).
  exists (paragraph_block_of (p :: ps) :: nb), nt.
  split; [now rewrite <- app_assoc|]. rewrite E.
  assert (Hpara : forall l, In l (p :: ps) -> is_paragraph_line l).
  { intros l Hl. apply continues_paragraph_line.
    rewrite Forall_forall in Hall. now apply Hall. }
  apply (@lines_kept_prefix (p :: ps) rest' [paragraph_block_of (p :: ps)] nb nt);
    try exact K.
  - apply Forall_forall. intros l Hl. apply (Hpara l Hl).
  - intros l i t Hl (_ & _ & Hi). destruct (Hpara l Hl) as (_ & _ & Hn & _).
    congruence.
  - intros l Hl (_ & _ & _ & Hh). destruct (Hpara l Hl) as (_ & _ & _ & Hn).
    congruence.
  - intros l Hl _. exists (p :: ps). split; [exact Hl | now left].
  - intros b [<-|[]]. right. right. exists (p :: ps).
    split; [discriminate|]. split; [|reflexivity].
    apply Forall_forall. intros l Hl. split; [exact Hl | now apply Hpara].
Qed.

(** The lines of the text of a page. *)
Definition text_lines (t : str) : list str := split "010" (strip t).

(** What a page keeps of its text: the body is made of the paragraph
    blocks, and the blocks and tables keep the lines. *)
Definition page_kept (t : str) (ec : ExtractedContent) : Prop :=
  body_text ec
  = join NLNL (map text (filter is_paragraph (reading_order_blocks ec)))
  /\ lines_kept (text_lines t) (reading_order_blocks ec) (tables ec).

Lemma parse_extracted_content_kept fuel t ec :
  _parse_extracted_content fuel t = Ok ec -> page_kept t ec.
Proof.
  unfold _parse_extracted_content, page_kept, text_lines. cbv zeta.
  destruct (strip t) as [|c s] eqn:Et.
  { intros [= <-]. split; [reflexivity|]. cbn [reading_order_blocks tables split].
    apply (@lines_kept_prefix [[]] [] [] [] []).
    - now constructor.
    - apply lines_kept_nil.
    - intros l i x [<-|[]] (Hl & _). discriminate Hl.
    - intros l [<-|[]] (Hl & _). discriminate Hl.
    - intros l [<-|[]] (Hl & _). discriminate Hl.
    - intros b []. }
  destruct (parse_content_loop fuel _ [] []) as [r| |] eqn:E; cbn [bind];
    try discriminate.
  destruct (parse_content_loop_kept _ _ _ _ E) as (nb & nt & -> & K).
  cbn [app]. intros [= <-]. cbn [body_text reading_order_blocks tables].
  now split.
Qed.

(** The pages come from the chunks, one for one. *)
Lemma for_each_chunk_pages fuel chunks :
  forall ps objs ps' objs',
    for_each (chunk_step fuel) chunks (ps, objs) = Ok (ps', objs') ->
    exists new,
      ps' = ps ++ new
      /\ Forall2 (fun chunk p =>
                    page_number p = fst chunk
                    /\ page_kept (_strip_section_markers (snd chunk)) (content p))
                 chunks new.
Proof.
  induction chunks as [|[n t] chunks IH]; intros ps objs ps' objs';
    cbn [for_each].
  - intros [= <- _]. exists []. now rewrite app_nil_r.
  - unfold chunk_step at 1.
    destruct (_parse_sections_from_chunk fuel t n) as [[so rt]| |];
      cbn [bind]; try discriminate.
    destruct (_parse_extracted_content fuel _) as [ec| |] eqn:Eec; cbn [bind];
      try discriminate.
    intros H. destruct (IH _ _ _ _ H) as (new & -> & Hnew).
    exists (mkPageContent n NATIVE_TEXT ec None :: new).
    split; [now rewrite <- app_assoc|]. constructor; [|exact Hnew].
    split; [reflexivity|]. now apply parse_extracted_content_kept in Eec.
Qed.

(** C8, amended.  When [from_markdown] returns, its pages are those of
    the page chunks of the text, one for one and in order.  The body text
    of a page is the texts of its paragraph blocks, and of no other block,
    joined by two line feeds.  Of the lines of the page text, without its
    section markers, every list item is kept as a list-item block and
    every heading as a heading block; every other line that is neither
    blank nor a line of a table is kept as a line of a paragraph block.
    The blocks are made of nothing else, so a paragraph block, and with
    it the body text, holds no heading, no list item and no line of a
    table.  A run of two or more lines of a table is kept as a table; a
    run of a single such line is kept nowhere, since every table comes
    from a run of at least two lines and no block comes from a line of a
    table. *)
Theorem from_markdown_body_text (fuel : nat) (s : str) (d : Document) :
  from_markdown fuel s = Ok d ->
  (nonempty (strip s) = false /\ pages d = [])
  \/ exists without_toc chunks,
      _strip_toc fuel s = Ok without_toc
      /\ _split_by_pages fuel without_toc = Ok chunks
      /\ Forall2 (fun chunk p =>
                    page_number p = fst chunk
                    /\ page_kept (_strip_section_markers (snd chunk)) (content p))
                 chunks (pages d).
Proof.
  unfold from_markdown.
  destruct (nonempty (strip s)) eqn:Eblank; cbn [negb].
  2: { intros [= <-]. left. split; reflexivity. }
  destruct (_strip_toc fuel s) as [c| |] eqn:Etoc; cbn [bind];
    try discriminate.
  destruct (_split_by_pages fuel c) as [chunks| |] eqn:Esplit; cbn [bind];
    try discriminate.
  destruct (for_each _ chunks _) as [[ps objs]| |] eqn:E; cbn [bind];
    try discriminate.
  destruct (for_each_chunk_pages _ _ _ _ E) as (new & -> & Hnew).
  destruct (_build_section_hierarchy objs _) as [h root].
  destruct (read_forest h root); cbn [bind]; try discriminate.
  intros [= <-]. right. exists c, chunks. cbn [pages app].
  split; [reflexivity|]. split; [exact Esplit | exact Hnew].
Qed.

End PageBody.

(** A page with a heading, a list item, a line of text, a table line on
    its own, and a table of three lines. *)
Definition body_markdown : str :=
  lit "<!-- page: 4 -->" ++ NL ++ lit "# Title" ++ NL ++ lit "- item" ++ NL
    ++ lit "text" ++ NL ++ lit "| lone |" ++ NL ++ NL
    ++ lit "| a | b |" ++ NL ++ lit "| --- | --- |" ++ NL ++ lit "| c | d |".

Lemma from_markdown_body_text_witness :
  exists d p,
    MarkdownConverter.from_markdown 200 body_markdown = Ok d
    /\ pages d = [p]
    /\ body_text (content p) = lit "text"
    /\ map text (reading_order_blocks (content p))
       = [lit "# Title"; lit "item"; lit "text"]
    /\ tables (content p) = [mkTable [[lit "a"; lit "b"]; [lit "c"; lit "d"]]]
    /\ exists without_toc chunks,
        MarkdownConverter._strip_toc 200 body_markdown = Ok without_toc
        /\ MarkdownConverter._split_by_pages 200 without_toc = Ok chunks
        /\ Forall2 (fun chunk q =>
                      page_number q = fst chunk
                      /\ page_kept
                           (MarkdownConverter._strip_section_markers (snd chunk))
                           (content q))
                   chunks (pages d).
Proof.
  eexists. eexists. split; [vm_compute; reflexivity|].
  split; [reflexivity|]. split; [reflexivity|]. split; [reflexivity|].
  split; [reflexivity|].
  destruct (@from_markdown_body_text 200 body_markdown _
              ltac:(vm_compute; reflexivity)) as [[Hblank _]|H].
  - vm_compute in Hblank. discriminate Hblank.
  - exact H.
Defined.
